(** * LevelDB storage core: a shallow embedding and its verified properties

    The development follows the layout of the C++ sources:
    - [util/coding.cc], [util/coding.h]   : fixed-width and varint codecs
    - [table/format.cc]                   : BlockHandle and Footer
    - [db/dbformat.cc], [util/comparator.cc], [include/leveldb/slice.h]
                                          : key comparators, lookup keys
    - [db/skiplist.h], [db/memtable.cc]   : the memtable
    - [table/block_builder.cc]            : prefix-compressed blocks
    - [db/log_writer.cc], [db/log_reader.cc] : the write-ahead log
    - [util/cache.cc]                     : one shard of the LRU cache

    Byte strings ([Slice], [std::string], [char*] buffers) are lists of
    bytes; unsigned machine integers are [Z] with the wrap-around written
    out where the C++ type imposes one. *)

From Stdlib Require Import ZArith List Bool Lia Strings.Byte Strings.String.
From Stdlib Require Import DecimalString.
From stdpp Require Import base option list gmap.

Open Scope Z_scope.

(** ** Bytes and machine integers *)

Definition byte_to_Z (b : byte) : Z := Z.of_N (Byte.to_N b).

(** [static_cast<char>(z)] / storing into an [unsigned char]: keep the low
    eight bits. *)
Definition Z_to_byte (z : Z) : byte :=
  match Byte.of_N (Z.to_N (z mod 256)) with
  | Some b => b
  | None => x00
  end.

Definition u32 (z : Z) : Z := z mod 2 ^ 32.
Definition u64 (z : Z) : Z := z mod 2 ^ 64.

(** [Slice::size()] / [std::string::size()]. *)
Definition size_of (s : list byte) : Z := Z.of_nat (length s).

(** [p + n] on a [const char*]: the bytes from offset [n] on. *)
Definition advance (n : Z) (p : list byte) : list byte := drop (Z.to_nat n) p.

(** [Slice(p, n)]: the first [n] bytes at [p]. *)
Definition Slice (p : list byte) (n : Z) : list byte := take (Z.to_nat n) p.

(** [p[i]] read as an [unsigned char]; reading past the end of the modelled
    buffer yields 0 (the C++ callers never do so). *)
Definition byte_at (p : list byte) (i : nat) : Z := byte_to_Z (nth i p x00).

(** ** util/coding.cc *)

Module Coding.

Definition EncodeFixed32 (value : Z) : list byte :=
  [ Z_to_byte (Z.land value 255);
    Z_to_byte (Z.land (Z.shiftr value 8) 255);
    Z_to_byte (Z.land (Z.shiftr value 16) 255);
    Z_to_byte (Z.land (Z.shiftr value 24) 255) ].

Definition EncodeFixed64 (value : Z) : list byte :=
  [ Z_to_byte (Z.land value 255);
    Z_to_byte (Z.land (Z.shiftr value 8) 255);
    Z_to_byte (Z.land (Z.shiftr value 16) 255);
    Z_to_byte (Z.land (Z.shiftr value 24) 255);
    Z_to_byte (Z.land (Z.shiftr value 32) 255);
    Z_to_byte (Z.land (Z.shiftr value 40) 255);
    Z_to_byte (Z.land (Z.shiftr value 48) 255);
    Z_to_byte (Z.land (Z.shiftr value 56) 255) ].

Definition PutFixed32 (dst : list byte) (value : Z) : list byte :=
  dst ++ EncodeFixed32 value.

Definition PutFixed64 (dst : list byte) (value : Z) : list byte :=
  dst ++ EncodeFixed64 value.

Definition DecodeFixed32 (ptr : list byte) : Z :=
  Z.lor (Z.lor (Z.lor (byte_at ptr 0)
                      (Z.shiftl (byte_at ptr 1) 8))
               (Z.shiftl (byte_at ptr 2) 16))
        (Z.shiftl (byte_at ptr 3) 24).

Definition DecodeFixed64 (ptr : list byte) : Z :=
  let lo := DecodeFixed32 ptr in
  let hi := DecodeFixed32 (advance 4 ptr) in
  Z.lor (Z.shiftl hi 32) lo.

(** [EncodeVarint32]: the bytes written at [dst]; [v] is a [uint32_t]. *)
Definition EncodeVarint32 (v : Z) : list byte :=
  let B := 128 in
  if v <? Z.shiftl 1 7 then
    [ Z_to_byte v ]
  else if v <? Z.shiftl 1 14 then
    [ Z_to_byte (Z.lor v B); Z_to_byte (Z.shiftr v 7) ]
  else if v <? Z.shiftl 1 21 then
    [ Z_to_byte (Z.lor v B); Z_to_byte (Z.lor (Z.shiftr v 7) B);
      Z_to_byte (Z.shiftr v 14) ]
  else if v <? Z.shiftl 1 28 then
    [ Z_to_byte (Z.lor v B); Z_to_byte (Z.lor (Z.shiftr v 7) B);
      Z_to_byte (Z.lor (Z.shiftr v 14) B); Z_to_byte (Z.shiftr v 21) ]
  else
    [ Z_to_byte (Z.lor v B); Z_to_byte (Z.lor (Z.shiftr v 7) B);
      Z_to_byte (Z.lor (Z.shiftr v 14) B); Z_to_byte (Z.lor (Z.shiftr v 21) B);
      Z_to_byte (Z.shiftr v 28) ].

Definition PutVarint32 (dst : list byte) (v : Z) : list byte :=
  dst ++ EncodeVarint32 (u32 v).

(** [EncodeVarint64]: [while (v >= B) { emit (v & (B-1)) | B; v >>= 7 }] then
    the last byte.  A [uint64_t] leaves the loop after at most nine rounds,
    which is the recursion budget [EncodeVarint64] starts from. *)
Fixpoint EncodeVarint64_loop (rounds : nat) (v : Z) : list byte :=
  match rounds with
  | O => [ Z_to_byte v ]
  | S rounds' =>
      if 128 <=? v then
        Z_to_byte (Z.lor (Z.land v 127) 128)
          :: EncodeVarint64_loop rounds' (Z.shiftr v 7)
      else [ Z_to_byte v ]
  end.

Definition EncodeVarint64 (v : Z) : list byte := EncodeVarint64_loop 9 v.

Definition PutVarint64 (dst : list byte) (v : Z) : list byte :=
  dst ++ EncodeVarint64 (u64 v).

Definition PutLengthPrefixedSlice (dst value : list byte) : list byte :=
  PutVarint32 dst (size_of value) ++ value.

(** [VarintLength]: same loop shape as [EncodeVarint64]. *)
Fixpoint VarintLength_loop (rounds : nat) (v : Z) (len : Z) : Z :=
  match rounds with
  | O => len
  | S rounds' =>
      if 128 <=? v then VarintLength_loop rounds' (Z.shiftr v 7) (len + 1)
      else len
  end.

Definition VarintLength (v : Z) : Z := VarintLength_loop 9 (u64 v) 1.

(** [GetVarint32PtrFallback(p, limit, &value)]: the input is the byte range
    [p, limit); the result is [None] for [NULL], else the value and the
    advanced pointer.  The [for] loop runs for shift = 0, 7, .., 28. *)
Fixpoint GetVarint32PtrFallback_loop (rounds : nat) (shift result : Z)
    (p : list byte) : option (Z * list byte) :=
  match rounds with
  | O => None
  | S rounds' =>
      if shift <=? 28 then
        match p with
        | [] => None
        | b :: p' =>
            let byte := byte_to_Z b in
            if negb (Z.land byte 128 =? 0) then
              GetVarint32PtrFallback_loop rounds' (shift + 7)
                (Z.lor result (u32 (Z.shiftl (Z.land byte 127) shift))) p'
            else
              Some (Z.lor result (u32 (Z.shiftl byte shift)), p')
        end
      else None
  end.

Definition GetVarint32PtrFallback (p : list byte) : option (Z * list byte) :=
  GetVarint32PtrFallback_loop 5 0 0 p.

Definition GetVarint32Ptr (p : list byte) : option (Z * list byte) :=
  match p with
  | b :: p' =>
      let result := byte_to_Z b in
      if Z.land result 128 =? 0 then Some (result, p')
      else GetVarint32PtrFallback p
  | [] => GetVarint32PtrFallback p
  end.

(** [GetVarint32(Slice* input, uint32_t* value)]: [None] for [false]. *)
Definition GetVarint32 (input : list byte) : option (Z * list byte) :=
  GetVarint32Ptr input.

(** [GetVarint64Ptr]: the loop runs for shift = 0, 7, .., 63. *)
Fixpoint GetVarint64Ptr_loop (rounds : nat) (shift result : Z)
    (p : list byte) : option (Z * list byte) :=
  match rounds with
  | O => None
  | S rounds' =>
      if shift <=? 63 then
        match p with
        | [] => None
        | b :: p' =>
            let byte := byte_to_Z b in
            if negb (Z.land byte 128 =? 0) then
              GetVarint64Ptr_loop rounds' (shift + 7)
                (Z.lor result (u64 (Z.shiftl (Z.land byte 127) shift))) p'
            else
              Some (Z.lor result (u64 (Z.shiftl byte shift)), p')
        end
      else None
  end.

Definition GetVarint64Ptr (p : list byte) : option (Z * list byte) :=
  GetVarint64Ptr_loop 10 0 0 p.

Definition GetVarint64 (input : list byte) : option (Z * list byte) :=
  GetVarint64Ptr input.

(** [GetLengthPrefixedSlice(Slice* input, Slice* result)]. *)
Definition GetLengthPrefixedSlice (input : list byte)
    : option (list byte * list byte) :=
  match GetVarint32 input with
  | Some (len, input') =>
      if len <=? size_of input' then Some (Slice input' len, advance len input')
      else None
  | None => None
  end.

End Coding.

(** ** include/leveldb/status.h, util/status.cc *)

Inductive Code : Set :=
  | kOk | kNotFound | kCorruption | kNotSupported | kInvalidArgument | kIOError.

(** A [Status] is OK (null state) or a code with its message. *)
Inductive Status : Set :=
  | OK : Status
  | Error : Code -> string -> Status.

Definition Status_ok (s : Status) : bool :=
  match s with OK => true | Error _ _ => false end.

Definition Status_IsCorruption (s : Status) : bool :=
  match s with Error kCorruption _ => true | _ => false end.

Definition Status_IsNotFound (s : Status) : bool :=
  match s with Error kNotFound _ => true | _ => false end.

(** ** table/format.h, table/format.cc *)

Module Format.
Import Coding.

Record BlockHandle : Set := mkBlockHandle { offset_ : Z; size_ : Z }.

(** [BlockHandle::BlockHandle()]: both fields start as [~uint64_t(0)]. *)
Definition BlockHandle_new : BlockHandle :=
  {| offset_ := 2 ^ 64 - 1; size_ := 2 ^ 64 - 1 |}.

Definition kMaxEncodedLength : Z := 10 + 10.

Definition BlockHandle_EncodeTo (h : BlockHandle) (dst : list byte) : list byte :=
  PutVarint64 (PutVarint64 dst (offset_ h)) (size_ h).

(** [BlockHandle::DecodeFrom(Slice* input)]: returns the status, the handle
    as the call leaves it and the remaining input.  [&&] short-circuits, so a
    failure of the second varint leaves [offset_] already overwritten. *)
Definition BlockHandle_DecodeFrom (h : BlockHandle) (input : list byte)
    : Status * BlockHandle * list byte :=
  match GetVarint64 input with
  | Some (off, input1) =>
      match GetVarint64 input1 with
      | Some (sz, input2) =>
          (OK, {| offset_ := off; size_ := sz |}, input2)
      | None =>
          (Error kCorruption "bad block handle",
           {| offset_ := off; size_ := size_ h |}, input1)
      end
  | None => (Error kCorruption "bad block handle", h, input)
  end.

Record Footer : Set := mkFooter {
  metaindex_handle_ : BlockHandle;
  index_handle_ : BlockHandle
}.

Definition Footer_new : Footer :=
  {| metaindex_handle_ := BlockHandle_new; index_handle_ := BlockHandle_new |}.

Definition kEncodedLength : Z := 2 * kMaxEncodedLength + 8.

Definition kTableMagicNumber : Z := 0xdb4775248b80fb57.

(** [std::string::resize(n)]: truncate, or pad with zero bytes. *)
Definition resize (s : list byte) (n : Z) : list byte :=
  take (Z.to_nat n) s ++ replicate (Z.to_nat n - length s)%nat x00.

Definition Footer_EncodeTo (f : Footer) (dst : list byte) : list byte :=
  let dst := BlockHandle_EncodeTo (metaindex_handle_ f) dst in
  let dst := BlockHandle_EncodeTo (index_handle_ f) dst in
  let dst := resize dst (2 * kMaxEncodedLength) in
  let dst := PutFixed32 dst (u32 (Z.land kTableMagicNumber 0xffffffff)) in
  PutFixed32 dst (u32 (Z.shiftr kTableMagicNumber 32)).

(** [Footer::DecodeFrom(Slice* input)]: status, footer as left by the call,
    remaining input. *)
Definition Footer_DecodeFrom (f : Footer) (input : list byte)
    : Status * Footer * list byte :=
  let magic_ptr := advance (kEncodedLength - 8) input in
  let magic_lo := DecodeFixed32 magic_ptr in
  let magic_hi := DecodeFixed32 (advance 4 magic_ptr) in
  let magic := Z.lor (Z.shiftl magic_hi 32) magic_lo in
  if negb (magic =? kTableMagicNumber) then
    (Error kCorruption "not an sstable (bad magic number)", f, input)
  else
    let '(result, mh, input1) :=
      BlockHandle_DecodeFrom (metaindex_handle_ f) input in
    let f1 := {| metaindex_handle_ := mh; index_handle_ := index_handle_ f |} in
    if Status_ok result then
      let '(result2, ih, input2) :=
        BlockHandle_DecodeFrom (index_handle_ f1) input1 in
      let f2 := {| metaindex_handle_ := mh; index_handle_ := ih |} in
      if Status_ok result2 then
        (result2, f2, advance 8 magic_ptr)
      else (result2, f2, input2)
    else (result, f1, input1).

(** The eight bytes of the magic number as they lie in the file. *)
Definition magic_bytes : list byte :=
  [ x57; xfb; x80; x8b; x24; x75; x47; xdb ].

Definition well_formed_handle (h : BlockHandle) : Prop :=
  0 <= offset_ h < 2 ^ 64 /\ 0 <= size_ h < 2 ^ 64.

Definition well_formed_footer (f : Footer) : Prop :=
  well_formed_handle (metaindex_handle_ f) /\
  well_formed_handle (index_handle_ f).

End Format.


(** ** include/leveldb/slice.h, util/comparator.cc *)

(** [memcmp(a, b, n)] on two buffers holding at least [n] bytes: the sign of
    the first difference, bytes compared as [unsigned char]. *)
Fixpoint memcmp (a b : list byte) (n : nat) : Z :=
  match n with
  | O => 0
  | S n' =>
      match a, b with
      | x :: a', y :: b' =>
          if byte_to_Z x <? byte_to_Z y then -1
          else if byte_to_Z y <? byte_to_Z x then 1
          else memcmp a' b' n'
      | _, _ => 0
      end
  end.

(** [Slice::compare]. *)
Definition Slice_compare (a b : list byte) : Z :=
  let min_len := if size_of a <? size_of b then size_of a else size_of b in
  let r := memcmp a b (Z.to_nat min_len) in
  if r =? 0 then
    if size_of a <? size_of b then -1
    else if size_of b <? size_of a then 1
    else r
  else r.

(** The interface [Comparator], reduced to its three-way [Compare]. *)
Definition Comparator : Type := list byte -> list byte -> Z.

(** [BytewiseComparatorImpl::Compare]. *)
Definition BytewiseComparator : Comparator := Slice_compare.

(** ** db/dbformat.h, db/dbformat.cc *)

Module DBFormat.
Import Coding.

(** Modelled from the spec: [db/dbformat.h] is not among the sources.  The
    value types ({Deletion, Value}, with [ValueForSeek] the numerically
    largest), the 56-bit sequence numbers and the layout
    [user_key ‖ u64_le((sequence << 8) | type)] of an internal key are taken
    from the specification's data model. *)
Inductive ValueType : Set := kTypeDeletion | kTypeValue.

Definition ValueType_to_Z (t : ValueType) : Z :=
  match t with kTypeDeletion => 0 | kTypeValue => 1 end.

Definition kValueTypeForSeek : ValueType := kTypeValue.

Definition kMaxSequenceNumber : Z := Z.shiftl 1 56 - 1.

Record ParsedInternalKey : Set := mkParsedInternalKey {
  user_key : list byte;
  sequence : Z;
  type : ValueType
}.

(** Modelled from the spec: [ExtractUserKey] of [db/dbformat.h], the
    internal key without its eight-byte tag. *)
Definition ExtractUserKey (internal_key : list byte) : list byte :=
  Slice internal_key (size_of internal_key - 8).

(** The tag of an internal key, as [InternalKeyComparator::Compare] and
    [MemTable::Get] read it: [DecodeFixed64(data + size - 8)]. *)
Definition ExtractTag (internal_key : list byte) : Z :=
  DecodeFixed64 (advance (size_of internal_key - 8) internal_key).

(** The sequence number stored in an internal key: the tag without its
    low type byte. *)
Definition ExtractSequence (internal_key : list byte) : Z :=
  Z.shiftr (ExtractTag internal_key) 8.

Definition PackSequenceAndType (seq : Z) (t : ValueType) : Z :=
  u64 (Z.lor (Z.shiftl seq 8) (ValueType_to_Z t)).

Definition AppendInternalKey (result : list byte) (key : ParsedInternalKey)
    : list byte :=
  PutFixed64 (result ++ user_key key)
    (PackSequenceAndType (sequence key) (type key)).

(** [InternalKeyComparator::Compare], over the user comparator it wraps. *)
Definition InternalKeyComparator_Compare (user_comparator_ : Comparator)
    (akey bkey : list byte) : Z :=
  let r := user_comparator_ (ExtractUserKey akey) (ExtractUserKey bkey) in
  if r =? 0 then
    let anum := ExtractTag akey in
    let bnum := ExtractTag bkey in
    if bnum <? anum then -1
    else if anum <? bnum then 1
    else r
  else r.

(** [LookupKey]: the buffer [start_ .. end_) and the offset of [kstart_]. *)
Record LookupKey : Set := mkLookupKey {
  start_ : list byte;
  kstart_ : Z
}.

Definition LookupKey_new (user_key : list byte) (s : Z) : LookupKey :=
  let usize := size_of user_key in
  let klength := EncodeVarint32 (u32 (usize + 8)) in
  {| start_ := klength ++ user_key
                 ++ EncodeFixed64 (PackSequenceAndType s kValueTypeForSeek);
     kstart_ := size_of klength |}.

(** Modelled from the spec: the accessors of [LookupKey] in
    [db/dbformat.h]. *)
Definition memtable_key (k : LookupKey) : list byte := start_ k.

Definition internal_key (k : LookupKey) : list byte :=
  advance (kstart_ k) (start_ k).

Definition LookupKey_user_key (k : LookupKey) : list byte :=
  Slice (advance (kstart_ k) (start_ k))
        (size_of (start_ k) - kstart_ k - 8).

End DBFormat.

(** ** util/comparator.cc: short separators and successors *)

(** The interface [Comparator] with the two methods that shorten keys. *)
Record UserComparator : Type := mkUserComparator {
  cmp_Compare : Comparator;
  cmp_FindShortestSeparator : list byte -> list byte -> list byte;
  cmp_FindShortSuccessor : list byte -> list byte
}.

(** The loop [while (diff_index < min_length &&
    start[diff_index] == limit[diff_index]) diff_index++] over the string
    [start]; it ends within [min_length] rounds. *)
Fixpoint diff_index_loop (rounds : nat) (diff_index min_length : Z)
    (start limit : list byte) : Z :=
  match rounds with
  | O => diff_index
  | S rounds' =>
      if (diff_index <? min_length)
         && (byte_at start (Z.to_nat diff_index)
             =? byte_at limit (Z.to_nat diff_index))
      then diff_index_loop rounds' (diff_index + 1) min_length start limit
      else diff_index
  end.

(** [BytewiseComparatorImpl::FindShortestSeparator(&start, limit)]: the
    string [*start] after the call. *)
Definition BytewiseComparatorImpl_FindShortestSeparator
    (start limit : list byte) : list byte :=
  let min_length :=
    if size_of limit <? size_of start then size_of limit else size_of start in
  let diff_index :=
    diff_index_loop (Z.to_nat min_length) 0 min_length start limit in
  if min_length <=? diff_index then start
  else
    let diff_byte := byte_at start (Z.to_nat diff_index) in
    if (diff_byte <? 255)
       && (diff_byte + 1 <? byte_at limit (Z.to_nat diff_index))
    then
      Format.resize
        (<[Z.to_nat diff_index := Z_to_byte (diff_byte + 1)]> start)
        (diff_index + 1)
    else start.

(** The loop of [FindShortSuccessor], [for (i = 0; i < n; i++)], leaving at
    the first byte that is not 0xff. *)
Fixpoint FindShortSuccessor_loop (rounds : nat) (i n : Z) (key : list byte)
    : list byte :=
  match rounds with
  | O => key
  | S rounds' =>
      if i <? n then
        let byte := byte_at key (Z.to_nat i) in
        if negb (byte =? 255) then
          Format.resize (<[Z.to_nat i := Z_to_byte (byte + 1)]> key) (i + 1)
        else FindShortSuccessor_loop rounds' (i + 1) n key
      else key
  end.

(** [BytewiseComparatorImpl::FindShortSuccessor(&key)]: [*key] after the
    call. *)
Definition BytewiseComparatorImpl_FindShortSuccessor (key : list byte)
    : list byte :=
  FindShortSuccessor_loop (length key) 0 (size_of key) key.

Definition BytewiseComparatorImpl : UserComparator :=
  {| cmp_Compare := BytewiseComparator;
     cmp_FindShortestSeparator := BytewiseComparatorImpl_FindShortestSeparator;
     cmp_FindShortSuccessor := BytewiseComparatorImpl_FindShortSuccessor |}.

(** ** db/dbformat.cc: short internal keys *)

Module InternalKeyComparator.
Import Coding DBFormat.

(** [InternalKeyComparator::FindShortestSeparator(&start, limit)]: [*start]
    after the call. *)
Definition FindShortestSeparator (user_comparator_ : UserComparator)
    (start limit : list byte) : list byte :=
  let user_start := ExtractUserKey start in
  let user_limit := ExtractUserKey limit in
  let tmp := cmp_FindShortestSeparator user_comparator_ user_start user_limit in
  if (size_of tmp <? size_of user_start)
     && (cmp_Compare user_comparator_ user_start tmp <? 0)
  then PutFixed64 tmp (PackSequenceAndType kMaxSequenceNumber kValueTypeForSeek)
  else start.

(** [InternalKeyComparator::FindShortSuccessor(&key)]: [*key] after the
    call. *)
Definition FindShortSuccessor (user_comparator_ : UserComparator)
    (key : list byte) : list byte :=
  let user_key := ExtractUserKey key in
  let tmp := cmp_FindShortSuccessor user_comparator_ user_key in
  if (size_of tmp <? size_of user_key)
     && (cmp_Compare user_comparator_ user_key tmp <? 0)
  then PutFixed64 tmp (PackSequenceAndType kMaxSequenceNumber kValueTypeForSeek)
  else key.

End InternalKeyComparator.

(** ** db/skiplist.h *)

(** Modelled from the spec: [util/random.h] is not among the sources.  A
    generator is the sequence of values its [Next()] will return, together
    with the number of values already drawn; any deterministic generator
    seeded at construction is of this form. *)
Record Random : Type := mkRandom { outputs : nat -> Z; drawn : nat }.

Definition Random_Next (r : Random) : Z * Random :=
  (outputs r (drawn r), {| outputs := outputs r; drawn := S (drawn r) |}).

Module SkipList.

Section WithKey.
Context {Key : Type}.

(** A node: its key and the array [next_] of forward links, one per level
    of the node.  A link is the address of a node or [None] for [NULL]. *)
Record Node : Type := mkNode { key : Key; next_ : list (option nat) }.

(** The list: nodes are never freed, so the memory they occupy is the
    sequence [nodes] of all nodes allocated so far, addressed by position;
    [head_] is the node allocated by the constructor, at address 0. *)
Record SkipList : Type := mkSkipList {
  compare_ : Key -> Key -> Z;
  nodes : list Node;
  max_height_ : nat;
  rnd_ : Random
}.

Definition kMaxHeight : nat := 12.
Definition head_ : nat := 0.

Definition GetMaxHeight (l : SkipList) : nat := max_height_ l.

(** [n->Next(level)].  The outer [option] is [None] when the access is
    outside the memory of the list (no such node, or no such level). *)
Definition Node_Next (l : SkipList) (n level : nat) : option (option nat) :=
  nd ← nodes l !! n; next_ nd !! level.

(** [n->SetNext(level, x)]. *)
Definition Node_SetNext (l : SkipList) (n level : nat) (x : option nat)
    : option SkipList :=
  nd ← nodes l !! n;
  if decide (level < length (next_ nd))%nat then
    Some {| compare_ := compare_ l;
            nodes := <[n := {| key := key nd;
                               next_ := <[level := x]> (next_ nd) |}]> (nodes l);
            max_height_ := max_height_ l;
            rnd_ := rnd_ l |}
  else None.

(** [NewNode(key, height)]: the new node's links are not yet initialised. *)
Definition NewNode (l : SkipList) (k : Key) (height : nat) : nat * SkipList :=
  (length (nodes l),
   {| compare_ := compare_ l;
      nodes := nodes l ++ [ {| key := k; next_ := replicate height None |} ];
      max_height_ := max_height_ l;
      rnd_ := rnd_ l |}).

(** [SkipList(cmp, arena)]: [head_] has [kMaxHeight] null links; the key of
    [head_] is never read ("any key will do"). *)
Definition SkipList_new (cmp : Key -> Key -> Z) (any_key : Key) (rnd : Random)
    : SkipList :=
  {| compare_ := cmp;
     nodes := [ {| key := any_key; next_ := replicate kMaxHeight None |} ];
     max_height_ := 1;
     rnd_ := rnd |}.

(** [RandomHeight]: the loop stops at [kMaxHeight], which bounds the
    recursion. *)
Fixpoint RandomHeight_loop (rounds : nat) (height : nat) (rnd : Random)
    : nat * Random :=
  match rounds with
  | O => (height, rnd)
  | S rounds' =>
      if (height <? kMaxHeight)%nat then
        let '(r, rnd') := Random_Next rnd in
        if u32 r mod 4 =? 0 then RandomHeight_loop rounds' (S height) rnd'
        else (height, rnd')
      else (height, rnd)
  end.

Definition RandomHeight (rnd : Random) : nat * Random :=
  RandomHeight_loop kMaxHeight 1 rnd.

Definition Equal (l : SkipList) (a b : Key) : bool := compare_ l a b =? 0.

(** [KeyIsAfterNode(key, n)]: a null [n] is considered infinite. *)
Definition KeyIsAfterNode (l : SkipList) (k : Key) (n : option nat)
    : option bool :=
  match n with
  | None => Some false
  | Some a => nd ← nodes l !! a; Some (compare_ l (key nd) k <? 0)
  end.

(** [FindGreaterOrEqual(key, prev)].  [prev] is [None] when the caller
    passes [NULL]; otherwise it is the array to fill, whose cells are [None]
    until written.  Every round either moves to the next node of a level or
    descends one level, so [steps] rounds are enough once [steps] exceeds the
    number of nodes plus the height; running out of rounds yields [None]. *)
Fixpoint FindGreaterOrEqual_loop (steps : nat) (l : SkipList) (k : Key)
    (x level : nat) (prev : option (list (option nat)))
    : option (option nat * option (list (option nat))) :=
  match steps with
  | O => None
  | S steps' =>
      next ← Node_Next l x level;
      after ← KeyIsAfterNode l k next;
      if after : bool then
        match next with
        | Some nx => FindGreaterOrEqual_loop steps' l k nx level prev
        | None => None
        end
      else
        let prev := (fun p => <[level := Some x]> p) <$> prev in
        match level with
        | O => Some (next, prev)
        | S level' => FindGreaterOrEqual_loop steps' l k x level' prev
        end
  end.

Definition FindGreaterOrEqual (l : SkipList) (k : Key)
    (prev : option (list (option nat)))
    : option (option nat * option (list (option nat))) :=
  FindGreaterOrEqual_loop (length (nodes l) + kMaxHeight) l k head_
    (GetMaxHeight l - 1) prev.

(** The body of [Insert] once the height of the new node is drawn. *)
Definition Insert_links (l : SkipList) (x height : nat)
    (prev : list (option nat)) : option SkipList :=
  foldl (fun (acc : option SkipList) (i : nat) =>
           l ← acc;
           p ← prev !! i;
           p ← p;
           nx ← Node_Next l p i;
           l ← Node_SetNext l x i nx;
           Node_SetNext l p i (Some x))
        (Some l) (seq 0 height).

(** The rest of [Insert] after [FindGreaterOrEqual] has filled [prev] and
    [RandomHeight] has drawn [height]. *)
Definition Insert_at_height (l : SkipList) (k : Key)
    (prev : list (option nat)) (height : nat) : option SkipList :=
  let '(prev, l) :=
    if (GetMaxHeight l <? height)%nat then
      (foldl (fun p i => <[i := Some head_]> p) prev
             (seq (GetMaxHeight l) (height - GetMaxHeight l)),
       {| compare_ := compare_ l; nodes := nodes l;
          max_height_ := height; rnd_ := rnd_ l |})
    else (prev, l) in
  let '(x, l) := NewNode l k height in
  Insert_links l x height prev.

(** [Insert(key)]. *)
Definition Insert (l : SkipList) (k : Key) : option SkipList :=
  '(_, prev) ← FindGreaterOrEqual l k (Some (replicate kMaxHeight None));
  prev ← prev;
  let '(height, rnd') := RandomHeight (rnd_ l) in
  Insert_at_height
    {| compare_ := compare_ l; nodes := nodes l;
       max_height_ := max_height_ l; rnd_ := rnd' |} k prev height.

(** [Contains(key)]. *)
Definition Contains (l : SkipList) (k : Key) : option bool :=
  '(x, _) ← FindGreaterOrEqual l k None;
  match x with
  | Some a => nd ← nodes l !! a; Some (Equal l k (key nd))
  | None => Some false
  end.

(** [SkipList::Iterator]: the list it ranges over is passed to each
    operation; the iterator itself is the current node. *)
Record Iterator : Type := mkIterator { node_ : option nat }.

Definition Iterator_new : Iterator := {| node_ := None |}.

Definition Iterator_Valid (it : Iterator) : bool :=
  match node_ it with Some _ => true | None => false end.

Definition Iterator_key (l : SkipList) (it : Iterator) : option Key :=
  a ← node_ it; nd ← nodes l !! a; Some (key nd).

Definition Iterator_Next (l : SkipList) (it : Iterator) : option Iterator :=
  a ← node_ it; nx ← Node_Next l a 0; Some {| node_ := nx |}.

Definition Iterator_Seek (l : SkipList) (target : Key) : option Iterator :=
  '(x, _) ← FindGreaterOrEqual l target None; Some {| node_ := x |}.

Definition Iterator_SeekToFirst (l : SkipList) : option Iterator :=
  nx ← Node_Next l head_ 0; Some {| node_ := nx |}.

End WithKey.

Arguments Node : clear implicits.
Arguments SkipList : clear implicits.

End SkipList.

(** ** db/skiplist.h: the list between calls *)

From stdpp Require Import sorting.

Open Scope Z_scope.

Module SkipListState.
Import SkipList.

Section WithKey.
Context {Key : Type}.

(** The number of links of the node at address [a]. *)
Definition height (l : SkipList Key) (a : nat) : nat :=
  match nodes l !! a with
  | Some nd => length (next_ nd)
  | None => 0%nat
  end.

(** Of the nodes [order], those that have a link of level [i]. *)
Definition level (l : SkipList Key) (order : list nat) (i : nat) : list nat :=
  filter (fun a => (i < height l a)%nat) order.

(** The level-[i] links lead from node [x] through the nodes [c], in this
    order, and end there. *)
Fixpoint linked (l : SkipList Key) (i x : nat) (c : list nat) : Prop :=
  match c with
  | [] => Node_Next l x i = Some None
  | y :: c' => Node_Next l x i = Some (Some y) /\ linked l i y c'
  end.

(** The key of node [a] is before the key of node [b]. *)
Definition node_lt (l : SkipList Key) (a b : nat) : Prop :=
  exists na nb,
    nodes l !! a = Some na /\ nodes l !! b = Some nb /\
    compare_ l (key na) (key nb) < 0.

(** The representation invariant of a skip list: [order] lists the nodes
    other than [head_] by increasing key, and on each level the links lead
    from [head_] through the nodes of that level in this order. *)
Record skiplist_inv (l : SkipList Key) (order : list nat) : Prop := {
  inv_head : height l head_ = kMaxHeight;
  inv_order : order ≡ₚ seq 1 (length (nodes l) - 1);
  inv_height :
    forall a, a ∈ order -> (1 <= height l a <= max_height_ l)%nat;
  inv_max_height : (1 <= max_height_ l <= kMaxHeight)%nat;
  inv_sorted : StronglySorted (node_lt l) order;
  inv_linked :
    forall i, (i < kMaxHeight)%nat -> linked l i head_ (level l order i)
}.

(** What the list asks of the comparator: a three-way comparison of a
    total order (keys that compare equal stand for the same position). *)
Record comparator_ok (cmp : Key -> Key -> Z) : Prop := {
  cmp_antisym : forall a b, cmp a b < 0 <-> 0 < cmp b a;
  cmp_trans : forall a b c, cmp a b < 0 -> cmp b c <= 0 -> cmp a c < 0
}.

(** The node at [a] has a key before [k]. *)
Definition is_before (l : SkipList Key) (k : Key) (a : nat) : bool :=
  match nodes l !! a with
  | Some nd => compare_ l (key nd) k <? 0
  | None => false
  end.

(** The nodes of [order] before [k] and those not before it. *)
Definition before (l : SkipList Key) (k : Key) (order : list nat)
    : list nat :=
  filter (fun a => is_before l k a) order.

Definition after (l : SkipList Key) (k : Key) (order : list nat)
    : list nat :=
  filter (fun a => ~ is_before l k a) order.

(** The last node of level [i] before [k], [head_] if there is none: what
    [FindGreaterOrEqual] stores in [prev[i]]. *)
Definition prev_at (l : SkipList Key) (k : Key) (order : list nat) (i : nat)
    : nat :=
  default head_ (last (level l (before l k order) i)).

(** The array [prev] as [FindGreaterOrEqual] fills it from level [lev]
    down. *)
Fixpoint fill_prev (l : SkipList Key) (k : Key) (order : list nat)
    (lev : nat) (prev : list (option nat)) : list (option nat) :=
  let prev := <[lev := Some (prev_at l k order lev)]> prev in
  match lev with
  | O => prev
  | S lev' => fill_prev l k order lev' prev
  end.

(** A sequence of [Insert] calls. *)
Definition InsertAll (l : SkipList Key) (keys : list Key)
    : option (SkipList Key) :=
  foldl (fun acc k => l ← acc; Insert l k) (Some l) keys.

(** The loop [for (; iter.Valid(); iter.Next()) ... iter.key()] of a
    client: the keys it sees.  [None] means that [steps] was too small or
    that the iterator left the list. *)
Fixpoint Iterator_collect (steps : nat) (l : SkipList Key) (it : Iterator)
    : option (list Key) :=
  if Iterator_Valid it then
    match steps with
    | O => None
    | S steps' =>
        k ← Iterator_key l it;
        it' ← Iterator_Next l it;
        ks ← Iterator_collect steps' l it';
        Some (k :: ks)
    end
  else Some [].

(** All keys of the list, from [SeekToFirst] on. *)
Definition Iterator_all (l : SkipList Key) : option (list Key) :=
  it ← Iterator_SeekToFirst l;
  Iterator_collect (length (nodes l)) l it.

End WithKey.

End SkipListState.

(** ** db/skiplist.h: searching backwards *)

Module SkipListBack.
Import SkipList.

Section WithKey.
Context {Key : Type}.

(** [FindLessThan(key)].  The [assert] at the head of the loop is part of
    the model: a violation yields [None], as does running out of [steps]
    or an access outside the list. *)
Fixpoint FindLessThan_loop (steps : nat) (l : SkipList Key) (k : Key)
    (x level : nat) : option nat :=
  match steps with
  | O => None
  | S steps' =>
      nd ← nodes l !! x;
      if negb ((x =? head_)%nat || (compare_ l (key nd) k <? 0)) then None
      else
        next ← Node_Next l x level;
        stop ← match next with
               | None => Some true
               | Some nx =>
                   nn ← nodes l !! nx; Some (0 <=? compare_ l (key nn) k)
               end;
        if stop : bool then
          match level with
          | O => Some x
          | S level' => FindLessThan_loop steps' l k x level'
          end
        else
          match next with
          | Some nx => FindLessThan_loop steps' l k nx level
          | None => None
          end
  end.

Definition FindLessThan (l : SkipList Key) (k : Key) : option nat :=
  FindLessThan_loop (length (nodes l) + kMaxHeight) l k head_
    (GetMaxHeight l - 1).

(** [FindLast()]. *)
Fixpoint FindLast_loop (steps : nat) (l : SkipList Key) (x level : nat)
    : option nat :=
  match steps with
  | O => None
  | S steps' =>
      next ← Node_Next l x level;
      match next with
      | None =>
          match level with
          | O => Some x
          | S level' => FindLast_loop steps' l x level'
          end
      | Some nx => FindLast_loop steps' l nx level
      end
  end.

Definition FindLast (l : SkipList Key) : option nat :=
  FindLast_loop (length (nodes l) + kMaxHeight) l head_ (GetMaxHeight l - 1).

(** [Iterator::Prev()]. *)
Definition Iterator_Prev (l : SkipList Key) (it : Iterator)
    : option Iterator :=
  a ← node_ it;
  nd ← nodes l !! a;
  x ← FindLessThan l (key nd);
  Some {| node_ := if (x =? head_)%nat then None else Some x |}.

(** [Iterator::SeekToLast()]. *)
Definition Iterator_SeekToLast (l : SkipList Key) : option Iterator :=
  x ← FindLast l;
  Some {| node_ := if (x =? head_)%nat then None else Some x |}.

(** The loop [for (; iter.Valid(); iter.Prev()) ... iter.key()]. *)
Fixpoint Iterator_collect_back (steps : nat) (l : SkipList Key)
    (it : Iterator) : option (list Key) :=
  if Iterator_Valid it then
    match steps with
    | O => None
    | S steps' =>
        k ← Iterator_key l it;
        it' ← Iterator_Prev l it;
        ks ← Iterator_collect_back steps' l it';
        Some (k :: ks)
    end
  else Some [].

(** The keys of the nodes [c], in this order. *)
Definition keys_of (l : SkipList Key) (c : list nat) : list Key :=
  omap (fun a => key <$> nodes l !! a) c.

(** No two of [keys] compare equal. *)
Definition distinct (cmp : Key -> Key -> Z) (keys : list Key) : Prop :=
  forall i j ki kj,
    i <> j -> keys !! i = Some ki -> keys !! j = Some kj -> cmp ki kj <> 0.

End WithKey.

End SkipListBack.

(** A comparator and a generator to run the list on: integers in their
    usual order, and the generator that returns 0, 1, 2, ... *)
Definition Z_compare (a b : Z) : Z := a - b.

Definition counting_random : Random :=
  {| outputs := fun n => Z.of_nat n; drawn := 0 |}.

(** ** util/arena.h, util/arena.cc *)

Module Arena.

(** The C++ runtime is not part of the repository.  An address is a
    number; the heap is the list of the arrays [new char[n]]
    has handed out, each with its address and size, and where the next
    array lies is the runtime's choice, a function of the heap and the
    size asked for.  Pointers and [size_t] have 64 bits. *)
Definition Heap : Type := list (Z * Z).

Definition sizeof_pointer : Z := 8.

Record Arena : Type := mkArena {
  alloc_ptr_ : Z;                 (* Allocation state; 0 is NULL *)
  alloc_bytes_remaining_ : Z;
  blocks_ : list Z;               (* Array of new[] allocated memory blocks *)
  memory_usage_ : Z               (* Total memory usage of the arena *)
}.

Definition kBlockSize : Z := 4096.

(** [Arena::Arena()]. *)
Definition Arena_new : Arena :=
  {| alloc_ptr_ := 0; alloc_bytes_remaining_ := 0; blocks_ := [];
     memory_usage_ := 0 |}.

Definition MemoryUsage (a : Arena) : Z := memory_usage_ a.

Section WithRuntime.
(** [new char[n]]: the address of the array, or [None] when the runtime
    has no memory left and throws [std::bad_alloc], which ends the call. *)
Variable operator_new : Heap -> Z -> option Z.

(** [Arena::AllocateNewBlock(block_bytes)]: the pointer returned, the heap
    and the arena after the call. *)
Definition AllocateNewBlock (h : Heap) (a : Arena) (block_bytes : Z)
    : option (Z * Heap * Arena) :=
  result ← operator_new h block_bytes;
  Some (result, h ++ [(result, block_bytes)],
        {| alloc_ptr_ := alloc_ptr_ a;
           alloc_bytes_remaining_ := alloc_bytes_remaining_ a;
           blocks_ := blocks_ a ++ [result];
           memory_usage_ :=
             u64 (MemoryUsage a + block_bytes + sizeof_pointer) |}).

(** [Arena::AllocateFallback(bytes)]. *)
Definition AllocateFallback (h : Heap) (a : Arena) (bytes : Z)
    : option (Z * Heap * Arena) :=
  if kBlockSize / 4 <? bytes then
    (* Object is more than a quarter of our block size.  Allocate it
       separately to avoid wasting too much space in leftover bytes. *)
    AllocateNewBlock h a bytes
  else
    (* We waste the remaining space in the current block. *)
    '(p, h, a) ← AllocateNewBlock h a kBlockSize;
    let result := p in
    Some (result, h,
          {| alloc_ptr_ := p + bytes;
             alloc_bytes_remaining_ := u64 (kBlockSize - bytes);
             blocks_ := blocks_ a;
             memory_usage_ := memory_usage_ a |}).

(** [Arena::Allocate(bytes)]; the assert [bytes > 0] is a precondition. *)
Definition Allocate (h : Heap) (a : Arena) (bytes : Z)
    : option (Z * Heap * Arena) :=
  if bytes <=? alloc_bytes_remaining_ a then
    let result := alloc_ptr_ a in
    Some (result, h,
          {| alloc_ptr_ := alloc_ptr_ a + bytes;
             alloc_bytes_remaining_ := u64 (alloc_bytes_remaining_ a - bytes);
             blocks_ := blocks_ a;
             memory_usage_ := memory_usage_ a |})
  else AllocateFallback h a bytes.

(** [Arena::AllocateAligned(bytes)]; [align] is 8 for pointers of up to
    eight bytes. *)
Definition AllocateAligned (h : Heap) (a : Arena) (bytes : Z)
    : option (Z * Heap * Arena) :=
  let align := if 8 <? sizeof_pointer then sizeof_pointer else 8 in
  let current_mod := Z.land (alloc_ptr_ a) (align - 1) in
  let slop := if current_mod =? 0 then 0 else align - current_mod in
  let needed := u64 (bytes + slop) in
  if needed <=? alloc_bytes_remaining_ a then
    let result := alloc_ptr_ a + slop in
    Some (result, h,
          {| alloc_ptr_ := alloc_ptr_ a + needed;
             alloc_bytes_remaining_ :=
               u64 (alloc_bytes_remaining_ a - needed);
             blocks_ := blocks_ a;
             memory_usage_ := memory_usage_ a |})
  else
    (* AllocateFallback always returned aligned memory *)
    AllocateFallback h a bytes.

(** A request to the arena: [AllocateAligned(bytes)] if [aligned], else
    [Allocate(bytes)]. *)
Record Request : Type := mkRequest { aligned : bool; bytes : Z }.

Definition serve (h : Heap) (a : Arena) (q : Request)
    : option (Z * Heap * Arena) :=
  if aligned q then AllocateAligned h a (bytes q) else Allocate h a (bytes q).

(** A sequence of requests: the pointers returned, and the heap and the
    arena at the end. *)
Fixpoint run (h : Heap) (a : Arena) (qs : list Request)
    : option (list Z * Heap * Arena) :=
  match qs with
  | [] => Some ([], h, a)
  | q :: qs' =>
      '(p, h, a) ← serve h a q;
      '(ps, h, a) ← run h a qs';
      Some (p :: ps, h, a)
  end.

End WithRuntime.

(** Two ranges of addresses, each given by its start and its size, have
    no byte in common. *)
Definition disjoint (r1 r2 : Z * Z) : Prop :=
  r1.1 + r1.2 <= r2.1 \/ r2.1 + r2.2 <= r1.1.

(** The range [r] lies within the range [b]. *)
Definition within (r b : Z * Z) : Prop :=
  b.1 <= r.1 /\ r.1 + r.2 <= b.1 + b.2.

(** What the runtime promises of [new char[n]]: the array lies below
    2^64, apart from all arrays of the heap, at an address that any
    object may have (a multiple of eight, not null). *)
Definition runtime_ok (operator_new : Heap -> Z -> option Z) : Prop :=
  forall h n p, operator_new h n = Some p ->
    0 < p /\ p + n < 2 ^ 64 /\ p mod 8 = 0 /\
    forall b, b ∈ h -> disjoint (p, n) b.

(** The memory a request was given. *)
Definition range (out : Request * Z) : Z * Z := (out.2, bytes out.1).

(** The sizes of the blocks of a heap, with a pointer for each. *)
Definition heap_usage (h : Heap) : Z :=
  foldr (fun b s => b.2 + sizeof_pointer + s) 0 h.

(** The arena between calls: [outs] are the requests served so far, each
    with the pointer returned. *)
Record arena_inv (h : Heap) (a : Arena) (outs : list (Request * Z))
    : Prop := {
  inv_ptr : 0 <= alloc_ptr_ a;
  inv_remaining : 0 <= alloc_bytes_remaining_ a < 2 ^ 64;
  inv_window :
    alloc_bytes_remaining_ a = 0 \/
    exists b, b ∈ h /\
              within (alloc_ptr_ a, alloc_bytes_remaining_ a) b;
  inv_outs_within :
    forall out, out ∈ outs -> exists b, b ∈ h /\ within (range out) b;
  inv_outs_window :
    forall out, out ∈ outs ->
      alloc_bytes_remaining_ a = 0 \/
      disjoint (range out) (alloc_ptr_ a, alloc_bytes_remaining_ a);
  inv_outs_disjoint :
    forall i j oi oj,
      (i < j)%nat -> outs !! i = Some oi -> outs !! j = Some oj ->
      disjoint (range oi) (range oj);
  inv_outs_aligned :
    forall out, out ∈ outs -> aligned out.1 = true -> out.2 mod 8 = 0;
  inv_blocks : blocks_ a = map fst h;
  inv_usage : memory_usage_ a = u64 (heap_usage h)
}.

(** A runtime to try the arena with: arrays one after the other, each at
    the next multiple of eight, in the first megabyte. *)
Definition bump_new (h : Heap) (n : Z) : option Z :=
  let top := foldr (fun b t => Z.max t (b.1 + b.2)) 8 h in
  let p := (top + 7) / 8 * 8 in
  if (0 <=? n) && (p + n <? 2 ^ 20) then Some p else None.

Definition example_requests : list Request :=
  [ {| aligned := false; bytes := 5 |};
    {| aligned := true; bytes := 24 |};
    {| aligned := false; bytes := 2000 |};
    {| aligned := true; bytes := 4000 |};
    {| aligned := false; bytes := 3 |} ].

End Arena.

(** ** db/memtable.cc *)

Module MemTable.
Import Coding DBFormat.

(** [GetLengthPrefixedSlice(const char* data)]: the varint32 length is
    looked for in the five bytes at [data] ("we assume p is not corrupted");
    where C++ would read through a null pointer the model returns the empty
    slice. *)
Definition GetLengthPrefixedSlice (data : list byte) : list byte :=
  match GetVarint32Ptr (Slice data 5) with
  | Some (len, rest) =>
      Slice (advance (size_of (Slice data 5) - size_of rest) data) len
  | None => []
  end.

(** [MemTable::KeyComparator::operator()]. *)
Definition KeyComparator (comparator : Comparator) (aptr bptr : list byte)
    : Z :=
  let a := GetLengthPrefixedSlice aptr in
  let b := GetLengthPrefixedSlice bptr in
  InternalKeyComparator_Compare comparator a b.

(** A memtable: the user comparator inside [comparator_], the reference
    count and the skip list of entries.  An entry is the buffer [Add]
    encodes; the arena only provides its storage. *)
Record MemTable : Type := mkMemTable {
  comparator_ : Comparator;
  refs_ : Z;
  table_ : SkipList.SkipList (list byte)
}.

Definition MemTable_new (cmp : Comparator) (rnd : Random) : MemTable :=
  {| comparator_ := cmp;
     refs_ := 0;
     table_ := SkipList.SkipList_new (KeyComparator cmp) [] rnd |}.

(** The buffer [MemTable::Add] allocates and fills:
    [varint32(internal_key_size) ‖ key ‖ fixed64((s << 8) | type) ‖
     varint32(val_size) ‖ value]. *)
Definition Add_buf (s : Z) (type : ValueType) (key value : list byte)
    : list byte :=
  let key_size := size_of key in
  let val_size := size_of value in
  let internal_key_size := key_size + 8 in
  EncodeVarint32 (u32 internal_key_size)
  ++ key
  ++ EncodeFixed64 (u64 (Z.lor (Z.shiftl s 8) (ValueType_to_Z type)))
  ++ EncodeVarint32 (u32 val_size)
  ++ value.

(** [MemTable::Add(s, type, key, value)]. *)
Definition Add (m : MemTable) (s : Z) (type : ValueType)
    (key value : list byte) : option MemTable :=
  let buf := Add_buf s type key value in
  t ← SkipList.Insert (table_ m) buf;
  Some {| comparator_ := comparator_ m; refs_ := refs_ m; table_ := t |}.

(** The outcome of [MemTable::Get(key, &value, &s)]: the returned flag and
    the contents of [*value] and [*s] after the call. *)
Record GetResult : Type := mkGetResult {
  found : bool;
  value_out : list byte;
  status_out : Status
}.

Definition Get (m : MemTable) (key : LookupKey) (value : list byte)
    (s : Status) : option GetResult :=
  let memkey := memtable_key key in
  iter ← SkipList.Iterator_Seek (table_ m) memkey;
  if SkipList.Iterator_Valid iter then
    entry ← SkipList.Iterator_key (table_ m) iter;
    match GetVarint32Ptr (Slice entry 5) with
    | Some (key_length, rest) =>
        let key_ptr := advance (size_of (Slice entry 5) - size_of rest) entry in
        if comparator_ m (Slice key_ptr (key_length - 8))
                         (LookupKey_user_key key) =? 0 then
          let tag := DecodeFixed64 (advance (key_length - 8) key_ptr) in
          let t := Z.land tag 255 in
          if t =? ValueType_to_Z kTypeValue then
            let v := GetLengthPrefixedSlice (advance key_length key_ptr) in
            Some {| found := true; value_out := v; status_out := s |}
          else if t =? ValueType_to_Z kTypeDeletion then
            Some {| found := true; value_out := value;
                    status_out := Error kNotFound EmptyString |}
          else
            Some {| found := false; value_out := value; status_out := s |}
        else
          Some {| found := false; value_out := value; status_out := s |}
    | None => None
    end
  else
    Some {| found := false; value_out := value; status_out := s |}.

End MemTable.

(** ** db/memtable.cc: the entry buffer and the iterator's accessors *)

Module MemTableIterator.
Import Coding DBFormat.

(** [encoded_len] of [MemTable::Add]: the size of the buffer requested from
    the arena, in [size_t] arithmetic. *)
Definition Add_encoded_len (key value : list byte) : Z :=
  let key_size := size_of key in
  let val_size := size_of value in
  let internal_key_size := u64 (key_size + 8) in
  u64 (VarintLength internal_key_size + internal_key_size
       + VarintLength val_size + val_size).

(** [EncodeKey(&scratch, target)]: the scratch string after the call. *)
Definition EncodeKey (target : list byte) : list byte :=
  PutVarint32 [] (size_of target) ++ target.

(** [MemTableIterator::key()], at the entry the iterator stands on. *)
Definition key (entry : list byte) : list byte :=
  MemTable.GetLengthPrefixedSlice entry.

(** [MemTableIterator::value()]: the length-prefixed slice that starts at
    [key_slice.data() + key_slice.size()]. *)
Definition value (entry : list byte) : list byte :=
  match GetVarint32Ptr (Slice entry 5) with
  | Some (len, rest) =>
      let key_slice_data :=
        advance (size_of (Slice entry 5) - size_of rest) entry in
      MemTable.GetLengthPrefixedSlice (advance len key_slice_data)
  | None => MemTable.GetLengthPrefixedSlice []
  end.

End MemTableIterator.

(** ** db/memtable.cc: a table filled by [Add] *)

Module MemTableUse.
Import DBFormat MemTable.

(** One call [Add(seq, type, key, value)]. *)
Record Write : Type := mkWrite {
  w_seq : Z;
  w_type : ValueType;
  w_key : list byte;
  w_value : list byte
}.

(** A sequence of [Add] calls. *)
Definition AddAll (m : MemTable) (ws : list Write) : option MemTable :=
  foldl (fun acc w =>
           m ← acc; Add m (w_seq w) (w_type w) (w_key w) (w_value w))
        (Some m) ws.

(** The entry [Add] stores for a write. *)
Definition entry (w : Write) : list byte :=
  Add_buf (w_seq w) (w_type w) (w_key w) (w_value w).

(** The writes a sequence number, key and value of which fit the
    encoding: 56 bits, and lengths of 32 bits. *)
Definition fits (w : Write) : Prop :=
  0 <= w_seq w < 2 ^ 56 /\
  size_of (w_key w) + 8 < 2 ^ 32 /\ size_of (w_value w) < 2 ^ 32.

(** A write that a reader of [user_key] at [snapshot] can see. *)
Definition visible (ucmp : Comparator) (user_key : list byte) (snapshot : Z)
    (w : Write) : Prop :=
  ucmp (w_key w) user_key = 0 /\ w_seq w <= snapshot.

(** What [Get] reports for the write it finds. *)
Definition outcome (w : Write) (value : list byte) (s : Status) : GetResult :=
  match w_type w with
  | kTypeValue => {| found := true; value_out := w_value w; status_out := s |}
  | kTypeDeletion =>
      {| found := true; value_out := value;
         status_out := Error kNotFound EmptyString |}
  end.

(** A buffer that starts with a length-prefixed internal key. *)
Definition encoded (k : list byte) (tag : Z) (rest : list byte) : list byte :=
  Coding.EncodeVarint32 (u32 (size_of k + 8))
  ++ k ++ Coding.EncodeFixed64 tag ++ rest.

(** The tag [(seq << 8) | type] of a write, as a number. *)
Definition tag_of (w : Write) : Z :=
  w_seq w * 256 + ValueType_to_Z (w_type w).

(** Three writes to one key: a value, a newer value and, between them, a
    deletion. *)
Definition example_writes : list Write :=
  [ {| w_seq := 1; w_type := kTypeValue; w_key := [x6b]; w_value := [x61] |};
    {| w_seq := 3; w_type := kTypeValue; w_key := [x6b]; w_value := [x62] |};
    {| w_seq := 2; w_type := kTypeDeletion; w_key := [x6b]; w_value := [] |} ].

End MemTableUse.

(** ** db/memtable.cc: MemTableIterator *)

Module MemTableIteration.
Import DBFormat MemTable MemTableUse.

(** A [MemTableIterator] is the skip list iterator [iter_] it wraps; the
    table it ranges over is passed to each operation. *)
Definition Valid (it : SkipList.Iterator) : bool :=
  SkipList.Iterator_Valid it.

Definition Seek (m : MemTable) (k : list byte) : option SkipList.Iterator :=
  SkipList.Iterator_Seek (table_ m) (MemTableIterator.EncodeKey k).

Definition SeekToFirst (m : MemTable) : option SkipList.Iterator :=
  SkipList.Iterator_SeekToFirst (table_ m).

Definition SeekToLast (m : MemTable) : option SkipList.Iterator :=
  SkipListBack.Iterator_SeekToLast (table_ m).

Definition Next (m : MemTable) (it : SkipList.Iterator)
    : option SkipList.Iterator :=
  SkipList.Iterator_Next (table_ m) it.

Definition Prev (m : MemTable) (it : SkipList.Iterator)
    : option SkipList.Iterator :=
  SkipListBack.Iterator_Prev (table_ m) it.

Definition key (m : MemTable) (it : SkipList.Iterator)
    : option (list byte) :=
  MemTableIterator.key <$> SkipList.Iterator_key (table_ m) it.

Definition value (m : MemTable) (it : SkipList.Iterator)
    : option (list byte) :=
  MemTableIterator.value <$> SkipList.Iterator_key (table_ m) it.

(** The loop [for (; iter->Valid(); iter->Next())] of a client that reads
    [iter->key()] and [iter->value()]: the pairs it sees.  [None] means
    that [steps] was too small or that the iterator left the table. *)
Fixpoint collect (steps : nat) (m : MemTable) (it : SkipList.Iterator)
    : option (list (list byte * list byte)) :=
  if Valid it then
    match steps with
    | O => None
    | S steps' =>
        k ← key m it;
        v ← value m it;
        it' ← Next m it;
        kvs ← collect steps' m it';
        Some ((k, v) :: kvs)
    end
  else Some [].

(** The same loop backwards, with [Prev]. *)
Fixpoint collect_back (steps : nat) (m : MemTable) (it : SkipList.Iterator)
    : option (list (list byte * list byte)) :=
  if Valid it then
    match steps with
    | O => None
    | S steps' =>
        k ← key m it;
        v ← value m it;
        it' ← Prev m it;
        kvs ← collect_back steps' m it';
        Some ((k, v) :: kvs)
    end
  else Some [].

(** The internal key and the value of a write, as the iterator shows
    them. *)
Definition shown (w : Write) : list byte * list byte :=
  (w_key w
   ++ Coding.EncodeFixed64
        (PackSequenceAndType (w_seq w) (w_type w)),
   w_value w).

(** The order of the table: by user key, and for one user key by
    decreasing sequence number. *)
Definition write_before (ucmp : Comparator) (w w' : Write) : Prop :=
  ucmp (w_key w) (w_key w') < 0 \/
  (ucmp (w_key w) (w_key w') = 0 /\ w_seq w' < w_seq w).

End MemTableIteration.

(** ** Decidable equality of the result types *)

#[global] Instance byte_eq_dec : EqDecision byte := Byte.byte_eq_dec.
#[global] Instance string_eq_dec : EqDecision string := String.string_dec.
#[global] Instance Code_eq_dec : EqDecision Code.
Proof. solve_decision. Defined.
#[global] Instance Status_eq_dec : EqDecision Status.
Proof. solve_decision. Defined.
#[global] Instance GetResult_eq_dec : EqDecision MemTable.GetResult.
Proof. solve_decision. Defined.

(** The bytes of a string literal. *)
Definition bytes (s : string) : list byte := list_byte_of_string s.

(** [P a b c] for all [a], [b], [c] drawn from [l]. *)
Definition forallb3 (P : nat -> nat -> nat -> bool) (l : list nat) : bool :=
  forallb (fun a => forallb (fun b => forallb (P a b) l) l) l.

(** ** The memtable shadowing scenario *)

Module Shadowing.
Import DBFormat MemTable.

(** [SkipList.Insert] with the outcome of [RandomHeight] given: the height
    drawn and the generator it leaves. *)
Definition Insert_drawn (l : SkipList.SkipList (list byte)) (k : list byte)
    (height : nat) (rnd' : Random) : option (SkipList.SkipList (list byte)) :=
  '(_, prev) ← SkipList.FindGreaterOrEqual l k
                 (Some (replicate SkipList.kMaxHeight None));
  prev ← prev;
  SkipList.Insert_at_height
    {| SkipList.compare_ := SkipList.compare_ l;
       SkipList.nodes := SkipList.nodes l;
       SkipList.max_height_ := SkipList.max_height_ l;
       SkipList.rnd_ := rnd' |} k prev height.

(** What [Get] leaves in [*value] and [*s] is read off its outcome on an
    empty [*value] and an OK [*s]. *)
Definition Get_transport (value : list byte) (s : Status) (r : GetResult)
    : GetResult :=
  if found r then
    if bool_decide (status_out r = OK) then
      {| found := true; value_out := value_out r; status_out := s |}
    else
      {| found := true; value_out := value; status_out := status_out r |}
  else {| found := false; value_out := value; status_out := s |}.

(** The memtable of the scenario, for given outcomes of the three calls of
    [RandomHeight]. *)
Definition scenario_table (rnd : Random) (h1 h2 h3 : nat) (r1 r2 r3 : Random)
    : option MemTable :=
  let m := MemTable_new BytewiseComparator rnd in
  t ← Insert_drawn (table_ m) (Add_buf 10 kTypeValue (bytes "k") (bytes "v1")) h1 r1;
  t ← Insert_drawn t (Add_buf 20 kTypeValue (bytes "k") (bytes "v2")) h2 r2;
  t ← Insert_drawn t (Add_buf 30 kTypeDeletion (bytes "k") []) h3 r3;
  Some {| comparator_ := comparator_ m; refs_ := refs_ m; table_ := t |}.

Definition scenario_gets (m : MemTable) : list (option GetResult) :=
  [ Get m (LookupKey_new (bytes "k") 25) [] OK;
    Get m (LookupKey_new (bytes "k") 35) [] OK;
    Get m (LookupKey_new (bytes "k") 5) [] OK ].

Definition scenario_expected : list (option GetResult) :=
  [ Some {| found := true; value_out := bytes "v2"; status_out := OK |};
    Some {| found := true; value_out := [];
            status_out := Error kNotFound EmptyString |};
    Some {| found := false; value_out := []; status_out := OK |} ].

Definition scenario_ok (rnd r1 r2 r3 : Random) (h1 h2 h3 : nat) : bool :=
  bool_decide (scenario_gets <$> scenario_table rnd h1 h2 h3 r1 r2 r3
               = Some scenario_expected).

End Shadowing.


(** ** table/block_builder.h, table/block_builder.cc *)

Module BlockBuilder.
Import Coding.

(** Modelled from the spec: [include/leveldb/options.h] is not among the
    sources; these are the two fields of [Options] a block builder reads. *)
Record Options : Type := mkOptions {
  comparator : Comparator;
  block_restart_interval : Z
}.

Record BlockBuilder : Type := mkBlockBuilder {
  options_ : Options;
  buffer_ : list byte;        (* destination buffer *)
  restarts_ : list Z;         (* restart points, a vector of uint32_t *)
  counter_ : Z;               (* entries emitted since restart *)
  finished_ : bool;           (* has Finish() been called? *)
  last_key_ : list byte
}.

(** [BlockBuilder::BlockBuilder(options)]: the first restart point is at
    offset 0. *)
Definition BlockBuilder_new (options : Options) : BlockBuilder :=
  {| options_ := options; buffer_ := []; restarts_ := [0]; counter_ := 0;
     finished_ := false; last_key_ := [] |}.

Definition Reset (b : BlockBuilder) : BlockBuilder :=
  {| options_ := options_ b; buffer_ := []; restarts_ := [0]; counter_ := 0;
     finished_ := false; last_key_ := [] |}.

Definition CurrentSizeEstimate (b : BlockBuilder) : Z :=
  size_of (buffer_ b) + Z.of_nat (length (restarts_ b)) * 4 + 4.

(** [Finish()]: the builder after the call and the slice it returns. *)
Definition Finish (b : BlockBuilder) : BlockBuilder * list byte :=
  let buffer := foldl (fun buf r => PutFixed32 buf r) (buffer_ b) (restarts_ b) in
  let buffer := PutFixed32 buffer (u32 (Z.of_nat (length (restarts_ b)))) in
  ({| options_ := options_ b; buffer_ := buffer; restarts_ := restarts_ b;
      counter_ := counter_ b; finished_ := true; last_key_ := last_key_ b |},
   buffer).

(** The loop [while (shared < min_length && last_key_piece[shared] ==
    key[shared]) shared++], started at [shared = 0]. *)
Fixpoint shared_prefix (last_key_piece key : list byte) : Z :=
  match last_key_piece, key with
  | x :: last_key_piece', y :: key' =>
      if bool_decide (x = y) then 1 + shared_prefix last_key_piece' key'
      else 0
  | _, _ => 0
  end.

(** [Add(key, value)].  The C++ asserts (not finished, counter within the
    interval, keys increasing) are preconditions and are not checked here. *)
Definition Add (b : BlockBuilder) (key value : list byte) : BlockBuilder :=
  let last_key_piece := last_key_ b in
  let restart := negb (counter_ b <? block_restart_interval (options_ b)) in
  let shared := if restart then 0 else shared_prefix last_key_piece key in
  let restarts := if restart then restarts_ b ++ [u32 (size_of (buffer_ b))]
                  else restarts_ b in
  let counter := if restart then 0 else counter_ b in
  let non_shared := size_of key - shared in
  let buffer := PutVarint32 (buffer_ b) shared in
  let buffer := PutVarint32 buffer non_shared in
  let buffer := PutVarint32 buffer (size_of value) in
  let buffer := buffer ++ Slice (advance shared key) non_shared in
  let buffer := buffer ++ value in
  let last_key := Format.resize (last_key_ b) shared
                  ++ Slice (advance shared key) non_shared in
  {| options_ := options_ b; buffer_ := buffer; restarts_ := restarts;
     counter_ := counter + 1; finished_ := finished_ b;
     last_key_ := last_key |}.

(** The value of [shared] in a call [Add(key, value)]. *)
Definition Add_shared (b : BlockBuilder) (key : list byte) : Z :=
  if negb (counter_ b <? block_restart_interval (options_ b)) then 0
  else shared_prefix (last_key_ b) key.

(** A sequence of [Add] calls. *)
Definition AddAll (b : BlockBuilder) (kvs : list (list byte * list byte))
    : BlockBuilder :=
  foldl (fun b kv => Add b kv.1 kv.2) b kvs.

(** The bytes [Add] appends for an entry stored with [shared] bytes of its
    key left out. *)
Definition entry_bytes (shared : Z) (key value : list byte) : list byte :=
  EncodeVarint32 (u32 shared)
  ++ EncodeVarint32 (u32 (size_of key - shared))
  ++ EncodeVarint32 (u32 (size_of value))
  ++ Slice (advance shared key) (size_of key - shared)
  ++ value.

(** Modelled from the spec: [table/block.cc] is not among the sources.  A
    block ends with its restart array (fixed32 offsets) followed by the
    fixed32 number of restarts; [NumRestarts] and [GetRestartPoint] read
    them back. *)
Definition NumRestarts (block : list byte) : Z :=
  DecodeFixed32 (advance (size_of block - 4) block).

Definition restart_offset (block : list byte) : Z :=
  size_of block - (1 + NumRestarts block) * 4.

Definition GetRestartPoint (block : list byte) (index : Z) : Z :=
  DecodeFixed32 (advance (restart_offset block + index * 4) block).

Definition restart_array (block : list byte) : list Z :=
  map (fun i => GetRestartPoint block (Z.of_nat i))
      (seq 0 (Z.to_nat (NumRestarts block))).

(** The keys handed to [Add] are strictly increasing under the comparator
    (the third assert of [Add]). *)
Fixpoint keys_increasing (cmp : Comparator) (keys : list (list byte)) : Prop :=
  match keys with
  | k1 :: ((k2 :: _) as rest) => 0 < cmp k2 k1 /\ keys_increasing cmp rest
  | _ => True
  end.

(** Strictly increasing offsets. *)
Fixpoint strictly_increasing (l : list Z) : Prop :=
  match l with
  | a :: ((b :: _) as rest) => a < b /\ strictly_increasing rest
  | _ => True
  end.

(** The entry added by the [j]-th call of the sequence [kvs] starts at
    offset [o] of the block and is stored with [shared = 0], its key in
    full: the bytes before [o] are the buffer as the first [j] calls left
    it, and the bytes from [o] on begin with the encoding of the entry. *)
Definition restart_entry_at (options : Options)
    (kvs : list (list byte * list byte)) (block : list byte) (o : Z)
    (j : nat) : Prop :=
  exists key value post,
    kvs !! j = Some (key, value) /\
    o = size_of (buffer_ (AddAll (BlockBuilder_new options) (take j kvs))) /\
    block = buffer_ (AddAll (BlockBuilder_new options) (take j kvs))
            ++ entry_bytes 0 key value ++ post /\
    (exists rest, GetVarint32Ptr (advance o block) = Some (0, rest)).

(** The invariant of the builder after the calls [kvs]. *)
Record builder_inv (options : Options) (kvs : list (list byte * list byte))
    (b : BlockBuilder) : Prop := {
  inv_fresh : kvs = [] -> restarts_ b = [0] /\ last_key_ b = [] /\ counter_ b = 0;
  inv_counter : kvs <> [] -> 1 <= counter_ b;
  inv_sorted : strictly_increasing (restarts_ b);
  inv_range : forall o, In o (restarts_ b) ->
      0 <= o /\ (kvs <> [] -> o < size_of (buffer_ b));
  inv_entry : kvs <> [] -> forall o, In o (restarts_ b) ->
      exists j, restart_entry_at options kvs (buffer_ b) o j
}.

(** The restart invariant of the block finished after the calls [kvs]: the
    restart array read back from the block is strictly increasing and each
    of its offsets is the start of an entry stored with [shared = 0]. *)
Definition restart_invariant (options : Options)
    (kvs : list (list byte * list byte)) : Prop :=
  let block := (Finish (AddAll (BlockBuilder_new options) kvs)).2 in
  strictly_increasing (restart_array block) /\
  forall o, In o (restart_array block) ->
    exists j, restart_entry_at options kvs block o j.

(** A value of 2^32 - 8 zero bytes: with a one-byte key its entry is
    exactly 2^32 bytes long. *)
Definition huge_value : list byte := replicate (Z.to_nat (2 ^ 32 - 8)) x00.

End BlockBuilder.

(** ** table/filter_block.h, table/filter_block.cc *)

Module FilterBlock.
Import Coding.

(** Modelled from the spec: [include/leveldb/filter_policy.h] is not among
    the sources.  [CreateFilter(keys, n, &dst)], with the array that [keys]
    points to and the [int] [n], is the string [dst] after the call,
    [KeyMayMatch(key, filter)] the flag it returns. *)
Record FilterPolicy : Type := mkFilterPolicy {
  CreateFilter : list (list byte) -> Z -> list byte -> list byte;
  KeyMayMatch : list byte -> list byte -> bool
}.

(** [static_cast<int>(n)] of a [size_t]: the low 32 bits, as a signed
    number. *)
Definition static_cast_int (n : Z) : Z := (n + 2 ^ 31) mod 2 ^ 32 - 2 ^ 31.

Definition kFilterBaseLg : Z := 11.
Definition kFilterBase : Z := Z.shiftl 1 kFilterBaseLg.

(** [tmp_keys_] is empty between the calls and is left out. *)
Record FilterBlockBuilder : Type := mkFilterBlockBuilder {
  policy_ : FilterPolicy;
  keys_ : list byte;            (* flattened key contents *)
  start_ : list Z;              (* starting index in keys_ of each key *)
  result_ : list byte;          (* filter data computed so far *)
  filter_offsets_ : list Z      (* a vector of uint32_t *)
}.

Definition FilterBlockBuilder_new (policy : FilterPolicy)
    : FilterBlockBuilder :=
  {| policy_ := policy; keys_ := []; start_ := []; result_ := [];
     filter_offsets_ := [] |}.

(** [FilterBlockBuilder::GenerateFilter()]. *)
Definition GenerateFilter (b : FilterBlockBuilder) : FilterBlockBuilder :=
  let num_keys := length (start_ b) in
  if (num_keys =? 0)%nat then
    (* fast path if there are no keys for this filter *)
    {| policy_ := policy_ b; keys_ := keys_ b; start_ := start_ b;
       result_ := result_ b;
       filter_offsets_ := filter_offsets_ b ++ [u32 (size_of (result_ b))] |}
  else
    let start := start_ b ++ [size_of (keys_ b)] in
    let tmp_keys :=
      map (fun i =>
             let base := advance (nth i start 0) (keys_ b) in
             let length := u64 (nth (S i) start 0 - nth i start 0) in
             Slice base length)
          (seq 0 num_keys) in
    {| policy_ := policy_ b; keys_ := []; start_ := [];
       result_ := CreateFilter (policy_ b) tmp_keys
                    (static_cast_int (Z.of_nat num_keys)) (result_ b);
       filter_offsets_ := filter_offsets_ b ++ [u32 (size_of (result_ b))] |}.

(** The loop [while (filter_index > filter_offsets_.size())
    GenerateFilter()] of [StartBlock]; every round adds an offset, so
    [filter_index] rounds are enough. *)
Fixpoint StartBlock_loop (rounds : nat) (filter_index : Z)
    (b : FilterBlockBuilder) : FilterBlockBuilder :=
  match rounds with
  | O => b
  | S rounds' =>
      if Z.of_nat (length (filter_offsets_ b)) <? filter_index then
        StartBlock_loop rounds' filter_index (GenerateFilter b)
      else b
  end.

(** [FilterBlockBuilder::StartBlock(block_offset)]; the assert
    [filter_index >= filter_offsets_.size()] is a precondition. *)
Definition StartBlock (b : FilterBlockBuilder) (block_offset : Z)
    : FilterBlockBuilder :=
  let filter_index := block_offset / kFilterBase in
  StartBlock_loop (Z.to_nat filter_index) filter_index b.

(** [FilterBlockBuilder::AddKey(key)]. *)
Definition AddKey (b : FilterBlockBuilder) (key : list byte)
    : FilterBlockBuilder :=
  {| policy_ := policy_ b; keys_ := keys_ b ++ key;
     start_ := start_ b ++ [size_of (keys_ b)];
     result_ := result_ b; filter_offsets_ := filter_offsets_ b |}.

(** [FilterBlockBuilder::Finish()]: the builder after the call and the
    slice returned. *)
Definition Finish (b : FilterBlockBuilder) : FilterBlockBuilder * list byte :=
  let b := if negb (bool_decide (start_ b = [])) then GenerateFilter b
           else b in
  (* append array of per-filter offsets *)
  let array_offset := u32 (size_of (result_ b)) in
  let result :=
    foldl (fun result o => PutFixed32 result o) (result_ b)
          (filter_offsets_ b) in
  let result := PutFixed32 result array_offset in
  let result := result ++ [Z_to_byte kFilterBaseLg] in
  ({| policy_ := policy_ b; keys_ := keys_ b; start_ := start_ b;
      result_ := result; filter_offsets_ := filter_offsets_ b |},
   result).

(** [base_lg_ = contents[n-1]]: a [char] converted to [size_t]. *)
Definition char_to_size_t (c : byte) : Z :=
  if byte_to_Z c <? 128 then byte_to_Z c else u64 (byte_to_Z c - 256).

(** A [FilterBlockReader]: [data_] is the contents of the block from the
    pointer [data_] on (empty for [NULL]) and [offset_] the distance of the
    pointer [offset_] from it. *)
Record FilterBlockReader : Type := mkFilterBlockReader {
  reader_policy_ : FilterPolicy;
  data_ : list byte;
  offset_ : Z;
  num_ : Z;
  base_lg_ : Z
}.

(** [FilterBlockReader::FilterBlockReader(policy, contents)]. *)
Definition FilterBlockReader_new (policy : FilterPolicy)
    (contents : list byte) : FilterBlockReader :=
  let n := size_of contents in
  if n <? 5 then
    {| reader_policy_ := policy; data_ := []; offset_ := 0; num_ := 0;
       base_lg_ := 0 |}
  else
    let base_lg := char_to_size_t (nth (Z.to_nat (n - 1)) contents x00) in
    let last_word := DecodeFixed32 (advance (n - 5) contents) in
    if n - 5 <? last_word then
      {| reader_policy_ := policy; data_ := []; offset_ := 0; num_ := 0;
         base_lg_ := base_lg |}
    else
      {| reader_policy_ := policy; data_ := contents; offset_ := last_word;
         num_ := (n - 5 - last_word) / 4; base_lg_ := base_lg |}.

(** [FilterBlockReader::KeyMayMatch(block_offset, key)]. *)
Definition FilterBlockReader_KeyMayMatch (r : FilterBlockReader)
    (block_offset : Z) (key : list byte) : bool :=
  let index := Z.shiftr block_offset (base_lg_ r) in
  if index <? num_ r then
    let start := DecodeFixed32 (advance (offset_ r + index * 4) (data_ r)) in
    let limit :=
      DecodeFixed32 (advance (offset_ r + index * 4 + 4) (data_ r)) in
    if (start <=? limit) && (limit <=? offset_ r) then
      let filter := Slice (advance start (data_ r)) (limit - start) in
      KeyMayMatch (reader_policy_ r) key filter
    else if start =? limit then
      (* empty filters do not match any keys *)
      false
    else true
  else true.  (* errors are treated as potential matches *)

(** *** Building the filter block of a table *)

(** The calls a table builder makes for one data block:
    [StartBlock(block_offset)] when the block begins and [AddKey] for each
    of its keys. *)
Definition add_block (b : FilterBlockBuilder)
    (block : Z * list (list byte)) : FilterBlockBuilder :=
  foldl AddKey (StartBlock b block.1) block.2.

(** The filter block for the data blocks [blocks]. *)
Definition build (policy : FilterPolicy)
    (blocks : list (Z * list (list byte))) : list byte :=
  (Finish (foldl add_block (FilterBlockBuilder_new policy) blocks)).2.

(** The offsets at which the strings of a list start in their
    concatenation. *)
Definition prefix_sizes (l : list (list byte)) : list Z :=
  map (fun i => size_of (concat (take i l))) (seq 0 (length l)).

(** The builder between calls: the filters generated so far, one for each
    filter index, and the keys waiting for the next one. *)
Record filter_inv (b : FilterBlockBuilder) (fs pend : list (list byte))
    : Prop := {
  inv_result : result_ b = concat fs;
  inv_offsets : filter_offsets_ b = map u32 (prefix_sizes fs);
  inv_keys : keys_ b = concat pend;
  inv_start : start_ b = prefix_sizes pend
}.

(** The key [key] of a data block at [block_offset] is taken care of: the
    filter for the block's index is there and matches the key, or the key
    waits for the next filter, which will have the block's index. *)
Definition covered (policy : FilterPolicy) (fs pend : list (list byte))
    (block_offset : Z) (key : list byte) : Prop :=
  (exists f, fs !! Z.to_nat (block_offset / kFilterBase) = Some f /\
             KeyMayMatch policy key f = true) \/
  (block_offset / kFilterBase = Z.of_nat (length fs) /\ key ∈ pend).

(** What a filter policy promises: given an array of keys and their
    number, [CreateFilter] appends a filter to [dst] that matches every
    key it was made for. *)
Definition policy_ok (policy : FilterPolicy) : Prop :=
  forall keys dst, Z.of_nat (length keys) < 2 ^ 31 ->
  exists f,
    CreateFilter policy keys (Z.of_nat (length keys)) dst = dst ++ f /\
    forall key, key ∈ keys -> KeyMayMatch policy key f = true.

(** The number of keys of the data blocks whose offsets have the filter
    index [index]: the keys that one filter is made for. *)
Definition keys_of_filter (blocks : list (Z * list (list byte)))
    (index : Z) : Z :=
  Z.of_nat
    (length
       (concat
          (map snd
             (filter (fun block : Z * list (list byte) =>
                        block.1 / kFilterBase = index) blocks)))).

(** The keys waiting for the filter [index]. *)
Definition keys_pending (fs pend : list (list byte)) (index : Z) : Z :=
  if decide (index = Z.of_nat (length fs)) then Z.of_nat (length pend)
  else 0.

(** A policy to try the filter block with: the filter holds the first byte
    of each of the [n] keys (0 for the empty key). *)
Definition first_byte (key : list byte) : byte := nth 0 key x00.

Definition FirstBytePolicy : FilterPolicy :=
  {| CreateFilter := fun keys n dst =>
       dst ++ map first_byte (take (Z.to_nat n) keys);
     KeyMayMatch := fun key filter =>
       bool_decide (first_byte key ∈ filter) |}.

End FilterBlock.

(** ** db/dbformat.cc: InternalFilterPolicy *)

Module InternalFilter.
Import FilterBlock DBFormat.

(** [InternalFilterPolicy], over the user policy it wraps.  [CreateFilter]
    replaces each of the first [n] keys of the caller's array by its user
    key before it passes the array on; the caller, [GenerateFilter],
    clears the array right after the call, so only the filter is kept
    here. *)
Definition InternalFilterPolicy (user_policy_ : FilterPolicy)
    : FilterPolicy :=
  {| CreateFilter := fun keys n dst =>
       let mkey := map ExtractUserKey (take (Z.to_nat n) keys)
                   ++ drop (Z.to_nat n) keys in
       CreateFilter user_policy_ mkey n dst;
     KeyMayMatch := fun key f =>
       KeyMayMatch user_policy_ (ExtractUserKey key) f |}.

(** Two data blocks of internal keys, each key a user key followed by the
    eight bytes of its tag. *)
Definition example_blocks : list (Z * list (list byte)) :=
  [ (0, [ Coding.PutFixed64 [x61] (PackSequenceAndType 7 kTypeValue);
          Coding.PutFixed64 [x62; x63]
            (PackSequenceAndType 8 kTypeDeletion) ]);
    (5000, [ Coding.PutFixed64 [x64] (PackSequenceAndType 9 kTypeValue) ]) ].

End InternalFilter.

(** ** db/log_format.h, db/log_writer.cc, db/log_reader.cc *)

Module Log.
Import Coding.

(** Modelled from the spec: [db/log_format.h] is not among the sources.
    Record types 0=Zero, 1=Full, 2=First, 3=Middle, 4=Last; blocks of
    32 KiB; a header of checksum (4 bytes), length (2 bytes) and type
    (1 byte). *)
Definition kZeroType : Z := 0.
Definition kFullType : Z := 1.
Definition kFirstType : Z := 2.
Definition kMiddleType : Z := 3.
Definition kLastType : Z := 4.
Definition kMaxRecordType : Z := kLastType.
Definition kBlockSize : Z := 32768.
Definition kHeaderSize : Z := 4 + 2 + 1.

(** [util/crc32c.h] is not among the sources either; the checksum functions
    [crc32c::Value] and [crc32c::Extend] are parameters of the log code. *)
Record Crc32c : Type := mkCrc32c {
  crc_Value : list byte -> Z;
  crc_Extend : Z -> list byte -> Z
}.

(** Modelled from the spec: the masking of stored checksums,
    [((crc >> 15) | (crc << 17)) + 0xa282ead8] on 32 bits, and its
    inverse. *)
Definition kMaskDelta : Z := 0xa282ead8.

Definition Mask (crc : Z) : Z :=
  u32 (Z.lor (Z.shiftr crc 15) (u32 (Z.shiftl crc 17)) + kMaskDelta).

Definition Unmask (masked_crc : Z) : Z :=
  let rot := u32 (masked_crc - kMaskDelta) in
  u32 (Z.lor (Z.shiftr rot 17) (u32 (Z.shiftl rot 15))).

(** *** The writer *)

(** Modelled from the spec: the [WritableFile] of [leveldb/env.h] is an
    append-only file held in memory, [dest_] being its contents; [Append]
    and [Flush] succeed. *)
Record Writer : Type := mkWriter {
  dest_ : list byte;
  block_offset_ : Z;        (* current offset in block *)
  type_crc_ : list Z        (* crc32c of each record type, pre-computed *)
}.

Definition InitTypeCrc (crc : Crc32c) : list Z :=
  map (fun i => u32 (crc_Value crc [Z_to_byte i]))
      [kZeroType; kFullType; kFirstType; kMiddleType; kLastType].

(** [Writer(dest)], over an empty file. *)
Definition Writer_new (crc : Crc32c) : Writer :=
  {| dest_ := []; block_offset_ := 0; type_crc_ := InitTypeCrc crc |}.

(** [Writer(dest, dest_length)], over a file that already has contents. *)
Definition Writer_reopen (crc : Crc32c) (dest : list byte) : Writer :=
  {| dest_ := dest; block_offset_ := size_of dest mod kBlockSize;
     type_crc_ := InitTypeCrc crc |}.

Definition EmitPhysicalRecord (crc : Crc32c) (w : Writer) (t : Z)
    (ptr : list byte) (n : Z) : Status * Writer :=
  let buf4 := Z_to_byte (Z.land n 255) in
  let buf5 := Z_to_byte (Z.shiftr n 8) in
  let buf6 := Z_to_byte t in
  let c := u32 (crc_Extend crc (nth (Z.to_nat t) (type_crc_ w) 0) (Slice ptr n)) in
  let c := Mask c in
  let buf := EncodeFixed32 c ++ [buf4; buf5; buf6] in
  (OK, {| dest_ := (dest_ w ++ buf) ++ Slice ptr n;
          block_offset_ := block_offset_ w + kHeaderSize + n;
          type_crc_ := type_crc_ w |}).

(** The [do .. while] loop of [AddRecord].  A round that finds no room for
    payload is followed by one that starts a block, so [left] shrinks at
    least every second round; [None] means that [rounds] was too small. *)
Fixpoint AddRecord_loop (rounds : nat) (crc : Crc32c) (w : Writer)
    (ptr : list byte) (left : Z) (begin : bool) : option (Status * Writer) :=
  match rounds with
  | O => None
  | S rounds' =>
      let leftover := kBlockSize - block_offset_ w in
      let w :=
        if leftover <? kHeaderSize then
          (* switch to a new block, filling the trailer with zeros *)
          {| dest_ := if 0 <? leftover
                      then dest_ w ++ Slice (replicate 6 x00) leftover
                      else dest_ w;
             block_offset_ := 0;
             type_crc_ := type_crc_ w |}
        else w in
      let avail := kBlockSize - block_offset_ w - kHeaderSize in
      let fragment_length := if left <? avail then left else avail in
      let end_ := left =? fragment_length in
      let type :=
        if begin && end_ then kFullType
        else if begin then kFirstType
        else if end_ then kLastType
        else kMiddleType in
      let '(s, w) := EmitPhysicalRecord crc w type ptr fragment_length in
      let ptr := advance fragment_length ptr in
      let left := left - fragment_length in
      if Status_ok s && (0 <? left) then
        AddRecord_loop rounds' crc w ptr left false
      else Some (s, w)
  end.

(** [Writer::AddRecord(slice)]. *)
Definition AddRecord (crc : Crc32c) (w : Writer) (slice : list byte)
    : option (Status * Writer) :=
  AddRecord_loop (2 * length slice + 2) crc w slice (size_of slice) true.

(** Appending a sequence of records, stopping at the first failure. *)
Fixpoint AddRecords (crc : Crc32c) (w : Writer) (slices : list (list byte))
    : option (Status * Writer) :=
  match slices with
  | [] => Some (OK, w)
  | slice :: slices' =>
      match AddRecord crc w slice with
      | Some (s, w') =>
          if Status_ok s then AddRecords crc w' slices' else Some (s, w')
      | None => None
      end
  end.

(** *** The reader *)

(** Modelled from the spec: the [SequentialFile] of [leveldb/env.h] is a
    file held in memory, [file_] being the part not read yet; [Read] and
    [Skip] succeed.  The [Reporter] sink is the list [reported_] of its
    calls, latest last; [reporter_] tells whether a sink was given. *)
Record Reader : Type := mkReader {
  file_ : list byte;
  reporter_ : bool;
  reported_ : list (Z * Status);
  checksum_ : bool;
  buffer_ : list byte;
  eof_ : bool;
  last_record_offset_ : Z;
  end_of_buffer_offset_ : Z;
  initial_offset_ : Z;
  resyncing_ : bool
}.

Definition kEof : Z := kMaxRecordType + 1.
Definition kBadRecord : Z := kMaxRecordType + 2.

Definition Reader_new (file : list byte) (reporter checksum : bool)
    (initial_offset : Z) : Reader :=
  {| file_ := file; reporter_ := reporter; reported_ := [];
     checksum_ := checksum; buffer_ := []; eof_ := false;
     last_record_offset_ := 0; end_of_buffer_offset_ := 0;
     initial_offset_ := initial_offset;
     resyncing_ := 0 <? initial_offset |}.

Definition set_buffer (r : Reader) (buffer : list byte) : Reader :=
  {| file_ := file_ r; reporter_ := reporter_ r; reported_ := reported_ r;
     checksum_ := checksum_ r; buffer_ := buffer; eof_ := eof_ r;
     last_record_offset_ := last_record_offset_ r;
     end_of_buffer_offset_ := end_of_buffer_offset_ r;
     initial_offset_ := initial_offset_ r; resyncing_ := resyncing_ r |}.

Definition set_eof (r : Reader) (eof : bool) : Reader :=
  {| file_ := file_ r; reporter_ := reporter_ r; reported_ := reported_ r;
     checksum_ := checksum_ r; buffer_ := buffer_ r; eof_ := eof;
     last_record_offset_ := last_record_offset_ r;
     end_of_buffer_offset_ := end_of_buffer_offset_ r;
     initial_offset_ := initial_offset_ r; resyncing_ := resyncing_ r |}.

Definition set_resyncing (r : Reader) (resyncing : bool) : Reader :=
  {| file_ := file_ r; reporter_ := reporter_ r; reported_ := reported_ r;
     checksum_ := checksum_ r; buffer_ := buffer_ r; eof_ := eof_ r;
     last_record_offset_ := last_record_offset_ r;
     end_of_buffer_offset_ := end_of_buffer_offset_ r;
     initial_offset_ := initial_offset_ r; resyncing_ := resyncing |}.

Definition set_last_record_offset (r : Reader) (offset : Z) : Reader :=
  {| file_ := file_ r; reporter_ := reporter_ r; reported_ := reported_ r;
     checksum_ := checksum_ r; buffer_ := buffer_ r; eof_ := eof_ r;
     last_record_offset_ := offset;
     end_of_buffer_offset_ := end_of_buffer_offset_ r;
     initial_offset_ := initial_offset_ r; resyncing_ := resyncing_ r |}.

(** [file_->Read(kBlockSize, &buffer_, backing_store_)] followed by
    [end_of_buffer_offset_ += buffer_.size()]. *)
Definition read_block (r : Reader) : Reader :=
  let data := Slice (file_ r) kBlockSize in
  {| file_ := advance kBlockSize (file_ r);
     reporter_ := reporter_ r; reported_ := reported_ r;
     checksum_ := checksum_ r; buffer_ := data; eof_ := eof_ r;
     last_record_offset_ := last_record_offset_ r;
     end_of_buffer_offset_ := u64 (end_of_buffer_offset_ r + size_of data);
     initial_offset_ := initial_offset_ r; resyncing_ := resyncing_ r |}.

(** [file_->Skip(n)] followed by the assignment of [end_of_buffer_offset_]
    in [SkipToInitialBlock]. *)
Definition skip_to (r : Reader) (block_start_location : Z) (skip : bool)
    : Reader :=
  {| file_ := if skip then advance block_start_location (file_ r)
              else file_ r;
     reporter_ := reporter_ r; reported_ := reported_ r;
     checksum_ := checksum_ r; buffer_ := buffer_ r; eof_ := eof_ r;
     last_record_offset_ := last_record_offset_ r;
     end_of_buffer_offset_ := block_start_location;
     initial_offset_ := initial_offset_ r; resyncing_ := resyncing_ r |}.

Definition ReportDrop (r : Reader) (bytes : Z) (reason : Status) : Reader :=
  if reporter_ r &&
     (initial_offset_ r <=?
        u64 (end_of_buffer_offset_ r - size_of (buffer_ r) - bytes))
  then
    {| file_ := file_ r; reporter_ := reporter_ r;
       reported_ := reported_ r ++ [(bytes, reason)];
       checksum_ := checksum_ r; buffer_ := buffer_ r; eof_ := eof_ r;
       last_record_offset_ := last_record_offset_ r;
       end_of_buffer_offset_ := end_of_buffer_offset_ r;
       initial_offset_ := initial_offset_ r; resyncing_ := resyncing_ r |}
  else r.

Definition ReportCorruption (r : Reader) (bytes : Z) (reason : string)
    : Reader :=
  ReportDrop r bytes (Error kCorruption reason).

Definition SkipToInitialBlock (r : Reader) : bool * Reader :=
  let offset_in_block := initial_offset_ r mod kBlockSize in
  let block_start_location := u64 (initial_offset_ r - offset_in_block) in
  let block_start_location :=
    if kBlockSize - 6 <? offset_in_block
    then u64 (block_start_location + kBlockSize)
    else block_start_location in
  (true, skip_to r block_start_location (0 <? block_start_location)).

(** [const unsigned int type = header[6]]: a [char] converted to
    [unsigned int]; [char] being signed on the usual targets, bytes from
    0x80 on are sign-extended. *)
Definition char_to_uint (c : byte) : Z :=
  if byte_to_Z c <? 128 then byte_to_Z c else u32 (byte_to_Z c - 256).

(** [snprintf("%u", n)]. *)
Definition decimal (n : Z) : string :=
  DecimalString.NilZero.string_of_uint (N.to_uint (Z.to_N n)).

(** [ReadPhysicalRecord(&result)]: the type returned, the contents of
    [*result] after the call ([result] before it, where the call leaves it
    alone) and the reader.  After a
    refill the loop returns in its next round, so three rounds are never
    used up; [None] would mean they were. *)
Fixpoint ReadPhysicalRecord_loop (rounds : nat) (crc : Crc32c) (r : Reader)
    (result : list byte) : option (Z * list byte * Reader) :=
  match rounds with
  | O => None
  | S rounds' =>
      if size_of (buffer_ r) <? kHeaderSize then
        if negb (eof_ r) then
          (* last read was a full read, so this is a trailer to skip *)
          let r := read_block (set_buffer r []) in
          let r := if size_of (buffer_ r) <? kBlockSize then set_eof r true
                   else r in
          ReadPhysicalRecord_loop rounds' crc r result
        else
          Some (kEof, result, set_buffer r [])
      else
        let header := buffer_ r in
        let a := Z.land (byte_at header 4) 255 in
        let b := Z.land (byte_at header 5) 255 in
        let type := char_to_uint (nth 6 header x00) in
        let length := Z.lor a (Z.shiftl b 8) in
        if size_of (buffer_ r) <? kHeaderSize + length then
          let drop_size := size_of (buffer_ r) in
          let r := set_buffer r [] in
          if negb (eof_ r) then
            Some (kBadRecord, result,
                  ReportCorruption r drop_size "bad record length")
          else Some (kEof, result, r)
        else if (type =? kZeroType) && (length =? 0) then
          Some (kBadRecord, result, set_buffer r [])
        else if checksum_ r &&
                negb (u32 (crc_Value crc (Slice (advance 6 header) (1 + length)))
                      =? Unmask (DecodeFixed32 header)) then
          let drop_size := size_of (buffer_ r) in
          let r := set_buffer r [] in
          Some (kBadRecord, result,
                ReportCorruption r drop_size "checksum mismatch")
        else
          let r := set_buffer r (advance (kHeaderSize + length) (buffer_ r)) in
          if u64 (end_of_buffer_offset_ r - size_of (buffer_ r)
                  - kHeaderSize - length) <? initial_offset_ r then
            Some (kBadRecord, [], r)
          else
            Some (type, Slice (advance kHeaderSize header) length, r)
  end.

Definition ReadPhysicalRecord (crc : Crc32c) (r : Reader)
    (result : list byte) : option (Z * list byte * Reader) :=
  ReadPhysicalRecord_loop 3 crc r result.

(** What one round of the loop of [ReadRecord] decides: to return, or to go
    round again. *)
Inductive Outcome : Type :=
  | Return (ok : bool) (record scratch : list byte) (r : Reader)
  | Continue (r : Reader) (scratch : list byte)
      (in_fragmented_record : bool) (prospective_record_offset : Z).

(** The [switch (record_type)] of [ReadRecord]. *)
Definition ReadRecord_switch (r : Reader) (record_type : Z)
    (fragment : list byte) (physical_record_offset : Z)
    (scratch : list byte) (in_fragmented_record : bool)
    (prospective_record_offset : Z) : Outcome :=
  if record_type =? kFullType then
    let r :=
      if in_fragmented_record && negb (bool_decide (scratch = [])) then
        ReportCorruption r (size_of scratch) "partial record without end(1)"
      else r in
    let prospective_record_offset := physical_record_offset in
    Return true fragment []
           (set_last_record_offset r prospective_record_offset)
  else if record_type =? kFirstType then
    let r :=
      if in_fragmented_record && negb (bool_decide (scratch = [])) then
        ReportCorruption r (size_of scratch) "partial record without end(2)"
      else r in
    Continue r fragment true physical_record_offset
  else if record_type =? kMiddleType then
    if negb in_fragmented_record then
      Continue (ReportCorruption r (size_of fragment)
                  "missing start of fragmented record(1)")
               scratch in_fragmented_record prospective_record_offset
    else
      Continue r (scratch ++ fragment) in_fragmented_record
               prospective_record_offset
  else if record_type =? kLastType then
    if negb in_fragmented_record then
      Continue (ReportCorruption r (size_of fragment)
                  "missing start of fragmented record(2)")
               scratch in_fragmented_record prospective_record_offset
    else
      Return true (scratch ++ fragment) (scratch ++ fragment)
             (set_last_record_offset r prospective_record_offset)
  else if record_type =? kEof then
    Return false [] (if in_fragmented_record then [] else scratch) r
  else if record_type =? kBadRecord then
    if in_fragmented_record then
      Continue (ReportCorruption r (size_of scratch)
                  "error in middle of record")
               [] false prospective_record_offset
    else Continue r scratch in_fragmented_record prospective_record_offset
  else
    Continue (ReportCorruption r
                (size_of fragment
                 + (if in_fragmented_record then size_of scratch else 0))
                ("unknown record type " ++ decimal record_type))
             [] false prospective_record_offset.

(** The [while (true)] loop of [ReadRecord].  Every round consumes a
    physical record or a block, or ends the loop; [None] means that [rounds]
    was too small. *)
Fixpoint ReadRecord_loop (rounds : nat) (crc : Crc32c) (r : Reader)
    (scratch fragment : list byte) (in_fragmented_record : bool)
    (prospective_record_offset : Z)
    : option (bool * list byte * list byte * Reader) :=
  match rounds with
  | O => None
  | S rounds' =>
      match ReadPhysicalRecord crc r fragment with
      | None => None
      | Some (record_type, fragment, r) =>
          let physical_record_offset :=
            u64 (end_of_buffer_offset_ r - size_of (buffer_ r)
                 - kHeaderSize - size_of fragment) in
          let skip :=
            resyncing_ r &&
            ((record_type =? kMiddleType) || (record_type =? kLastType)) in
          let r := if resyncing_ r && negb (record_type =? kMiddleType)
                   then set_resyncing r false else r in
          if skip then
            ReadRecord_loop rounds' crc r scratch fragment
              in_fragmented_record prospective_record_offset
          else
            match ReadRecord_switch r record_type fragment
                    physical_record_offset scratch in_fragmented_record
                    prospective_record_offset with
            | Return ok record scratch r => Some (ok, record, scratch, r)
            | Continue r scratch in_fragmented_record
                prospective_record_offset =>
                ReadRecord_loop rounds' crc r scratch fragment
                  in_fragmented_record prospective_record_offset
            end
      end
  end.

(** [Reader::ReadRecord(&record, &scratch)]: the flag returned, the
    contents of [*record] and [*scratch] after the call, and the reader. *)
Definition ReadRecord (crc : Crc32c) (r : Reader)
    : option (bool * list byte * list byte * Reader) :=
  let '(skipped, r) :=
    if last_record_offset_ r <? initial_offset_ r then SkipToInitialBlock r
    else (true, r) in
  if negb skipped then Some (false, [], [], r)
  else
    ReadRecord_loop (length (file_ r) + length (buffer_ r) + 2) crc r
      [] [] false 0.

(** Successive [ReadRecord] calls until one returns false: the records
    returned, in order, and the reader at the end.  [None] means that
    [calls] was too small or a call ran out of rounds. *)
Fixpoint ReadAll (calls : nat) (crc : Crc32c) (r : Reader)
    : option (list (list byte) * Reader) :=
  match calls with
  | O => None
  | S calls' =>
      match ReadRecord crc r with
      | None => None
      | Some (true, record, _, r) =>
          match ReadAll calls' crc r with
          | Some (records, r) => Some (record :: records, r)
          | None => None
          end
      | Some (false, _, _, r) => Some ([], r)
      end
  end.

(** Modelled from the spec: the checksum is CRC32C, the cyclic redundancy
    check with the Castagnoli polynomial (0x82f63b78 with the bits
    reflected), computed here bit by bit. *)
Definition crc32c_bit (c : Z) : Z :=
  if Z.testbit c 0 then Z.lxor (Z.shiftr c 1) 0x82f63b78 else Z.shiftr c 1.

Definition crc32c_byte (c : Z) (b : byte) : Z :=
  Nat.iter 8 crc32c_bit (Z.lxor c (byte_to_Z b)).

Definition crc32c_Extend (init_crc : Z) (data : list byte) : Z :=
  Z.lxor (fold_left crc32c_byte data (Z.lxor init_crc 0xffffffff)) 0xffffffff.

Definition crc32c_Value (data : list byte) : Z := crc32c_Extend 0 data.

Definition crc32c : Crc32c :=
  {| crc_Value := crc32c_Value; crc_Extend := crc32c_Extend |}.

(** What a round of [ReadPhysicalRecord] does when it finds less than a
    header in the buffer before the end of the file: it reads the next
    block. *)
Definition refill (r : Reader) : Reader :=
  let r := read_block (set_buffer r []) in
  if size_of (buffer_ r) <? kBlockSize then set_eof r true else r.

(** *** The physical layout of a log file *)

(** What the writer puts into the file: physical records and the zero
    bytes that fill the end of a block too short for a header. *)
Inductive item : Type :=
  | Rec (t : Z) (payload : list byte)
  | Pad (k : Z).

(** The seven header bytes [EmitPhysicalRecord] writes for a fragment. *)
Definition header_bytes (crc : Crc32c) (t : Z) (payload : list byte)
    : list byte :=
  let n := size_of payload in
  EncodeFixed32
    (Mask (u32 (crc_Extend crc (nth (Z.to_nat t) (InitTypeCrc crc) 0) payload)))
  ++ [Z_to_byte (Z.land n 255); Z_to_byte (Z.shiftr n 8); Z_to_byte t].

Definition enc_item (crc : Crc32c) (it : item) : list byte :=
  match it with
  | Rec t payload => header_bytes crc t payload ++ payload
  | Pad k => Slice (replicate 6 x00) k
  end.

Definition enc_items (crc : Crc32c) (its : list item) : list byte :=
  concat (map (enc_item crc) its).

(** The items [AddRecord_loop] emits and the block offset it ends at: the
    same loop, with the file left out. *)
Fixpoint frame (rounds : nat) (block_offset : Z) (ptr : list byte) (left : Z)
    (begin : bool) : option (list item * Z) :=
  match rounds with
  | O => None
  | S rounds' =>
      let leftover := kBlockSize - block_offset in
      let pad := if (leftover <? kHeaderSize) && (0 <? leftover)
                 then [Pad leftover] else [] in
      let block_offset := if leftover <? kHeaderSize then 0 else block_offset in
      let avail := kBlockSize - block_offset - kHeaderSize in
      let fragment_length := if left <? avail then left else avail in
      let end_ := left =? fragment_length in
      let type :=
        if begin && end_ then kFullType
        else if begin then kFirstType
        else if end_ then kLastType
        else kMiddleType in
      let its := pad ++ [Rec type (Slice ptr fragment_length)] in
      let block_offset := block_offset + kHeaderSize + fragment_length in
      let ptr := advance fragment_length ptr in
      let left := left - fragment_length in
      if 0 <? left then
        match frame rounds' block_offset ptr left false with
        | Some (its', block_offset') => Some (its ++ its', block_offset')
        | None => None
        end
      else Some (its, block_offset)
  end.

(** The items written for a sequence of records. *)
Fixpoint frames (block_offset : Z) (slices : list (list byte))
    : option (list item * Z) :=
  match slices with
  | [] => Some ([], block_offset)
  | slice :: slices' =>
      match frame (2 * length slice + 2) block_offset slice (size_of slice)
              true with
      | Some (its, block_offset') =>
          match frames block_offset' slices' with
          | Some (its', block_offset'') => Some (its ++ its', block_offset'')
          | None => None
          end
      | None => None
      end
  end.

(** The checksum functions behave as [util/crc32c.h] documents them: they
    return 32-bit values, and [Extend(init_crc, data)] is the checksum of
    [concat(A, data)] when [init_crc] is the checksum of [A]. *)
Definition Crc32c_ok (crc : Crc32c) : Prop :=
  (forall d, 0 <= crc_Value crc d < 2 ^ 32) /\
  (forall a b, crc_Extend crc (crc_Value crc a) b = crc_Value crc (a ++ b)).

(** The reader is at a record boundary of a well-formed file, [bo] bytes
    into the current block, with [rem] the bytes of the file from there on;
    it reads from the start of the file ([initial_offset_ = 0]). *)
Definition reader_at (bo : Z) (rem : list byte) (r : Reader) : Prop :=
  initial_offset_ r = 0 /\ resyncing_ r = false /\
  0 <= last_record_offset_ r /\ 0 <= bo <= kBlockSize /\
  if eof_ r then
    file_ r = [] /\ buffer_ r = rem /\ bo + size_of rem < kBlockSize
  else
    (buffer_ r ++ file_ r = rem /\ bo + size_of (buffer_ r) = kBlockSize) \/
    (file_ r = rem /\ size_of (buffer_ r) < kHeaderSize /\
     (bo = 0 \/ bo = kBlockSize)).

(** The fields of the reader that reading well-formed data leaves alone. *)
Definition same_sink (r r' : Reader) : Prop :=
  reported_ r' = reported_ r /\ reporter_ r' = reporter_ r /\
  checksum_ r' = checksum_ r.

End Log.

(** ** table/table_builder.cc, table/format.cc: the blocks of a table file *)

Module TableBuilder.
Import Coding Format Log.

(** Modelled from the spec: [include/leveldb/options.h] is not among the
    sources.  The compression types are stored in a block's trailer as 0
    (none) and 1 (Snappy). *)
Inductive CompressionType : Set := kNoCompression | kSnappyCompression.

Definition CompressionType_to_Z (t : CompressionType) : Z :=
  match t with kNoCompression => 0 | kSnappyCompression => 1 end.

(** [port/port.h] is not among the sources: the Snappy functions of the
    port are parameters.  [Snappy_Compress] and [Snappy_Uncompress] yield
    [None] where the C++ functions return false. *)
Record Port : Type := mkPort {
  Snappy_Compress : list byte -> option (list byte);
  Snappy_GetUncompressedLength : list byte -> option Z;
  Snappy_Uncompress : list byte -> option (list byte)
}.

(** The fields of [Options] a table builder reads.  A filter policy comes
    with its [Name()]. *)
Record Options : Type := mkOptions {
  comparator : UserComparator;
  block_size : Z;
  block_restart_interval : Z;
  compression : CompressionType;
  filter_policy : option (list byte * FilterBlock.FilterPolicy)
}.

(** The options as a [BlockBuilder] reads them. *)
Definition block_options (o : Options) : BlockBuilder.Options :=
  {| BlockBuilder.comparator := cmp_Compare (comparator o);
     BlockBuilder.block_restart_interval := block_restart_interval o |}.

Definition kBlockTrailerSize : Z := 5.

(** [BlockBuilder::empty()], of [table/block_builder.h]. *)
Definition BlockBuilder_empty (b : BlockBuilder.BlockBuilder) : bool :=
  match BlockBuilder.buffer_ b with [] => true | _ :: _ => false end.

(** [TableBuilder::Rep].  Modelled from the spec: the [WritableFile] of
    [leveldb/env.h] is an append-only file held in memory, [file] being its
    contents; [Append] and [Flush] succeed. *)
Record Rep : Type := mkRep {
  options : Options;
  index_block_options : Options;
  file : list byte;
  offset : Z;
  status : Status;
  data_block : BlockBuilder.BlockBuilder;
  index_block : BlockBuilder.BlockBuilder;
  last_key : list byte;
  num_entries : Z;
  closed : bool;
  filter_block : option FilterBlock.FilterBlockBuilder;
  pending_index_entry : bool;
  pending_handle : BlockHandle;
  compressed_output : list byte
}.

(** Assignments to the fields of [Rep]. *)
Definition set_file (r : Rep) (file' : list byte) : Rep :=
  {| options := options r; index_block_options := index_block_options r;
     file := file'; offset := offset r; status := status r; data_block :=
     data_block r; index_block := index_block r; last_key := last_key r;
     num_entries := num_entries r; closed := closed r; filter_block :=
     filter_block r; pending_index_entry := pending_index_entry r;
     pending_handle := pending_handle r; compressed_output :=
     compressed_output r |}.

Definition set_offset (r : Rep) (offset' : Z) : Rep :=
  {| options := options r; index_block_options := index_block_options r;
     file := file r; offset := offset'; status := status r; data_block :=
     data_block r; index_block := index_block r; last_key := last_key r;
     num_entries := num_entries r; closed := closed r; filter_block :=
     filter_block r; pending_index_entry := pending_index_entry r;
     pending_handle := pending_handle r; compressed_output :=
     compressed_output r |}.

Definition set_status (r : Rep) (status' : Status) : Rep :=
  {| options := options r; index_block_options := index_block_options r;
     file := file r; offset := offset r; status := status'; data_block :=
     data_block r; index_block := index_block r; last_key := last_key r;
     num_entries := num_entries r; closed := closed r; filter_block :=
     filter_block r; pending_index_entry := pending_index_entry r;
     pending_handle := pending_handle r; compressed_output :=
     compressed_output r |}.

Definition set_data_block (r : Rep)
    (data_block' : BlockBuilder.BlockBuilder) : Rep :=
  {| options := options r; index_block_options := index_block_options r;
     file := file r; offset := offset r; status := status r; data_block :=
     data_block'; index_block := index_block r; last_key := last_key r;
     num_entries := num_entries r; closed := closed r; filter_block :=
     filter_block r; pending_index_entry := pending_index_entry r;
     pending_handle := pending_handle r; compressed_output :=
     compressed_output r |}.

Definition set_index_block (r : Rep)
    (index_block' : BlockBuilder.BlockBuilder) : Rep :=
  {| options := options r; index_block_options := index_block_options r;
     file := file r; offset := offset r; status := status r; data_block :=
     data_block r; index_block := index_block'; last_key := last_key r;
     num_entries := num_entries r; closed := closed r; filter_block :=
     filter_block r; pending_index_entry := pending_index_entry r;
     pending_handle := pending_handle r; compressed_output :=
     compressed_output r |}.

Definition set_last_key (r : Rep) (last_key' : list byte) : Rep :=
  {| options := options r; index_block_options := index_block_options r;
     file := file r; offset := offset r; status := status r; data_block :=
     data_block r; index_block := index_block r; last_key := last_key';
     num_entries := num_entries r; closed := closed r; filter_block :=
     filter_block r; pending_index_entry := pending_index_entry r;
     pending_handle := pending_handle r; compressed_output :=
     compressed_output r |}.

Definition set_num_entries (r : Rep) (num_entries' : Z) : Rep :=
  {| options := options r; index_block_options := index_block_options r;
     file := file r; offset := offset r; status := status r; data_block :=
     data_block r; index_block := index_block r; last_key := last_key r;
     num_entries := num_entries'; closed := closed r; filter_block :=
     filter_block r; pending_index_entry := pending_index_entry r;
     pending_handle := pending_handle r; compressed_output :=
     compressed_output r |}.

Definition set_closed (r : Rep) (closed' : bool) : Rep :=
  {| options := options r; index_block_options := index_block_options r;
     file := file r; offset := offset r; status := status r; data_block :=
     data_block r; index_block := index_block r; last_key := last_key r;
     num_entries := num_entries r; closed := closed'; filter_block :=
     filter_block r; pending_index_entry := pending_index_entry r;
     pending_handle := pending_handle r; compressed_output :=
     compressed_output r |}.

Definition set_filter_block (r : Rep)
    (filter_block' : option FilterBlock.FilterBlockBuilder) : Rep :=
  {| options := options r; index_block_options := index_block_options r;
     file := file r; offset := offset r; status := status r; data_block :=
     data_block r; index_block := index_block r; last_key := last_key r;
     num_entries := num_entries r; closed := closed r; filter_block :=
     filter_block'; pending_index_entry := pending_index_entry r;
     pending_handle := pending_handle r; compressed_output :=
     compressed_output r |}.

Definition set_pending_index_entry (r : Rep)
    (pending_index_entry' : bool) : Rep :=
  {| options := options r; index_block_options := index_block_options r;
     file := file r; offset := offset r; status := status r; data_block :=
     data_block r; index_block := index_block r; last_key := last_key r;
     num_entries := num_entries r; closed := closed r; filter_block :=
     filter_block r; pending_index_entry := pending_index_entry';
     pending_handle := pending_handle r; compressed_output :=
     compressed_output r |}.

Definition set_pending_handle (r : Rep)
    (pending_handle' : BlockHandle) : Rep :=
  {| options := options r; index_block_options := index_block_options r;
     file := file r; offset := offset r; status := status r; data_block :=
     data_block r; index_block := index_block r; last_key := last_key r;
     num_entries := num_entries r; closed := closed r; filter_block :=
     filter_block r; pending_index_entry := pending_index_entry r;
     pending_handle := pending_handle'; compressed_output :=
     compressed_output r |}.

Definition set_compressed_output (r : Rep)
    (compressed_output' : list byte) : Rep :=
  {| options := options r; index_block_options := index_block_options r;
     file := file r; offset := offset r; status := status r; data_block :=
     data_block r; index_block := index_block r; last_key := last_key r;
     num_entries := num_entries r; closed := closed r; filter_block :=
     filter_block r; pending_index_entry := pending_index_entry r;
     pending_handle := pending_handle r; compressed_output :=
     compressed_output' |}.

(** [Rep(opt, f)]; the file is new. *)
Definition Rep_new (opt : Options) : Rep :=
  {| options := opt;
     index_block_options :=
       {| comparator := comparator opt; block_size := block_size opt;
          block_restart_interval := 1; compression := compression opt;
          filter_policy := filter_policy opt |};
     file := [];
     offset := 0;
     status := OK;
     data_block := BlockBuilder.BlockBuilder_new (block_options opt);
     index_block :=
       BlockBuilder.BlockBuilder_new
         {| BlockBuilder.comparator := cmp_Compare (comparator opt);
            BlockBuilder.block_restart_interval := 1 |};
     last_key := [];
     num_entries := 0;
     closed := false;
     filter_block :=
       match filter_policy opt with
       | None => None
       | Some (_, policy) => Some (FilterBlock.FilterBlockBuilder_new policy)
       end;
     pending_index_entry := false;
     pending_handle := BlockHandle_new;
     compressed_output := [] |}.

(** [TableBuilder::TableBuilder(options, file)]. *)
Definition TableBuilder_new (opt : Options) : Rep :=
  let r := Rep_new opt in
  match filter_block r with
  | Some fb => set_filter_block r (Some (FilterBlock.StartBlock fb 0))
  | None => r
  end.

Definition ok (r : Rep) : bool := Status_ok (status r).

(** [r->status = r->file->Append(data)]. *)
Definition Append (r : Rep) (data : list byte) : Rep :=
  set_status (set_file r (file r ++ data)) OK.

(** [TableBuilder::WriteRawBlock(block_contents, type, handle)]: the
    builder after the call and [*handle]. *)
Definition WriteRawBlock (crc : Crc32c) (r : Rep) (block_contents : list byte)
    (type : CompressionType) : Rep * BlockHandle :=
  let handle :=
    {| offset_ := offset r; size_ := size_of block_contents |} in
  let r := Append r block_contents in
  if ok r then
    let trailer0 := Z_to_byte (CompressionType_to_Z type) in
    let c := u32 (crc_Value crc block_contents) in
    let c := u32 (crc_Extend crc c [trailer0]) in
    let trailer := trailer0 :: EncodeFixed32 (Mask c) in
    let r := Append r (Slice trailer kBlockTrailerSize) in
    if ok r then
      (set_offset r
         (u64 (offset r + (size_of block_contents + kBlockTrailerSize))),
       handle)
    else (r, handle)
  else (r, handle).

(** [TableBuilder::WriteBlock(block, handle)]: the builder after the call,
    [*block] after its [Reset] and [*handle]. *)
Definition WriteBlock (port : Port) (crc : Crc32c) (r : Rep)
    (block : BlockBuilder.BlockBuilder)
    : Rep * BlockBuilder.BlockBuilder * BlockHandle :=
  let '(block, raw) := BlockBuilder.Finish block in
  let '(block_contents, type, r) :=
    match compression (options r) with
    | kNoCompression => (raw, kNoCompression, r)
    | kSnappyCompression =>
        match Snappy_Compress port raw with
        | Some compressed =>
            let r := set_compressed_output r compressed in
            if size_of compressed <? size_of raw - size_of raw / 8 then
              (compressed, kSnappyCompression, r)
            else
              (* compressed less than 12.5%: store uncompressed form *)
              (raw, kNoCompression, r)
        | None =>
            (* Snappy not supported: store uncompressed form *)
            (raw, kNoCompression, r)
        end
    end in
  let '(r, handle) := WriteRawBlock crc r block_contents type in
  let r := set_compressed_output r [] in
  (r, BlockBuilder.Reset block, handle).

(** [TableBuilder::Flush()]. *)
Definition Flush (port : Port) (crc : Crc32c) (r : Rep) : Rep :=
  if negb (ok r) then r
  else if BlockBuilder_empty (data_block r) then r
  else
    let '(r, block, handle) := WriteBlock port crc r (data_block r) in
    let r := set_pending_handle (set_data_block r block) handle in
    let r :=
      if ok r then set_status (set_pending_index_entry r true) OK else r in
    match filter_block r with
    | Some fb =>
        set_filter_block r (Some (FilterBlock.StartBlock fb (offset r)))
    | None => r
    end.

(** [TableBuilder::Add(key, value)]; its asserts (not closed, keys
    increasing) are preconditions. *)
Definition Add (port : Port) (crc : Crc32c) (r : Rep) (key value : list byte)
    : Rep :=
  if negb (ok r) then r
  else
    let r :=
      if pending_index_entry r then
        let last_key' :=
          cmp_FindShortestSeparator (comparator (options r)) (last_key r)
            key in
        let handle_encoding := BlockHandle_EncodeTo (pending_handle r) [] in
        let r := set_last_key r last_key' in
        let r :=
          set_index_block r
            (BlockBuilder.Add (index_block r) (last_key r) handle_encoding) in
        set_pending_index_entry r false
      else r in
    let r :=
      match filter_block r with
      | Some fb => set_filter_block r (Some (FilterBlock.AddKey fb key))
      | None => r
      end in
    let r := set_last_key r key in
    let r := set_num_entries r (num_entries r + 1) in
    let r := set_data_block r (BlockBuilder.Add (data_block r) key value) in
    let estimated_block_size :=
      BlockBuilder.CurrentSizeEstimate (data_block r) in
    if block_size (options r) <=? estimated_block_size then Flush port crc r
    else r.

(** The seven characters of ["filter."]. *)
Definition filter_prefix : list byte :=
  [x66; x69; x6c; x74; x65; x72; x2e].

(** [TableBuilder::Finish()], in the four parts its comments name.

    "Write filter block": the builder afterwards and
    [filter_block_handle]. *)
Definition Finish_filter_block (crc : Crc32c) (r : Rep) : Rep * BlockHandle :=
  match filter_block r with
  | Some fb =>
      if ok r then
        let '(fb, contents) := FilterBlock.Finish fb in
        WriteRawBlock crc (set_filter_block r (Some fb)) contents
          kNoCompression
      else (r, BlockHandle_new)
  | None => (r, BlockHandle_new)
  end.

(** "Write metaindex block": the builder afterwards and
    [metaindex_block_handle]. *)
Definition Finish_metaindex_block (port : Port) (crc : Crc32c) (r : Rep)
    (filter_block_handle : BlockHandle) : Rep * BlockHandle :=
  if ok r then
    let meta_index_block :=
      BlockBuilder.BlockBuilder_new (block_options (options r)) in
    let meta_index_block :=
      match filter_block r, filter_policy (options r) with
      | Some _, Some (name, _) =>
          (* Add mapping from "filter.Name" to location of filter data *)
          let key := filter_prefix ++ name in
          let handle_encoding :=
            BlockHandle_EncodeTo filter_block_handle [] in
          BlockBuilder.Add meta_index_block key handle_encoding
      | _, _ => meta_index_block
      end in
    let '(r, _, handle) := WriteBlock port crc r meta_index_block in
    (r, handle)
  else (r, BlockHandle_new).

(** "Write index block": the builder afterwards and
    [index_block_handle]. *)
Definition Finish_index_block (port : Port) (crc : Crc32c) (r : Rep)
    : Rep * BlockHandle :=
  if ok r then
    let r :=
      if pending_index_entry r then
        let last_key' :=
          cmp_FindShortSuccessor (comparator (options r)) (last_key r) in
        let handle_encoding := BlockHandle_EncodeTo (pending_handle r) [] in
        let r := set_last_key r last_key' in
        let r :=
          set_index_block r
            (BlockBuilder.Add (index_block r) (last_key r) handle_encoding) in
        set_pending_index_entry r false
      else r in
    let '(r, block, handle) := WriteBlock port crc r (index_block r) in
    (set_index_block r block, handle)
  else (r, BlockHandle_new).

(** "Write footer". *)
Definition Finish_footer (r : Rep)
    (metaindex_block_handle index_block_handle : BlockHandle) : Rep :=
  if ok r then
    let footer :=
      {| metaindex_handle_ := metaindex_block_handle;
         index_handle_ := index_block_handle |} in
    let footer_encoding := Footer_EncodeTo footer [] in
    let r := Append r footer_encoding in
    if ok r then set_offset r (u64 (offset r + size_of footer_encoding))
    else r
  else r.

(** [TableBuilder::Finish()]: the status returned and the builder after
    the call. *)
Definition Finish (port : Port) (crc : Crc32c) (r : Rep) : Status * Rep :=
  let r := Flush port crc r in
  let r := set_closed r true in
  let '(r, filter_block_handle) := Finish_filter_block crc r in
  let '(r, metaindex_block_handle) :=
    Finish_metaindex_block port crc r filter_block_handle in
  let '(r, index_block_handle) := Finish_index_block port crc r in
  let r := Finish_footer r metaindex_block_handle index_block_handle in
  (status r, r).

(** [TableBuilder::Abandon()], [NumEntries()] and [FileSize()]. *)
Definition Abandon (r : Rep) : Rep := set_closed r true.

Definition NumEntries (r : Rep) : Z := u64 (num_entries r).

Definition FileSize (r : Rep) : Z := offset r.

(** A sequence of [Add] calls. *)
Definition AddAll (port : Port) (crc : Crc32c) (r : Rep)
    (kvs : list (list byte * list byte)) : Rep :=
  foldl (fun r kv => Add port crc r kv.1 kv.2) r kvs.

(** *** table/format.cc: ReadBlock *)

(** Modelled from the spec: the [RandomAccessFile] of [leveldb/env.h] is a
    file held in memory.  [Read(offset, n, &result, scratch)] yields the
    up to [n] bytes the file has from [offset] on; [uses_scratch] tells
    whether it stores them in the caller's buffer [scratch] or hands out a
    pointer to memory of its own. *)
Record RandomAccessFile : Type := mkRandomAccessFile {
  contents : list byte;
  uses_scratch : bool
}.

Definition Read (f : RandomAccessFile) (offset n : Z) : Status * list byte :=
  (OK, Slice (advance offset (contents f)) n).

Record BlockContents : Type := mkBlockContents {
  data : list byte;           (* Actual contents of data *)
  cachable : bool;            (* True iff data can be cached *)
  heap_allocated : bool       (* True iff caller should delete[] data.data() *)
}.

(** [ReadBlock(file, options, handle, result)], with
    [options.verify_checksums]: the status returned and [*result]. *)
Definition ReadBlock (port : Port) (crc : Crc32c) (f : RandomAccessFile)
    (verify_checksums : bool) (handle : BlockHandle)
    : Status * BlockContents :=
  let result := {| data := []; cachable := false; heap_allocated := false |} in
  let n := size_ handle in
  let '(s, contents) := Read f (offset_ handle) (u64 (n + kBlockTrailerSize)) in
  if negb (Status_ok s) then (s, result)
  else if negb (size_of contents =? u64 (n + kBlockTrailerSize)) then
    (Error kCorruption "truncated block read", result)
  else
    let data := contents in
    let bad_crc :=
      if verify_checksums then
        let crc_ := Unmask (DecodeFixed32 (advance (n + 1) data)) in
        let actual := u32 (crc_Value crc (Slice data (n + 1))) in
        negb (actual =? crc_)
      else false in
    if bad_crc then (Error kCorruption "block checksum mismatch", result)
    else
      let type := byte_to_Z (nth (Z.to_nat n) data x00) in
      if type =? CompressionType_to_Z kNoCompression then
        if uses_scratch f then
          (OK, {| data := Slice data n; cachable := true;
                  heap_allocated := true |})
        else
          (* File implementation gave us pointer to some other data. *)
          (OK, {| data := Slice data n; cachable := false;
                  heap_allocated := false |})
      else if type =? CompressionType_to_Z kSnappyCompression then
        match Snappy_GetUncompressedLength port (Slice data n) with
        | None =>
            (Error kCorruption "corrupted compressed block contents", result)
        | Some ulength =>
            match Snappy_Uncompress port (Slice data n) with
            | None =>
                (Error kCorruption "corrupted compressed block contents",
                 result)
            | Some ubuf =>
                (OK, {| data := Slice ubuf ulength; cachable := true;
                        heap_allocated := true |})
            end
        end
      else (Error kCorruption "bad block type", result).

(** [*result] when [ReadBlock] fails. *)
Definition no_block : BlockContents :=
  {| data := []; cachable := false; heap_allocated := false |}.

(** *** A table file and its blocks *)

(** What the port promises of Snappy: a compressed string uncompresses to
    the string it was made from. *)
Definition port_ok (port : Port) : Prop :=
  forall raw compressed,
    Snappy_Compress port raw = Some compressed ->
    Snappy_GetUncompressedLength port compressed = Some (size_of raw) /\
    Snappy_Uncompress port compressed = Some raw.

(** Reading the block at [handle] of the file [f] with checksum
    verification succeeds and yields [raw]. *)
Definition readable (port : Port) (crc : Crc32c) (f : list byte)
    (handle : BlockHandle) (raw : list byte) : Prop :=
  forall scratch,
    exists bc,
      ReadBlock port crc {| contents := f; uses_scratch := scratch |} true
        handle = (OK, bc) /\
      data bc = raw.

(** The block a [BlockBuilder] makes of the entries [kvs]. *)
Definition block_of (o : BlockBuilder.Options)
    (kvs : list (list byte * list byte)) : list byte :=
  (BlockBuilder.Finish
     (BlockBuilder.AddAll (BlockBuilder.BlockBuilder_new o) kvs)).2.

(** A port without Snappy. *)
Definition no_snappy : Port :=
  {| Snappy_Compress := fun _ => None;
     Snappy_GetUncompressedLength := fun _ => None;
     Snappy_Uncompress := fun _ => None |}.

(** The five bytes that follow a block in the file: its type and the
    masked checksum of contents and type. *)
Definition trailer (crc : Crc32c) (block_contents : list byte)
    (type : CompressionType) : list byte :=
  Z_to_byte (CompressionType_to_Z type)
  :: EncodeFixed32
       (Mask (u32 (crc_Extend crc (u32 (crc_Value crc block_contents))
                     [Z_to_byte (CompressionType_to_Z type)]))).

(** What [WriteBlock] stores for the block [raw], and the type it stores
    it with. *)
Definition stored (port : Port) (c : CompressionType) (raw : list byte)
    : list byte * CompressionType :=
  match c with
  | kNoCompression => (raw, kNoCompression)
  | kSnappyCompression =>
      match Snappy_Compress port raw with
      | Some compressed =>
          if size_of compressed <? size_of raw - size_of raw / 8 then
            (compressed, kSnappyCompression)
          else (raw, kNoCompression)
      | None => (raw, kNoCompression)
      end
  end.

(** The options of the index block. *)
Definition index_options (opt : Options) : BlockBuilder.Options :=
  {| BlockBuilder.comparator := cmp_Compare (comparator opt);
     BlockBuilder.block_restart_interval := 1 |}.

(** The entries of the index block: a key for each data block and the
    encoding of the block's handle. *)
Definition index_entries (seps : list (list byte)) (hs : list BlockHandle)
    : list (list byte * list byte) :=
  zip_with (fun sep h => (sep, BlockHandle_EncodeTo h [])) seps hs.

(** The data blocks as the filter block builder is told of them: the
    offset of each block and its keys. *)
Definition filter_blocks (hs : list BlockHandle)
    (segs : list (list (list byte * list byte)))
    : list (Z * list (list byte)) :=
  zip_with (fun h seg => (offset_ h, map fst seg)) hs segs.

(** The entries of the metaindex block: the filter block, under the name
    of its policy, if there is a policy. *)
Definition metaindex_entries (opt : Options) (filter_block_handle : BlockHandle)
    : list (list byte * list byte) :=
  match filter_policy opt with
  | Some (name, _) =>
      [(filter_prefix ++ name, BlockHandle_EncodeTo filter_block_handle [])]
  | None => []
  end.

(** The builder between calls.  The entries added so far are those of the
    data blocks [segs], written to the file at the handles [hs], followed
    by the entries [cur] of the data block under construction; [seps] are
    the keys of the index entries made so far. *)
Record table_builder_inv (port : Port) (crc : Crc32c) (opt : Options) (r : Rep)
    (segs : list (list (list byte * list byte))) (hs : list BlockHandle)
    (seps : list (list byte)) (cur : list (list byte * list byte))
    : Prop := {
  inv_status : status r = OK;
  inv_options : options r = opt;
  inv_offset : offset r = size_of (file r);
  inv_entries : num_entries r = Z.of_nat (length (concat segs ++ cur));
  inv_data :
    data_block r
    = BlockBuilder.AddAll
        (BlockBuilder.BlockBuilder_new (block_options opt)) cur;
  inv_index :
    index_block r
    = BlockBuilder.AddAll
        (BlockBuilder.BlockBuilder_new (index_options opt))
        (index_entries seps hs);
  inv_pending :
    if pending_index_entry r then
      cur = [] /\ S (length seps) = length hs /\
      last hs = Some (pending_handle r)
    else length seps = length hs;
  inv_blocks :
    Forall2 (fun seg h =>
               seg <> [] /\ well_formed_handle h /\
               forall ext,
                 readable port crc (file r ++ ext) h
                   (block_of (block_options opt) seg))
            segs hs;
  inv_filter :
    filter_block r
    = match filter_policy opt with
      | None => None
      | Some (_, policy) =>
          Some (foldl FilterBlock.add_block
                  (FilterBlock.FilterBlockBuilder_new policy)
                  (filter_blocks hs segs ++ [(offset r, map fst cur)]))
      end
}.

(** A table to try the builder on: blocks of about 32 bytes, Snappy asked
    for, a filter policy named "p", and four entries. *)
Definition example_options : Options :=
  {| comparator := BytewiseComparatorImpl;
     block_size := 32;
     block_restart_interval := 2;
     compression := kSnappyCompression;
     filter_policy := Some ([x70], FilterBlock.FirstBytePolicy) |}.

Definition example_entries : list (list byte * list byte) :=
  [ (bytes "apple", bytes "red"); (bytes "banana", bytes "yellow");
    (bytes "cherry", bytes "dark red"); (bytes "damson", bytes "blue") ].

End TableBuilder.

(** ** util/cache.cc: one shard of the LRU cache *)

Module Cache.

(** The address of a heap-allocated [LRUHandle]. *)
Definition ptr : Type := positive.

(** [struct LRUHandle].  The links [next_hash], [next] and [prev] are not
    fields here: a hash chain and each of the two circular lists are the
    sequences of the entries they link.  A [deleter] is known by a number,
    and so is the [value] it is for. *)
Record LRUHandle : Type := mkLRUHandle {
  value : Z;
  deleter : Z;
  charge : Z;
  key : list byte;
  in_cache : bool;      (* whether entry is in the cache *)
  refs : Z;             (* references, including cache reference, if present *)
  hash : Z              (* hash of key() *)
}.

Definition set_in_cache (h : LRUHandle) (b : bool) : LRUHandle :=
  {| value := value h; deleter := deleter h; charge := charge h;
     key := key h; in_cache := b; refs := refs h; hash := hash h |}.

Definition set_refs (h : LRUHandle) (n : Z) : LRUHandle :=
  {| value := value h; deleter := deleter h; charge := charge h;
     key := key h; in_cache := in_cache h; refs := n; hash := hash h |}.

(** *** HandleTable *)

(** [list_] is the array of buckets, each the chain of its entries from
    the head on. *)
Record HandleTable : Type := mkHandleTable {
  length_ : Z;
  elems_ : Z;
  list_ : list (list ptr)
}.

(** [hash & (length - 1)], the index of a bucket. *)
Definition slot (length hash : Z) : nat :=
  Z.to_nat (Z.land hash (u32 (length - 1))).

(** The walk of [FindPointer] along a chain: the number of entries before
    the one that matches, or the length of the chain if none does.  Reading
    an entry that is not allocated is an error, [None]. *)
Fixpoint FindPointer_loop (heap : gmap ptr LRUHandle) (chain : list ptr)
    (key0 : list byte) (hash0 : Z) : option nat :=
  match chain with
  | [] => Some O
  | p :: chain' =>
      h ← heap !! p;
      if negb (bool_decide (hash h = hash0))
         || negb (bool_decide (key0 = key h))
      then S <$> FindPointer_loop heap chain' key0 hash0
      else Some O
  end.

(** [FindPointer(key, hash)]: the slot found, as the index of its bucket
    and its place in the chain. *)
Definition FindPointer (heap : gmap ptr LRUHandle) (t : HandleTable)
    (key0 : list byte) (hash0 : Z) : option (nat * nat) :=
  let i := slot (length_ t) hash0 in
  chain ← list_ t !! i;
  j ← FindPointer_loop heap chain key0 hash0;
  Some (i, j).

(** [HandleTable::Lookup]: [Some None] is the null pointer. *)
Definition HandleTable_Lookup (heap : gmap ptr LRUHandle) (t : HandleTable)
    (key0 : list byte) (hash0 : Z) : option (option ptr) :=
  '(i, j) ← FindPointer heap t key0 hash0;
  chain ← list_ t !! i;
  Some (chain !! j).

(** The loop of [Resize] that doubles [new_length]; it does not end if
    the 32-bit [new_length] wraps around to zero. *)
Fixpoint Resize_length (rounds : nat) (new_length elems : Z) : option Z :=
  match rounds with
  | O => None
  | S rounds' =>
      if new_length <? elems
      then Resize_length rounds' (u32 (new_length * 2)) elems
      else Some new_length
  end.

(** The loops of [Resize] that move the entries [hs], each to the head of
    its new chain. *)
Fixpoint Resize_move (heap : gmap ptr LRUHandle) (new_length : Z)
    (hs : list ptr) (new_list : list (list ptr))
    : option (list (list ptr)) :=
  match hs with
  | [] => Some new_list
  | h :: hs' =>
      e ← heap !! h;
      let i := slot new_length (hash e) in
      chain ← new_list !! i;
      Resize_move heap new_length hs' (<[i := h :: chain]> new_list)
  end.

Definition Resize (heap : gmap ptr LRUHandle) (t : HandleTable)
    : option HandleTable :=
  new_length ← Resize_length 33 4 (elems_ t);
  new_list ← Resize_move heap new_length (concat (list_ t))
                (replicate (Z.to_nat new_length) []);
  Some {| length_ := new_length; elems_ := elems_ t; list_ := new_list |}.

(** [HandleTable()]: no entries, and the four buckets of the first
    [Resize]. *)
Definition HandleTable_new : HandleTable :=
  {| length_ := 4; elems_ := 0; list_ := replicate 4 [] |}.

(** [HandleTable::Insert(h)]: the entry replaced, if any, and the table. *)
Definition HandleTable_Insert (heap : gmap ptr LRUHandle) (t : HandleTable)
    (h : ptr) : option (option ptr * HandleTable) :=
  e ← heap !! h;
  '(i, j) ← FindPointer heap t (key e) (hash e);
  chain ← list_ t !! i;
  let old := chain !! j in
  let chain := take j chain ++ h :: drop (S j) chain in
  let t := {| length_ := length_ t; elems_ := elems_ t;
              list_ := <[i := chain]> (list_ t) |} in
  match old with
  | None =>
      let t := {| length_ := length_ t; elems_ := u32 (elems_ t + 1);
                  list_ := list_ t |} in
      if length_ t <? elems_ t then
        (* Since each cache entry is fairly large, we aim for a small
           average linked list length (<= 1). *)
        t ← Resize heap t; Some (old, t)
      else Some (old, t)
  | Some _ => Some (old, t)
  end.

(** [HandleTable::Remove(key, hash)]: the entry removed, if any, and the
    table. *)
Definition HandleTable_Remove (heap : gmap ptr LRUHandle) (t : HandleTable)
    (key0 : list byte) (hash0 : Z) : option (option ptr * HandleTable) :=
  '(i, j) ← FindPointer heap t key0 hash0;
  chain ← list_ t !! i;
  match chain !! j with
  | Some result =>
      Some (Some result,
            {| length_ := length_ t; elems_ := u32 (elems_ t - 1);
               list_ := <[i := delete j chain]> (list_ t) |})
  | None => Some (None, t)
  end.

(** *** LRUCache *)

(** A shard, and with it the memory its methods work on: [heap_] holds the
    entries allocated and not yet freed, [deleted_] the calls of deleters
    made so far, as (deleter, key, value), latest last.  [lru_] and [in_use_]
    are the entries of the two lists from [next] of the dummy head on, so
    that the oldest entry of [lru_] comes first. *)
Record LRUCache : Type := mkLRUCache {
  capacity_ : Z;
  usage_ : Z;
  lru_ : list ptr;
  in_use_ : list ptr;
  table_ : HandleTable;
  heap_ : gmap ptr LRUHandle;
  deleted_ : list (Z * list byte * Z)
}.

Definition with_usage (c : LRUCache) (usage : Z) : LRUCache :=
  {| capacity_ := capacity_ c; usage_ := usage; lru_ := lru_ c;
     in_use_ := in_use_ c; table_ := table_ c; heap_ := heap_ c;
     deleted_ := deleted_ c |}.

Definition with_lru (c : LRUCache) (lru : list ptr) : LRUCache :=
  {| capacity_ := capacity_ c; usage_ := usage_ c; lru_ := lru;
     in_use_ := in_use_ c; table_ := table_ c; heap_ := heap_ c;
     deleted_ := deleted_ c |}.

Definition with_in_use (c : LRUCache) (in_use : list ptr) : LRUCache :=
  {| capacity_ := capacity_ c; usage_ := usage_ c; lru_ := lru_ c;
     in_use_ := in_use; table_ := table_ c; heap_ := heap_ c;
     deleted_ := deleted_ c |}.

Definition with_table (c : LRUCache) (t : HandleTable) : LRUCache :=
  {| capacity_ := capacity_ c; usage_ := usage_ c; lru_ := lru_ c;
     in_use_ := in_use_ c; table_ := t; heap_ := heap_ c;
     deleted_ := deleted_ c |}.

Definition with_heap (c : LRUCache) (heap : gmap ptr LRUHandle) : LRUCache :=
  {| capacity_ := capacity_ c; usage_ := usage_ c; lru_ := lru_ c;
     in_use_ := in_use_ c; table_ := table_ c; heap_ := heap;
     deleted_ := deleted_ c |}.

Definition with_deleted (c : LRUCache) (calls : list (Z * list byte * Z))
    : LRUCache :=
  {| capacity_ := capacity_ c; usage_ := usage_ c; lru_ := lru_ c;
     in_use_ := in_use_ c; table_ := table_ c; heap_ := heap_ c;
     deleted_ := calls |}.

(** [LRUCache()], over a memory with no entries. *)
Definition LRUCache_new : LRUCache :=
  {| capacity_ := 0; usage_ := 0; lru_ := []; in_use_ := [];
     table_ := HandleTable_new; heap_ := ∅; deleted_ := [] |}.

Definition SetCapacity (c : LRUCache) (capacity : Z) : LRUCache :=
  {| capacity_ := capacity; usage_ := usage_ c; lru_ := lru_ c;
     in_use_ := in_use_ c; table_ := table_ c; heap_ := heap_ c;
     deleted_ := deleted_ c |}.

Definition TotalCharge (c : LRUCache) : Z := usage_ c.

(** A list without the entry [e]. *)
Definition unlink (e : ptr) (l : list ptr) : list ptr :=
  filter (fun p => p <> e) l.

(** [LRU_Remove(e)] takes [e] out of the list it is on.  For an entry on
    neither list the C++ code follows links that are null or stale: an
    error. *)
Definition LRU_Remove (c : LRUCache) (e : ptr) : option LRUCache :=
  if bool_decide (e ∈ lru_ c) then Some (with_lru c (unlink e (lru_ c)))
  else if bool_decide (e ∈ in_use_ c)
       then Some (with_in_use c (unlink e (in_use_ c)))
       else None.

(** The dummy heads [LRU_Append] is called with. *)
Inductive ListHead : Type := head_lru | head_in_use.

(** [LRU_Append(list, e)] makes [e] the newest entry of the list. *)
Definition LRU_Append (c : LRUCache) (list : ListHead) (e : ptr) : LRUCache :=
  match list with
  | head_lru => with_lru c (lru_ c ++ [e])
  | head_in_use => with_in_use c (in_use_ c ++ [e])
  end.

Definition Ref (c : LRUCache) (e : ptr) : option LRUCache :=
  h ← heap_ c !! e;
  c ← (if (refs h =? 1) && in_cache h then
         (* If on lru_ list, move to in_use_ list. *)
         c ← LRU_Remove c e; Some (LRU_Append c head_in_use e)
       else Some c);
  Some (with_heap c (<[e := set_refs h (u32 (refs h + 1))]> (heap_ c))).

Definition Unref (c : LRUCache) (e : ptr) : option LRUCache :=
  h ← heap_ c !! e;
  let h := set_refs h (u32 (refs h - 1)) in
  let c := with_heap c (<[e := h]> (heap_ c)) in
  if refs h =? 0 then
    (* Deallocate. *)
    let c := with_deleted c (deleted_ c ++ [(deleter h, key h, value h)]) in
    Some (with_heap c (delete e (heap_ c)))
  else if in_cache h && (refs h =? 1) then
    (* No longer in use; move to lru_ list. *)
    c ← LRU_Remove c e; Some (LRU_Append c head_lru e)
  else Some c.

(** [FinishErase(e)], [e] being null or an entry already removed from the
    hash table. *)
Definition FinishErase (c : LRUCache) (e : option ptr)
    : option (bool * LRUCache) :=
  match e with
  | Some e =>
      c ← LRU_Remove c e;
      h ← heap_ c !! e;
      let c := with_heap c (<[e := set_in_cache h false]> (heap_ c)) in
      let c := with_usage c (u64 (usage_ c - charge h)) in
      c ← Unref c e;
      Some (true, c)
  | None => Some (false, c)
  end.

Definition Lookup (c : LRUCache) (key0 : list byte) (hash0 : Z)
    : option (option ptr * LRUCache) :=
  e ← HandleTable_Lookup (heap_ c) (table_ c) key0 hash0;
  match e with
  | Some p => c ← Ref c p; Some (e, c)
  | None => Some (e, c)
  end.

Definition Release (c : LRUCache) (handle : ptr) : option LRUCache :=
  Unref c handle.

(** The [while] loop of [Insert], which evicts; [None] also when [rounds]
    are used up. *)
Fixpoint Insert_loop (rounds : nat) (c : LRUCache) : option LRUCache :=
  match rounds with
  | O => None
  | S rounds' =>
      match lru_ c with
      | old :: _ =>
          if capacity_ c <? usage_ c then
            h ← heap_ c !! old;
            '(removed, t) ← HandleTable_Remove (heap_ c) (table_ c)
                              (key h) (hash h);
            '(erased, c) ← FinishErase (with_table c t) removed;
            Insert_loop rounds' c
          else Some c
      | [] => Some c
      end
  end.

(** [LRUCache::Insert] up to its loop: the entry at [e] is filled in and,
    if the cache is on, linked into it in place of the entry of the same
    key, if there is one. *)
Definition Insert_link (c : LRUCache) (e : ptr) (key0 : list byte)
    (hash0 : Z) (value0 : Z) (charge0 : Z) (deleter0 : Z)
    : option LRUCache :=
  let h := {| value := value0; deleter := deleter0; charge := charge0;
              key := key0; in_cache := false;
              refs := 1;  (* for the returned handle *)
              hash := hash0 |} in
  let c := with_heap c (<[e := h]> (heap_ c)) in
  if 0 <? capacity_ c then
    let h := set_refs h (u32 (refs h + 1)) in  (* for the cache's reference *)
    let h := set_in_cache h true in
    let c := with_heap c (<[e := h]> (heap_ c)) in
    let c := LRU_Append c head_in_use e in
    let c := with_usage c (u64 (usage_ c + charge0)) in
    '(old, t) ← HandleTable_Insert (heap_ c) (table_ c) e;
    '(_, c) ← FinishErase (with_table c t) old;
    Some c
  else
    (* don't cache. (capacity_==0 is supported and turns off caching.) *)
    Some c.

(** [LRUCache::Insert].  [e] is the address [malloc] returns, which is not
    that of an entry allocated already.  An iteration of the loop that
    erases nothing is followed by another like it, so the loop ends within
    as many iterations as [lru_] has entries, plus the one that leaves it,
    or never. *)
Definition Insert (c : LRUCache) (e : ptr) (key0 : list byte) (hash0 : Z)
    (value0 : Z) (charge0 : Z) (deleter0 : Z) : option (ptr * LRUCache) :=
  match heap_ c !! e with
  | Some _ => None
  | None =>
      c ← Insert_link c e key0 hash0 value0 charge0 deleter0;
      c ← Insert_loop (S (length (lru_ c))) c;
      Some (e, c)
  end.

Definition Erase (c : LRUCache) (key0 : list byte) (hash0 : Z)
    : option LRUCache :=
  '(removed, t) ← HandleTable_Remove (heap_ c) (table_ c) key0 hash0;
  '(_, c) ← FinishErase (with_table c t) removed;
  Some c.

(** The loop of [Prune]. *)
Fixpoint Prune_loop (rounds : nat) (c : LRUCache) : option LRUCache :=
  match rounds with
  | O => None
  | S rounds' =>
      match lru_ c with
      | e :: _ =>
          h ← heap_ c !! e;
          '(removed, t) ← HandleTable_Remove (heap_ c) (table_ c)
                            (key h) (hash h);
          '(erased, c) ← FinishErase (with_table c t) removed;
          Prune_loop rounds' c
      | [] => Some c
      end
  end.

Definition Prune (c : LRUCache) : option LRUCache :=
  Prune_loop (S (length (lru_ c))) c.

(** *** The state of a shard between calls *)

(** The entries the cache holds: those of its two lists. *)
Definition entries (c : LRUCache) : list ptr := lru_ c ++ in_use_ c.

(** The key and the hash of an allocated entry. *)
Definition key_hash (heap : gmap ptr LRUHandle) (p : ptr)
    : option (list byte * Z) :=
  (fun h => (key h, hash h)) <$> heap !! p.

Definition hash_of (heap : gmap ptr LRUHandle) (p : ptr) : Z :=
  match heap !! p with Some h => hash h | None => 0 end.

Definition charge_of (heap : gmap ptr LRUHandle) (p : ptr) : Z :=
  match heap !! p with Some h => charge h | None => 0 end.

Definition total_charge (heap : gmap ptr LRUHandle) (l : list ptr) : Z :=
  foldr (fun p s => charge_of heap p + s) 0 l.

(** The entry is allocated and linked into the chain of the bucket of its
    hash. *)
Definition in_own_bucket (heap : gmap ptr LRUHandle) (t : HandleTable)
    (p : ptr) : Prop :=
  match heap !! p with
  | Some h =>
      match list_ t !! slot (length_ t) (hash h) with
      | Some chain => p ∈ chain
      | None => False
      end
  | None => False
  end.

(** What the comments of [lru_] and [in_use_] say of their entries. *)
Definition lru_entry (heap : gmap ptr LRUHandle) (p : ptr) : Prop :=
  match heap !! p with
  | Some h => in_cache h = true /\ refs h = 1
  | None => False
  end.

Definition in_use_entry (heap : gmap ptr LRUHandle) (p : ptr) : Prop :=
  match heap !! p with
  | Some h => in_cache h = true /\ 2 <= refs h < 2 ^ 32
  | None => False
  end.

(** The calls of the deleters of the entries [l]. *)
Definition calls (heap : gmap ptr LRUHandle) (l : list ptr)
    : list (Z * list byte * Z) :=
  omap (fun p => (fun h => (deleter h, key h, value h)) <$> heap !! p) l.

(** [c'] is [c] after the eviction of the [n] oldest entries of [lru_],
    each evicted while the usage exceeded the capacity, the last one
    bringing the usage within the capacity or emptying [lru_]: nothing
    else has changed but the hash table, the evicted entries are freed and
    their deleters have been called. *)
Definition evicts (c : LRUCache) (n : nat) (c' : LRUCache) : Prop :=
  (n <= length (lru_ c))%nat /\
  capacity_ c' = capacity_ c /\
  lru_ c' = drop n (lru_ c) /\
  in_use_ c' = in_use_ c /\
  (forall k : nat, (k < n)%nat ->
     capacity_ c
     < u64 (usage_ c - total_charge (heap_ c) (take k (lru_ c)))) /\
  usage_ c' = u64 (usage_ c - total_charge (heap_ c) (take n (lru_ c))) /\
  (usage_ c' <= capacity_ c \/ lru_ c' = []) /\
  (forall p, p ∈ take n (lru_ c) -> heap_ c' !! p = None) /\
  (forall p, p ∉ take n (lru_ c) -> heap_ c' !! p = heap_ c !! p) /\
  deleted_ c' = deleted_ c ++ calls (heap_ c) (take n (lru_ c)).

(** The representation invariant of the hash table, [l] being the entries
    it holds: each once, in the bucket of its hash, no two with the same
    key and hash; [elems_] counts them, and they are no more than
    [Resize] can find a length for; [list_] has [length_] buckets. *)
Record table_inv (heap : gmap ptr LRUHandle) (t : HandleTable)
    (l : list ptr) : Prop := mk_table_inv {
  inv_nodup : NoDup l;
  inv_concat : concat (list_ t) ≡ₚ l;
  inv_length : 1 <= length_ t < 2 ^ 32;
  inv_list : length (list_ t) = Z.to_nat (length_ t);
  inv_elems : elems_ t = Z.of_nat (length l);
  inv_count : Z.of_nat (length l) <= 2 ^ 31;
  inv_bucket : Forall (in_own_bucket heap t) l;
  inv_keys : NoDup (key_hash heap <$> l)
}.

(** The representation invariant of a shard: the hash table holds exactly
    the entries of the two lists, none of which is on both lists or twice
    on one; the entries of [lru_] have the cache's reference only, those of
    [in_use_] others besides; [usage_] is the sum of the charges of the
    entries, as a [size_t]. *)
Record cache_inv (c : LRUCache) : Prop := mk_cache_inv {
  inv_table : table_inv (heap_ c) (table_ c) (entries c);
  inv_lru : Forall (lru_entry (heap_ c)) (lru_ c);
  inv_in_use : Forall (in_use_entry (heap_ c)) (in_use_ c);
  inv_usage : usage_ c = u64 (total_charge (heap_ c) (entries c))
}.

(** A shard whose capacity has been 0 from the start: it holds nothing;
    [heap] are the entries its clients hold and [calls] the deleters called
    so far. *)
Definition zero_shard (heap : gmap ptr LRUHandle)
    (calls : list (Z * list byte * Z)) : LRUCache :=
  {| capacity_ := 0; usage_ := 0; lru_ := []; in_use_ := [];
     table_ := HandleTable_new; heap_ := heap; deleted_ := calls |}.

(** A shard of capacity 2 after [Insert] of a key ["a"], [Release] of its
    handle, and [Insert] of a key ["b"], whose handle the client holds. *)
Definition example_cache : LRUCache :=
  {| capacity_ := 2; usage_ := 2;
     lru_ := [1%positive]; in_use_ := [2%positive];
     table_ := {| length_ := 4; elems_ := 2;
                  list_ := [[]; [1%positive; 2%positive]; []; []] |};
     heap_ :=
       <[1%positive := {| value := 10; deleter := 7; charge := 1;
                          key := bytes "a"; in_cache := true; refs := 1;
                          hash := 5 |}]>
         (<[2%positive := {| value := 20; deleter := 7; charge := 1;
                             key := bytes "b"; in_cache := true; refs := 2;
                             hash := 9 |}]> ∅);
     deleted_ := [] |}.

End Cache.

(** ** util/logging.cc *)

Module Logging.

Definition kMaxUint64 : Z := 2 ^ 64 - 1.

(** [c >= '0' && c <= '9']. *)
Definition is_digit (c : byte) : bool :=
  (byte_to_Z "0" <=? byte_to_Z c) && (byte_to_Z c <=? byte_to_Z "9").

(** The loop of [ConsumeDecimalNumber], which removes one byte of [in] per
    round: what is left of [in], and [None] if the loop returned false,
    else [v] and [digits] at its end. *)
Fixpoint ConsumeDecimalNumber_loop (in_ : list byte) (v digits : Z)
    : list byte * option (Z * Z) :=
  match in_ with
  | [] => (in_, Some (v, digits))
  | c :: rest =>
      if is_digit c then
        let digits := digits + 1 in
        let delta := byte_to_Z c - byte_to_Z "0" in
        if (kMaxUint64 / 10 <? v)
           || ((v =? kMaxUint64 / 10) && (kMaxUint64 mod 10 <? delta))
        then (in_, None)                       (* Overflow *)
        else ConsumeDecimalNumber_loop rest (u64 (v * 10 + delta)) digits
      else (in_, Some (v, digits))
  end.

(** [ConsumeDecimalNumber(in, val)]: [in] and [*val] after the call, and
    the value returned. *)
Definition ConsumeDecimalNumber (in_ : list byte) (val : Z)
    : list byte * Z * bool :=
  match ConsumeDecimalNumber_loop in_ 0 0 with
  | (in_, None) => (in_, val, false)
  | (in_, Some (v, digits)) => (in_, v, 0 <? digits)
  end.

(** The number that a string of decimal digits denotes. *)
Definition decimal_value (ds : list byte) : Z :=
  foldl (fun v c => 10 * v + (byte_to_Z c - byte_to_Z "0")) 0 ds.

(** The same, continuing from the number [v]. *)
Definition value_from (v : Z) (ds : list byte) : Z :=
  foldl (fun v c => 10 * v + (byte_to_Z c - byte_to_Z "0")) v ds.

(** [s] does not start with a digit. *)
Definition no_digit_first (s : list byte) : Prop :=
  match s with
  | [] => True
  | c :: _ => is_digit c = false
  end.

End Logging.
(* ================================================================= *)
(** * Properties *)

(** ** Bytes *)

Lemma byte_to_Z_range (b : byte) : 0 <= byte_to_Z b < 256.
Proof.
  unfold byte_to_Z. pose proof (Byte.to_N_bounded b). lia.
Qed.

Lemma Z_to_byte_to_Z (z : Z) : byte_to_Z (Z_to_byte z) = z mod 256.
Proof.
  unfold byte_to_Z, Z_to_byte.
  assert (Hr : 0 <= z mod 256 < 256) by (apply Z.mod_pos_bound; lia).
  destruct (Byte.of_N (Z.to_N (z mod 256))) as [b|] eqn:E.
  - apply Byte.to_of_N in E. rewrite E. lia.
  - apply Byte.of_N_None_iff in E. lia.
Qed.

Lemma Z_to_byte_small (z : Z) : 0 <= z < 256 -> byte_to_Z (Z_to_byte z) = z.
Proof. intros H. rewrite Z_to_byte_to_Z. apply Z.mod_small; lia. Qed.

Lemma byte_to_Z_inj (a b : byte) : byte_to_Z a = byte_to_Z b -> a = b.
Proof.
  unfold byte_to_Z. intros H. apply N2Z.inj in H.
  assert (E : Some a = Some b)
    by (rewrite <- (Byte.of_to_N a), <- (Byte.of_to_N b); by rewrite H).
  by injection E.
Qed.

Lemma byte_to_Z_to_byte (b : byte) : Z_to_byte (byte_to_Z b) = b.
Proof.
  apply byte_to_Z_inj. apply Z_to_byte_small, byte_to_Z_range.
Qed.

(** ** Bit-level reasoning *)

Lemma land_255 (x : Z) : Z.land x 255 = x mod 2 ^ 8.
Proof. change 255 with (Z.ones 8). apply Z.land_ones. lia. Qed.

Lemma land_127 (x : Z) : Z.land x 127 = x mod 2 ^ 7.
Proof. change 127 with (Z.ones 7). apply Z.land_ones. lia. Qed.

Lemma land_255_range (x : Z) : 0 <= Z.land x 255 < 256.
Proof. rewrite land_255. apply Z.mod_pos_bound. lia. Qed.

(** Pushes [Z.testbit] through the bit operations, decides the comparisons
    this leaves, and identifies the remaining [Z.testbit] atoms up to
    arithmetic on their index. *)
Ltac bits_norm :=
  repeat first
    [ rewrite Z.lor_spec | rewrite Z.land_spec
    | match goal with
      | |- context [ Z.testbit ?a ?j ] =>
          rewrite (Z.testbit_neg_r a j) by lia
      | |- context [ Z.testbit (Z.shiftr ?a ?k) ?j ] =>
          rewrite (Z.shiftr_spec a k j) by lia
      | |- context [ Z.testbit (Z.shiftl ?a ?k) ?j ] =>
          rewrite (Z.shiftl_spec a k j) by lia
      | |- context [ Z.testbit (?a mod 2 ^ ?k) ?j ] =>
          rewrite (Z.testbit_mod_pow2 a k j) by lia
      | |- context [ Z.testbit (Z.ones ?k) ?j ] =>
          rewrite (Z.testbit_ones_nonneg k j) by lia
      | |- context [ (?a <? ?b) ] =>
          destruct (Z.ltb_spec a b); try (exfalso; lia)
      | |- context [ Z.testbit (Z.shiftr ?a ?k) ?j ] =>
          destruct (Z_lt_le_dec j 0)
      | |- context [ Z.testbit (Z.shiftl ?a ?k) ?j ] =>
          destruct (Z_lt_le_dec j 0)
      end ];
  simpl;
  rewrite ?orb_false_r, ?andb_false_r, ?andb_true_r, ?orb_false_l;
  repeat match goal with
    | |- context [ Z.testbit ?a ?j ] =>
        match goal with
        | |- context [ Z.testbit a ?j' ] =>
            tryif constr_eq j j' then fail else replace j with j' by lia
        end
    end;
  try reflexivity.

(** Proves an equation between integers bit by bit. *)
Ltac bits_solve := apply Z.bits_inj'; intros ?i ?Hi; bits_norm.

(** The same, after locating the bit in one of the eight-bit lanes below
    bit 64, which settles every comparison on the index. *)
Ltac bits_lanes :=
  apply Z.bits_inj'; intros ?i ?Hi;
  match goal with
  | Hi : 0 <= ?i |- _ =>
      destruct (Z_lt_le_dec i 8); [|
      destruct (Z_lt_le_dec i 16); [|
      destruct (Z_lt_le_dec i 24); [|
      destruct (Z_lt_le_dec i 32); [|
      destruct (Z_lt_le_dec i 40); [|
      destruct (Z_lt_le_dec i 48); [|
      destruct (Z_lt_le_dec i 56); [|
      destruct (Z_lt_le_dec i 64)]]]]]]]
  end; bits_norm.

Lemma DecodeFixed32_EncodeFixed32 (v : Z) (rest : list byte) :
  Coding.DecodeFixed32 (Coding.EncodeFixed32 v ++ rest) = u32 v.
Proof.
  unfold Coding.DecodeFixed32, Coding.EncodeFixed32, byte_at, u32. simpl.
  rewrite !Z_to_byte_small by apply land_255_range.
  rewrite !land_255.
  bits_lanes.
Qed.

Lemma EncodeFixed64_split (v : Z) :
  Coding.EncodeFixed64 v =
  Coding.EncodeFixed32 v ++ Coding.EncodeFixed32 (Z.shiftr v 32).
Proof.
  unfold Coding.EncodeFixed64, Coding.EncodeFixed32. simpl.
  rewrite !Z.shiftr_shiftr by lia. reflexivity.
Qed.

Lemma DecodeFixed64_EncodeFixed64 (v : Z) (rest : list byte) :
  Coding.DecodeFixed64 (Coding.EncodeFixed64 v ++ rest) = u64 v.
Proof.
  unfold Coding.DecodeFixed64. rewrite EncodeFixed64_split, <- app_assoc.
  rewrite DecodeFixed32_EncodeFixed32.
  replace (advance 4 _) with (Coding.EncodeFixed32 (Z.shiftr v 32) ++ rest)
    by reflexivity.
  rewrite DecodeFixed32_EncodeFixed32. unfold u32, u64.
  bits_solve.
Qed.

(** A boolean property checked on every number below [n] holds on the
    whole range; used to settle facts about single bytes by evaluation. *)
Lemma Z_range_forallb (P : Z -> bool) (n : nat) :
  forallb P (map Z.of_nat (seq 0 n)) = true ->
  forall x, 0 <= x < Z.of_nat n -> P x = true.
Proof.
  intros H x Hx. rewrite forallb_forall in H. apply H.
  apply in_map_iff. exists (Z.to_nat x). split; [lia|].
  apply in_seq. lia.
Qed.

Lemma varint_group_bits (x : Z) :
  0 <= x < 128 ->
  Z.land x 128 = 0 /\ Z.lor x 128 = x + 128 /\
  Z.land (x + 128) 128 = 128 /\ Z.land (x + 128) 127 = x.
Proof.
  intros Hx.
  pose proof (Z_range_forallb
    (fun x => (Z.land x 128 =? 0) && (Z.lor x 128 =? x + 128) &&
              (Z.land (x + 128) 128 =? 128) && (Z.land (x + 128) 127 =? x))
    128 eq_refl x Hx) as H.
  simpl in H. rewrite !andb_true_iff, !Z.eqb_eq in H. tauto.
Qed.

(** ** Varint64 round trip *)

Lemma u64_shiftl_small (v shift : Z) :
  0 <= shift -> 0 <= v < 2 ^ (64 - shift) -> shift <= 64 ->
  u64 (Z.shiftl v shift) = Z.shiftl v shift.
Proof.
  intros Hs Hv Hle. unfold u64. apply Z.mod_small.
  rewrite Z.shiftl_mul_pow2 by lia. split; [apply Z.mul_nonneg_nonneg; lia|].
  replace (2 ^ 64) with (2 ^ (64 - shift) * 2 ^ shift)
    by (rewrite <- Z.pow_add_r by lia; f_equal; lia).
  apply Z.mul_lt_mono_pos_r; lia.
Qed.

Lemma varint_regroup (v shift result : Z) :
  0 <= shift ->
  Z.lor (Z.lor result (Z.shiftl (Z.land v 127) shift))
        (Z.shiftl (Z.shiftr v 7) (shift + 7))
  = Z.lor result (Z.shiftl v shift).
Proof.
  intros Hs. rewrite land_127. bits_solve.
  all: destruct (Z.testbit result n); simpl; try reflexivity.
  all: rewrite ?orb_false_r; reflexivity.
Qed.

Lemma GetVarint64Ptr_loop_cons (n : nat) (shift result : Z) (b : byte)
    (p : list byte) :
  Coding.GetVarint64Ptr_loop (S n) shift result (b :: p) =
  if shift <=? 63 then
    if negb (Z.land (byte_to_Z b) 128 =? 0) then
      Coding.GetVarint64Ptr_loop n (shift + 7)
        (Z.lor result (u64 (Z.shiftl (Z.land (byte_to_Z b) 127) shift))) p
    else Some (Z.lor result (u64 (Z.shiftl (byte_to_Z b) shift)), p)
  else None.
Proof. reflexivity. Qed.

Lemma GetVarint64Ptr_loop_Encode (n : nat) :
  forall v shift result rest,
  shift = 7 * (9 - Z.of_nat n) -> (n <= 9)%nat ->
  0 <= v < 2 ^ (64 - shift) ->
  Coding.GetVarint64Ptr_loop (S n) shift result
    (Coding.EncodeVarint64_loop n v ++ rest)
  = Some (Z.lor result (Z.shiftl v shift), rest).
Proof.
  induction n as [|n IH]; intros v shift result rest Hshift Hn Hv.
  - assert (shift = 63) by lia. subst shift. change (2 ^ (64 - 63)) with 2 in Hv.
    cbn [Coding.EncodeVarint64_loop app]. rewrite GetVarint64Ptr_loop_cons.
    change (63 <=? 63) with true. cbv iota.
    rewrite Z_to_byte_small by lia.
    destruct (varint_group_bits v ltac:(lia)) as (-> & _).
    simpl negb. cbv iota.
    rewrite u64_shiftl_small by (change (2 ^ (64 - 63)) with 2; lia).
    reflexivity.
  - cbn [Coding.EncodeVarint64_loop].
    assert (Hs : 0 <= shift <= 56) by lia.
    destruct (Z.leb_spec 128 v) as [Hbig|Hsmall].
    + cbn [app]. rewrite GetVarint64Ptr_loop_cons.
      destruct (Z.leb_spec shift 63); [|lia].
      assert (Hg : 0 <= Z.land v 127 < 128)
        by (rewrite land_127; apply Z.mod_pos_bound; lia).
      destruct (varint_group_bits _ Hg) as (_ & Hor & H128 & H127).
      rewrite Hor, Z_to_byte_small by lia. rewrite H128, H127. simpl negb.
      cbv iota.
      rewrite u64_shiftl_small; [| lia | | lia].
      2:{ split; [lia|]. apply Z.lt_le_trans with (2 ^ 7); [lia|].
          apply Z.pow_le_mono_r; lia. }
      rewrite IH; [| lia | lia |].
      * rewrite varint_regroup by lia. reflexivity.
      * rewrite Z.shiftr_div_pow2 by lia. split; [apply Z.div_pos; lia|].
        apply Z.div_lt_upper_bound; [lia|].
        rewrite <- Z.pow_add_r by lia.
        replace (7 + (64 - (shift + 7))) with (64 - shift) by lia. lia.
    + cbn [app]. rewrite GetVarint64Ptr_loop_cons.
      destruct (Z.leb_spec shift 63); [|lia].
      rewrite Z_to_byte_small by lia.
      destruct (varint_group_bits v ltac:(lia)) as (-> & _).
      simpl negb. cbv iota.
      rewrite u64_shiftl_small by lia. reflexivity.
Qed.

Lemma GetVarint64_EncodeVarint64 (v : Z) (rest : list byte) :
  0 <= v < 2 ^ 64 ->
  Coding.GetVarint64 (Coding.EncodeVarint64 v ++ rest) = Some (v, rest).
Proof.
  intros Hv. unfold Coding.GetVarint64, Coding.GetVarint64Ptr,
    Coding.EncodeVarint64.
  rewrite (GetVarint64Ptr_loop_Encode 9 v 0 0 rest) by (simpl; lia).
  rewrite Z.shiftl_0_r. reflexivity.
Qed.

Lemma EncodeVarint64_loop_length (n : nat) (v : Z) :
  (length (Coding.EncodeVarint64_loop n v) <= S n)%nat.
Proof.
  revert v. induction n as [|n IH]; intros v; simpl; [lia|].
  destruct (128 <=? v); simpl; [specialize (IH (Z.shiftr v 7))|]; lia.
Qed.

(** ** Fixed-width decoding is injective on the bytes it reads *)

Lemma DecodeFixed32_range (p : list byte) : 0 <= Coding.DecodeFixed32 p < 2 ^ 32.
Proof.
  assert (E : Coding.DecodeFixed32 p mod 2 ^ 32 = Coding.DecodeFixed32 p).
  { unfold Coding.DecodeFixed32, byte_at.
    pose proof (Z.mod_small _ (2 ^ 8) (byte_to_Z_range (nth 0 p x00))) as E0.
    pose proof (Z.mod_small _ (2 ^ 8) (byte_to_Z_range (nth 1 p x00))) as E1.
    pose proof (Z.mod_small _ (2 ^ 8) (byte_to_Z_range (nth 2 p x00))) as E2.
    pose proof (Z.mod_small _ (2 ^ 8) (byte_to_Z_range (nth 3 p x00))) as E3.
    rewrite <- E0, <- E1, <- E2, <- E3. bits_lanes. }
  rewrite <- E. apply Z.mod_pos_bound. lia.
Qed.

Lemma EncodeFixed32_DecodeFixed32 (b0 b1 b2 b3 : byte) (rest : list byte) :
  Coding.EncodeFixed32 (Coding.DecodeFixed32 (b0 :: b1 :: b2 :: b3 :: rest))
  = [b0; b1; b2; b3].
Proof.
  transitivity [Z_to_byte (byte_to_Z b0); Z_to_byte (byte_to_Z b1);
                Z_to_byte (byte_to_Z b2); Z_to_byte (byte_to_Z b3)];
    [| by rewrite !byte_to_Z_to_byte].
  unfold Coding.EncodeFixed32, Coding.DecodeFixed32, byte_at. simpl nth.
  pose proof (Z.mod_small _ (2 ^ 8) (byte_to_Z_range b0)) as E0.
  pose proof (Z.mod_small _ (2 ^ 8) (byte_to_Z_range b1)) as E1.
  pose proof (Z.mod_small _ (2 ^ 8) (byte_to_Z_range b2)) as E2.
  pose proof (Z.mod_small _ (2 ^ 8) (byte_to_Z_range b3)) as E3.
  generalize dependent (byte_to_Z b0). generalize dependent (byte_to_Z b1).
  generalize dependent (byte_to_Z b2). generalize dependent (byte_to_Z b3).
  intros z3 E3 z2 E2 z1 E1 z0 E0.
  rewrite !land_255. rewrite <- E0, <- E1, <- E2, <- E3.
  f_equal; [f_equal; bits_lanes|].
  f_equal; [f_equal; bits_lanes|].
  f_equal; [f_equal; bits_lanes|].
  f_equal. f_equal. bits_lanes.
Qed.

Lemma EncodeFixed32_u32 (v : Z) :
  Coding.EncodeFixed32 (u32 v) = Coding.EncodeFixed32 v.
Proof.
  unfold Coding.EncodeFixed32, u32. rewrite !land_255.
  f_equal; [f_equal; bits_lanes|].
  f_equal; [f_equal; bits_lanes|].
  f_equal; [f_equal; bits_lanes|].
  f_equal. f_equal. bits_lanes.
Qed.

Lemma lor_hi_lo_low (hi lo : Z) :
  0 <= lo < 2 ^ 32 -> u32 (Z.lor (Z.shiftl hi 32) lo) = lo.
Proof.
  intros H. unfold u32. rewrite <- (Z.mod_small lo (2 ^ 32) H) at 2.
  bits_lanes.
Qed.

Lemma lor_hi_lo_high (hi lo : Z) :
  0 <= lo < 2 ^ 32 -> Z.shiftr (Z.lor (Z.shiftl hi 32) lo) 32 = hi.
Proof.
  intros H. rewrite <- (Z.mod_small lo (2 ^ 32) H). bits_lanes.
Qed.

Lemma EncodeFixed64_of_halves (b0 b1 b2 b3 b4 b5 b6 b7 : byte) :
  Coding.EncodeFixed64
    (Z.lor (Z.shiftl (Coding.DecodeFixed32 [b4; b5; b6; b7]) 32)
           (Coding.DecodeFixed32 [b0; b1; b2; b3]))
  = [b0; b1; b2; b3; b4; b5; b6; b7].
Proof.
  rewrite EncodeFixed64_split.
  rewrite lor_hi_lo_high by apply DecodeFixed32_range.
  rewrite <- EncodeFixed32_u32, lor_hi_lo_low by apply DecodeFixed32_range.
  rewrite !EncodeFixed32_DecodeFixed32. reflexivity.
Qed.

(** ** table/format.cc: BlockHandle and Footer *)

Section FormatProps.
Import Format.

Lemma EncodeVarint64_length (v : Z) :
  (length (Coding.EncodeVarint64 v) <= 10)%nat.
Proof. apply EncodeVarint64_loop_length. Qed.

Lemma u64_small (v : Z) : 0 <= v < 2 ^ 64 -> u64 v = v.
Proof. apply Z.mod_small. Qed.

Lemma BlockHandle_EncodeTo_app (h : BlockHandle) (dst : list byte) :
  BlockHandle_EncodeTo h dst
  = dst ++ Coding.EncodeVarint64 (u64 (offset_ h))
        ++ Coding.EncodeVarint64 (u64 (size_ h)).
Proof.
  unfold BlockHandle_EncodeTo, Coding.PutVarint64. by rewrite <- app_assoc.
Qed.

Lemma BlockHandle_EncodeTo_length (h : BlockHandle) :
  (length (BlockHandle_EncodeTo h []) <= 20)%nat.
Proof.
  rewrite BlockHandle_EncodeTo_app. simpl. rewrite length_app.
  pose proof (EncodeVarint64_length (u64 (offset_ h))).
  pose proof (EncodeVarint64_length (u64 (size_ h))). lia.
Qed.

Lemma BlockHandle_roundtrip (h h0 : BlockHandle) (rest : list byte) :
  well_formed_handle h ->
  BlockHandle_DecodeFrom h0 (BlockHandle_EncodeTo h [] ++ rest) = (OK, h, rest).
Proof.
  intros [Ho Hs]. rewrite BlockHandle_EncodeTo_app. simpl.
  rewrite !u64_small by assumption.
  unfold BlockHandle_DecodeFrom. rewrite <- app_assoc.
  rewrite GetVarint64_EncodeVarint64 by assumption.
  rewrite GetVarint64_EncodeVarint64 by assumption.
  by destruct h.
Qed.

Lemma Footer_EncodeTo_shape (f : Footer) :
  exists pad : nat,
    Footer_EncodeTo f [] =
      BlockHandle_EncodeTo (metaindex_handle_ f) [] ++
      BlockHandle_EncodeTo (index_handle_ f) [] ++
      replicate pad x00 ++ magic_bytes /\
    (length (BlockHandle_EncodeTo (metaindex_handle_ f) []) +
     length (BlockHandle_EncodeTo (index_handle_ f) []) + pad = 40)%nat.
Proof.
  pose proof (BlockHandle_EncodeTo_length (metaindex_handle_ f)) as H1.
  pose proof (BlockHandle_EncodeTo_length (index_handle_ f)) as H2.
  set (a := BlockHandle_EncodeTo (metaindex_handle_ f) []) in *.
  set (b := BlockHandle_EncodeTo (index_handle_ f) []) in *.
  exists (40 - (length a + length b))%nat. split; [|lia].
  unfold Footer_EncodeTo. fold a.
  replace (BlockHandle_EncodeTo (index_handle_ f) a) with (a ++ b).
  2:{ subst a b. rewrite (BlockHandle_EncodeTo_app _ (BlockHandle_EncodeTo _ _)).
      rewrite (BlockHandle_EncodeTo_app (index_handle_ f) []). reflexivity. }
  unfold resize, Coding.PutFixed32.
  change (Z.to_nat (2 * kMaxEncodedLength)) with 40%nat.
  rewrite take_ge by (rewrite length_app; lia).
  rewrite length_app, <- !app_assoc. reflexivity.
Qed.

Lemma magic_bytes_decode (rest : list byte) :
  let magic_ptr := magic_bytes ++ rest in
  Z.lor (Z.shiftl (Coding.DecodeFixed32 (advance 4 magic_ptr)) 32)
        (Coding.DecodeFixed32 magic_ptr) = kTableMagicNumber.
Proof. reflexivity. Qed.

Lemma Footer_roundtrip (f f0 : Footer) :
  well_formed_footer f ->
  length (Footer_EncodeTo f []) = 48%nat /\
  Footer_DecodeFrom f0 (Footer_EncodeTo f []) = (OK, f, []).
Proof.
  intros [Hm Hi]. destruct (Footer_EncodeTo_shape f) as (pad & -> & Hlen).
  set (a := BlockHandle_EncodeTo (metaindex_handle_ f) []) in *.
  set (b := BlockHandle_EncodeTo (index_handle_ f) []) in *.
  split.
  { rewrite !length_app, length_replicate. simpl. lia. }
  unfold Footer_DecodeFrom.
  assert (Hadv : advance (kEncodedLength - 8)
            (a ++ b ++ replicate pad x00 ++ magic_bytes) = magic_bytes).
  { unfold advance. change (Z.to_nat (kEncodedLength - 8)) with 40%nat.
    rewrite !app_assoc. rewrite drop_app_length'; [done|].
    rewrite !length_app, length_replicate. lia. }
  rewrite Hadv. simpl negb. cbv iota.
  subst a. rewrite BlockHandle_roundtrip by assumption. simpl Status_ok. cbv iota.
  cbn [index_handle_ metaindex_handle_].
  subst b. rewrite BlockHandle_roundtrip by assumption. simpl.
  by destruct f.
Qed.

Lemma Footer_bad_magic (f0 : Footer) (input : list byte) :
  length input = 48%nat ->
  drop 40 input <> magic_bytes ->
  Footer_DecodeFrom f0 input
  = (Error kCorruption "not an sstable (bad magic number)", f0, input).
Proof.
  intros Hlen Hbad. unfold Footer_DecodeFrom.
  change (advance (kEncodedLength - 8) input) with (drop 40 input).
  assert (Hl8 : length (drop 40 input) = 8%nat) by (rewrite length_drop; lia).
  generalize dependent (drop 40 input). intros m Hbad Hl8.
  destruct m as [|b0 [|b1 [|b2 [|b3 [|b4 [|b5 [|b6 [|b7 [|? ?]]]]]]]]];
    try discriminate Hl8.
  change (advance 4 [b0; b1; b2; b3; b4; b5; b6; b7]) with [b4; b5; b6; b7].
  destruct (Z.eqb_spec
    (Z.lor (Z.shiftl (Coding.DecodeFixed32 [b4; b5; b6; b7]) 32)
           (Coding.DecodeFixed32 [b0; b1; b2; b3; b4; b5; b6; b7]))
    kTableMagicNumber) as [Heq|Hne]; [|reflexivity].
  exfalso. apply Hbad.
  change (Coding.DecodeFixed32 [b0; b1; b2; b3; b4; b5; b6; b7])
    with (Coding.DecodeFixed32 [b0; b1; b2; b3]) in Heq.
  rewrite <- (EncodeFixed64_of_halves b0 b1 b2 b3 b4 b5 b6 b7), Heq.
  reflexivity.
Qed.

(** Claim C7.  For every handle and footer whose fields are 64-bit values,
    decoding the encoding gives the value back (the footer encoding being
    exactly 48 bytes long), and decoding a 48-byte footer whose last eight
    bytes are not the little-endian magic number returns a Corruption
    status, leaving the footer and the input untouched. *)
Theorem Footer_BlockHandle_codec
    (h h0 : BlockHandle) (rest : list byte) (f f0 : Footer)
    (input : list byte) :
  well_formed_handle h ->
  well_formed_footer f ->
  length input = 48%nat ->
  drop 40 input <> magic_bytes ->
  BlockHandle_DecodeFrom h0 (BlockHandle_EncodeTo h [] ++ rest)
    = (OK, h, rest) /\
  length (Footer_EncodeTo f []) = 48%nat /\
  Footer_DecodeFrom f0 (Footer_EncodeTo f []) = (OK, f, []) /\
  Footer_DecodeFrom f0 input
    = (Error kCorruption "not an sstable (bad magic number)", f0, input) /\
  Status_IsCorruption (fst (fst (Footer_DecodeFrom f0 input))) = true.
Proof.
  intros Hh Hf Hlen Hbad.
  split; [by apply BlockHandle_roundtrip|].
  destruct (Footer_roundtrip f f0 Hf) as [H48 Hrt].
  split; [exact H48|]. split; [exact Hrt|].
  rewrite (Footer_bad_magic f0 input Hlen Hbad). split; reflexivity.
Qed.

Lemma Footer_BlockHandle_codec_witness :
  let h := {| offset_ := 70000; size_ := 4096 |} in
  let f := {| metaindex_handle_ := {| offset_ := 1000; size_ := 200 |};
              index_handle_ := {| offset_ := 1205; size_ := 2 ^ 64 - 2 |} |} in
  let input := replicate 48 x00 in
  BlockHandle_DecodeFrom BlockHandle_new (BlockHandle_EncodeTo h [] ++ [x01])
    = (OK, h, [x01]) /\
  length (Footer_EncodeTo f []) = 48%nat /\
  Footer_DecodeFrom Footer_new (Footer_EncodeTo f []) = (OK, f, []) /\
  Footer_DecodeFrom Footer_new input
    = (Error kCorruption "not an sstable (bad magic number)", Footer_new,
       input) /\
  Status_IsCorruption (fst (fst (Footer_DecodeFrom Footer_new input))) = true.
Proof.
  intros h f input.
  apply (Footer_BlockHandle_codec h BlockHandle_new [x01] f Footer_new input).
  - unfold well_formed_handle; simpl; lia.
  - unfold well_formed_footer, well_formed_handle; simpl; lia.
  - reflexivity.
  - discriminate.
Defined.

End FormatProps.

(** ** db/dbformat.cc: the internal key comparator *)

Section DBFormatProps.
Import DBFormat.

Lemma shiftr_lt_inv (x y : Z) : Z.shiftr x 8 < Z.shiftr y 8 -> x < y.
Proof.
  rewrite !Z.shiftr_div_pow2 by lia. intros H.
  destruct (Z_lt_le_dec x y) as [|Hle]; [assumption|].
  apply (Z.div_le_mono _ _ (2 ^ 8)) in Hle; lia.
Qed.

Lemma size_of_app (a b : list byte) : size_of (a ++ b) = size_of a + size_of b.
Proof. unfold size_of. rewrite length_app. lia. Qed.

Lemma size_of_EncodeFixed64 (v : Z) : size_of (Coding.EncodeFixed64 v) = 8.
Proof. reflexivity. Qed.

(** An internal key built by [AppendInternalKey] gives back its user key,
    its sequence number and its type. *)
Lemma AppendInternalKey_fields (k : ParsedInternalKey) :
  0 <= sequence k <= kMaxSequenceNumber ->
  let ik := AppendInternalKey [] k in
  ExtractUserKey ik = user_key k /\
  ExtractTag ik = Z.lor (Z.shiftl (sequence k) 8) (ValueType_to_Z (type k)) /\
  ExtractSequence ik = sequence k /\
  Z.land (ExtractTag ik) 255 = ValueType_to_Z (type k).
Proof.
  intros Hseq ik.
  assert (Hsz : size_of ik - 8 = size_of (user_key k)).
  { unfold ik, AppendInternalKey, Coding.PutFixed64.
    rewrite size_of_app, size_of_EncodeFixed64. simpl. lia. }
  assert (Htag : ExtractTag ik
                 = Z.lor (Z.shiftl (sequence k) 8) (ValueType_to_Z (type k))).
  { unfold ExtractTag. rewrite Hsz.
    unfold ik, AppendInternalKey, Coding.PutFixed64, advance, size_of. simpl.
    rewrite Nat2Z.id, drop_app_length.
    rewrite <- (app_nil_r (Coding.EncodeFixed64 _)).
    rewrite DecodeFixed64_EncodeFixed64.
    unfold PackSequenceAndType, u64. rewrite Z.mod_mod by lia.
    apply Z.mod_small.
    unfold kMaxSequenceNumber in Hseq. change (Z.shiftl 1 56) with (2 ^ 56) in Hseq.
    assert (Ht : 0 <= ValueType_to_Z (type k) < 2 ^ 8)
      by (destruct (type k); simpl; lia).
    rewrite <- (Z.mod_small _ _ Ht).
    assert (Hs : 0 <= sequence k < 2 ^ 56) by lia.
    rewrite <- (Z.mod_small _ _ Hs).
    assert (E : forall s t, Z.lor (Z.shiftl (s mod 2 ^ 56) 8) (t mod 2 ^ 8)
                = (Z.lor (Z.shiftl (s mod 2 ^ 56) 8) (t mod 2 ^ 8)) mod 2 ^ 64)
      by (intros; bits_lanes).
    rewrite E. apply Z.mod_pos_bound. lia. }
  split; [|split; [exact Htag|split]].
  - unfold ExtractUserKey. rewrite Hsz.
    unfold ik, AppendInternalKey, Coding.PutFixed64, Slice, size_of. simpl.
    rewrite Nat2Z.id. apply take_app_length.
  - unfold ExtractSequence. rewrite Htag.
    assert (Ht : 0 <= ValueType_to_Z (type k) < 2 ^ 8)
      by (destruct (type k); simpl; lia).
    rewrite <- (Z.mod_small _ _ Ht). bits_solve.
  - rewrite Htag, land_255.
    assert (Ht : 0 <= ValueType_to_Z (type k) < 2 ^ 8)
      by (destruct (type k); simpl; lia).
    rewrite <- (Z.mod_small _ _ Ht) at 2. bits_solve.
Qed.

(** The tag of a sequence number and a type, as a number. *)
Lemma tag_value (s : Z) (t : ValueType) :
  0 <= s ->
  Z.lor (Z.shiftl s 8) (ValueType_to_Z t) = s * 256 + ValueType_to_Z t.
Proof.
  intros Hs. rewrite Z.shiftl_mul_pow2 by lia. change (2 ^ 8) with 256.
  destruct t; cbn [ValueType_to_Z].
  - rewrite Z.lor_0_r. lia.
  - rewrite <- Z.lxor_lor, <- Z.add_nocarry_lxor; try done.
    all: change 1 with (Z.ones 1); rewrite Z.land_ones by lia.
    all: change (2 ^ 1) with 2; replace (s * 256) with (s * 128 * 2) by lia.
    all: apply Z.mod_mul; lia.
Qed.

(** Claim C3.  Let [a] and [b] be the internal keys that
    [AppendInternalKey] builds from two user keys, sequence numbers and
    types, and let the user comparator find the user keys equal.  If the
    sequence number of [a] is strictly greater than that of [b], then
    [Compare(a, b)] is negative, whatever the types; if it is smaller,
    [Compare(a, b)] is positive; with equal sequence numbers the key with
    the greater type comes first.  When the user comparator separates the
    user keys, [Compare(a, b)] is its result.  The comparator finds user
    key, sequence number and type in the bytes of the keys. *)
Theorem internal_key_ordering (user_comparator : Comparator)
    (ka kb : ParsedInternalKey) :
  0 <= sequence ka <= kMaxSequenceNumber ->
  0 <= sequence kb <= kMaxSequenceNumber ->
  let a := AppendInternalKey [] ka in
  let b := AppendInternalKey [] kb in
  let r := user_comparator (user_key ka) (user_key kb) in
  (r = 0 -> sequence kb < sequence ka ->
     InternalKeyComparator_Compare user_comparator a b < 0) /\
  (r = 0 -> sequence ka < sequence kb ->
     0 < InternalKeyComparator_Compare user_comparator a b) /\
  (r = 0 -> sequence ka = sequence kb ->
     InternalKeyComparator_Compare user_comparator a b
     = Z.sgn (ValueType_to_Z (type kb) - ValueType_to_Z (type ka))) /\
  (r <> 0 -> InternalKeyComparator_Compare user_comparator a b = r).
Proof.
  intros Ha Hb a b r.
  destruct (AppendInternalKey_fields ka Ha) as (Hua & Hta & _ & _).
  destruct (AppendInternalKey_fields kb Hb) as (Hub & Htb & _ & _).
  fold a in Hua, Hta. fold b in Hub, Htb.
  unfold InternalKeyComparator_Compare.
  rewrite Hua, Hub, Hta, Htb, !tag_value by lia. fold r.
  assert (Hra : 0 <= ValueType_to_Z (type ka) < 256)
    by (destruct (type ka); cbn; lia).
  assert (Hrb : 0 <= ValueType_to_Z (type kb) < 256)
    by (destruct (type kb); cbn; lia).
  destruct (Z.eqb_spec r 0) as [Hr|Hr].
  - destruct (Z.ltb_spec (sequence kb * 256 + ValueType_to_Z (type kb))
                (sequence ka * 256 + ValueType_to_Z (type ka)));
      [|destruct (Z.ltb_spec (sequence ka * 256 + ValueType_to_Z (type ka))
                   (sequence kb * 256 + ValueType_to_Z (type kb)))];
      repeat split; intros; lia.
  - repeat split; intros; first [contradiction | reflexivity].
Qed.

Lemma internal_key_ordering_witness :
  let ka := {| user_key := bytes "k"; sequence := 20; type := kTypeDeletion |} in
  let kb := {| user_key := bytes "k"; sequence := 10; type := kTypeValue |} in
  (0 <= sequence ka <= kMaxSequenceNumber /\
   0 <= sequence kb <= kMaxSequenceNumber) /\
  BytewiseComparator (user_key ka) (user_key kb) = 0 /\
  sequence kb < sequence ka /\
  InternalKeyComparator_Compare BytewiseComparator
    (AppendInternalKey [] ka) (AppendInternalKey [] kb) < 0.
Proof.
  intros ka kb.
  assert (Ha : 0 <= sequence ka <= kMaxSequenceNumber)
    by (split; vm_compute; discriminate).
  assert (Hb : 0 <= sequence kb <= kMaxSequenceNumber)
    by (split; vm_compute; discriminate).
  assert (Hr : BytewiseComparator (user_key ka) (user_key kb) = 0)
    by reflexivity.
  assert (Hs : sequence kb < sequence ka) by reflexivity.
  destruct (internal_key_ordering BytewiseComparator ka kb Ha Hb)
    as (H1 & _).
  split; [split; assumption|]. split; [exact Hr|]. split; [exact Hs|].
  exact (H1 Hr Hs).
Defined.

End DBFormatProps.

(** ** db/skiplist.h, db/memtable.cc: the shadowing scenario *)

Section MemTableProps.
Import DBFormat MemTable.

Lemma RandomHeight_loop_range (rounds height : nat) (rnd : Random) :
  (1 <= height <= 12)%nat ->
  (1 <= (SkipList.RandomHeight_loop rounds height rnd).1 <= 12)%nat.
Proof.
  revert height rnd. induction rounds as [|n IH]; intros height rnd Hh;
    simpl; [lia|].
  destruct (Nat.ltb_spec height SkipList.kMaxHeight) as [Hlt|Hge]; [|simpl; lia].
  destruct (_ =? 0); [|simpl; lia].
  apply IH. unfold SkipList.kMaxHeight in Hlt. lia.
Qed.

Lemma RandomHeight_range (rnd : Random) :
  (1 <= (SkipList.RandomHeight rnd).1 <= 12)%nat.
Proof. apply RandomHeight_loop_range. lia. Qed.

Lemma Insert_drawn_eq (l : SkipList.SkipList (list byte)) (k : list byte) :
  SkipList.Insert l k =
  Shadowing.Insert_drawn l k (SkipList.RandomHeight (SkipList.rnd_ l)).1
    (SkipList.RandomHeight (SkipList.rnd_ l)).2.
Proof.
  unfold SkipList.Insert, Shadowing.Insert_drawn.
  destruct (SkipList.FindGreaterOrEqual _ _ _) as [[? [?|]]|]; simpl; try done.
  by destruct (SkipList.RandomHeight _).
Qed.

Lemma Add_drawn_eq (m : MemTable) (s : Z) (t : ValueType)
    (key value : list byte) :
  Add m s t key value =
  (tbl ← Shadowing.Insert_drawn (table_ m) (Add_buf s t key value)
           (SkipList.RandomHeight (SkipList.rnd_ (table_ m))).1
           (SkipList.RandomHeight (SkipList.rnd_ (table_ m))).2;
   Some {| comparator_ := comparator_ m; refs_ := refs_ m; table_ := tbl |}).
Proof. unfold Add. cbv zeta. rewrite Insert_drawn_eq. reflexivity. Qed.

Lemma Node_SetNext_rnd (l l' : SkipList.SkipList (list byte))
    (n level : nat) (x : option nat) :
  SkipList.Node_SetNext l n level x = Some l' ->
  SkipList.rnd_ l' = SkipList.rnd_ l.
Proof.
  unfold SkipList.Node_SetNext. intros H.
  destruct (SkipList.nodes l !! n) as [nd|]; simpl in H; [|done].
  destruct (decide _); [|done]. by injection H as <-.
Qed.

Lemma Insert_links_rnd (height x : nat) (prev : list (option nat))
    (l l' : SkipList.SkipList (list byte)) :
  SkipList.Insert_links l x height prev = Some l' ->
  SkipList.rnd_ l' = SkipList.rnd_ l.
Proof.
  unfold SkipList.Insert_links. generalize 0%nat as start.
  revert l. induction height as [|h IH]; intros l start H; simpl in H.
  - by injection H as <-.
  - destruct (prev !! start) as [[p|]|] eqn:Ep; simpl in H.
    + destruct (SkipList.Node_Next l p start) as [nx|] eqn:En; simpl in H.
      * destruct (SkipList.Node_SetNext l x start nx) as [la|] eqn:Ea;
          simpl in H.
        -- destruct (SkipList.Node_SetNext la p start (Some x)) as [lb|] eqn:Eb.
           ++ apply IH in H. rewrite H.
              apply Node_SetNext_rnd in Ea, Eb. congruence.
           ++ exfalso. clear -H. revert H. generalize (S start).
              induction h; intros; simpl in H; [done|eauto].
        -- exfalso. clear -H. revert H. generalize (S start).
           induction h; intros; simpl in H; [done|eauto].
      * exfalso. clear -H. revert H. generalize (S start).
        induction h; intros; simpl in H; [done|eauto].
    + exfalso. clear -H. revert H. generalize (S start).
      induction h; intros; simpl in H; [done|eauto].
    + exfalso. clear -H. revert H. generalize (S start).
      induction h; intros; simpl in H; [done|eauto].
Qed.

Lemma Insert_drawn_rnd (l l' : SkipList.SkipList (list byte)) (k : list byte)
    (height : nat) (rnd' : Random) :
  Shadowing.Insert_drawn l k height rnd' = Some l' ->
  SkipList.rnd_ l' = rnd'.
Proof.
  unfold Shadowing.Insert_drawn, SkipList.Insert_at_height. intros H.
  destruct (SkipList.FindGreaterOrEqual _ _ _) as [[? [prev|]]|];
    simpl in H; try done.
  destruct (_ <? _)%nat; simpl in H; apply Insert_links_rnd in H; exact H.
Qed.

Lemma Get_generic (m : MemTable) (key : LookupKey) (value : list byte)
    (s : Status) :
  Get m key value s = Shadowing.Get_transport value s <$> Get m key [] OK.
Proof.
  unfold Get.
  destruct (SkipList.Iterator_Seek _ _) as [iter|]; simpl; [|done].
  destruct (SkipList.Iterator_Valid iter); simpl; [|done].
  destruct (SkipList.Iterator_key _ _) as [entry|]; simpl; [|done].
  destruct (Coding.GetVarint32Ptr _) as [[key_length rest]|]; simpl; [|done].
  destruct (comparator_ m _ _ =? 0); simpl; [|done].
  destruct (_ =? 1); simpl; [done|].
  destruct (_ =? 0); simpl; done.
Qed.

Lemma forallb3_spec (P : nat -> nat -> nat -> bool) (l : list nat) :
  forallb3 P l = true ->
  forall a b c, In a l -> In b l -> In c l -> P a b c = true.
Proof.
  unfold forallb3. intros H a b c Ha Hb Hc.
  rewrite forallb_forall in H. specialize (H a Ha).
  rewrite forallb_forall in H. specialize (H b Hb).
  rewrite forallb_forall in H. exact (H c Hc).
Qed.

(** The scenario, checked for every triple of heights [RandomHeight] can
    return. *)
Lemma scenario_check_ok (rnd r1 r2 r3 : Random) :
  forallb3 (Shadowing.scenario_ok rnd r1 r2 r3) (seq 1 12) = true.
Proof. vm_compute. reflexivity. Qed.

Lemma scenario_heights (rnd r1 r2 r3 : Random) (h1 h2 h3 : nat) :
  (1 <= h1 <= 12)%nat -> (1 <= h2 <= 12)%nat -> (1 <= h3 <= 12)%nat ->
  Shadowing.scenario_gets <$> Shadowing.scenario_table rnd h1 h2 h3 r1 r2 r3
  = Some Shadowing.scenario_expected.
Proof.
  intros H1 H2 H3.
  assert (Hin : forall h, (1 <= h <= 12)%nat -> In h (seq 1 12))
    by (intros h Hh; apply in_seq; lia).
  pose proof (forallb3_spec _ _ (scenario_check_ok rnd r1 r2 r3) h1 h2 h3
                (Hin _ H1) (Hin _ H2) (Hin _ H3)) as Hc.
  unfold Shadowing.scenario_ok in Hc.
  exact (proj1 (bool_decide_eq_true _) Hc).
Qed.

(** Claim C2.  Whatever heights the skip list draws for the three entries,
    after adding (10, Value, k, v1), (20, Value, k, v2), (30, Deletion, k, -)
    to an empty memtable, [Get] at sequence 25 finds v2, at sequence 35 it
    reports the tombstone (found, with status NotFound), and at sequence 5
    it reports the key as absent (not found, outputs untouched). *)
Theorem memtable_shadowing (rnd : Random) (value : list byte) (s : Status) :
  exists m1 m2 m3 : MemTable,
    Add (MemTable_new BytewiseComparator rnd) 10 kTypeValue
        (bytes "k") (bytes "v1") = Some m1 /\
    Add m1 20 kTypeValue (bytes "k") (bytes "v2") = Some m2 /\
    Add m2 30 kTypeDeletion (bytes "k") [] = Some m3 /\
    Get m3 (LookupKey_new (bytes "k") 25) value s
      = Some {| found := true; value_out := bytes "v2"; status_out := s |} /\
    Get m3 (LookupKey_new (bytes "k") 35) value s
      = Some {| found := true; value_out := value;
                status_out := Error kNotFound EmptyString |} /\
    Get m3 (LookupKey_new (bytes "k") 5) value s
      = Some {| found := false; value_out := value; status_out := s |}.
Proof.
  set (m0 := MemTable_new BytewiseComparator rnd).
  set (d1 := SkipList.RandomHeight rnd).
  pose proof (RandomHeight_range rnd) as Hh1. fold d1 in Hh1.
  pose proof (RandomHeight_range d1.2) as Hh2.
  set (d2 := SkipList.RandomHeight d1.2) in *.
  pose proof (RandomHeight_range d2.2) as Hh3.
  set (d3 := SkipList.RandomHeight d2.2) in *.
  pose proof (scenario_heights rnd d1.2 d2.2 d3.2 d1.1 d2.1 d3.1 Hh1 Hh2 Hh3)
    as Hs.
  unfold Shadowing.scenario_table in Hs. fold m0 in Hs.
  apply fmap_Some in Hs as (m3 & Ht & Hg).
  unfold Shadowing.scenario_table in Ht. fold m0 in Ht.
  apply bind_Some in Ht as (t1 & E1 & Ht).
  apply bind_Some in Ht as (t2 & E2 & Ht).
  apply bind_Some in Ht as (t3 & E3 & Ht).
  injection Ht as <-.
  pose proof (Insert_drawn_rnd _ _ _ _ _ E1) as R1.
  pose proof (Insert_drawn_rnd _ _ _ _ _ E2) as R2.
  set (m1 := {| comparator_ := comparator_ m0; refs_ := refs_ m0;
                table_ := t1 |}).
  set (m2 := {| comparator_ := comparator_ m0; refs_ := refs_ m0;
                table_ := t2 |}).
  set (m3 := {| comparator_ := comparator_ m0; refs_ := refs_ m0;
                table_ := t3 |}) in *.
  exists m1, m2, m3.
  split; [|split; [|split]].
  - rewrite Add_drawn_eq.
    change (SkipList.rnd_ (table_ m0)) with rnd. fold d1.
    rewrite E1. reflexivity.
  - rewrite Add_drawn_eq.
    change (SkipList.rnd_ (table_ m1)) with (SkipList.rnd_ t1).
    rewrite R1. fold d2.
    change (table_ m1) with t1. rewrite E2. reflexivity.
  - rewrite Add_drawn_eq.
    change (SkipList.rnd_ (table_ m2)) with (SkipList.rnd_ t2).
    rewrite R2. fold d3.
    change (table_ m2) with t2. rewrite E3. reflexivity.
  - unfold Shadowing.scenario_gets, Shadowing.scenario_expected in Hg.
    injection Hg as G1 G2 G3.
    assert (G25 : Get m3 (LookupKey_new (bytes "k") 25) [] OK =
      Some {| found := true; value_out := bytes "v2"; status_out := OK |})
      by (symmetry; exact G1).
    assert (G35 : Get m3 (LookupKey_new (bytes "k") 35) [] OK =
      Some {| found := true; value_out := [];
              status_out := Error kNotFound EmptyString |})
      by (symmetry; exact G2).
    assert (G5 : Get m3 (LookupKey_new (bytes "k") 5) [] OK =
      Some {| found := false; value_out := []; status_out := OK |})
      by (symmetry; exact G3).
    rewrite !(Get_generic m3 _ value s), G25, G35, G5.
    split; [|split]; reflexivity.
Qed.

End MemTableProps.

(** ** table/block_builder.cc: the restart array *)

Section BlockBuilderProps.
Import BlockBuilder.

Lemma size_of_nonneg (s : list byte) : 0 <= size_of s.
Proof. unfold size_of. lia. Qed.

Lemma size_of_nil : size_of [] = 0.
Proof. reflexivity. Qed.

Lemma advance_app_size (a b : list byte) : advance (size_of a) (a ++ b) = b.
Proof. unfold advance, size_of. rewrite Nat2Z.id. apply drop_app_length. Qed.

Lemma EncodeVarint32_length (v : Z) :
  (1 <= length (Coding.EncodeVarint32 v) <= 5)%nat.
Proof.
  unfold Coding.EncodeVarint32.
  repeat match goal with |- context [ if ?c then _ else _ ] => destruct c end;
    simpl; lia.
Qed.

Lemma strictly_increasing_snoc (l : list Z) (y : Z) :
  strictly_increasing l -> (forall x, In x l -> x < y) ->
  strictly_increasing (l ++ [y]).
Proof.
  induction l as [|a [|b l] IH]; intros Hs Hy; simpl; [done| |].
  - split; [apply Hy; simpl; auto|done].
  - destruct Hs as [Hab Hs]. split; [exact Hab|].
    apply IH; [exact Hs|]. intros x Hx. apply Hy. simpl. simpl in Hx. tauto.
Qed.

Lemma Add_buffer (b : BlockBuilder) (key value : list byte) :
  buffer_ (Add b key value)
  = buffer_ b ++ entry_bytes (Add_shared b key) key value.
Proof.
  unfold Add, Add_shared, entry_bytes, Coding.PutVarint32. simpl.
  destruct (negb _); rewrite <- !app_assoc; reflexivity.
Qed.

Lemma entry_bytes_size (shared : Z) (key value : list byte) :
  3 <= size_of (entry_bytes shared key value).
Proof.
  unfold entry_bytes. rewrite !size_of_app.
  pose proof (EncodeVarint32_length (u32 shared)).
  pose proof (EncodeVarint32_length (u32 (size_of key - shared))).
  pose proof (EncodeVarint32_length (u32 (size_of value))).
  pose proof (size_of_nonneg (Slice (advance shared key) (size_of key - shared))).
  pose proof (size_of_nonneg value).
  unfold size_of in *. lia.
Qed.

Lemma Add_buffer_grows (b : BlockBuilder) (key value : list byte) :
  size_of (buffer_ b) + 3 <= size_of (buffer_ (Add b key value)).
Proof.
  rewrite Add_buffer, size_of_app.
  pose proof (entry_bytes_size (Add_shared b key) key value). lia.
Qed.

Lemma AddAll_snoc (b : BlockBuilder) (kvs : list (list byte * list byte))
    (kv : list byte * list byte) :
  AddAll b (kvs ++ [kv]) = Add (AddAll b kvs) kv.1 kv.2.
Proof. unfold AddAll. by rewrite foldl_snoc. Qed.

Lemma AddAll_options (b : BlockBuilder) (kvs : list (list byte * list byte)) :
  options_ (AddAll b kvs) = options_ b.
Proof.
  induction kvs as [|kv kvs IH] using rev_ind; [done|].
  by rewrite AddAll_snoc.
Qed.

Lemma AddAll_buffer_prefix (b : BlockBuilder)
    (kvs more : list (list byte * list byte)) :
  exists post, buffer_ (AddAll b (kvs ++ more)) = buffer_ (AddAll b kvs) ++ post.
Proof.
  induction more as [|kv more IH] using rev_ind.
  - exists []. by rewrite !app_nil_r.
  - destruct IH as [post IH]. rewrite app_assoc, AddAll_snoc, Add_buffer, IH.
    eexists. by rewrite <- app_assoc.
Qed.

Lemma AddAll_buffer_mono (b : BlockBuilder)
    (kvs more : list (list byte * list byte)) :
  size_of (buffer_ (AddAll b kvs)) <= size_of (buffer_ (AddAll b (kvs ++ more))).
Proof.
  destruct (AddAll_buffer_prefix b kvs more) as [post ->].
  rewrite size_of_app. pose proof (size_of_nonneg post). lia.
Qed.

Lemma restart_entry_at_extend (options : Options)
    (kvs : list (list byte * list byte)) (kv : list byte * list byte)
    (buffer more : list byte) (o : Z) (j : nat) :
  restart_entry_at options kvs buffer o j ->
  restart_entry_at options (kvs ++ [kv]) (buffer ++ more) o j.
Proof.
  intros (key & value & post & Hj & Ho & Hb & (rest & Hd)).
  assert (Hlt : (j < length kvs)%nat) by (eapply lookup_lt_Some; eauto).
  exists key, value, (post ++ more).
  rewrite take_app_le by lia.
  split; [by rewrite lookup_app_l|]. split; [exact Ho|].
  split; [rewrite Hb; by rewrite <- !app_assoc|].
  rewrite Hb, Ho, <- !app_assoc, advance_app_size in *.
  unfold entry_bytes in *. change (Coding.EncodeVarint32 (u32 0)) with [x00] in *.
  simpl. eauto.
Qed.

Lemma builder_inv_new (options : Options) :
  builder_inv options [] (BlockBuilder_new options).
Proof.
  split; simpl; try done.
  intros o [<-|[]]. split; [lia|done].
Qed.

Lemma builder_inv_Add (options : Options)
    (kvs : list (list byte * list byte)) (kv : list byte * list byte)
    (b : BlockBuilder) :
  options_ b = options ->
  b = AddAll (BlockBuilder_new options) kvs ->
  1 <= block_restart_interval options ->
  size_of (buffer_ b) < 2 ^ 32 ->
  builder_inv options kvs b ->
  builder_inv options (kvs ++ [kv]) (Add b kv.1 kv.2).
Proof.
  intros Hopt Hb Hint Hsize [Hfresh Hcnt Hsorted Hrange Hentry].
  destruct kv as [key value]. simpl fst. simpl snd.
  assert (Hne : kvs ++ [(key, value)] <> []) by (by destruct kvs).
  assert (Hgrow := Add_buffer_grows b key value).
  assert (Hbuf := Add_buffer b key value).
  assert (Hc0 : 0 <= counter_ b).
  { destruct kvs; [by destruct Hfresh as (_ & _ & ->)|].
    assert (1 <= counter_ b) by (by apply Hcnt). lia. }
  assert (Hu : u32 (size_of (buffer_ b)) = size_of (buffer_ b)).
  { apply Z.mod_small. pose proof (size_of_nonneg (buffer_ b)). lia. }
  destruct (Z.ltb_spec (counter_ b) (block_restart_interval (options_ b)))
    as [Hlt|Hge].
  - (* no restart: the restart array is unchanged *)
    assert (Hr : restarts_ (Add b key value) = restarts_ b).
    { unfold Add. simpl. destruct (Z.ltb_spec (counter_ b)
        (block_restart_interval (options_ b))); [done|lia]. }
    assert (Hcn : counter_ (Add b key value) = counter_ b + 1).
    { unfold Add. simpl. destruct (Z.ltb_spec (counter_ b)
        (block_restart_interval (options_ b))); [done|lia]. }
    split.
    + intros ?; done.
    + intros _. lia.
    + by rewrite Hr.
    + rewrite Hr. intros o Ho. destruct (Hrange o Ho) as [H0 Hlt'].
      split; [exact H0|]. intros _.
      destruct kvs as [|kv0 kvs0].
      * destruct Hfresh as (Hr0 & _ & _); [done|]. rewrite Hr0 in Ho.
        destruct Ho as [<-|[]]. pose proof (size_of_nonneg (buffer_ b)). lia.
      * assert (o < size_of (buffer_ b)) by (by apply Hlt'). lia.
    + intros _ o Ho. rewrite Hr in Ho. rewrite Hbuf.
      destruct kvs as [|kv0 kvs0].
      * (* first entry of the block: it starts at offset 0 *)
        destruct Hfresh as (Hr0 & Hlk & Hcz); [done|].
        rewrite Hr0 in Ho. destruct Ho as [<-|[]].
        exists 0%nat. exists key, value, [].
        assert (Hb0 : buffer_ b = []) by (by rewrite Hb).
        assert (Hsh : Add_shared b key = 0).
        { unfold Add_shared. rewrite Hlk. by destruct (negb _), key. }
        rewrite Hsh, Hb0. simpl.
        split; [done|]. split; [done|]. split; [by rewrite app_nil_r|].
        unfold entry_bytes. change (Coding.EncodeVarint32 (u32 0)) with [x00].
        simpl. eauto.
      * destruct (Hentry ltac:(done) o Ho) as [j Hj].
        exists j. by apply restart_entry_at_extend.
  - (* restart: the current buffer size is recorded *)
    assert (Hr : restarts_ (Add b key value)
                 = restarts_ b ++ [size_of (buffer_ b)]).
    { unfold Add. simpl. destruct (Z.ltb_spec (counter_ b)
        (block_restart_interval (options_ b))); [lia|]. simpl. by rewrite Hu. }
    assert (Hcn : counter_ (Add b key value) = 1).
    { unfold Add. simpl. destruct (Z.ltb_spec (counter_ b)
        (block_restart_interval (options_ b))); [lia|done]. }
    assert (Hkne : kvs <> []).
    { intros ->. destruct Hfresh as (_ & _ & Hcz); [done|]. rewrite Hopt in Hge. lia. }
    assert (Hsh : Add_shared b key = 0).
    { unfold Add_shared. destruct (Z.ltb_spec (counter_ b)
        (block_restart_interval (options_ b))); [lia|done]. }
    split.
    + intros ?; done.
    + intros _. lia.
    + rewrite Hr. apply strictly_increasing_snoc; [exact Hsorted|].
      intros x Hx. by apply (Hrange x Hx).
    + rewrite Hr. intros o Ho. apply in_app_or in Ho as [Ho|[<-|[]]].
      * destruct (Hrange o Ho) as [H0 Hlt']. split; [exact H0|]. intros _.
        specialize (Hlt' Hkne). lia.
      * split; [apply size_of_nonneg|]. intros _. lia.
    + intros _ o Ho. rewrite Hr in Ho. rewrite Hbuf.
      apply in_app_or in Ho as [Ho|[<-|[]]].
      * destruct (Hentry Hkne o Ho) as [j Hj].
        exists j. by apply restart_entry_at_extend.
      * exists (length kvs). exists key, value, [].
        rewrite take_app_length, <- Hb, Hsh.
        split; [by rewrite list_lookup_middle|]. split; [done|].
        split; [by rewrite app_nil_r|].
        rewrite advance_app_size.
        unfold entry_bytes. change (Coding.EncodeVarint32 (u32 0)) with [x00].
        simpl. eauto.
Qed.

Lemma AddAll_inv (options : Options) (kvs : list (list byte * list byte)) :
  1 <= block_restart_interval options ->
  size_of (buffer_ (AddAll (BlockBuilder_new options) kvs)) < 2 ^ 32 ->
  builder_inv options kvs (AddAll (BlockBuilder_new options) kvs).
Proof.
  intros Hint. induction kvs as [|kv kvs IH] using rev_ind; intros Hsize.
  - apply builder_inv_new.
  - rewrite AddAll_snoc.
    pose proof (AddAll_buffer_mono (BlockBuilder_new options) kvs [kv]) as Hm.
    apply builder_inv_Add; try done.
    + apply AddAll_options.
    + lia.
    + apply IH. lia.
Qed.

Lemma restart_entry_at_app (options : Options)
    (kvs : list (list byte * list byte)) (buffer more : list byte) (o : Z)
    (j : nat) :
  restart_entry_at options kvs buffer o j ->
  restart_entry_at options kvs (buffer ++ more) o j.
Proof.
  intros (key & value & post & Hj & Ho & Hb & (rest & Hd)).
  exists key, value, (post ++ more).
  split; [exact Hj|]. split; [exact Ho|].
  split; [rewrite Hb; by rewrite <- !app_assoc|].
  rewrite Hb, Ho, <- !app_assoc, advance_app_size in *.
  unfold entry_bytes in *. change (Coding.EncodeVarint32 (u32 0)) with [x00] in *.
  simpl. eauto.
Qed.

(** The trailer [Finish] appends. *)
Lemma foldl_PutFixed32 (rs : list Z) (buf : list byte) :
  foldl (fun buf r => Coding.PutFixed32 buf r) buf rs
  = buf ++ concat (map Coding.EncodeFixed32 rs).
Proof.
  revert buf. induction rs as [|r rs IH]; intros buf; simpl.
  - by rewrite app_nil_r.
  - rewrite IH. unfold Coding.PutFixed32. by rewrite <- app_assoc.
Qed.

Lemma Finish_block (b : BlockBuilder) :
  (Finish b).2
  = buffer_ b ++ concat (map Coding.EncodeFixed32 (restarts_ b))
      ++ Coding.EncodeFixed32 (u32 (Z.of_nat (length (restarts_ b)))).
Proof.
  unfold Finish. simpl. rewrite foldl_PutFixed32.
  unfold Coding.PutFixed32. by rewrite <- app_assoc.
Qed.

Lemma concat_EncodeFixed32_length (rs : list Z) :
  length (concat (map Coding.EncodeFixed32 rs)) = (4 * length rs)%nat.
Proof. induction rs as [|r rs IH]; simpl; lia. Qed.

Lemma drop_concat_EncodeFixed32 (rs : list Z) (i : nat) :
  drop (4 * i) (concat (map Coding.EncodeFixed32 rs))
  = concat (map Coding.EncodeFixed32 (drop i rs)).
Proof.
  revert rs. induction i as [|i IH]; intros rs; [done|].
  destruct rs as [|r rs]; [done|].
  replace (4 * S i)%nat with (4 + 4 * i)%nat by lia. simpl. apply IH.
Qed.

Lemma Finish_size (b : BlockBuilder) :
  size_of (Finish b).2
  = size_of (buffer_ b) + 4 * Z.of_nat (length (restarts_ b)) + 4.
Proof.
  rewrite Finish_block. unfold size_of.
  rewrite !length_app, concat_EncodeFixed32_length. simpl. lia.
Qed.

Lemma restart_array_Finish (b : BlockBuilder) :
  (forall o, In o (restarts_ b) -> 0 <= o < 2 ^ 32) ->
  Z.of_nat (length (restarts_ b)) < 2 ^ 32 ->
  restart_array (Finish b).2 = restarts_ b.
Proof.
  intros Hrange Hlen.
  set (n := length (restarts_ b)) in *.
  assert (Hun : u32 (Z.of_nat n) = Z.of_nat n) by (apply Z.mod_small; lia).
  assert (Hnum : NumRestarts (Finish b).2 = Z.of_nat n).
  { unfold NumRestarts. rewrite Finish_size. fold n.
    rewrite Finish_block. fold n. rewrite app_assoc.
    replace (size_of (buffer_ b) + 4 * Z.of_nat n + 4 - 4)
      with (size_of (buffer_ b ++ concat (map Coding.EncodeFixed32 (restarts_ b)))).
    2:{ unfold size_of. rewrite length_app, concat_EncodeFixed32_length. lia. }
    rewrite advance_app_size.
    rewrite <- (app_nil_r (Coding.EncodeFixed32 _)).
    rewrite DecodeFixed32_EncodeFixed32. unfold u32 in *.
    rewrite Z.mod_mod by lia. exact Hun. }
  unfold restart_array. rewrite Hnum, Nat2Z.id.
  apply list_eq. intros i. rewrite list_lookup_fmap.
  destruct (decide (i < n)%nat) as [Hi|Hi].
  - rewrite lookup_seq_lt by exact Hi.
    unfold fmap, option_fmap, option_map. change (0 + i)%nat with i.
    destruct (lookup_lt_is_Some_2 (restarts_ b) i Hi) as [r Hr].
    rewrite Hr. f_equal.
    unfold GetRestartPoint, restart_offset. rewrite Hnum, Finish_size. fold n.
    replace (size_of (buffer_ b) + 4 * Z.of_nat n + 4 - (1 + Z.of_nat n) * 4
             + Z.of_nat i * 4)
      with (size_of (buffer_ b) + Z.of_nat (4 * i)) by lia.
    rewrite Finish_block. unfold advance, size_of.
    rewrite <- Nat2Z.inj_add, Nat2Z.id.
    rewrite drop_app_add', drop_app_le
      by (rewrite ?concat_EncodeFixed32_length; lia).
    rewrite drop_concat_EncodeFixed32.
    rewrite (drop_S _ _ _ Hr), map_cons, concat_cons, <- !app_assoc.
    rewrite DecodeFixed32_EncodeFixed32.
    apply Z.mod_small. apply Hrange. eapply list_elem_of_In, list_elem_of_lookup_2, Hr.
  - rewrite lookup_seq_ge by lia. simpl.
    symmetry. apply lookup_ge_None. fold n. lia.
Qed.

Lemma strictly_increasing_length (l : list Z) (lo hi : Z) :
  strictly_increasing l -> (forall x, In x l -> lo <= x < hi) ->
  Z.of_nat (length l) <= Z.max 0 (hi - lo).
Proof.
  revert lo. induction l as [|a [|b l] IH]; intros lo Hs Hr; simpl length.
  - lia.
  - specialize (Hr a ltac:(simpl; auto)). lia.
  - destruct Hs as [Hab Hs].
    assert (Ha := Hr a ltac:(simpl; auto)).
    specialize (IH (a + 1) Hs).
    assert (Hr' : forall x, In x (b :: l) -> a + 1 <= x < hi).
    { intros x Hx. split; [|apply Hr; simpl; simpl in Hx; tauto].
      clear -Hab Hs Hx. revert b Hab Hs Hx.
      induction l as [|c l IHl]; intros b Hab Hs [<-|Hx]; try lia; [done|].
      destruct Hs as [Hbc Hs]. apply (IHl c); [lia|exact Hs|exact Hx]. }
    specialize (IH Hr'). simpl length in IH. lia.
Qed.

(** Claim C6, as amended.  For every non-empty sequence of [Add] calls with
    strictly increasing keys, any restart interval of at least 1, and a
    finished block within the format's size limit (block size + 5 at most
    2^32 - 1, so that offsets fit the 32-bit restart array), the restart
    array read back from the finished block is the builder's array, it is
    strictly increasing, and every offset in it is the start of an entry
    that was encoded with [shared = 0]. *)
Theorem block_restart_invariant (options : Options)
    (kvs : list (list byte * list byte)) :
  1 <= block_restart_interval options ->
  keys_increasing (comparator options) (map fst kvs) ->
  kvs <> [] ->
  size_of (Finish (AddAll (BlockBuilder_new options) kvs)).2 + 5 <= 2 ^ 32 - 1 ->
  restart_array (Finish (AddAll (BlockBuilder_new options) kvs)).2
    = restarts_ (AddAll (BlockBuilder_new options) kvs) /\
  restart_invariant options kvs.
Proof.
  intros Hint _ Hne Hsize.
  set (b := AddAll (BlockBuilder_new options) kvs) in *.
  rewrite Finish_size in Hsize.
  pose proof (size_of_nonneg (buffer_ b)) as Hb0.
  assert (Hbuf : size_of (buffer_ b) < 2 ^ 32) by lia.
  destruct (AddAll_inv options kvs Hint Hbuf)
    as [_ _ Hsorted Hrange Hentry]. fold b in Hsorted, Hrange, Hentry.
  assert (Harr : restart_array (Finish b).2 = restarts_ b).
  { apply restart_array_Finish; [|lia].
    intros o Ho. destruct (Hrange o Ho) as [H0 Hlt]. specialize (Hlt Hne). lia. }
  split; [exact Harr|].
  unfold restart_invariant. fold b. rewrite Harr.
  split; [exact Hsorted|].
  intros o Ho. destruct (Hentry Hne o Ho) as [j Hj]. exists j.
  rewrite Finish_block. by apply restart_entry_at_app.
Qed.

Lemma block_restart_invariant_witness :
  let options := {| comparator := BytewiseComparator;
                    block_restart_interval := 2 |} in
  let kvs := [ (bytes "apple", bytes "1"); (bytes "apply", bytes "2");
               (bytes "banana", bytes "3"); (bytes "band", bytes "4");
               (bytes "c", bytes "5") ] in
  restart_array (Finish (AddAll (BlockBuilder_new options) kvs)).2 = [0; 14; 29]
  /\ restart_invariant options kvs.
Proof.
  intros options kvs.
  destruct (block_restart_invariant options kvs) as [Harr Hinv].
  - simpl. lia.
  - simpl. repeat split; vm_compute; reflexivity.
  - discriminate.
  - vm_compute. discriminate.
  - split; [|exact Hinv]. rewrite Harr. reflexivity.
Defined.

(** The invariant fails for a builder that is finished without any [Add]
    (as [TableBuilder::Finish] does for the metaindex block of a table
    without filter policy): the restart array is [0] and no entry starts
    there. *)
Lemma restart_invariant_empty (options : Options) :
  ~ restart_invariant options [].
Proof.
  intros [_ H]. destruct (H 0) as [j (key & value & post & Hj & _)].
  - vm_compute. auto.
  - by rewrite lookup_nil in Hj.
Qed.

(** It also fails once the data exceed the 32 bits of a restart offset:
    with an interval of 1, a first entry of exactly 2^32 bytes makes the
    second restart offset wrap around to 0. *)
Lemma huge_value_restarts (V : list byte) :
  size_of V = 2 ^ 32 - 8 ->
  restarts_ (AddAll (BlockBuilder_new
                       {| comparator := BytewiseComparator;
                          block_restart_interval := 1 |})
                    [ (bytes "a", V); (bytes "b", []) ]) = [0; 0].
Proof.
  intros HV.
  change (AddAll ?b [ (bytes "a", V); (bytes "b", []) ])
    with (Add (Add b (bytes "a") V) (bytes "b") []).
  set (b1 := Add (BlockBuilder_new _) (bytes "a") V).
  assert (Hr1 : restarts_ b1 = [0]) by reflexivity.
  assert (Hc1 : counter_ b1 = 1) by reflexivity.
  assert (Ho1 : block_restart_interval (options_ b1) = 1) by reflexivity.
  assert (Hs1 : size_of (buffer_ b1) = 2 ^ 32).
  { unfold b1. rewrite Add_buffer.
    change (Add_shared _ _) with 0. unfold entry_bytes.
    rewrite !size_of_app. simpl buffer_. rewrite size_of_nil.
    change (size_of (bytes "a") - 0) with 1.
    change (Slice (advance 0 (bytes "a")) 1) with (bytes "a").
    rewrite HV. vm_compute. reflexivity. }
  unfold Add. cbn [restarts_]. rewrite Hc1, Ho1, Hr1, Hs1. reflexivity.
Qed.

Lemma huge_value_size : size_of huge_value = 2 ^ 32 - 8.
Proof.
  unfold huge_value, size_of. rewrite length_replicate.
  apply Z2Nat.id. discriminate.
Qed.

(** Claim C6 as stated fails: on the empty sequence of calls, and on a
    two-entry block whose first entry is 2^32 bytes long. *)
Lemma block_restart_counterexample :
  (1 <= 16 /\
   keys_increasing BytewiseComparator [] /\
   ~ restart_invariant {| comparator := BytewiseComparator;
                          block_restart_interval := 16 |} []) /\
  (1 <= 1 /\
   keys_increasing BytewiseComparator [bytes "a"; bytes "b"] /\
   ~ restart_invariant {| comparator := BytewiseComparator;
                          block_restart_interval := 1 |}
                       [ (bytes "a", huge_value); (bytes "b", []) ]).
Proof.
  split.
  - split; [lia|]. split; [exact I|]. apply restart_invariant_empty.
  - split; [lia|]. split; [split; [reflexivity|exact I]|].
    intros [Hs _].
    rewrite restart_array_Finish in Hs.
    + rewrite (huge_value_restarts huge_value huge_value_size) in Hs.
      destruct Hs as [Hs _]. lia.
    + rewrite (huge_value_restarts huge_value huge_value_size).
      intros o [<-|[<-|[]]]; lia.
    + rewrite (huge_value_restarts huge_value huge_value_size).
      simpl length. lia.
Qed.

End BlockBuilderProps.

(** ** db/log_writer.cc, db/log_reader.cc: the write-ahead log *)

Lemma log_constants :
  Log.kBlockSize = 32768 /\ Log.kHeaderSize = 7 /\
  Log.kZeroType = 0 /\ Log.kFullType = 1 /\ Log.kFirstType = 2 /\
  Log.kMiddleType = 3 /\ Log.kLastType = 4 /\
  Log.kEof = 5 /\ Log.kBadRecord = 6.
Proof. repeat split. Qed.

(** Linear arithmetic knowing the constants of the log format. *)
Ltac log_lia :=
  let H := fresh in
  pose proof log_constants as H;
  destruct H as (? & ? & ? & ? & ? & ? & ? & ? & ?); lia.

Ltac log_consts :=
  unfold Log.kEof, Log.kBadRecord, Log.kMaxRecordType, Log.kFullType,
    Log.kFirstType, Log.kMiddleType, Log.kLastType, Log.kZeroType in *.

Section LogWriterProps.
Import Log.

(** *** Checksum masking *)

Lemma rot_range (x : Z) :
  0 <= Z.lor (Z.shiftr (x mod 2 ^ 32) 15) (u32 (Z.shiftl (x mod 2 ^ 32) 17))
    < 2 ^ 32.
Proof.
  assert (E : Z.lor (Z.shiftr (x mod 2 ^ 32) 15) (u32 (Z.shiftl (x mod 2 ^ 32) 17))
              = (Z.lor (Z.shiftr (x mod 2 ^ 32) 15)
                       (u32 (Z.shiftl (x mod 2 ^ 32) 17))) mod 2 ^ 32).
  { unfold u32. bits_solve. }
  rewrite E. apply Z.mod_pos_bound. lia.
Qed.

Lemma Unmask_Mask (x : Z) : 0 <= x < 2 ^ 32 -> Unmask (Mask x) = x.
Proof.
  intros Hx. unfold Unmask, Mask.
  rewrite <- (Z.mod_small x (2 ^ 32) Hx).
  pose proof (rot_range x) as Hy.
  set (y := Z.lor _ _) in *.
  assert (Hrot : u32 (u32 (y + kMaskDelta) - kMaskDelta) = y).
  { unfold u32. rewrite Zminus_mod_idemp_l.
    replace (y + kMaskDelta - kMaskDelta) with y by lia.
    apply Z.mod_small. exact Hy. }
  rewrite Hrot. subst y. unfold u32. bits_solve.
Qed.

(** *** Slices *)

Lemma size_of_Slice (p : list byte) (n : Z) :
  0 <= n <= size_of p -> size_of (Slice p n) = n.
Proof. unfold size_of, Slice. intros H. rewrite length_take. lia. Qed.

Lemma size_of_advance (p : list byte) (n : Z) :
  0 <= n <= size_of p -> size_of (advance n p) = size_of p - n.
Proof. unfold size_of, advance. intros H. rewrite length_drop. lia. Qed.

Lemma Slice_advance (p : list byte) (n : Z) : Slice p n ++ advance n p = p.
Proof. apply take_drop. Qed.

Lemma Slice_all (p : list byte) (n : Z) : size_of p <= n -> Slice p n = p.
Proof. unfold size_of, Slice. intros H. apply take_ge. lia. Qed.

Lemma Slice_app_size (a b : list byte) : Slice (a ++ b) (size_of a) = a.
Proof. unfold Slice, size_of. rewrite Nat2Z.id. apply take_app_length. Qed.

(** *** The writer emits the items of [frame] *)

Lemma enc_items_app (crc : Crc32c) (a b : list item) :
  enc_items crc (a ++ b) = enc_items crc a ++ enc_items crc b.
Proof. unfold enc_items. by rewrite map_app, concat_app. Qed.

Lemma enc_items_one (crc : Crc32c) (it : item) :
  enc_items crc [it] = enc_item crc it.
Proof. unfold enc_items. cbn [map concat]. apply app_nil_r. Qed.

Lemma enc_items_cons (crc : Crc32c) (it : item) (its : list item) :
  enc_items crc (it :: its) = enc_item crc it ++ enc_items crc its.
Proof. reflexivity. Qed.

Lemma EmitPhysicalRecord_eq (crc : Crc32c) (w : Writer) (t : Z)
    (ptr : list byte) (n : Z) :
  type_crc_ w = InitTypeCrc crc -> 0 <= n <= size_of ptr ->
  EmitPhysicalRecord crc w t ptr n
  = (OK, {| dest_ := dest_ w ++ enc_item crc (Rec t (Slice ptr n));
            block_offset_ := block_offset_ w + kHeaderSize + n;
            type_crc_ := type_crc_ w |}).
Proof.
  intros Hcrc Hn. unfold EmitPhysicalRecord, enc_item, header_bytes.
  rewrite Hcrc, size_of_Slice by exact Hn. by rewrite <- !app_assoc.
Qed.

Lemma AddRecord_loop_frame (crc : Crc32c) (rounds : nat) :
  forall (w : Writer) (ptr : list byte) (begin : bool),
  type_crc_ w = InitTypeCrc crc ->
  AddRecord_loop rounds crc w ptr (size_of ptr) begin
  = match frame rounds (block_offset_ w) ptr (size_of ptr) begin with
    | Some (its, bo') =>
        Some (OK, {| dest_ := dest_ w ++ enc_items crc its;
                     block_offset_ := bo'; type_crc_ := type_crc_ w |})
    | None => None
    end.
Proof.
  induction rounds as [|rounds IH]; intros w ptr begin Hcrc; [done|].
  cbn [AddRecord_loop frame].
  set (leftover := kBlockSize - block_offset_ w).
  set (bo := if leftover <? kHeaderSize then 0 else block_offset_ w).
  set (avail := kBlockSize - bo - kHeaderSize).
  assert (Havail : 0 <= avail).
  { subst avail bo leftover.
    destruct (Z.ltb_spec (kBlockSize - block_offset_ w) kHeaderSize); log_lia. }
  pose proof (size_of_nonneg ptr) as Hptr.
  set (w1 := if leftover <? kHeaderSize then _ else w).
  assert (Hbo1 : block_offset_ w1 = bo).
  { subst w1 bo. by destruct (leftover <? kHeaderSize). }
  assert (Hcrc1 : type_crc_ w1 = InitTypeCrc crc).
  { subst w1. by destruct (leftover <? kHeaderSize). }
  rewrite Hbo1. fold avail.
  set (frag := if size_of ptr <? avail then size_of ptr else avail).
  assert (Hfrag : 0 <= frag <= size_of ptr).
  { subst frag. destruct (Z.ltb_spec (size_of ptr) avail); lia. }
  set (type := if begin && (size_of ptr =? frag) then kFullType else _).
  set (pad := if (leftover <? kHeaderSize) && (0 <? leftover)
              then [Pad leftover] else []).
  assert (Hd1 : dest_ w1 = dest_ w ++ enc_items crc pad).
  { subst w1 pad. unfold enc_items.
    destruct (leftover <? kHeaderSize); cbn [andb dest_].
    - destruct (0 <? leftover); cbn [map concat enc_item];
        by rewrite ?app_nil_r.
    - cbn [map concat]. by rewrite app_nil_r. }
  rewrite (EmitPhysicalRecord_eq crc w1 type ptr frag Hcrc1 Hfrag).
  cbn [Status_ok andb]. rewrite Hbo1, Hd1, Hcrc1.
  rewrite <- (size_of_advance ptr frag Hfrag).
  assert (Hd2 : (dest_ w ++ enc_items crc pad)
                  ++ enc_item crc (Rec type (Slice ptr frag))
                = dest_ w
                  ++ enc_items crc (pad ++ [Rec type (Slice ptr frag)])).
  { by rewrite enc_items_app, enc_items_one, <- app_assoc. }
  rewrite Hd2.
  destruct (0 <? size_of (advance frag ptr)).
  - rewrite IH by reflexivity. cbn [block_offset_ type_crc_ dest_].
    destruct (frame rounds _ _ _ false) as [[its' bo']|]; [|done].
    rewrite !enc_items_app, <- !app_assoc, Hcrc. reflexivity.
  - rewrite Hcrc. reflexivity.
Qed.

End LogWriterProps.

Section LogPhysicalProps.
Import Log.

(** *** Reading back one physical record *)

Lemma header_bytes_length (crc : Crc32c) (t : Z) (p : list byte) :
  size_of (header_bytes crc t p) = 7.
Proof. reflexivity. Qed.

Lemma enc_item_Rec_size (crc : Crc32c) (t : Z) (p : list byte) :
  size_of (enc_item crc (Rec t p)) = 7 + size_of p.
Proof. cbn [enc_item]. rewrite size_of_app. reflexivity. Qed.

Lemma length_field (n : Z) :
  0 <= n < 2 ^ 16 ->
  Z.lor (Z.land (byte_to_Z (Z_to_byte (Z.land n 255))) 255)
        (Z.shiftl (Z.land (byte_to_Z (Z_to_byte (Z.shiftr n 8))) 255) 8) = n.
Proof.
  intros Hn. rewrite !Z_to_byte_to_Z, !land_255.
  change 256 with (2 ^ 8). rewrite <- (Z.mod_small n (2 ^ 16) Hn) at 3.
  bits_solve.
Qed.

Lemma type_field (t : Z) :
  0 <= t < 128 -> char_to_uint (Z_to_byte t) = t.
Proof.
  intros Ht. unfold char_to_uint. rewrite Z_to_byte_small by lia.
  destruct (Z.ltb_spec t 128); [reflexivity|lia].
Qed.

Lemma InitTypeCrc_nth (crc : Crc32c) (t : Z) :
  Crc32c_ok crc -> 0 <= t <= 4 ->
  nth (Z.to_nat t) (InitTypeCrc crc) 0 = crc_Value crc [Z_to_byte t].
Proof.
  intros (Hrange & _) Ht. unfold InitTypeCrc.
  assert (Hu : forall d, u32 (crc_Value crc d) = crc_Value crc d)
    by (intros d; apply Z.mod_small, Hrange).
  assert (Hc : t = 0 \/ t = 1 \/ t = 2 \/ t = 3 \/ t = 4) by lia.
  destruct Hc as [->|[->|[->|[->| ->]]]]; cbn [map nth Z.to_nat Pos.to_nat
    Pos.iter_op Nat.add]; log_consts; apply Hu.
Qed.

Lemma checksum_field (crc : Crc32c) (t : Z) (p more : list byte) :
  Crc32c_ok crc -> 0 <= t <= 4 ->
  let h := enc_item crc (Rec t p) ++ more in
  u32 (crc_Value crc (Slice (advance 6 h) (1 + size_of p)))
  = Unmask (Coding.DecodeFixed32 h).
Proof.
  intros Hok Ht h. pose proof Hok as (Hrange & Hext).
  subst h. cbn [enc_item]. unfold header_bytes.
  rewrite <- !app_assoc. rewrite DecodeFixed32_EncodeFixed32.
  assert (Hm : forall c, u32 (Mask c) = Mask c).
  { intros c. apply Z.mod_small. unfold Mask, u32. apply Z.mod_pos_bound. lia. }
  rewrite Hm.
  rewrite Unmask_Mask by (unfold u32; apply Z.mod_pos_bound; lia).
  rewrite InitTypeCrc_nth, Hext by assumption.
  f_equal. f_equal.
  replace (advance 6 _) with ((Z_to_byte t :: p) ++ more) by reflexivity.
  replace (1 + size_of p) with (size_of (Z_to_byte t :: p))
    by (unfold size_of; cbn [length]; lia).
  apply Slice_app_size.
Qed.

Lemma u64_not_neg (x : Z) : (u64 x <? 0) = false.
Proof.
  apply Z.ltb_ge. unfold u64. apply Z.mod_pos_bound. lia.
Qed.

(** A round of [ReadPhysicalRecord] that finds a whole record at the
    front of the buffer returns it. *)
Lemma ReadPhysicalRecord_parse (crc : Crc32c) (rounds : nat) (r : Reader)
    (result : list byte) (t : Z) (p tail : list byte) :
  Crc32c_ok crc -> 1 <= t <= 4 -> size_of p < 2 ^ 16 ->
  initial_offset_ r = 0 ->
  buffer_ r = enc_item crc (Rec t p) ++ tail ->
  ReadPhysicalRecord_loop (S rounds) crc r result
  = Some (t, p, set_buffer r tail).
Proof.
  intros Hok Ht Hp Hinit Hbuf. cbn [ReadPhysicalRecord_loop].
  pose proof (size_of_nonneg p) as Hp0. pose proof (size_of_nonneg tail) as Ht0.
  assert (Hsz : size_of (buffer_ r) = 7 + size_of p + size_of tail).
  { rewrite Hbuf, size_of_app, enc_item_Rec_size. lia. }
  destruct (Z.ltb_spec (size_of (buffer_ r)) kHeaderSize) as [Hlt|_];
    [log_lia|].
  assert (Hlen : Z.lor (Z.land (byte_at (buffer_ r) 4) 255)
                   (Z.shiftl (Z.land (byte_at (buffer_ r) 5) 255) 8)
                 = size_of p).
  { rewrite Hbuf. cbn [enc_item]. unfold header_bytes.
    change (byte_at _ 4) with (byte_to_Z (Z_to_byte (Z.land (size_of p) 255))).
    change (byte_at _ 5) with (byte_to_Z (Z_to_byte (Z.shiftr (size_of p) 8))).
    apply length_field. lia. }
  assert (Hty : char_to_uint (nth 6 (buffer_ r) x00) = t).
  { rewrite Hbuf. cbn [enc_item]. unfold header_bytes.
    change (nth 6 _ x00) with (Z_to_byte t). apply type_field. lia. }
  rewrite Hlen, Hty.
  destruct (Z.ltb_spec (size_of (buffer_ r)) (kHeaderSize + size_of p));
    [log_lia|].
  destruct (Z.eqb_spec t kZeroType); [log_lia|]. cbn [andb].
  assert (Hck : (u32 (crc_Value crc (Slice (advance 6 (buffer_ r))
                                           (1 + size_of p)))
                 =? Unmask (Coding.DecodeFixed32 (buffer_ r))) = true).
  { apply Z.eqb_eq. rewrite Hbuf. apply checksum_field; [assumption|lia]. }
  rewrite Hck. cbn [negb]. rewrite andb_false_r.
  assert (Hadv : advance (kHeaderSize + size_of p) (buffer_ r) = tail).
  { rewrite Hbuf. replace (kHeaderSize + size_of p)
      with (size_of (enc_item crc (Rec t p)))
      by (rewrite enc_item_Rec_size; reflexivity).
    apply advance_app_size. }
  assert (Hpay : Slice (advance kHeaderSize (buffer_ r)) (size_of p) = p).
  { rewrite Hbuf. cbn [enc_item]. rewrite <- app_assoc.
    replace kHeaderSize with (size_of (header_bytes crc t p))
      by (rewrite header_bytes_length; reflexivity).
    rewrite advance_app_size. apply Slice_app_size. }
  rewrite Hadv, Hpay. cbn [initial_offset_ set_buffer]. rewrite Hinit.
  rewrite u64_not_neg. reflexivity.
Qed.

Lemma ReadPhysicalRecord_refill (crc : Crc32c) (rounds : nat) (r : Reader)
    (result : list byte) :
  size_of (buffer_ r) < kHeaderSize -> eof_ r = false ->
  ReadPhysicalRecord_loop (S rounds) crc r result
  = ReadPhysicalRecord_loop rounds crc (refill r) result.
Proof.
  intros Hlt Heof. cbn [ReadPhysicalRecord_loop].
  destruct (Z.ltb_spec (size_of (buffer_ r)) kHeaderSize); [|lia].
  rewrite Heof. unfold refill. reflexivity.
Qed.

Lemma size_of_zero_nil (l : list byte) : size_of l = 0 -> l = [].
Proof. destruct l; [done|]. unfold size_of. cbn [length]. lia. Qed.

Lemma Slice_app_ge (a b : list byte) (n : Z) :
  size_of a <= n -> Slice (a ++ b) n = a ++ Slice b (n - size_of a).
Proof.
  unfold Slice, size_of. intros H. rewrite take_app_ge by lia.
  do 2 f_equal. lia.
Qed.

Lemma advance_app_ge (a b : list byte) (n : Z) :
  size_of a <= n -> advance n (a ++ b) = advance (n - size_of a) b.
Proof.
  unfold advance, size_of. intros H. rewrite drop_app_ge by lia.
  f_equal. lia.
Qed.

Lemma app_split_prefix (buffer file h rest : list byte) :
  buffer ++ file = h ++ rest -> size_of h <= size_of buffer ->
  exists tail, buffer = h ++ tail /\ tail ++ file = rest.
Proof.
  unfold size_of. intros Heq Hlen.
  exists (drop (length h) buffer). split.
  - rewrite <- (take_drop (length h) buffer) at 1. f_equal.
    apply (f_equal (take (length h))) in Heq.
    rewrite take_app_le, take_app_length in Heq by lia. exact Heq.
  - apply (f_equal (drop (length h))) in Heq.
    rewrite drop_app_le, drop_app_length in Heq by lia. exact Heq.
Qed.

(** The reader after [refill], in terms of the file before it. *)
Lemma refill_spec (r : Reader) :
  exists r1, refill r = r1 /\
  initial_offset_ r1 = initial_offset_ r /\
  resyncing_ r1 = resyncing_ r /\
  last_record_offset_ r1 = last_record_offset_ r /\
  reported_ r1 = reported_ r /\ reporter_ r1 = reporter_ r /\
  checksum_ r1 = checksum_ r /\
  buffer_ r1 = Slice (file_ r) kBlockSize /\
  file_ r1 = advance kBlockSize (file_ r) /\
  (size_of (file_ r) < kBlockSize -> eof_ r1 = true) /\
  (kBlockSize <= size_of (file_ r) -> eof_ r1 = eof_ r).
Proof.
  exists (refill r). split; [reflexivity|].
  unfold refill. cbn [read_block set_buffer buffer_ file_].
  destruct (Z.ltb_spec (size_of (Slice (file_ r) kBlockSize)) kBlockSize)
    as [Hlt|Hge].
  - repeat split; try reflexivity.
    intros Hbig. rewrite size_of_Slice in Hlt by log_lia. lia.
  - repeat split; try reflexivity.
    intros Hshort. rewrite Slice_all in Hge by lia. lia.
Qed.

Lemma read_rec_refilled (crc : Crc32c) (t : Z) (p rest : list byte)
    (r0 : Reader) (result : list byte) :
  Crc32c_ok crc -> 1 <= t <= 4 ->
  file_ r0 = enc_item crc (Rec t p) ++ rest ->
  size_of (buffer_ r0) < kHeaderSize ->
  eof_ r0 = false -> initial_offset_ r0 = 0 -> resyncing_ r0 = false ->
  0 <= last_record_offset_ r0 -> 7 + size_of p <= kBlockSize ->
  exists r',
    ReadPhysicalRecord_loop 3 crc r0 result = Some (t, p, r') /\
    reader_at (0 + 7 + size_of p) rest r' /\ same_sink r0 r'.
Proof.
  intros Hok Ht Hfile Hsmall Heof0 Hinit0 Hres0 Hlast0 Hfit0.
  pose proof (size_of_nonneg p) as Hp0.
  pose proof (size_of_nonneg rest) as Hr0.
  pose proof (enc_item_Rec_size crc t p) as Hh.
  assert (Hp16 : size_of p < 2 ^ 16) by log_lia.
  assert (Hle : size_of (enc_item crc (Rec t p)) <= kBlockSize) by log_lia.
  rewrite ReadPhysicalRecord_refill by assumption.
  destruct (refill_spec r0)
    as (r1 & -> & Hi & Hrs & Hl & Hrep & Hrp & Hck & Hb & Hf & Hshort & Hfull).
  rewrite Hfile, (Slice_app_ge _ _ _ Hle) in Hb.
  rewrite Hfile, (advance_app_ge _ _ _ Hle) in Hf.
  rewrite Hfile, size_of_app in Hshort, Hfull.
  assert (Hi0 : initial_offset_ r1 = 0) by congruence.
  rewrite (ReadPhysicalRecord_parse crc 1 r1 result t p
             (Slice rest (kBlockSize - size_of (enc_item crc (Rec t p))))
             Hok Ht Hp16 Hi0 Hb).
  eexists. split; [reflexivity|]. split.
  - unfold reader_at. cbn [set_buffer initial_offset_ resyncing_
      last_record_offset_ eof_ file_ buffer_].
    rewrite Hi, Hrs, Hl, Hf.
    split; [assumption|]. split; [assumption|]. split; [assumption|].
    split; [log_lia|].
    destruct (Z.le_gt_cases kBlockSize
                (size_of (enc_item crc (Rec t p)) + size_of rest))
      as [Hbig|Hsml].
    + rewrite (Hfull Hbig), Heof0.
      left. split; [apply Slice_advance|].
      rewrite size_of_Slice by log_lia. log_lia.
    + rewrite (Hshort Hsml).
      rewrite Slice_all by lia.
      split; [|split; [reflexivity|log_lia]].
      unfold advance. apply drop_ge. unfold size_of in *. lia.
  - unfold same_sink. cbn [set_buffer reported_ reporter_ checksum_].
    rewrite Hrep, Hrp, Hck. tauto.
Qed.

Lemma read_rec_buffered (crc : Crc32c) (bo : Z) (t : Z) (p tail rest : list byte)
    (r : Reader) (result : list byte) :
  Crc32c_ok crc -> 1 <= t <= 4 -> size_of p < 2 ^ 16 ->
  initial_offset_ r = 0 -> resyncing_ r = false ->
  0 <= last_record_offset_ r ->
  buffer_ r = enc_item crc (Rec t p) ++ tail ->
  reader_at bo rest (set_buffer r tail) ->
  exists r',
    ReadPhysicalRecord_loop 3 crc r result = Some (t, p, r') /\
    reader_at bo rest r' /\ same_sink r r'.
Proof.
  intros Hok Ht Hp16 Hinit Hres Hlast Hbuf Hat.
  rewrite (ReadPhysicalRecord_parse crc 2 r result t p tail
             Hok Ht Hp16 Hinit Hbuf).
  eexists. split; [reflexivity|]. split; [exact Hat|].
  unfold same_sink. cbn [set_buffer reported_ reporter_ checksum_]. tauto.
Qed.

Lemma read_physical_rec (crc : Crc32c) (bo : Z) (t : Z) (p rest : list byte)
    (r : Reader) (result : list byte) :
  Crc32c_ok crc -> 1 <= t <= 4 ->
  (bo + 7 + size_of p <= kBlockSize \/
   (bo = kBlockSize /\ 7 + size_of p <= kBlockSize)) ->
  reader_at bo (enc_item crc (Rec t p) ++ rest) r ->
  exists r',
    ReadPhysicalRecord_loop 3 crc r result = Some (t, p, r') /\
    reader_at ((if bo =? kBlockSize then 0 else bo) + 7 + size_of p) rest r' /\
    same_sink r r'.
Proof.
  intros Hok Ht Hfit (Hinit & Hres & Hlast & Hbo & Hst).
  pose proof (size_of_nonneg p) as Hp0.
  pose proof (size_of_nonneg rest) as Hr0.
  pose proof (enc_item_Rec_size crc t p) as Hh.
  assert (Hp16 : size_of p < 2 ^ 16) by (log_lia).
  destruct (eof_ r) eqn:Heof.
  - (* the last block of the file is in the buffer *)
    destruct Hst as (Hfile & Hbuf & Hlt).
    rewrite size_of_app in Hlt.
    apply read_rec_buffered with (tail := rest); try assumption.
    unfold reader_at. cbn [set_buffer initial_offset_ resyncing_
      last_record_offset_ eof_ file_ buffer_]. rewrite Heof.
    destruct (Z.eqb_spec bo kBlockSize); [log_lia|].
    repeat split; try assumption; log_lia.
  - destruct Hst as [(Hcat & Hsum)|(Hfile & Hsmall & Hbo0)].
    + destruct Hfit as [Hfit|(-> & Hfit)].
      * (* the record lies in the buffer *)
        destruct (app_split_prefix _ _ _ _ Hcat ltac:(log_lia))
          as (tail & Hbuf & Htail).
        apply read_rec_buffered with (tail := tail); try assumption.
        unfold reader_at. cbn [set_buffer initial_offset_ resyncing_
          last_record_offset_ eof_ file_ buffer_]. rewrite Heof.
        destruct (Z.eqb_spec bo kBlockSize);
          [pose proof (size_of_nonneg tail); log_lia|].
        split; [assumption|]. split; [assumption|]. split; [assumption|].
        split; [log_lia|]. left. split; [exact Htail|].
        rewrite Hbuf, size_of_app in Hsum. lia.
      * (* the buffer is used up: the record starts the next block *)
        assert (Hb0 : buffer_ r = []) by (apply size_of_zero_nil; lia).
        rewrite Hb0 in Hcat. cbn [app] in Hcat.
        rewrite Z.eqb_refl.
        apply read_rec_refilled; try assumption.
        rewrite Hb0, size_of_nil. log_lia.
    + assert (Hfit0 : 7 + size_of p <= kBlockSize) by (log_lia).
      destruct Hbo0 as [->| ->]; [|rewrite Z.eqb_refl];
        apply read_rec_refilled; assumption.
Qed.

(** The zero bytes at the end of a block are skipped without a step of
    their own: the reader finds less than a header in the buffer. *)
Lemma skip_pad (crc : Crc32c) (bo k : Z) (rest : list byte) (r : Reader) :
  0 < k < kHeaderSize -> bo + k = kBlockSize ->
  reader_at bo (enc_item crc (Pad k) ++ rest) r ->
  reader_at 0 rest r.
Proof.
  intros Hk Hbo (Hinit & Hres & Hlast & Hrange & Hst).
  assert (Hpad : size_of (enc_item crc (Pad k)) = k).
  { cbn [enc_item]. apply size_of_Slice.
    change (size_of (replicate 6 x00)) with 6. log_lia. }
  pose proof (size_of_nonneg rest) as Hr0.
  unfold reader_at.
  split; [assumption|]. split; [assumption|]. split; [assumption|].
  split; [log_lia|].
  destruct (eof_ r).
  - destruct Hst as (_ & _ & Hlt). rewrite size_of_app in Hlt. lia.
  - right. destruct Hst as [(Hcat & Hsum)|(_ & _ & Hbo0)]; [|log_lia].
    destruct (app_split_prefix _ _ _ _ Hcat ltac:(lia))
      as (tail & Hbuf & Htail).
    assert (Ht : tail = []).
    { apply size_of_zero_nil. rewrite Hbuf, size_of_app in Hsum.
      pose proof (size_of_nonneg tail). lia. }
    subst tail. cbn [app] in Htail.
    split; [exact Htail|]. split; [lia|]. left; reflexivity.
Qed.

(** At the end of a well-formed file the reader reports the end. *)
Lemma read_eof (crc : Crc32c) (bo : Z) (r : Reader) (result : list byte) :
  reader_at bo [] r ->
  exists r' bo',
    ReadPhysicalRecord_loop 3 crc r result = Some (kEof, result, r') /\
    reader_at bo' [] r' /\ same_sink r r'.
Proof.
  intros (Hinit & Hres & Hlast & Hrange & Hst).
  destruct (eof_ r) eqn:Heof.
  - destruct Hst as (Hfile & Hbuf & Hlt).
    exists (set_buffer r []), bo. split.
    + cbn [ReadPhysicalRecord_loop]. rewrite Hbuf, Heof. reflexivity.
    + split; [|unfold same_sink; cbn [set_buffer reported_ reporter_
                 checksum_]; tauto].
      unfold reader_at. cbn [set_buffer initial_offset_ resyncing_
        last_record_offset_ eof_ file_ buffer_]. rewrite Heof.
      repeat split; try assumption; lia.
  - assert (Hsmall : size_of (buffer_ r) < kHeaderSize /\ file_ r = []).
    { destruct Hst as [(Hcat & _)|(Hfile & Hsmall & _)].
      - apply app_eq_nil in Hcat as (Hb & Hf).
        rewrite Hb, size_of_nil. split; [log_lia|exact Hf].
      - split; assumption. }
    destruct Hsmall as (Hsmall & Hfile).
    rewrite ReadPhysicalRecord_refill by assumption.
    destruct (refill_spec r)
      as (r1 & -> & Hi & Hrs & Hl & Hrep & Hrp & Hck & Hb & Hf & Hshort & _).
    rewrite Hfile in Hb, Hf, Hshort.
    assert (Hb1 : buffer_ r1 = []) by (rewrite Hb; reflexivity).
    assert (Hf1 : file_ r1 = []) by (rewrite Hf; reflexivity).
    assert (He1 : eof_ r1 = true) by (apply Hshort; rewrite size_of_nil; log_lia).
    exists (set_buffer r1 []), 0. split.
    + cbn [ReadPhysicalRecord_loop]. rewrite Hb1, He1. reflexivity.
    + split.
      * unfold reader_at. cbn [set_buffer initial_offset_ resyncing_
          last_record_offset_ eof_ file_ buffer_].
        rewrite He1, Hi, Hrs, Hl, Hf1, size_of_nil.
        repeat split; try assumption; log_lia.
      * unfold same_sink. cbn [set_buffer reported_ reporter_ checksum_].
        rewrite Hrep, Hrp, Hck. tauto.
Qed.

End LogPhysicalProps.
Section LogRecordProps.
Import Log.

(** *** The items of a logical record *)

(** [AddRecord] gives its loop enough rounds: a round that emits no payload
    ends a block, and the next one emits some. *)
Lemma frame_total (rounds : nat) :
  forall (bo : Z) (ptr : list byte) (left : Z) (begin : bool),
  0 <= bo <= kBlockSize -> 0 <= left ->
  2 * left + 2 <= Z.of_nat rounds \/
  (kBlockSize - bo <> kHeaderSize /\ 2 * left + 1 <= Z.of_nat rounds) ->
  exists its bo', frame rounds bo ptr left begin = Some (its, bo').
Proof.
  induction rounds as [|rounds IH]; intros bo ptr left begin Hbo Hleft Hfuel;
    [lia|].
  cbn [frame].
  set (leftover := kBlockSize - bo).
  set (bo1 := if leftover <? kHeaderSize then 0 else bo).
  set (avail := kBlockSize - bo1 - kHeaderSize).
  set (frag := if left <? avail then left else avail).
  assert (Hb1 : 0 <= avail /\ (leftover <> kHeaderSize -> 0 < avail)).
  { subst avail bo1 leftover.
    destruct (Z.ltb_spec (kBlockSize - bo) kHeaderSize); log_lia. }
  destruct (Z.ltb_spec 0 (left - frag)) as [Hmore|Hdone]; [|eauto].
  destruct (IH (bo1 + kHeaderSize + frag) (advance frag ptr) (left - frag)
              false) as (its' & bo' & ->); [| |right|eauto].
  - subst frag. destruct (Z.ltb_spec left avail); log_lia.
  - lia.
  - subst frag. destruct (Z.ltb_spec left avail); [lia|].
    subst avail. split; [log_lia|].
    destruct Hfuel as [Hfuel|(Hne & Hfuel)]; [lia|].
    destruct Hb1 as (_ & Hpos). specialize (Hpos Hne). lia.
Qed.

(** The block offset stays within the block. *)
Lemma frame_offset (rounds : nat) :
  forall (bo : Z) (ptr : list byte) (left : Z) (begin : bool)
         (its : list item) (bo' : Z),
  0 <= bo <= kBlockSize -> 0 <= left ->
  frame rounds bo ptr left begin = Some (its, bo') ->
  0 <= bo' <= kBlockSize.
Proof.
  induction rounds as [|rounds IH];
    intros bo ptr left begin its bo' Hbo Hleft Hfr; [discriminate|].
  cbn [frame] in Hfr.
  set (leftover := kBlockSize - bo) in Hfr.
  set (bo1 := if leftover <? kHeaderSize then 0 else bo) in Hfr.
  set (avail := kBlockSize - bo1 - kHeaderSize) in Hfr.
  set (frag := if left <? avail then left else avail) in Hfr.
  assert (Hb1 : 0 <= bo1 /\ 0 <= avail).
  { subst avail bo1 leftover.
    destruct (Z.ltb_spec (kBlockSize - bo) kHeaderSize); log_lia. }
  assert (Hfrag : 0 <= frag <= avail /\ frag <= left).
  { subst frag. destruct (Z.ltb_spec left avail); lia. }
  assert (Hbo2 : 0 <= bo1 + kHeaderSize + frag <= kBlockSize)
    by (subst avail; log_lia).
  destruct (0 <? left - frag).
  - destruct (frame rounds _ _ _ false) as [[its' bo'']|] eqn:Hrec;
      [|discriminate].
    injection Hfr as _ <-.
    assert (Hleft' : 0 <= left - frag) by lia.
    apply (IH _ _ _ _ _ _ Hbo2 Hleft' Hrec).
  - injection Hfr as _ <-. exact Hbo2.
Qed.

Lemma enc_item_nonempty (crc : Crc32c) (it : item) :
  match it with Rec _ _ => True | Pad k => 0 < k end ->
  (1 <= length (enc_item crc it))%nat.
Proof.
  destruct it as [t p|k]; intros Hk; cbn [enc_item].
  - unfold header_bytes. rewrite !length_app. cbn [length]. lia.
  - unfold Slice. rewrite length_take, length_replicate. lia.
Qed.

(** Every item takes room in the file, so a file has at least as many
    bytes as items. *)
Lemma frame_items_length (crc : Crc32c) (rounds : nat) :
  forall (bo : Z) (ptr : list byte) (left : Z) (begin : bool)
         (its : list item) (bo' : Z),
  frame rounds bo ptr left begin = Some (its, bo') ->
  (length its <= length (enc_items crc its))%nat.
Proof.
  induction rounds as [|rounds IH];
    intros bo ptr left begin its bo' Hfr; [discriminate|].
  cbn [frame] in Hfr.
  set (leftover := kBlockSize - bo) in Hfr.
  set (pad := if (leftover <? kHeaderSize) && (0 <? leftover)
              then [Pad leftover] else []) in Hfr.
  assert (Hpad : (length pad <= length (enc_items crc pad))%nat).
  { subst pad. destruct (leftover <? kHeaderSize); cbn [andb]; [|done].
    destruct (Z.ltb_spec 0 leftover); [|done].
    rewrite enc_items_one. apply (enc_item_nonempty crc (Pad leftover)).
    assumption. }
  set (bo1 := if leftover <? kHeaderSize then 0 else bo) in Hfr.
  set (avail := kBlockSize - bo1 - kHeaderSize) in Hfr.
  set (frag := if left <? avail then left else avail) in Hfr.
  set (type := if begin && (left =? frag) then kFullType else _) in Hfr.
  pose proof (enc_item_nonempty crc (Rec type (Slice ptr frag)) I) as Hrec.
  destruct (0 <? left - frag).
  - destruct (frame rounds _ _ _ false) as [[its' bo'']|] eqn:Hrest;
      [|discriminate].
    injection Hfr as <- _. apply IH in Hrest.
    rewrite !enc_items_app, enc_items_one, !length_app. cbn [length]. lia.
  - injection Hfr as <- _.
    rewrite !enc_items_app, enc_items_one, !length_app. cbn [length]. lia.
Qed.

(** *** Reading back a logical record *)

Lemma reader_at_length (bo : Z) (rem : list byte) (r : Reader) :
  reader_at bo rem r ->
  (length rem <= length (file_ r) + length (buffer_ r))%nat.
Proof.
  intros (_ & _ & _ & _ & Hst). destruct (eof_ r).
  - destruct Hst as (_ & <- & _). lia.
  - destruct Hst as [(<- & _)|(<- & _)]; rewrite ?length_app; lia.
Qed.

Lemma reader_at_set_last (bo : Z) (rem : list byte) (r : Reader) (off : Z) :
  0 <= off -> reader_at bo rem r ->
  reader_at bo rem (set_last_record_offset r off).
Proof.
  intros Hoff (Hinit & Hres & Hlast & Hbo & Hst). unfold reader_at.
  cbn [set_last_record_offset initial_offset_ resyncing_
    last_record_offset_ eof_ file_ buffer_]. tauto.
Qed.

Lemma same_sink_refl (r : Reader) : same_sink r r.
Proof. unfold same_sink. tauto. Qed.

Lemma same_sink_trans (r1 r2 r3 : Reader) :
  same_sink r1 r2 -> same_sink r2 r3 -> same_sink r1 r3.
Proof.
  unfold same_sink. intros (? & ? & ?) (? & ? & ?).
  repeat split; congruence.
Qed.

Lemma same_sink_set_last (r r' : Reader) (off : Z) :
  same_sink r r' -> same_sink r (set_last_record_offset r' off).
Proof. unfold same_sink. cbn [set_last_record_offset reported_ reporter_
  checksum_]. tauto. Qed.

Lemma u64_nonneg (x : Z) : 0 <= u64 x.
Proof. unfold u64. apply Z.mod_pos_bound. lia. Qed.

(** The [switch] of [ReadRecord] on the records a writer emits. *)
Lemma switch_Full (r : Reader) (fragment scratch : list byte)
    (offset prospective : Z) :
  ReadRecord_switch r kFullType fragment offset scratch false prospective
  = Return true fragment [] (set_last_record_offset r offset).
Proof. reflexivity. Qed.

Lemma switch_First (r : Reader) (fragment scratch : list byte)
    (offset prospective : Z) :
  ReadRecord_switch r kFirstType fragment offset scratch false prospective
  = Continue r fragment true offset.
Proof. reflexivity. Qed.

Lemma switch_Middle (r : Reader) (fragment scratch : list byte)
    (offset prospective : Z) :
  ReadRecord_switch r kMiddleType fragment offset scratch true prospective
  = Continue r (scratch ++ fragment) true prospective.
Proof. reflexivity. Qed.

Lemma switch_Last (r : Reader) (fragment scratch : list byte)
    (offset prospective : Z) :
  ReadRecord_switch r kLastType fragment offset scratch true prospective
  = Return true (scratch ++ fragment) (scratch ++ fragment)
      (set_last_record_offset r prospective).
Proof. reflexivity. Qed.

Lemma switch_Eof (r : Reader) (fragment scratch : list byte)
    (offset prospective : Z) :
  ReadRecord_switch r kEof fragment offset scratch false prospective
  = Return false [] scratch r.
Proof. reflexivity. Qed.

(** The first record of a round of the writer's loop, behind the zero
    bytes that may precede it. *)
Lemma read_head (crc : Crc32c) (bo t : Z) (p rest : list byte) (r : Reader)
    (result : list byte) :
  Crc32c_ok crc -> 0 <= bo <= kBlockSize -> 1 <= t <= 4 ->
  let leftover := kBlockSize - bo in
  let pad := if (leftover <? kHeaderSize) && (0 <? leftover)
             then [Pad leftover] else [] in
  let bo1 := if leftover <? kHeaderSize then 0 else bo in
  bo1 + kHeaderSize + size_of p <= kBlockSize ->
  reader_at bo (enc_items crc (pad ++ [Rec t p]) ++ rest) r ->
  exists r',
    ReadPhysicalRecord_loop 3 crc r result = Some (t, p, r') /\
    reader_at (bo1 + kHeaderSize + size_of p) rest r' /\ same_sink r r'.
Proof.
  intros Hok Hbo Ht leftover pad bo1 Hfit Hat.
  pose proof (size_of_nonneg p) as Hp0.
  subst pad bo1. rewrite enc_items_app, enc_items_one in Hat.
  assert (H0B : (0 =? kBlockSize) = false) by reflexivity.
  replace (_ + kHeaderSize + size_of p)
    with ((if leftover <? kHeaderSize then 0 else bo) + 7 + size_of p)
    by reflexivity.
  destruct (Z.ltb_spec leftover kHeaderSize) as [Hsmall|Hbig]; cbn [andb] in *.
  - destruct (Z.ltb_spec 0 leftover) as [Hpos|Hzero].
    + rewrite enc_items_one, <- app_assoc in Hat.
      apply skip_pad in Hat; [|subst leftover; log_lia..].
      destruct (read_physical_rec crc 0 t p rest r result Hok Ht
                  ltac:(left; log_lia) Hat) as (r' & Heq & Hat' & Hs).
      rewrite H0B in Hat'. eauto.
    + assert (Hb : bo = kBlockSize) by (subst leftover; lia). subst bo.
      cbn [enc_items map concat app] in Hat.
      destruct (read_physical_rec crc kBlockSize t p rest r result Hok Ht
                  ltac:(right; log_lia) Hat) as (r' & Heq & Hat' & Hs).
      rewrite Z.eqb_refl in Hat'. eauto.
  - cbn [enc_items map concat app] in Hat.
    destruct (read_physical_rec crc bo t p rest r result Hok Ht
                ltac:(left; log_lia) Hat) as (r' & Heq & Hat' & Hs).
    destruct (Z.eqb_spec bo kBlockSize); [subst leftover; log_lia|]. eauto.
Qed.

(** [ReadRecord]'s loop reassembles the fragments [AddRecord]'s loop
    wrote. *)
Lemma read_frame (crc : Crc32c) (rounds : nat) :
  Crc32c_ok crc ->
  forall (bo : Z) (ptr : list byte) (begin : bool) (its : list item)
         (bo' : Z) (fuel : nat) (r : Reader) (rest scratch fragment : list byte)
         (prospective : Z),
  frame rounds bo ptr (size_of ptr) begin = Some (its, bo') ->
  0 <= bo <= kBlockSize -> 0 <= prospective ->
  (length its <= fuel)%nat ->
  reader_at bo (enc_items crc its ++ rest) r ->
  exists r' scratch',
    ReadRecord_loop fuel crc r scratch fragment (negb begin) prospective
    = Some (true, (if begin then [] else scratch) ++ ptr, scratch', r') /\
    reader_at bo' rest r' /\ same_sink r r'.
Proof.
  intros Hok.
  induction rounds as [|rounds IH];
    intros bo ptr begin its bo' fuel r rest scratch fragment prospective
           Hfr Hbo Hpro Hfuel Hat; [discriminate|].
  cbn [frame] in Hfr.
  set (leftover := kBlockSize - bo) in Hfr.
  set (pad := if (leftover <? kHeaderSize) && (0 <? leftover)
              then [Pad leftover] else []) in Hfr.
  set (bo1 := if leftover <? kHeaderSize then 0 else bo) in Hfr.
  set (avail := kBlockSize - bo1 - kHeaderSize) in Hfr.
  set (frag := if size_of ptr <? avail then size_of ptr else avail) in Hfr.
  set (type := if begin && (size_of ptr =? frag) then kFullType else _) in Hfr.
  pose proof (size_of_nonneg ptr) as Hptr.
  assert (Hb1 : 0 <= bo1 /\ 0 <= avail).
  { subst avail bo1 leftover.
    destruct (Z.ltb_spec (kBlockSize - bo) kHeaderSize); log_lia. }
  assert (Hfrag : 0 <= frag <= size_of ptr /\ frag <= avail).
  { subst frag. destruct (Z.ltb_spec (size_of ptr) avail); lia. }
  assert (Hsz : size_of (Slice ptr frag) = frag)
    by (apply size_of_Slice; lia).
  assert (Hty : 1 <= type <= 4).
  { subst type. destruct begin, (size_of ptr =? frag); cbn [andb]; log_lia. }
  assert (Hfit : bo1 + kHeaderSize + size_of (Slice ptr frag) <= kBlockSize)
    by (rewrite Hsz; subst avail; log_lia).
  assert (Hbo2 : 0 <= bo1 + kHeaderSize + frag <= kBlockSize)
    by (subst avail; log_lia).
  (* the items of this round, and those of the rounds after it *)
  assert (Hits : exists its',
            its = (pad ++ [Rec type (Slice ptr frag)]) ++ its' /\
            if 0 <? size_of ptr - frag
            then frame rounds (bo1 + kHeaderSize + frag) (advance frag ptr)
                   (size_of (advance frag ptr)) false = Some (its', bo')
            else its' = [] /\ bo' = bo1 + kHeaderSize + frag).
  { rewrite (size_of_advance ptr frag) by lia.
    destruct (0 <? size_of ptr - frag).
    - destruct (frame rounds _ _ _ false) as [[its' bo'']|]; [|discriminate].
      injection Hfr as <- <-. eauto.
    - injection Hfr as <- <-. exists []. by rewrite app_nil_r. }
  clear Hfr. destruct Hits as (its' & -> & Hrest).
  rewrite enc_items_app, <- app_assoc in Hat.
  destruct fuel as [|fuel];
    [rewrite !length_app in Hfuel; cbn [length] in Hfuel; lia|].
  assert (Hfuel' : (length its' <= fuel)%nat).
  { rewrite !length_app in Hfuel. cbn [length] in Hfuel. lia. }
  destruct (read_head crc bo type (Slice ptr frag) _ r fragment
              Hok Hbo Hty Hfit Hat) as (r1 & Hread & Hat1 & Hs1).
  rewrite Hsz in Hat1.
  pose proof Hat1 as (_ & Hres1 & _).
  cbn [ReadRecord_loop]. unfold ReadPhysicalRecord. rewrite Hread, Hres1.
  cbn [andb].
  set (offset := u64 _).
  assert (Hoff : 0 <= offset) by apply u64_nonneg.
  destruct (Z.eqb_spec (size_of ptr) frag) as [Hend|Hmore].
  - (* the last fragment *)
    destruct (Z.ltb_spec 0 (size_of ptr - frag)); [lia|].
    destruct Hrest as (-> & ->).
    cbn [enc_items map concat app] in Hat1.
    assert (Hall : Slice ptr frag = ptr) by (apply Slice_all; lia).
    rewrite Hall.
    destruct begin; subst type; cbn [andb negb].
    + rewrite switch_Full. do 2 eexists. split; [reflexivity|].
      split; [apply reader_at_set_last; assumption|].
      apply same_sink_set_last; assumption.
    + rewrite switch_Last. do 2 eexists. split; [reflexivity|].
      split; [apply reader_at_set_last; assumption|].
      apply same_sink_set_last; assumption.
  - (* more fragments follow *)
    destruct (Z.ltb_spec 0 (size_of ptr - frag)); [|lia].
    destruct begin; subst type; cbn [andb negb].
    + rewrite switch_First.
      destruct (IH _ _ false _ _ fuel r1 rest (Slice ptr frag)
                  (Slice ptr frag) offset Hrest Hbo2 Hoff Hfuel' Hat1)
        as (r' & scratch' & Heq & Hat' & Hs').
      cbn [negb] in Heq. rewrite Heq, Slice_advance.
      exists r', scratch'. split; [reflexivity|].
      split; [assumption|]. apply (same_sink_trans _ _ _ Hs1 Hs').
    + rewrite switch_Middle.
      destruct (IH _ _ false _ _ fuel r1 rest (scratch ++ Slice ptr frag)
                  (Slice ptr frag) prospective Hrest Hbo2 Hpro Hfuel' Hat1)
        as (r' & scratch' & Heq & Hat' & Hs').
      cbn [negb] in Heq. rewrite Heq, <- app_assoc, Slice_advance.
      exists r', scratch'. split; [reflexivity|].
      split; [assumption|]. apply (same_sink_trans _ _ _ Hs1 Hs').
Qed.

End LogRecordProps.
Section LogRoundTripProps.
Import Log.

(** *** CRC32C is a checksum as the log code expects it *)

Lemma log2_u32 (a : Z) : 0 <= a < 2 ^ 32 -> Z.log2 a < 32.
Proof.
  intros Ha. destruct (Z.eq_dec a 0) as [->|Hne]; [reflexivity|].
  apply Z.log2_lt_pow2; lia.
Qed.

Lemma lxor_u32 (a b : Z) :
  0 <= a < 2 ^ 32 -> 0 <= b < 2 ^ 32 -> 0 <= Z.lxor a b < 2 ^ 32.
Proof.
  intros Ha Hb.
  assert (H0 : 0 <= Z.lxor a b) by (apply Z.lxor_nonneg; lia).
  split; [exact H0|].
  destruct (Z.eq_dec (Z.lxor a b) 0) as [->|Hne]; [lia|].
  apply Z.log2_lt_pow2; [lia|].
  pose proof (Z.log2_lxor a b ltac:(lia) ltac:(lia)).
  pose proof (log2_u32 a Ha). pose proof (log2_u32 b Hb). lia.
Qed.

Lemma shiftr1_u32 (c : Z) : 0 <= c < 2 ^ 32 -> 0 <= Z.shiftr c 1 < 2 ^ 32.
Proof.
  intros Hc. rewrite Z.shiftr_div_pow2 by lia. change (2 ^ 1) with 2.
  split; [apply Z.div_pos; lia|]. apply Z.div_lt_upper_bound; lia.
Qed.

Lemma crc32c_bit_u32 (c : Z) : 0 <= c < 2 ^ 32 -> 0 <= crc32c_bit c < 2 ^ 32.
Proof.
  intros Hc. unfold crc32c_bit. pose proof (shiftr1_u32 c Hc).
  destruct (Z.testbit c 0); [|assumption]. apply lxor_u32; [assumption|lia].
Qed.

Lemma crc32c_byte_u32 (c : Z) (b : byte) :
  0 <= c < 2 ^ 32 -> 0 <= crc32c_byte c b < 2 ^ 32.
Proof.
  intros Hc. unfold crc32c_byte.
  assert (H0 : 0 <= Z.lxor c (byte_to_Z b) < 2 ^ 32).
  { apply lxor_u32; [assumption|]. pose proof (byte_to_Z_range b). lia. }
  cbn [Nat.iter nat_rect]. do 8 apply crc32c_bit_u32. exact H0.
Qed.

Lemma crc32c_fold_u32 (data : list byte) :
  forall c, 0 <= c < 2 ^ 32 -> 0 <= fold_left crc32c_byte data c < 2 ^ 32.
Proof.
  induction data as [|b data IH]; intros c Hc; [exact Hc|].
  cbn [fold_left]. apply IH, crc32c_byte_u32, Hc.
Qed.

Lemma crc32c_ok : Crc32c_ok crc32c.
Proof.
  split; cbn [crc_Value crc_Extend crc32c].
  - intros d. unfold crc32c_Value, crc32c_Extend.
    apply lxor_u32; [|lia]. apply crc32c_fold_u32. apply lxor_u32; lia.
  - intros a b. unfold crc32c_Value, crc32c_Extend.
    rewrite fold_left_app. do 2 f_equal.
    rewrite Z.lxor_assoc, Z.lxor_nilpotent, Z.lxor_0_r. reflexivity.
Qed.

(** *** The rounds of the writer's loop, one at a time *)

(** A round that finds less than a header's room starts a block. *)
Lemma frame_pad (rounds : nat) (bo : Z) (ptr : list byte) (left : Z)
    (begin : bool) :
  kBlockSize - bo < kHeaderSize ->
  frame rounds bo ptr left begin
  = match frame rounds 0 ptr left begin with
    | Some (its, bo') =>
        Some ((if 0 <? kBlockSize - bo then [Pad (kBlockSize - bo)] else [])
              ++ its, bo')
    | None => None
    end.
Proof.
  intros Hsmall. destruct rounds as [|rounds]; [reflexivity|].
  cbn [frame]. rewrite Z.sub_0_r.
  destruct (Z.ltb_spec (kBlockSize - bo) kHeaderSize); [|lia].
  change (kBlockSize <? kHeaderSize) with false. cbn [andb app].
  destruct (0 <? _).
  - destruct (frame rounds _ _ _ false) as [[its' bo']|]; [|reflexivity].
    by rewrite <- !app_assoc.
  - reflexivity.
Qed.

(** A round that has room for all that is left ends the record. *)
Lemma frame_last (rounds : nat) (bo : Z) (ptr : list byte) (left : Z)
    (begin : bool) :
  0 <= left <= kBlockSize - bo - kHeaderSize ->
  frame (S rounds) bo ptr left begin
  = Some ([Rec (if begin then kFullType else kLastType) (Slice ptr left)],
          bo + kHeaderSize + left).
Proof.
  intros Hfit. cbn [frame].
  destruct (Z.ltb_spec (kBlockSize - bo) kHeaderSize); [lia|]. cbn [andb app].
  set (frag := if left <? _ then left else _).
  assert (Hfrag : frag = left)
    by (subst frag; destruct (Z.ltb_spec left (kBlockSize - bo - kHeaderSize));
        lia).
  rewrite Hfrag, Z.eqb_refl, Z.sub_diag, andb_true_r.
  change (0 <? 0) with false. cbv iota. by destruct begin.
Qed.

(** A round that has not ends the block with a fragment. *)
Lemma frame_more (rounds : nat) (bo : Z) (ptr : list byte) (left : Z)
    (begin : bool) :
  0 <= kBlockSize - bo - kHeaderSize < left ->
  frame (S rounds) bo ptr left begin
  = let avail := kBlockSize - bo - kHeaderSize in
    match frame rounds kBlockSize (advance avail ptr) (left - avail) false with
    | Some (its, bo') =>
        Some (Rec (if begin then kFirstType else kMiddleType)
                (Slice ptr avail) :: its, bo')
    | None => None
    end.
Proof.
  intros Hfit. cbn [frame]. cbv zeta.
  destruct (Z.ltb_spec (kBlockSize - bo) kHeaderSize); [lia|]. cbn [andb app].
  set (avail := kBlockSize - bo - kHeaderSize) in *.
  destruct (Z.ltb_spec left avail); [lia|].
  destruct (Z.eqb_spec left avail); [lia|].
  destruct (Z.ltb_spec 0 (left - avail)); [|lia].
  replace (bo + kHeaderSize + avail) with kBlockSize by (subst avail; lia).
  rewrite andb_false_r. by destruct begin.
Qed.

(** *** The writer's file, and reading it back *)

Lemma AddRecords_frames (crc : Crc32c) (slices : list (list byte)) :
  forall w : Writer,
  type_crc_ w = InitTypeCrc crc -> 0 <= block_offset_ w <= kBlockSize ->
  exists its bo',
    frames (block_offset_ w) slices = Some (its, bo') /\
    AddRecords crc w slices
    = Some (OK, {| dest_ := dest_ w ++ enc_items crc its;
                   block_offset_ := bo'; type_crc_ := type_crc_ w |}).
Proof.
  induction slices as [|slice slices IH]; intros w Hcrc Hbo.
  - exists [], (block_offset_ w). split; [reflexivity|].
    cbn [AddRecords enc_items map concat]. rewrite app_nil_r. by destruct w.
  - cbn [AddRecords frames]. unfold AddRecord.
    rewrite AddRecord_loop_frame by assumption.
    destruct (frame_total (2 * length slice + 2) (block_offset_ w) slice
                (size_of slice) true Hbo (size_of_nonneg slice))
      as (its1 & bo1 & Hfr); [unfold size_of; lia|].
    rewrite Hfr. cbn [Status_ok].
    pose proof (frame_offset _ _ _ _ _ _ _ Hbo (size_of_nonneg slice) Hfr)
      as Hbo1.
    destruct (IH {| dest_ := dest_ w ++ enc_items crc its1;
                    block_offset_ := bo1; type_crc_ := type_crc_ w |}
                Hcrc Hbo1) as (its2 & bo2 & Hfrs & Hadd).
    cbn [block_offset_ dest_ type_crc_] in Hfrs, Hadd.
    rewrite Hfrs, Hadd. exists (its1 ++ its2), bo2. split; [reflexivity|].
    by rewrite enc_items_app, app_assoc.
Qed.

Lemma Reader_new_at (file : list byte) (reporter checksum : bool) :
  reader_at 0 file (Reader_new file reporter checksum 0).
Proof.
  unfold reader_at, Reader_new. cbn [initial_offset_ resyncing_
    last_record_offset_ eof_ file_ buffer_].
  split; [reflexivity|]. split; [reflexivity|]. split; [lia|].
  split; [log_lia|]. right. split; [reflexivity|].
  split; [rewrite size_of_nil; log_lia|]. left; reflexivity.
Qed.

Lemma ReadRecord_frame (crc : Crc32c) (rounds : nat) (bo : Z)
    (slice : list byte) (its : list item) (bo' : Z) (r : Reader)
    (rest : list byte) :
  Crc32c_ok crc ->
  frame rounds bo slice (size_of slice) true = Some (its, bo') ->
  0 <= bo <= kBlockSize ->
  reader_at bo (enc_items crc its ++ rest) r ->
  exists r' scratch',
    ReadRecord crc r = Some (true, slice, scratch', r') /\
    reader_at bo' rest r' /\ same_sink r r'.
Proof.
  intros Hok Hfr Hbo Hat.
  pose proof Hat as (Hinit & _ & Hlast & _).
  unfold ReadRecord. rewrite Hinit.
  destruct (Z.ltb_spec (last_record_offset_ r) 0); [lia|]. cbn [negb].
  apply (read_frame crc rounds Hok bo slice true its bo' _ r rest [] [] 0
           Hfr Hbo); [lia| |assumption].
  pose proof (frame_items_length crc _ _ _ _ _ _ _ Hfr).
  pose proof (reader_at_length _ _ _ Hat) as Hlen.
  rewrite length_app in Hlen. lia.
Qed.

Lemma ReadRecord_eof (crc : Crc32c) (bo : Z) (r : Reader) :
  reader_at bo [] r ->
  exists r' scratch',
    ReadRecord crc r = Some (false, [], scratch', r') /\
    same_sink r r'.
Proof.
  intros Hat. pose proof Hat as (Hinit & _ & Hlast & _).
  unfold ReadRecord. rewrite Hinit.
  destruct (Z.ltb_spec (last_record_offset_ r) 0); [lia|]. cbn [negb].
  replace (length (file_ r) + length (buffer_ r) + 2)%nat
    with (S (length (file_ r) + length (buffer_ r) + 1)) by lia.
  destruct (read_eof crc bo r [] Hat) as (r' & bo' & Heq & Hat' & Hs).
  pose proof Hat' as (_ & Hres & _).
  cbn [ReadRecord_loop]. unfold ReadPhysicalRecord. rewrite Heq, Hres.
  cbn [andb]. rewrite switch_Eof. eauto.
Qed.

Lemma ReadAll_frames (crc : Crc32c) (slices : list (list byte)) :
  Crc32c_ok crc ->
  forall (bo : Z) (its : list item) (bo' : Z) (r : Reader),
  frames bo slices = Some (its, bo') -> 0 <= bo <= kBlockSize ->
  reader_at bo (enc_items crc its) r ->
  exists r',
    ReadAll (length slices + 1) crc r = Some (slices, r') /\ same_sink r r'.
Proof.
  intros Hok.
  induction slices as [|slice slices IH]; intros bo its bo' r Hfrs Hbo Hat.
  - injection Hfrs as <- <-.
    destruct (ReadRecord_eof crc bo r Hat) as (r' & scratch' & Heq & Hs).
    exists r'. cbn [length Nat.add ReadAll]. by rewrite Heq.
  - cbn [frames] in Hfrs.
    destruct (frame _ bo slice _ true) as [[its1 bo1]|] eqn:Hfr;
      [|discriminate].
    destruct (frames bo1 slices) as [[its2 bo2]|] eqn:Hfrs2; [|discriminate].
    injection Hfrs as <- <-.
    rewrite enc_items_app in Hat.
    pose proof (frame_offset _ _ _ _ _ _ _ Hbo (size_of_nonneg slice) Hfr)
      as Hbo1.
    destruct (ReadRecord_frame crc _ bo slice its1 bo1 r _ Hok Hfr Hbo Hat)
      as (r1 & scratch1 & Heq & Hat1 & Hs1).
    destruct (IH bo1 its2 bo2 r1 Hfrs2 Hbo1 Hat1) as (r' & Hall & Hs').
    exists r'. cbn [length Nat.add ReadAll]. rewrite Heq, Hall.
    split; [reflexivity|]. apply (same_sink_trans _ _ _ Hs1 Hs').
Qed.

(** The round trip, with the layout of the file in between. *)
Lemma round_trip_frames (crc : Crc32c) (slices : list (list byte))
    (reporter checksum : bool) :
  Crc32c_ok crc ->
  exists its bo' r,
    frames 0 slices = Some (its, bo') /\
    AddRecords crc (Writer_new crc) slices
    = Some (OK, {| dest_ := enc_items crc its; block_offset_ := bo';
                   type_crc_ := InitTypeCrc crc |}) /\
    ReadAll (length slices + 1) crc
      (Reader_new (enc_items crc its) reporter checksum 0)
    = Some (slices, r) /\
    reported_ r = [].
Proof.
  intros Hok.
  destruct (AddRecords_frames crc slices (Writer_new crc) eq_refl
              ltac:(cbn [Writer_new block_offset_]; log_lia))
    as (its & bo' & Hfrs & Hadd).
  cbn [Writer_new block_offset_ dest_ type_crc_ app] in Hfrs, Hadd.
  destruct (ReadAll_frames crc slices Hok 0 its bo'
              (Reader_new (enc_items crc its) reporter checksum 0) Hfrs
              ltac:(log_lia) (Reader_new_at _ _ _)) as (r & Hall & Hs).
  exists its, bo', r. split; [assumption|]. split; [assumption|].
  split; [assumption|]. by destruct Hs as (-> & _).
Qed.

(** Claim C1 (WAL round trip).  For every sequence of payloads, appended
    with [AddRecord] to a fresh file, every append succeeds, and a reader
    over that file that starts at offset 0 returns from successive
    [ReadRecord] calls exactly these payloads in order and then the end of
    the file, without reporting any corruption; this for any checksum
    function that behaves as [crc32c::Value] and [crc32c::Extend] are
    documented to, with or without a reporter and checksum verification. *)
Theorem wal_round_trip (crc : Crc32c) (payloads : list (list byte))
    (reporter checksum : bool) :
  Crc32c_ok crc ->
  exists (w : Writer) (r : Reader),
    AddRecords crc (Writer_new crc) payloads = Some (OK, w) /\
    ReadAll (length payloads + 1) crc
      (Reader_new (dest_ w) reporter checksum 0)
    = Some (payloads, r) /\
    reported_ r = [].
Proof.
  intros Hok.
  destruct (round_trip_frames crc payloads reporter checksum Hok)
    as (its & bo' & r & _ & Hadd & Hall & Hrep).
  eexists _, r. split; [exact Hadd|]. cbn [dest_]. split; assumption.
Qed.

Lemma wal_round_trip_witness :
  Crc32c_ok crc32c /\
  exists (w : Writer) (r : Reader),
    AddRecords crc32c (Writer_new crc32c) [bytes "alpha"; []; bytes "beta"]
    = Some (OK, w) /\
    ReadAll 4 crc32c (Reader_new (dest_ w) true true 0)
    = Some ([bytes "alpha"; []; bytes "beta"], r) /\
    reported_ r = [].
Proof.
  split; [exact crc32c_ok|].
  apply (wal_round_trip crc32c [bytes "alpha"; []; bytes "beta"] true true).
  exact crc32c_ok.
Defined.

End LogRoundTripProps.
Section LogScenarioProps.
Import Log.

(** *** A record with an empty payload *)

Lemma header_bytes_empty (crc : Crc32c) :
  Crc32c_ok crc ->
  header_bytes crc kFullType []
  = Coding.EncodeFixed32 (Mask (crc_Value crc [x01])) ++ [x00; x00; x01].
Proof.
  intros Hok. pose proof Hok as (Hrange & Hext). unfold header_bytes.
  rewrite InitTypeCrc_nth by (assumption || log_lia).
  rewrite Hext. cbn [app].
  assert (Hu : u32 (crc_Value crc [Z_to_byte kFullType])
               = crc_Value crc [Z_to_byte kFullType])
    by (apply Z.mod_small, Hrange).
  rewrite Hu. reflexivity.
Qed.

Lemma frame_empty (rounds : nat) (bo : Z) :
  0 <= bo <= kBlockSize ->
  frame (S rounds) bo [] (size_of []) true
  = Some ((if (kBlockSize - bo <? kHeaderSize) && (0 <? kBlockSize - bo)
           then [Pad (kBlockSize - bo)] else [])
          ++ [Rec kFullType []],
          (if kBlockSize - bo <? kHeaderSize then 0 else bo) + kHeaderSize).
Proof.
  intros Hbo. rewrite size_of_nil.
  destruct (Z.ltb_spec (kBlockSize - bo) kHeaderSize) as [Hsmall|Hbig].
  - rewrite frame_pad by assumption.
    rewrite frame_last by log_lia. cbn [andb]. rewrite Z.add_0_r.
    by destruct (0 <? kBlockSize - bo).
  - rewrite frame_last by log_lia. cbn [andb app]. by rewrite Z.add_0_r.
Qed.

(** Claim C9 (empty-payload WAL record).  [AddRecord] with an empty payload,
    whatever the state of the writer, appends to the file the zero bytes
    that fill a block with less than seven bytes left, if there is such a
    block, and then exactly one physical record: the seven header bytes of
    a record of type Full and length 0, with no payload.  A reader over the
    file of a fresh writer that did this returns from [ReadRecord] one
    empty record, reports nothing, and returns the end of the file from the
    next call; and an empty payload appended after any payloads is read
    back as a record of its own after them. *)
Theorem empty_payload_record (crc : Crc32c) (w : Writer)
    (reporter checksum : bool) (payloads : list (list byte)) :
  Crc32c_ok crc ->
  type_crc_ w = InitTypeCrc crc -> 0 <= block_offset_ w <= kBlockSize ->
  let leftover := kBlockSize - block_offset_ w in
  let trailer := if leftover <? kHeaderSize
                 then Slice (replicate 6 x00) leftover else [] in
  let header :=
    Coding.EncodeFixed32 (Mask (crc_Value crc [x01])) ++ [x00; x00; x01] in
  (exists w' : Writer,
     AddRecord crc w [] = Some (OK, w') /\
     dest_ w' = dest_ w ++ trailer ++ header) /\
  (exists (w1 : Writer) (r r' : Reader) (scratch scratch' : list byte),
     AddRecord crc (Writer_new crc) [] = Some (OK, w1) /\
     dest_ w1 = header /\
     ReadRecord crc (Reader_new (dest_ w1) reporter checksum 0)
     = Some (true, [], scratch, r) /\
     reported_ r = [] /\
     ReadRecord crc r = Some (false, [], scratch', r')) /\
  (exists (w2 : Writer) (r : Reader),
     AddRecords crc (Writer_new crc) (payloads ++ [[]]) = Some (OK, w2) /\
     ReadAll (length payloads + 2) crc
       (Reader_new (dest_ w2) reporter checksum 0)
     = Some (payloads ++ [[]], r)).
Proof.
  intros Hok Hcrc Hbo leftover trailer header.
  assert (Hadd : forall w0 : Writer,
            type_crc_ w0 = InitTypeCrc crc ->
            0 <= block_offset_ w0 <= kBlockSize ->
            exists w' : Writer,
              AddRecord crc w0 [] = Some (OK, w') /\
              dest_ w'
              = dest_ w0
                ++ (if kBlockSize - block_offset_ w0 <? kHeaderSize
                    then Slice (replicate 6 x00)
                           (kBlockSize - block_offset_ w0)
                    else [])
                ++ header).
  { intros w0 Hcrc0 Hbo0. unfold AddRecord.
    rewrite (AddRecord_loop_frame crc _ w0 [] true Hcrc0).
    cbn [length Nat.mul Nat.add]. rewrite (frame_empty 1 _ Hbo0).
    eexists. split; [reflexivity|]. cbn [dest_]. f_equal.
    rewrite enc_items_app, enc_items_one. cbn [enc_item app].
    subst header. rewrite <- (header_bytes_empty crc Hok). f_equal.
    destruct (Z.ltb_spec (kBlockSize - block_offset_ w0) kHeaderSize)
      as [Hsmall|Hbig]; cbn [andb]; [|reflexivity].
    destruct (Z.ltb_spec 0 (kBlockSize - block_offset_ w0)) as [Hpos|Hzero].
    - by rewrite enc_items_one.
    - replace (kBlockSize - block_offset_ w0) with 0 by lia. reflexivity. }
  split; [exact (Hadd w Hcrc Hbo)|]. split.
  - destruct (Hadd (Writer_new crc) eq_refl
                ltac:(cbn [Writer_new block_offset_]; log_lia))
      as (w1 & Hadd1 & Hd1).
    cbn [Writer_new block_offset_ dest_ app] in Hd1.
    change (kBlockSize - 0 <? kHeaderSize) with false in Hd1.
    cbn [app] in Hd1.
    pose proof (frame_empty 1 0 ltac:(log_lia)) as Hfr.
    change (kBlockSize - 0 <? kHeaderSize) with false in Hfr.
    cbn [andb app] in Hfr.
    destruct (ReadRecord_frame crc 2 0 [] [Rec kFullType []] _
                (Reader_new header reporter checksum 0) [] Hok Hfr
                ltac:(log_lia)) as (r & scratch & Hread & Hat & Hs).
    { rewrite enc_items_one, app_nil_r. cbn [enc_item].
      rewrite app_nil_r, (header_bytes_empty crc Hok).
      apply Reader_new_at. }
    destruct (ReadRecord_eof crc _ r Hat) as (r' & scratch' & Hend & _).
    exists w1, r, r', scratch, scratch'. rewrite Hd1.
    split; [assumption|]. split; [reflexivity|]. split; [assumption|].
    split; [|assumption]. by destruct Hs as (-> & _).
  - destruct (round_trip_frames crc (payloads ++ [[]]) reporter checksum Hok)
      as (its & bo' & r & _ & Hw & Hall & _).
    rewrite length_app in Hall. cbn [length] in Hall.
    replace (length payloads + 1 + 1)%nat with (length payloads + 2)%nat
      in Hall by lia.
    eexists _, r. split; [exact Hw|]. exact Hall.
Qed.

Lemma empty_payload_record_witness :
  Crc32c_ok crc32c /\
  type_crc_ (Writer_new crc32c) = InitTypeCrc crc32c /\
  0 <= block_offset_ (Writer_new crc32c) <= kBlockSize /\
  exists (w2 : Writer) (r : Reader),
    AddRecords crc32c (Writer_new crc32c) ([bytes "k"] ++ [[]])
    = Some (OK, w2) /\
    ReadAll 3 crc32c (Reader_new (dest_ w2) true true 0)
    = Some ([bytes "k"] ++ [[]], r).
Proof.
  split; [exact crc32c_ok|]. split; [reflexivity|].
  split; [vm_compute; split; discriminate|].
  apply (empty_payload_record crc32c (Writer_new crc32c) true true
           [bytes "k"] crc32c_ok eq_refl).
  vm_compute; split; discriminate.
Defined.

(** *** The fragmentation scenario *)

Lemma size_of_replicate (n : Z) (b : byte) :
  0 <= n -> size_of (replicate (Z.to_nat n) b) = n.
Proof. intros Hn. unfold size_of. rewrite length_replicate. lia. Qed.

(** The physical records written for payloads of 1000, 97270 and 8000
    bytes. *)
Lemma scenario_frames (P1 P2 P3 : list byte) :
  size_of P1 = 1000 -> size_of P2 = 97270 -> size_of P3 = 8000 ->
  frames 0 [P1; P2; P3]
  = Some ([Rec kFullType P1;
           Rec kFirstType (Slice P2 31754);
           Rec kMiddleType (Slice (advance 31754 P2) 32761);
           Rec kLastType (advance 32761 (advance 31754 P2));
           Pad 6;
           Rec kFullType P3], 8007).
Proof.
  intros H1 H2 H3.
  assert (HF1 : frame (2 * length P1 + 2) 0 P1 (size_of P1) true
                = Some ([Rec kFullType P1], 1007)).
  { replace (2 * length P1 + 2)%nat with (S (2 * length P1 + 1)) by lia.
    rewrite frame_last by log_lia.
    rewrite Slice_all by lia. rewrite H1. reflexivity. }
  assert (HF2 : frame (2 * length P2 + 2) 1007 P2 (size_of P2) true
                = Some ([Rec kFirstType (Slice P2 31754);
                         Rec kMiddleType (Slice (advance 31754 P2) 32761);
                         Rec kLastType (advance 32761 (advance 31754 P2))],
                        32762)).
  { assert (Ha : size_of (advance 31754 P2) = 65516)
      by (rewrite size_of_advance; lia).
    assert (Hb : size_of (advance 32761 (advance 31754 P2)) = 32755)
      by (rewrite size_of_advance; lia).
    replace (2 * length P2 + 2)%nat with (S (S (S (2 * length P2 - 1))))
      by (unfold size_of in H2; lia).
    rewrite frame_more by log_lia. cbv zeta.
    replace (kBlockSize - 1007 - kHeaderSize) with 31754 by reflexivity.
    rewrite H2. replace (97270 - 31754) with 65516 by reflexivity.
    rewrite frame_pad by log_lia.
    rewrite frame_more by log_lia. cbv zeta.
    replace (kBlockSize - 0 - kHeaderSize) with 32761 by reflexivity.
    replace (65516 - 32761) with 32755 by reflexivity.
    rewrite frame_pad by log_lia.
    rewrite frame_last by log_lia.
    change (0 <? kBlockSize - kBlockSize) with false. cbn [app].
    rewrite (Slice_all (advance 32761 _)) by lia. reflexivity. }
  assert (HF3 : frame (2 * length P3 + 2) 32762 P3 (size_of P3) true
                = Some ([Pad 6; Rec kFullType P3], 8007)).
  { replace (2 * length P3 + 2)%nat with (S (2 * length P3 + 1)) by lia.
    rewrite frame_pad by log_lia.
    rewrite frame_last by log_lia.
    rewrite Slice_all by lia. rewrite H3. reflexivity. }
  cbn [frames]. rewrite HF1, HF2, HF3. reflexivity.
Qed.

(** The file of the scenario, and reading it back. *)
Lemma scenario_round_trip (crc : Crc32c) (P1 P2 P3 : list byte)
    (reporter checksum : bool) :
  Crc32c_ok crc ->
  size_of P1 = 1000 -> size_of P2 = 97270 -> size_of P3 = 8000 ->
  exists (w : Writer) (r : Reader),
    AddRecords crc (Writer_new crc) [P1; P2; P3] = Some (OK, w) /\
    dest_ w
    = enc_items crc [Rec kFullType P1;
                     Rec kFirstType (Slice P2 31754);
                     Rec kMiddleType (Slice (advance 31754 P2) 32761);
                     Rec kLastType (advance 32761 (advance 31754 P2));
                     Pad 6;
                     Rec kFullType P3] /\
    ReadAll 4 crc (Reader_new (dest_ w) reporter checksum 0)
    = Some ([P1; P2; P3], r) /\
    reported_ r = [].
Proof.
  intros Hok H1 H2 H3.
  destruct (round_trip_frames crc [P1; P2; P3] reporter checksum Hok)
    as (its & bo' & r & Hfrs & Hadd & Hall & Hrep).
  rewrite (scenario_frames P1 P2 P3 H1 H2 H3) in Hfrs.
  injection Hfrs as <- <-.
  eexists _, r. split; [exact Hadd|]. cbn [dest_].
  split; [reflexivity|]. split; assumption.
Qed.

(** What the reader's code finds in the first seven bytes of a physical
    record: its type and its length. *)
Lemma header_fields (crc : Crc32c) (t : Z) (p more : list byte) :
  0 <= t < 128 -> size_of p < 2 ^ 16 ->
  let header := enc_item crc (Rec t p) ++ more in
  char_to_uint (nth 6 header x00) = t /\
  Z.lor (Z.land (byte_at header 4) 255)
        (Z.shiftl (Z.land (byte_at header 5) 255) 8) = size_of p.
Proof.
  intros Ht Hp header. subst header. cbn [enc_item]. unfold header_bytes.
  split.
  - change (nth 6 _ x00) with (Z_to_byte t). by apply type_field.
  - change (byte_at _ 4) with (byte_to_Z (Z_to_byte (Z.land (size_of p) 255))).
    change (byte_at _ 5) with (byte_to_Z (Z_to_byte (Z.shiftr (size_of p) 8))).
    apply length_field. pose proof (size_of_nonneg p). lia.
Qed.

(** The second physical record of the scenario's file starts at byte 1007;
    it is a First fragment of 31754 bytes. *)
Lemma scenario_second_record (crc : Crc32c) (P1 P2 P3 : list byte) :
  Crc32c_ok crc ->
  size_of P1 = 1000 -> size_of P2 = 97270 -> size_of P3 = 8000 ->
  exists w : Writer,
    AddRecords crc (Writer_new crc) [P1; P2; P3] = Some (OK, w) /\
    let header := advance 1007 (dest_ w) in
    char_to_uint (nth 6 header x00) = kFirstType /\
    Z.lor (Z.land (byte_at header 4) 255)
          (Z.shiftl (Z.land (byte_at header 5) 255) 8) = 31754.
Proof.
  intros Hok H1 H2 H3.
  destruct (scenario_round_trip crc P1 P2 P3 false false Hok H1 H2 H3)
    as (w & r & Hadd & Hdest & _).
  exists w. split; [exact Hadd|]. rewrite Hdest.
  rewrite enc_items_cons.
  replace 1007 with (size_of (enc_item crc (Rec kFullType P1)))
    by (rewrite enc_item_Rec_size; lia).
  rewrite advance_app_size, enc_items_cons.
  assert (Hs : size_of (Slice P2 31754) = 31754)
    by (apply size_of_Slice; lia).
  pose proof (header_fields crc kFirstType (Slice P2 31754)
                (enc_items crc
                   [Rec kMiddleType (Slice (advance 31754 P2) 32761);
                    Rec kLastType (advance 32761 (advance 31754 P2));
                    Pad 6; Rec kFullType P3])
                ltac:(log_lia) ltac:(lia)) as Hf.
  rewrite Hs in Hf. exact Hf.
Qed.

(** Claim C4 (WAL fragmentation scenario), as the code has it.  Appending
    payloads of 1000, 97270 and 8000 bytes to a fresh writer succeeds and
    stores the second payload as exactly three physical fragments,
    First of 31754 bytes, Middle of 32761 bytes and Last of 32755 bytes:
    the first block already holds the 1007 bytes of the first record.  The
    file is the Full record of the first payload, these three fragments,
    six zero bytes that fill the third block, and the Full record of the
    third payload; reading it from offset 0 yields exactly the three
    payloads in order, then the end of the file, with nothing reported. *)
Theorem wal_fragmentation_scenario (crc : Crc32c) (P1 P2 P3 : list byte)
    (reporter checksum : bool) :
  Crc32c_ok crc ->
  size_of P1 = 1000 -> size_of P2 = 97270 -> size_of P3 = 8000 ->
  let F := Slice P2 31754 in
  let M := Slice (advance 31754 P2) 32761 in
  let L := advance 32761 (advance 31754 P2) in
  (size_of F = 31754 /\ size_of M = 32761 /\ size_of L = 32755 /\
   F ++ M ++ L = P2) /\
  exists (w : Writer) (r : Reader),
    AddRecords crc (Writer_new crc) [P1; P2; P3] = Some (OK, w) /\
    dest_ w
    = enc_items crc [Rec kFullType P1; Rec kFirstType F; Rec kMiddleType M;
                     Rec kLastType L; Pad 6; Rec kFullType P3] /\
    ReadAll 4 crc (Reader_new (dest_ w) reporter checksum 0)
    = Some ([P1; P2; P3], r) /\
    reported_ r = [].
Proof.
  intros Hok H1 H2 H3 F M L. split.
  - subst F M L.
    assert (Ha : size_of (advance 31754 P2) = 65516)
      by (rewrite size_of_advance; lia).
    assert (Hb : size_of (advance 32761 (advance 31754 P2)) = 32755)
      by (rewrite size_of_advance; lia).
    rewrite !size_of_Slice by lia.
    repeat split; try assumption. by rewrite !Slice_advance.
  - apply scenario_round_trip; assumption.
Qed.

Lemma wal_fragmentation_scenario_witness :
  let P1 := replicate (Z.to_nat 1000) x00 in
  let P2 := replicate (Z.to_nat 97270) x01 in
  let P3 := replicate (Z.to_nat 8000) x02 in
  Crc32c_ok crc32c /\
  size_of P1 = 1000 /\ size_of P2 = 97270 /\ size_of P3 = 8000 /\
  exists (w : Writer) (r : Reader),
    AddRecords crc32c (Writer_new crc32c) [P1; P2; P3] = Some (OK, w) /\
    dest_ w
    = enc_items crc32c
        [Rec kFullType P1; Rec kFirstType (Slice P2 31754);
         Rec kMiddleType (Slice (advance 31754 P2) 32761);
         Rec kLastType (advance 32761 (advance 31754 P2)); Pad 6;
         Rec kFullType P3] /\
    ReadAll 4 crc32c (Reader_new (dest_ w) true true 0)
    = Some ([P1; P2; P3], r) /\
    reported_ r = [].
Proof.
  intros P1 P2 P3.
  assert (H1 : size_of P1 = 1000) by (apply size_of_replicate; lia).
  assert (H2 : size_of P2 = 97270) by (apply size_of_replicate; lia).
  assert (H3 : size_of P3 = 8000) by (apply size_of_replicate; lia).
  split; [exact crc32c_ok|]. split; [exact H1|]. split; [exact H2|].
  split; [exact H3|].
  exact (proj2 (wal_fragmentation_scenario crc32c P1 P2 P3 true true
                  crc32c_ok H1 H2 H3)).
Defined.

(** The scenario as the specification words it fails: the fragment that
    starts the second payload has 31754 bytes, not 32761. *)
Lemma wal_fragmentation_counterexample :
  let P1 := replicate (Z.to_nat 1000) x00 in
  let P2 := replicate (Z.to_nat 97270) x01 in
  let P3 := replicate (Z.to_nat 8000) x02 in
  exists w : Writer,
    AddRecords crc32c (Writer_new crc32c) [P1; P2; P3] = Some (OK, w) /\
    let header := advance 1007 (dest_ w) in
    char_to_uint (nth 6 header x00) = kFirstType /\
    Z.lor (Z.land (byte_at header 4) 255)
          (Z.shiftl (Z.land (byte_at header 5) 255) 8) <> 32761.
Proof.
  intros P1 P2 P3.
  destruct (scenario_second_record crc32c P1 P2 P3 crc32c_ok)
    as (w & Hadd & Hty & Hlen);
    try (apply size_of_replicate; lia).
  exists w. split; [exact Hadd|]. split; [exact Hty|].
  rewrite Hlen. lia.
Qed.

End LogScenarioProps.
Section LogReaderStateProps.
Import Log.

(** *** The reader in the middle of a fragmented record *)

Lemma set_resyncing_fields (r : Reader) (b : bool) :
  let r' := if resyncing_ r then set_resyncing r b else r in
  reported_ r' = reported_ r /\ reporter_ r' = reporter_ r /\
  initial_offset_ r' = initial_offset_ r /\
  end_of_buffer_offset_ r' = end_of_buffer_offset_ r /\
  buffer_ r' = buffer_ r.
Proof. cbv zeta. by destruct (resyncing_ r). Qed.

(** Claim C5 (WAL reader in the fragmented state), as the code has it.
    When the loop of [ReadRecord] is in the fragmented state and the next
    physical record has type Full or First, the reader emits the Full
    record, or begins a new record with the First fragment, discarding the
    bytes accumulated so far.  It reports [partial record without end]
    only if these bytes are not empty: then the report of their number
    reaches the sink if a sink was given and the dropped bytes do not lie
    before the initial offset; with no accumulated bytes, with no sink, or
    with dropped bytes that lie before the initial offset, nothing is
    reported. *)
Theorem fragmented_state_transitions (crc : Crc32c) (rounds : nat)
    (r : Reader) (scratch fragment : list byte) (prospective : Z)
    (record_type : Z) (fragment' : list byte) (r1 : Reader) :
  ReadPhysicalRecord crc r fragment = Some (record_type, fragment', r1) ->
  record_type = kFullType \/ record_type = kFirstType ->
  let offset := u64 (end_of_buffer_offset_ r1 - size_of (buffer_ r1)
                     - kHeaderSize - size_of fragment') in
  let r2 := if resyncing_ r1 then set_resyncing r1 false else r1 in
  let reason := if record_type =? kFullType
                then "partial record without end(1)"%string
                else "partial record without end(2)"%string in
  let r3 := if bool_decide (scratch = []) then r2
            else ReportCorruption r2 (size_of scratch) reason in
  ReadRecord_loop (S rounds) crc r scratch fragment true prospective
  = (if record_type =? kFullType
     then Some (true, fragment', [], set_last_record_offset r3 offset)
     else ReadRecord_loop rounds crc r3 fragment' fragment' true offset) /\
  (scratch = [] -> reported_ r3 = reported_ r1) /\
  (reporter_ r1 = false -> reported_ r3 = reported_ r1) /\
  (u64 (end_of_buffer_offset_ r1 - size_of (buffer_ r1) - size_of scratch)
   < initial_offset_ r1 ->
   reported_ r3 = reported_ r1) /\
  (scratch <> [] -> reporter_ r1 = true ->
   initial_offset_ r1
   <= u64 (end_of_buffer_offset_ r1 - size_of (buffer_ r1) - size_of scratch) ->
   reported_ r3
   = reported_ r1 ++ [(size_of scratch, Error kCorruption reason)]).
Proof.
  intros Hread Hty offset r2 reason r3.
  destruct (set_resyncing_fields r1 false) as (Hrep & Hrp & Hio & Heo & Hbuf).
  fold r2 in Hrep, Hrp, Hio, Heo, Hbuf.
  split; [|split; [|split; [|split]]].
  - cbn [ReadRecord_loop]. rewrite Hread. fold offset.
    destruct Hty as [-> | ->].
    + change (kFullType =? kMiddleType) with false.
      change (kFullType =? kLastType) with false.
      change (kFullType =? kFullType) with true.
      rewrite andb_false_r, andb_true_r. fold r2. cbn [orb].
      unfold ReadRecord_switch.
      change (kFullType =? kFullType) with true. cbn [andb].
      subst r3 reason. change (kFullType =? kFullType) with true.
      by destruct (bool_decide (scratch = [])).
    + change (kFirstType =? kMiddleType) with false.
      change (kFirstType =? kLastType) with false.
      change (kFirstType =? kFullType) with false.
      rewrite andb_false_r, andb_true_r. fold r2. cbn [orb].
      unfold ReadRecord_switch.
      change (kFirstType =? kFullType) with false.
      change (kFirstType =? kFirstType) with true. cbn [andb].
      subst r3 reason. change (kFirstType =? kFullType) with false.
      by destruct (bool_decide (scratch = [])).
  - intros ->. subst r3. rewrite bool_decide_eq_true_2 by reflexivity.
    exact Hrep.
  - intros Hnone. subst r3. destruct (bool_decide (scratch = []));
      [exact Hrep|].
    unfold ReportCorruption, ReportDrop. rewrite Hrp, Hnone. exact Hrep.
  - intros Hbefore. subst r3. destruct (bool_decide (scratch = []));
      [exact Hrep|].
    unfold ReportCorruption, ReportDrop. rewrite Hio, Heo, Hbuf.
    destruct (Z.leb_spec (initial_offset_ r1)
                (u64 (end_of_buffer_offset_ r1 - size_of (buffer_ r1)
                      - size_of scratch))); [lia|].
    rewrite andb_false_r. exact Hrep.
  - intros Hne Hsink Hpos. subst r3.
    rewrite bool_decide_eq_false_2 by assumption.
    unfold ReportCorruption, ReportDrop. rewrite Hrp, Hsink, Hio, Heo, Hbuf.
    destruct (Z.leb_spec (initial_offset_ r1)
                (u64 (end_of_buffer_offset_ r1 - size_of (buffer_ r1)
                      - size_of scratch))); [|lia].
    cbn [andb reported_]. by rewrite Hrep.
Qed.

Lemma fragmented_state_transitions_witness :
  let r := Reader_new (enc_item crc32c (Rec kFullType (bytes "cd")))
             true true 0 in
  let r1 := {| file_ := []; reporter_ := true; reported_ := [];
               checksum_ := true; buffer_ := []; eof_ := true;
               last_record_offset_ := 0; end_of_buffer_offset_ := 9;
               initial_offset_ := 0; resyncing_ := false |} in
  let report := (2, Error kCorruption "partial record without end(1)") in
  (* a reader started at offset 100, its buffer holding the record that
     lies there, after twenty bytes of fragments from before *)
  let s := {| file_ := []; reporter_ := true; reported_ := [];
              checksum_ := true;
              buffer_ := enc_item crc32c (Rec kFullType (bytes "cd"));
              eof_ := true; last_record_offset_ := 0;
              end_of_buffer_offset_ := 109; initial_offset_ := 100;
              resyncing_ := false |} in
  let s1 := {| file_ := []; reporter_ := true; reported_ := [];
               checksum_ := true; buffer_ := []; eof_ := true;
               last_record_offset_ := 0; end_of_buffer_offset_ := 109;
               initial_offset_ := 100; resyncing_ := false |} in
  ReadPhysicalRecord crc32c r [] = Some (kFullType, bytes "cd", r1) /\
  (kFullType = kFullType \/ kFullType = kFirstType) /\
  ReadRecord_loop 1 crc32c r (bytes "ab") [] true 0
  = Some (true, bytes "cd", [],
          {| file_ := []; reporter_ := true; reported_ := [report];
             checksum_ := true; buffer_ := []; eof_ := true;
             last_record_offset_ := 0; end_of_buffer_offset_ := 9;
             initial_offset_ := 0; resyncing_ := false |}) /\
  ReadPhysicalRecord crc32c s [] = Some (kFullType, bytes "cd", s1) /\
  u64 (end_of_buffer_offset_ s1 - size_of (buffer_ s1)
       - size_of (replicate 20 x00))
  < initial_offset_ s1 /\
  ReadRecord_loop 1 crc32c s (replicate 20 x00) [] true 0
  = Some (true, bytes "cd", [], set_last_record_offset s1 100).
Proof.
  intros r r1 report s s1.
  assert (Hread : ReadPhysicalRecord crc32c r []
                  = Some (kFullType, bytes "cd", r1))
    by (vm_compute; reflexivity).
  split; [exact Hread|]. split; [left; reflexivity|].
  destruct (fragmented_state_transitions crc32c 0 r (bytes "ab") [] 0
              kFullType (bytes "cd") r1 Hread (or_introl eq_refl))
    as (Hloop & _).
  split; [rewrite Hloop; vm_compute; reflexivity|].
  assert (Hread' : ReadPhysicalRecord crc32c s []
                   = Some (kFullType, bytes "cd", s1))
    by (vm_compute; reflexivity).
  split; [exact Hread'|].
  assert (Hbefore : u64 (end_of_buffer_offset_ s1 - size_of (buffer_ s1)
                         - size_of (replicate 20 x00))
                    < initial_offset_ s1) by reflexivity.
  split; [exact Hbefore|].
  destruct (fragmented_state_transitions crc32c 0 s (replicate 20 x00) [] 0
              kFullType (bytes "cd") s1 Hread' (or_introl eq_refl))
    as (Hloop' & _ & _ & Hsilent & _).
  rewrite Hloop'. vm_compute. reflexivity.
Defined.

(** The claim as the specification words it fails where nothing has been
    accumulated: after a First fragment without payload, a Full record, or
    a First fragment that starts another record, is taken without any
    report. *)
Lemma fragmented_state_counterexample :
  let outcome (result : option (bool * list byte * list byte * Reader)) :=
    (fun '(ok, record, _, r) => (ok, record, reported_ r)) <$> result in
  (* in the fragmented state with nothing accumulated, a Full record *)
  outcome (ReadRecord_loop 1 crc32c
             (Reader_new (enc_item crc32c (Rec kFullType (bytes "abc")))
                true true 0)
             [] [] true 0)
  = Some (true, bytes "abc", []) /\
  (* a file with an empty First fragment, then a Full record *)
  outcome (ReadRecord crc32c
             (Reader_new
                (enc_items crc32c
                   [Rec kFirstType []; Rec kFullType (bytes "abc")])
                true true 0))
  = Some (true, bytes "abc", []) /\
  (* a file with an empty First fragment, then a First and a Last one *)
  outcome (ReadRecord crc32c
             (Reader_new
                (enc_items crc32c
                   [Rec kFirstType []; Rec kFirstType (bytes "ab");
                    Rec kLastType (bytes "c")])
                true true 0))
  = Some (true, bytes "abc", []).
Proof. cbv zeta. repeat split; vm_compute; reflexivity. Qed.

End LogReaderStateProps.
Section LogReopenProps.
Import Log.

(** *** Appending to a log that has contents *)

Lemma enc_item_Pad_size (crc : Crc32c) (k : Z) :
  0 <= k <= 6 -> size_of (enc_item crc (Pad k)) = k.
Proof.
  intros Hk. cbn [enc_item]. apply size_of_Slice.
  change (size_of (replicate 6 x00)) with 6. lia.
Qed.

Lemma size_of_enc_items_app (crc : Crc32c) (a b : list item) :
  size_of (enc_items crc (a ++ b))
  = size_of (enc_items crc a) + size_of (enc_items crc b).
Proof. by rewrite enc_items_app, size_of_app. Qed.

(** The block offset the writer keeps is the length of what it wrote,
    counted from the block it started in. *)
Lemma frame_size (crc : Crc32c) (rounds : nat) :
  forall (bo : Z) (ptr : list byte) (begin : bool) (its : list item)
         (bo' : Z),
  0 <= bo <= kBlockSize ->
  frame rounds bo ptr (size_of ptr) begin = Some (its, bo') ->
  exists k : Z,
    0 <= k /\
    bo + size_of (enc_items crc its) = bo' + k * kBlockSize.
Proof.
  induction rounds as [|rounds IH];
    intros bo ptr begin its bo' Hbo Hfr; [discriminate|].
  cbn [frame] in Hfr.
  set (leftover := kBlockSize - bo) in Hfr.
  set (pad := if (leftover <? kHeaderSize) && (0 <? leftover)
              then [Pad leftover] else []) in Hfr.
  set (bo1 := if leftover <? kHeaderSize then 0 else bo) in Hfr.
  set (avail := kBlockSize - bo1 - kHeaderSize) in Hfr.
  set (frag := if size_of ptr <? avail then size_of ptr else avail) in Hfr.
  set (type := if begin && (size_of ptr =? frag) then kFullType else _) in Hfr.
  pose proof (size_of_nonneg ptr) as Hptr.
  assert (Hb1 : 0 <= bo1 /\ 0 <= avail).
  { subst avail bo1 leftover.
    destruct (Z.ltb_spec (kBlockSize - bo) kHeaderSize); log_lia. }
  assert (Hfrag : 0 <= frag <= size_of ptr /\ frag <= avail).
  { subst frag. destruct (Z.ltb_spec (size_of ptr) avail); lia. }
  assert (Hpad : exists k0 : Z,
            0 <= k0 /\
            bo + size_of (enc_items crc pad) = bo1 + k0 * kBlockSize).
  { subst pad bo1.
    destruct (Z.ltb_spec leftover kHeaderSize) as [Hs|Hs]; cbn [andb].
    - destruct (Z.ltb_spec 0 leftover) as [Hp|Hp].
      + exists 1. rewrite enc_items_one, enc_item_Pad_size by log_lia.
        subst leftover. lia.
      + exists 1. change (size_of (enc_items crc [])) with 0.
        subst leftover. lia.
    - exists 0. change (size_of (enc_items crc [])) with 0. lia. }
  destruct Hpad as (k0 & Hk0 & Hpad).
  assert (Hrec : size_of (enc_items crc [Rec type (Slice ptr frag)])
                 = kHeaderSize + frag).
  { rewrite enc_items_one, enc_item_Rec_size, size_of_Slice by lia.
    log_lia. }
  assert (Hbo2 : 0 <= bo1 + kHeaderSize + frag <= kBlockSize)
    by (subst avail; log_lia).
  rewrite <- (size_of_advance ptr frag) in Hfr by lia.
  destruct (0 <? size_of (advance frag ptr)).
  - destruct (frame rounds _ _ _ false) as [[its' bo'']|] eqn:Hrest;
      [|discriminate].
    injection Hfr as <- <-.
    destruct (IH _ _ _ _ _ Hbo2 Hrest) as (k1 & Hk1 & Hsz).
    exists (k0 + k1). split; [lia|].
    rewrite !size_of_enc_items_app, Hrec. lia.
  - injection Hfr as <- <-. exists k0. split; [lia|].
    rewrite size_of_enc_items_app, Hrec. lia.
Qed.

Lemma frames_size (crc : Crc32c) (slices : list (list byte)) :
  forall (bo : Z) (its : list item) (bo' : Z),
  0 <= bo <= kBlockSize ->
  frames bo slices = Some (its, bo') ->
  0 <= bo' <= kBlockSize /\
  exists k : Z,
    0 <= k /\ bo + size_of (enc_items crc its) = bo' + k * kBlockSize.
Proof.
  induction slices as [|slice slices IH]; intros bo its bo' Hbo Hfrs.
  - injection Hfrs as <- <-. split; [done|]. exists 0.
    change (size_of (enc_items crc [])) with 0. lia.
  - cbn [frames] in Hfrs.
    destruct (frame _ bo slice _ true) as [[its1 bo1]|] eqn:Hfr;
      [|discriminate].
    destruct (frames bo1 slices) as [[its2 bo2]|] eqn:Hfrs2; [|discriminate].
    injection Hfrs as <- <-.
    pose proof (frame_offset _ _ _ _ _ _ _ Hbo (size_of_nonneg slice) Hfr)
      as Hbo1.
    destruct (frame_size crc _ _ _ _ _ _ Hbo Hfr) as (k1 & Hk1 & Hs1).
    destruct (IH _ _ _ Hbo1 Hfrs2) as (Hbo2 & k2 & Hk2 & Hs2).
    split; [done|]. exists (k1 + k2). split; [lia|].
    rewrite size_of_enc_items_app. lia.
Qed.

Lemma frames_app (slices1 slices2 : list (list byte)) :
  forall (bo : Z) (its1 : list item) (bo1 : Z) (its2 : list item) (bo2 : Z),
  frames bo slices1 = Some (its1, bo1) ->
  frames bo1 slices2 = Some (its2, bo2) ->
  frames bo (slices1 ++ slices2) = Some (its1 ++ its2, bo2).
Proof.
  induction slices1 as [|slice slices1 IH];
    intros bo its1 bo1 its2 bo2 H1 H2.
  - by injection H1 as <- <-.
  - cbn [frames app] in *.
    destruct (frame _ bo slice _ true) as [[its bo']|]; [|discriminate].
    destruct (frames bo' slices1) as [[its' bo'']|] eqn:Hrest;
      [|discriminate].
    injection H1 as <- <-.
    rewrite (IH _ _ _ _ _ Hrest H2). by rewrite app_assoc.
Qed.

(** A writer at the very end of a block writes what a writer at the start
    of the next one does. *)
Lemma frames_block_end (slices : list (list byte)) (its : list item)
    (bo' : Z) :
  frames kBlockSize slices = Some (its, bo') ->
  exists bo'', frames 0 slices = Some (its, bo'').
Proof.
  destruct slices as [|slice slices]; intros Hfrs.
  - injection Hfrs as <- <-. by exists 0.
  - cbn [frames] in *. rewrite frame_pad in Hfrs by log_lia.
    change (0 <? kBlockSize - kBlockSize) with false in Hfrs.
    destruct (frame _ 0 slice _ true) as [[its1 bo1]|]; [|discriminate].
    cbn [app] in Hfrs. eauto.
Qed.

Lemma frames_total_at (crc : Crc32c) (slices : list (list byte)) (bo : Z) :
  0 <= bo <= kBlockSize -> exists its bo', frames bo slices = Some (its, bo').
Proof.
  intros Hbo.
  destruct (AddRecords_frames crc slices
              {| dest_ := []; block_offset_ := bo;
                 type_crc_ := InitTypeCrc crc |} eq_refl Hbo)
    as (its & bo' & Hfrs & _).
  eauto.
Qed.

(** X7 (appending to a reopened log).  A writer made for a file that has
    contents, [Writer(dest, dest_length)], starts at the block offset
    [dest_length % kBlockSize].  If the file holds what a fresh writer
    wrote for payloads [payloads1], appending [payloads2] with such a writer
    gives exactly the file a single writer would have written for all the
    payloads, and a reader returns all of them, in order, with nothing
    reported. *)
Theorem wal_reopen_round_trip (crc : Crc32c)
    (payloads1 payloads2 : list (list byte)) (reporter checksum : bool) :
  Crc32c_ok crc ->
  exists (w1 w2 w : Writer) (r : Reader),
    AddRecords crc (Writer_new crc) payloads1 = Some (OK, w1) /\
    AddRecords crc (Writer_reopen crc (dest_ w1)) payloads2
    = Some (OK, w2) /\
    AddRecords crc (Writer_new crc) (payloads1 ++ payloads2)
    = Some (OK, w) /\
    dest_ w2 = dest_ w /\
    ReadAll (length (payloads1 ++ payloads2) + 1) crc
      (Reader_new (dest_ w2) reporter checksum 0)
    = Some (payloads1 ++ payloads2, r) /\
    reported_ r = [].
Proof.
  intros Hok.
  destruct (AddRecords_frames crc payloads1 (Writer_new crc) eq_refl
              ltac:(cbn [Writer_new block_offset_]; log_lia))
    as (its1 & bo1 & Hfrs1 & Hadd1).
  cbn [Writer_new block_offset_ dest_ type_crc_ app] in Hfrs1, Hadd1.
  destruct (frames_size crc payloads1 0 its1 bo1 ltac:(log_lia) Hfrs1)
    as (Hbo1 & k & Hk & Hsize).
  assert (Hmod : size_of (enc_items crc its1) mod kBlockSize
                 = bo1 mod kBlockSize).
  { replace (size_of (enc_items crc its1)) with (bo1 + k * kBlockSize)
      by lia. apply Z_mod_plus_full. }
  set (wr := Writer_reopen crc (enc_items crc its1)).
  assert (Hwr : 0 <= block_offset_ wr <= kBlockSize).
  { cbn [wr Writer_reopen block_offset_].
    pose proof (Z.mod_pos_bound (size_of (enc_items crc its1)) kBlockSize
                  ltac:(log_lia)). lia. }
  destruct (AddRecords_frames crc payloads2 wr eq_refl Hwr)
    as (its2 & bo2 & Hfrs2 & Hadd2).
  cbn [wr Writer_reopen block_offset_ dest_ type_crc_] in Hfrs2, Hadd2.
  fold wr in Hadd2.
  assert (Hfrs2' : exists bo2', frames bo1 payloads2 = Some (its2, bo2')).
  { rewrite Hmod in Hfrs2.
    destruct (Z.eq_dec bo1 kBlockSize) as [->|Hne].
    - rewrite Z.mod_same in Hfrs2 by log_lia.
      destruct (frames_total_at crc payloads2 kBlockSize ltac:(log_lia))
        as (itsB & boB & HB).
      destruct (frames_block_end _ _ _ HB) as (bo'' & H0).
      rewrite H0 in Hfrs2. injection Hfrs2 as <- _. eauto.
    - rewrite Z.mod_small in Hfrs2 by lia. eauto. }
  destruct Hfrs2' as (bo2' & Hfrs2').
  pose proof (frames_app _ _ _ _ _ _ _ Hfrs1 Hfrs2') as Hall.
  destruct (round_trip_frames crc (payloads1 ++ payloads2) reporter checksum
              Hok) as (its & bo' & r & Hfrs & Hadd & Hread & Hrep).
  rewrite Hall in Hfrs. injection Hfrs as <- <-.
  eexists _, _, _, r. split; [exact Hadd1|]. cbn [dest_].
  split; [exact Hadd2|]. split; [exact Hadd|]. cbn [dest_].
  rewrite enc_items_app. split; [reflexivity|].
  rewrite <- enc_items_app. split; assumption.
Qed.

Lemma wal_reopen_round_trip_witness :
  Crc32c_ok crc32c /\
  exists (w1 w2 w : Writer) (r : Reader),
    AddRecords crc32c (Writer_new crc32c) [bytes "alpha"] = Some (OK, w1) /\
    AddRecords crc32c (Writer_reopen crc32c (dest_ w1)) [bytes "beta"; []]
    = Some (OK, w2) /\
    AddRecords crc32c (Writer_new crc32c) ([bytes "alpha"] ++ [bytes "beta"; []])
    = Some (OK, w) /\
    dest_ w2 = dest_ w /\
    ReadAll (length ([bytes "alpha"] ++ [bytes "beta"; []]) + 1) crc32c
      (Reader_new (dest_ w2) true true 0)
    = Some ([bytes "alpha"] ++ [bytes "beta"; []], r) /\
    reported_ r = [].
Proof.
  split; [exact crc32c_ok|].
  apply (wal_reopen_round_trip crc32c [bytes "alpha"] [bytes "beta"; []]
           true true).
  exact crc32c_ok.
Defined.

End LogReopenProps.
Section LogTruncatedProps.
Import Log.

(** *** Reading a log whose end is missing *)

Lemma Slice_app_le (a b : list byte) (n : Z) :
  n <= size_of a -> Slice (a ++ b) n = Slice a n.
Proof. unfold Slice, size_of. intros H. apply take_app_le. lia. Qed.

Lemma switch_Eof_any (r : Reader) (fragment scratch : list byte)
    (offset prospective : Z) (in_fragmented_record : bool) :
  ReadRecord_switch r kEof fragment offset scratch in_fragmented_record
    prospective
  = Return false [] (if in_fragmented_record then [] else scratch) r.
Proof. reflexivity. Qed.

(** The last block of the file is in the buffer and ends inside a record:
    the end of the file is announced, and nothing is reported. *)
Lemma read_cut_buffer (crc : Crc32c) (rounds : nat) (r : Reader)
    (result : list byte) (t : Z) (p : list byte) (m : Z) :
  eof_ r = true -> size_of p < 2 ^ 16 -> 0 <= m < 7 + size_of p ->
  buffer_ r = Slice (enc_item crc (Rec t p)) m ->
  ReadPhysicalRecord_loop (S rounds) crc r result
  = Some (kEof, result, set_buffer r []).
Proof.
  intros Heof Hp Hm Hbuf. cbn [ReadPhysicalRecord_loop].
  pose proof (size_of_nonneg p) as Hp0.
  assert (Hsz : size_of (buffer_ r) = m).
  { rewrite Hbuf. apply size_of_Slice. rewrite enc_item_Rec_size. lia. }
  rewrite Hsz.
  destruct (Z.ltb_spec m kHeaderSize) as [Hlt|Hge];
    [by rewrite Heof|].
  assert (Hb : buffer_ r = header_bytes crc t p ++ Slice p (m - 7)).
  { rewrite Hbuf. cbn [enc_item]. apply Slice_app_ge.
    rewrite header_bytes_length. log_lia. }
  assert (Hlen : Z.lor (Z.land (byte_at (buffer_ r) 4) 255)
                   (Z.shiftl (Z.land (byte_at (buffer_ r) 5) 255) 8)
                 = size_of p).
  { rewrite Hb. unfold header_bytes.
    change (byte_at _ 4) with (byte_to_Z (Z_to_byte (Z.land (size_of p) 255))).
    change (byte_at _ 5) with (byte_to_Z (Z_to_byte (Z.shiftr (size_of p) 8))).
    apply length_field. lia. }
  rewrite Hlen.
  destruct (Z.ltb_spec m (kHeaderSize + size_of p)); [|log_lia].
  cbn [set_buffer eof_]. by rewrite Heof.
Qed.

(** The same when the cut record is still to be read from the file. *)
Lemma read_cut_file (crc : Crc32c) (r : Reader) (result : list byte) (t : Z)
    (p : list byte) (m : Z) :
  eof_ r = false -> size_of (buffer_ r) < kHeaderSize ->
  7 + size_of p <= kBlockSize -> 0 <= m < 7 + size_of p ->
  file_ r = Slice (enc_item crc (Rec t p)) m ->
  exists r',
    ReadPhysicalRecord_loop 3 crc r result = Some (kEof, result, r') /\
    same_sink r r' /\ resyncing_ r' = resyncing_ r.
Proof.
  intros Heof Hsmall Hfit Hm Hfile.
  pose proof (size_of_nonneg p) as Hp0.
  assert (Hsz : size_of (file_ r) = m).
  { rewrite Hfile. apply size_of_Slice. rewrite enc_item_Rec_size. lia. }
  rewrite ReadPhysicalRecord_refill by assumption.
  destruct (refill_spec r)
    as (r1 & -> & Hi & Hrs & Hl & Hrep & Hrp & Hck & Hb & Hf & Hshort & _).
  rewrite Slice_all in Hb by lia.
  assert (He1 : eof_ r1 = true) by (apply Hshort; lia).
  rewrite (read_cut_buffer crc 1 r1 result t p m He1 ltac:(log_lia) Hm
             ltac:(by rewrite Hb)).
  eexists. split; [reflexivity|]. split; [|exact Hrs].
  unfold same_sink. cbn [set_buffer reported_ reporter_ checksum_].
  rewrite Hrep, Hrp, Hck. tauto.
Qed.

(** A round of the writer's loop whose bytes are not all in the file. *)
Lemma read_cut (crc : Crc32c) (bo t : Z) (p : list byte) (m : Z)
    (r : Reader) (result : list byte) :
  0 <= bo <= kBlockSize ->
  let leftover := kBlockSize - bo in
  let pad := if (leftover <? kHeaderSize) && (0 <? leftover)
             then [Pad leftover] else [] in
  let bo1 := if leftover <? kHeaderSize then 0 else bo in
  bo1 + kHeaderSize + size_of p <= kBlockSize ->
  0 <= m < size_of (enc_items crc (pad ++ [Rec t p])) ->
  reader_at bo (Slice (enc_items crc (pad ++ [Rec t p])) m) r ->
  exists r',
    ReadPhysicalRecord_loop 3 crc r result = Some (kEof, result, r') /\
    same_sink r r' /\ resyncing_ r' = false.
Proof.
  intros Hbo leftover pad bo1 Hfit Hm (Hinit & Hres & Hlast & _ & Hst).
  pose proof (size_of_nonneg p) as Hp0.
  pose proof (enc_item_Rec_size crc t p) as Hrec.
  rewrite enc_items_app, enc_items_one in Hm, Hst.
  set (padbytes := enc_items crc pad) in *.
  set (rec := enc_item crc (Rec t p)) in *.
  assert (Hpad : size_of padbytes
                 = if (leftover <? kHeaderSize) && (0 <? leftover)
                   then leftover else 0).
  { subst padbytes pad.
    destruct (Z.ltb_spec leftover kHeaderSize); cbn [andb]; [|done].
    destruct (Z.ltb_spec 0 leftover); [|done].
    rewrite enc_items_one. apply enc_item_Pad_size. log_lia. }
  rewrite size_of_app in Hm.
  assert (Hrem : size_of (Slice (padbytes ++ rec) m) = m)
    by (apply size_of_Slice; rewrite size_of_app; lia).
  assert (Hp16 : size_of p < 2 ^ 16).
  { subst bo1. destruct (leftover <? kHeaderSize); log_lia. }
  assert (Hfit7 : 7 + size_of p <= kBlockSize).
  { subst bo1. destruct (leftover <? kHeaderSize); log_lia. }
  (* the cut record alone, once the zero bytes before it are skipped *)
  assert (Hfromfile : forall m',
            eof_ r = false -> size_of (buffer_ r) < kHeaderSize ->
            0 <= m' < 7 + size_of p -> file_ r = Slice rec m' ->
            exists r',
              ReadPhysicalRecord_loop 3 crc r result
              = Some (kEof, result, r') /\
              same_sink r r' /\ resyncing_ r' = false).
  { intros m' Heof Hsmall Hm' Hfile.
    destruct (read_cut_file crc r result t p m' Heof Hsmall Hfit7 Hm' Hfile)
      as (r' & Heq & Hs & Hrs).
    exists r'. by rewrite Hrs. }
  destruct (eof_ r) eqn:Heof.
  - destruct Hst as (Hfile & Hbuf & Hlt). rewrite Hrem in Hlt.
    exists (set_buffer r []).
    split; [|split; [unfold same_sink; cbn; tauto|exact Hres]].
    destruct (Z.ltb_spec leftover kHeaderSize) as [Hl7|Hl7];
      cbn [andb] in Hpad.
    + destruct (Z.ltb_spec 0 leftover) as [Hpos|Hzero].
      * cbn [ReadPhysicalRecord_loop]. rewrite Hbuf, Hrem.
        destruct (Z.ltb_spec m kHeaderSize);
          [by rewrite Heof|subst leftover; log_lia].
      * subst leftover. lia.
    + assert (Hnil : padbytes = []) by (apply size_of_zero_nil; lia).
      rewrite Hnil in Hbuf. cbn [app] in Hbuf.
      apply (read_cut_buffer crc 2 r result t p m Heof Hp16);
        [rewrite Hnil, size_of_nil in Hm; lia|exact Hbuf].
  - destruct Hst as [(Hcat & Hsum)|(Hfile & Hsmall & Hbo0)].
    + assert (Hle : size_of (buffer_ r) <= m).
      { rewrite <- Hrem, <- Hcat, size_of_app.
        pose proof (size_of_nonneg (file_ r)). lia. }
      destruct (Z.ltb_spec leftover kHeaderSize) as [Hl7|Hl7];
        cbn [andb] in Hpad.
      * assert (Hps : size_of padbytes = size_of (buffer_ r)).
        { destruct (Z.ltb_spec 0 leftover); subst leftover; lia. }
        rewrite Slice_app_ge in Hcat by lia.
        destruct (app_split_prefix _ _ _ _ Hcat ltac:(lia))
          as (tail & Hbuf & Htail).
        assert (Ht : tail = []).
        { apply size_of_zero_nil. rewrite Hbuf, size_of_app in Hps.
          pose proof (size_of_nonneg tail). lia. }
        subst tail. cbn [app] in Htail.
        apply (Hfromfile (m - size_of padbytes)); try done.
        -- subst leftover. log_lia.
        -- lia.
      * subst leftover bo1.
        destruct (Z.ltb_spec (kBlockSize - bo) kHeaderSize); log_lia.
    + assert (Hnil : padbytes = []).
      { apply size_of_zero_nil. rewrite Hpad. subst leftover.
        destruct Hbo0 as [->| ->]; reflexivity. }
      rewrite Hnil in Hfile, Hm. cbn [app] in Hfile.
      rewrite size_of_nil in Hm.
      apply (Hfromfile m); try done. lia.
Qed.

(** [ReadRecord]'s loop on a logical record whose end is missing: the
    fragments that are there are dropped and the call returns false. *)
Lemma read_frame_cut (crc : Crc32c) (rounds : nat) :
  Crc32c_ok crc ->
  forall (bo : Z) (ptr : list byte) (begin : bool) (its : list item)
         (bo' : Z) (fuel : nat) (r : Reader) (m : Z)
         (scratch fragment : list byte) (prospective : Z),
  frame rounds bo ptr (size_of ptr) begin = Some (its, bo') ->
  0 <= bo <= kBlockSize -> 0 <= prospective ->
  0 <= m < size_of (enc_items crc its) ->
  (Z.to_nat m < fuel)%nat ->
  reader_at bo (Slice (enc_items crc its) m) r ->
  exists r' scratch',
    ReadRecord_loop fuel crc r scratch fragment (negb begin) prospective
    = Some (false, [], scratch', r') /\
    same_sink r r'.
Proof.
  intros Hok.
  induction rounds as [|rounds IH];
    intros bo ptr begin its bo' fuel r m scratch fragment prospective
           Hfr Hbo Hpro Hm Hfuel Hat; [discriminate|].
  cbn [frame] in Hfr.
  set (leftover := kBlockSize - bo) in Hfr.
  set (pad := if (leftover <? kHeaderSize) && (0 <? leftover)
              then [Pad leftover] else []) in Hfr.
  set (bo1 := if leftover <? kHeaderSize then 0 else bo) in Hfr.
  set (avail := kBlockSize - bo1 - kHeaderSize) in Hfr.
  set (frag := if size_of ptr <? avail then size_of ptr else avail) in Hfr.
  set (type := if begin && (size_of ptr =? frag) then kFullType else _) in Hfr.
  pose proof (size_of_nonneg ptr) as Hptr.
  assert (Hb1 : 0 <= bo1 /\ 0 <= avail).
  { subst avail bo1 leftover.
    destruct (Z.ltb_spec (kBlockSize - bo) kHeaderSize); log_lia. }
  assert (Hfrag : 0 <= frag <= size_of ptr /\ frag <= avail).
  { subst frag. destruct (Z.ltb_spec (size_of ptr) avail); lia. }
  assert (Hsz : size_of (Slice ptr frag) = frag)
    by (apply size_of_Slice; lia).
  assert (Hty : 1 <= type <= 4).
  { subst type. destruct begin, (size_of ptr =? frag); cbn [andb]; log_lia. }
  assert (Hfit : bo1 + kHeaderSize + size_of (Slice ptr frag) <= kBlockSize)
    by (rewrite Hsz; subst avail; log_lia).
  assert (Hbo2 : 0 <= bo1 + kHeaderSize + frag <= kBlockSize)
    by (subst avail; log_lia).
  assert (Hits : exists its',
            its = (pad ++ [Rec type (Slice ptr frag)]) ++ its' /\
            if 0 <? size_of ptr - frag
            then frame rounds (bo1 + kHeaderSize + frag) (advance frag ptr)
                   (size_of (advance frag ptr)) false = Some (its', bo')
            else its' = [] /\ bo' = bo1 + kHeaderSize + frag).
  { rewrite (size_of_advance ptr frag) by lia.
    destruct (0 <? size_of ptr - frag).
    - destruct (frame rounds _ _ _ false) as [[its' bo'']|]; [|discriminate].
      injection Hfr as <- <-. eauto.
    - injection Hfr as <- <-. exists []. by rewrite app_nil_r. }
  clear Hfr. destruct Hits as (its' & -> & Hrest).
  rewrite enc_items_app in Hat, Hm.
  set (head := enc_items crc (pad ++ [Rec type (Slice ptr frag)])) in *.
  assert (Hhead : 7 <= size_of head).
  { subst head. rewrite enc_items_app, enc_items_one, size_of_app.
    rewrite enc_item_Rec_size.
    pose proof (size_of_nonneg (enc_items crc pad)).
    pose proof (size_of_nonneg (Slice ptr frag)). lia. }
  destruct fuel as [|fuel]; [lia|].
  destruct (Z_lt_le_dec m (size_of head)) as [Hcut|Hwhole].
  - (* the file ends within this round *)
    rewrite Slice_app_le in Hat by lia.
    assert (Hm0 : 0 <= m < size_of head) by lia.
    destruct (read_cut crc bo type (Slice ptr frag) m r fragment Hbo Hfit
                Hm0 Hat) as (r1 & Hread & Hs1 & Hres1).
    cbn [ReadRecord_loop]. unfold ReadPhysicalRecord. rewrite Hread, Hres1.
    cbn [andb]. rewrite switch_Eof_any. eauto.
  - (* this round's record is there; the rest of the record is cut *)
    rewrite Slice_app_ge in Hat by lia.
    rewrite size_of_app in Hm.
    destruct (read_head crc bo type (Slice ptr frag) _ r fragment
                Hok Hbo Hty Hfit Hat) as (r1 & Hread & Hat1 & Hs1).
    rewrite Hsz in Hat1.
    pose proof Hat1 as (_ & Hres1 & _).
    cbn [ReadRecord_loop]. unfold ReadPhysicalRecord. rewrite Hread, Hres1.
    cbn [andb].
    set (offset := u64 _).
    assert (Hoff : 0 <= offset) by apply u64_nonneg.
    destruct (Z.ltb_spec 0 (size_of ptr - frag)) as [Hmore|Hend].
    2:{ destruct Hrest as (-> & _).
        change (size_of (enc_items crc [])) with 0 in Hm. lia. }
    destruct (Z.eqb_spec (size_of ptr) frag) as [|_]; [lia|].
    assert (Hm' : 0 <= m - size_of head < size_of (enc_items crc its'))
      by lia.
    assert (Hfuel' : (Z.to_nat (m - size_of head) < fuel)%nat) by lia.
    destruct begin; subst type; cbn [andb negb].
    + rewrite switch_First.
      destruct (IH _ _ false _ _ fuel r1 _ (Slice ptr frag)
                  (Slice ptr frag) offset Hrest Hbo2 Hoff Hm' Hfuel' Hat1)
        as (r' & scratch' & Heq & Hs').
      cbn [negb] in Heq. rewrite Heq.
      exists r', scratch'. split; [reflexivity|].
      apply (same_sink_trans _ _ _ Hs1 Hs').
    + rewrite switch_Middle.
      destruct (IH _ _ false _ _ fuel r1 _ (scratch ++ Slice ptr frag)
                  (Slice ptr frag) prospective Hrest Hbo2 Hpro Hm' Hfuel' Hat1)
        as (r' & scratch' & Heq & Hs').
      cbn [negb] in Heq. rewrite Heq.
      exists r', scratch'. split; [reflexivity|].
      apply (same_sink_trans _ _ _ Hs1 Hs').
Qed.

Lemma ReadRecord_cut (crc : Crc32c) (rounds : nat) (bo : Z)
    (slice : list byte) (its : list item) (bo' : Z) (r : Reader) (m : Z) :
  Crc32c_ok crc ->
  frame rounds bo slice (size_of slice) true = Some (its, bo') ->
  0 <= bo <= kBlockSize ->
  0 <= m < size_of (enc_items crc its) ->
  reader_at bo (Slice (enc_items crc its) m) r ->
  exists r' scratch',
    ReadRecord crc r = Some (false, [], scratch', r') /\ same_sink r r'.
Proof.
  intros Hok Hfr Hbo Hm Hat.
  pose proof Hat as (Hinit & _ & Hlast & _).
  unfold ReadRecord. rewrite Hinit.
  destruct (Z.ltb_spec (last_record_offset_ r) 0); [lia|]. cbn [negb].
  apply (read_frame_cut crc rounds Hok bo slice true its bo' _ r m [] [] 0
           Hfr Hbo); [lia|assumption| |assumption].
  pose proof (reader_at_length _ _ _ Hat) as Hlen.
  assert (size_of (Slice (enc_items crc its) m) = m)
    by (apply size_of_Slice; lia).
  unfold size_of in *. lia.
Qed.

(** Successive [ReadRecord] calls on the first [m] bytes of a log return
    the records that lie within these bytes, and then false. *)
Lemma ReadAll_cut (crc : Crc32c) (slices : list (list byte)) :
  Crc32c_ok crc ->
  forall (bo : Z) (its : list item) (bo' : Z) (r : Reader) (m : Z)
         (calls : nat),
  frames bo slices = Some (its, bo') -> 0 <= bo <= kBlockSize -> 0 <= m ->
  (length slices < calls)%nat ->
  reader_at bo (Slice (enc_items crc its) m) r ->
  exists (k : nat) (its_k : list item) (bo_k : Z) (r' : Reader),
    (k <= length slices)%nat /\
    frames bo (take k slices) = Some (its_k, bo_k) /\
    size_of (enc_items crc its_k) <= m /\
    (forall its1 bo1,
       (k < length slices)%nat ->
       frames bo (take (S k) slices) = Some (its1, bo1) ->
       m < size_of (enc_items crc its1)) /\
    ReadAll calls crc r = Some (take k slices, r') /\ same_sink r r'.
Proof.
  intros Hok.
  induction slices as [|slice slices IH];
    intros bo its bo' r m calls Hfrs Hbo Hm Hcalls Hat.
  - injection Hfrs as <- <-.
    change (Slice (enc_items crc []) m) with (Slice ([] : list byte) m) in Hat.
    replace (Slice [] m) with ([] : list byte) in Hat
      by (unfold Slice; by rewrite take_nil).
    destruct (ReadRecord_eof crc bo r Hat) as (r' & scratch' & Heq & Hs).
    destruct calls as [|calls]; [cbn in Hcalls; lia|].
    exists 0%nat, [], bo, r'. cbn [take ReadAll]. rewrite Heq.
    split; [cbn [length]; lia|]. split; [done|].
    split; [change (size_of (enc_items crc [])) with 0; lia|].
    split; [intros ? ? Hk; cbn [length] in Hk; lia|]. by split.
  - cbn [frames] in Hfrs.
    destruct (frame _ bo slice _ true) as [[its1 bo1]|] eqn:Hfr;
      [|discriminate].
    destruct (frames bo1 slices) as [[its2 bo2]|] eqn:Hfrs2; [|discriminate].
    injection Hfrs as <- <-.
    rewrite enc_items_app in Hat.
    pose proof (frame_offset _ _ _ _ _ _ _ Hbo (size_of_nonneg slice) Hfr)
      as Hbo1.
    destruct calls as [|calls]; [lia|]. cbn [length] in Hcalls.
    destruct (Z_lt_le_dec m (size_of (enc_items crc its1))) as [Hcut|Hwhole].
    + rewrite Slice_app_le in Hat by lia.
      destruct (ReadRecord_cut crc _ bo slice its1 bo1 r m Hok Hfr Hbo
                  ltac:(lia) Hat) as (r' & scratch' & Heq & Hs).
      exists 0%nat, [], bo, r'. cbn [take ReadAll]. rewrite Heq.
      split; [lia|]. split; [done|].
      split; [change (size_of (enc_items crc [])) with 0; lia|].
      split; [|by split]. intros its0 bo0 _ Hone.
      cbn [frames] in Hone. rewrite Hfr in Hone.
      injection Hone as <- _. by rewrite app_nil_r.
    + rewrite Slice_app_ge in Hat by lia.
      destruct (ReadRecord_frame crc _ bo slice its1 bo1 r _ Hok Hfr Hbo Hat)
        as (r1 & scratch1 & Heq & Hat1 & Hs1).
      assert (Hm1 : 0 <= m - size_of (enc_items crc its1)) by lia.
      assert (Hcalls1 : (length slices < calls)%nat) by lia.
      destruct (IH bo1 its2 bo2 r1 (m - size_of (enc_items crc its1)) calls
                  Hfrs2 Hbo1 Hm1 Hcalls1 Hat1)
        as (k & its_k & bo_k & r' & Hk & Hfk & Hsk & Hnext & Hall & Hs').
      exists (S k), (its1 ++ its_k), bo_k, r'.
      cbn [take length ReadAll frames]. rewrite Heq, Hall, Hfr, Hfk.
      split; [lia|]. split; [done|].
      split; [rewrite size_of_enc_items_app; lia|].
      split; [|split; [done|apply (same_sink_trans _ _ _ Hs1 Hs')]].
      intros its0 bo0 Hlt Hone.
      destruct (frames bo1 (take (S k) slices)) as [[its3 bo3]|] eqn:Hf3;
        [|discriminate].
      injection Hone as <- _. rewrite size_of_enc_items_app.
      assert (Hlt' : (k < length slices)%nat) by lia.
      specialize (Hnext its3 bo3 Hlt' eq_refl). lia.
Qed.

(** X19 (a log whose end is missing).  If only the first [n] bytes of a log
    file reach the disk, the reader returns exactly the records that lie
    completely within these bytes, in order (the first [k] payloads, where
    the file for [k] payloads has at most [n] bytes and the file for [k + 1]
    payloads has more), and then the end of the file; a record that is cut
    is dropped whole and nothing is reported as corruption. *)
Theorem wal_truncated_tail (crc : Crc32c) (payloads : list (list byte))
    (n : Z) (reporter checksum : bool) :
  Crc32c_ok crc -> 0 <= n ->
  exists (w : Writer) (k : nat) (w_k : Writer) (r : Reader),
    AddRecords crc (Writer_new crc) payloads = Some (OK, w) /\
    (k <= length payloads)%nat /\
    AddRecords crc (Writer_new crc) (take k payloads) = Some (OK, w_k) /\
    size_of (dest_ w_k) <= n /\
    ((k < length payloads)%nat ->
     exists w', AddRecords crc (Writer_new crc) (take (S k) payloads)
                = Some (OK, w') /\
                n < size_of (dest_ w')) /\
    ReadAll (length payloads + 1) crc
      (Reader_new (Slice (dest_ w) n) reporter checksum 0)
    = Some (take k payloads, r) /\
    reported_ r = [].
Proof.
  intros Hok Hn.
  assert (Hnew : forall slices,
            exists its bo',
              frames 0 slices = Some (its, bo') /\
              AddRecords crc (Writer_new crc) slices
              = Some (OK, {| dest_ := enc_items crc its;
                             block_offset_ := bo';
                             type_crc_ := InitTypeCrc crc |})).
  { intros slices.
    destruct (AddRecords_frames crc slices (Writer_new crc) eq_refl
                ltac:(cbn [Writer_new block_offset_]; log_lia))
      as (its & bo' & Hfrs & Hadd).
    cbn [Writer_new block_offset_ dest_ type_crc_ app] in Hfrs, Hadd.
    eauto. }
  destruct (Hnew payloads) as (its & bo' & Hfrs & Hadd).
  destruct (ReadAll_cut crc payloads Hok 0 its bo'
              (Reader_new (Slice (enc_items crc its) n) reporter checksum 0)
              n (length payloads + 1) Hfrs ltac:(log_lia) Hn ltac:(lia)
              (Reader_new_at _ _ _))
    as (k & its_k & bo_k & r & Hk & Hfk & Hsk & Hnext & Hall & Hs).
  destruct (Hnew (take k payloads)) as (its_k' & bo_k' & Hfk' & Haddk).
  rewrite Hfk in Hfk'. injection Hfk' as <- <-.
  eexists _, k, _, r. split; [exact Hadd|]. split; [exact Hk|].
  split; [exact Haddk|]. cbn [dest_]. split; [exact Hsk|].
  split; [|split; [exact Hall|by destruct Hs as (-> & _)]].
  intros Hlt.
  destruct (Hnew (take (S k) payloads)) as (its1 & bo1 & Hf1 & Hadd1).
  eexists. split; [exact Hadd1|]. cbn [dest_].
  by apply (Hnext its1 bo1).
Qed.

Lemma wal_truncated_tail_witness :
  Crc32c_ok crc32c /\ 0 <= 20 /\
  exists (w : Writer) (k : nat) (w_k : Writer) (r : Reader),
    AddRecords crc32c (Writer_new crc32c) [bytes "alpha"; bytes "beta"]
    = Some (OK, w) /\
    (k <= length [bytes "alpha"; bytes "beta"])%nat /\
    AddRecords crc32c (Writer_new crc32c)
      (take k [bytes "alpha"; bytes "beta"]) = Some (OK, w_k) /\
    size_of (dest_ w_k) <= 20 /\
    ((k < length [bytes "alpha"; bytes "beta"])%nat ->
     exists w', AddRecords crc32c (Writer_new crc32c)
                  (take (S k) [bytes "alpha"; bytes "beta"])
                = Some (OK, w') /\
                20 < size_of (dest_ w')) /\
    ReadAll (length [bytes "alpha"; bytes "beta"] + 1) crc32c
      (Reader_new (Slice (dest_ w) 20) true true 0)
    = Some (take k [bytes "alpha"; bytes "beta"], r) /\
    reported_ r = [].
Proof.
  split; [exact crc32c_ok|]. split; [lia|].
  apply (wal_truncated_tail crc32c [bytes "alpha"; bytes "beta"] 20 true true);
    [exact crc32c_ok|lia].
Defined.

End LogTruncatedProps.
(** ** util/cache.cc: the LRU cache *)

Section CacheTableProps.
Import Cache.
Implicit Types (heap : gmap ptr LRUHandle) (t : HandleTable) (p q e : ptr)
  (l chain : list ptr).

(** *** Lists of entries *)

Lemma elem_of_unlink e l p : p ∈ unlink e l <-> p ∈ l /\ p <> e.
Proof. unfold unlink. rewrite list_elem_of_filter. tauto. Qed.

Lemma unlink_notin e l : e ∉ l -> unlink e l = l.
Proof.
  intros Hn. unfold unlink. induction l as [|p l IH]; [done|].
  rewrite not_elem_of_cons in Hn. destruct Hn as (Hne & Hn).
  rewrite filter_cons_True by congruence. by rewrite IH.
Qed.

Lemma unlink_head e l : e ∉ l -> unlink e (e :: l) = l.
Proof.
  intros Hn. unfold unlink. rewrite filter_cons_False by tauto.
  by apply unlink_notin.
Qed.

Lemma unlink_app e l1 l2 : unlink e (l1 ++ l2) = unlink e l1 ++ unlink e l2.
Proof. apply filter_app. Qed.

Lemma unlink_NoDup e l : NoDup l -> NoDup (unlink e l).
Proof. apply NoDup_filter. Qed.

Lemma unlink_perm e l : NoDup l -> e ∈ l -> l ≡ₚ e :: unlink e l.
Proof.
  intros Hnd He. induction l as [|p l IH]; [by apply elem_of_nil in He|].
  apply NoDup_cons in Hnd as (Hp & Hnd).
  destruct (decide (p = e)) as [->|Hne].
  - by rewrite unlink_head.
  - apply elem_of_cons in He as [->|He]; [done|].
    unfold unlink. rewrite filter_cons_True by done. fold (unlink e l).
    rewrite (IH Hnd He) at 1. apply Permutation_swap.
Qed.

(** Replacing a chain of the table changes the entries as it changes the
    chain. *)
Lemma concat_insert_perm (ls : list (list ptr)) (i : nat) chain chain' l :
  ls !! i = Some chain -> chain' ++ l ≡ₚ chain ->
  concat (<[i := chain']> ls) ++ l ≡ₚ concat ls.
Proof.
  revert i. induction ls as [|c0 ls IH]; intros i Hi Hp; [done|].
  destruct i as [|i]; cbn in *.
  - injection Hi as ->. rewrite <- Hp.
    rewrite <- !app_assoc. f_equiv. apply Permutation_app_comm.
  - rewrite <- app_assoc. f_equiv. by apply IH.
Qed.

Lemma concat_insert_perm' (ls : list (list ptr)) (i : nat) chain chain' l :
  ls !! i = Some chain -> chain' ≡ₚ chain ++ l ->
  concat (<[i := chain']> ls) ≡ₚ concat ls ++ l.
Proof.
  revert i. induction ls as [|c0 ls IH]; intros i Hi Hp; [done|].
  destruct i as [|i]; cbn in *.
  - injection Hi as ->. rewrite Hp.
    rewrite <- !app_assoc. f_equiv. apply Permutation_app_comm.
  - rewrite <- app_assoc. f_equiv. by apply IH.
Qed.

(** *** Charges *)

Lemma total_charge_app heap l1 l2 :
  total_charge heap (l1 ++ l2) = total_charge heap l1 + total_charge heap l2.
Proof.
  unfold total_charge in *.
  induction l1 as [|p l1 IH]; cbn [app foldr]; lia.
Qed.

Lemma total_charge_cons heap p l :
  total_charge heap (p :: l) = charge_of heap p + total_charge heap l.
Proof. reflexivity. Qed.

Lemma total_charge_perm heap l1 l2 :
  l1 ≡ₚ l2 -> total_charge heap l1 = total_charge heap l2.
Proof.
  induction 1 as [|p l1 l2 _ IH|p q l|l1 l2 l3 _ IH1 _ IH2];
    rewrite ?total_charge_cons; lia.
Qed.

Lemma total_charge_ext heap heap' l :
  (forall p, p ∈ l -> heap' !! p = heap !! p) ->
  total_charge heap' l = total_charge heap l.
Proof.
  induction l as [|p l IH]; intros Hagree; [done|].
  rewrite !total_charge_cons. f_equal.
  - unfold charge_of. by rewrite Hagree by apply list_elem_of_here.
  - apply IH. intros q Hq. apply Hagree. by apply list_elem_of_further.
Qed.

(** *** Buckets *)

Lemma land_mask_range (a m : Z) : 0 <= m -> 0 <= Z.land a m <= m.
Proof.
  intros Hm. split; [apply Z.land_nonneg; lia|].
  assert (Hdisj : Z.land (Z.ldiff m a) (Z.land a m) = 0).
  { apply Z.bits_inj'. intros n Hn.
    rewrite Z.land_spec, Z.ldiff_spec, Z.land_spec, Z.bits_0.
    by destruct (Z.testbit m n), (Z.testbit a n). }
  assert (E : m = Z.ldiff m a + Z.land a m).
  { rewrite (Z.add_nocarry_lxor _ _ Hdisj), (Z.lxor_lor _ _ Hdisj).
    by rewrite (Z.land_comm a m), Z.lor_ldiff_and. }
  assert (0 <= Z.ldiff m a) by (apply Z.ldiff_nonneg; lia). lia.
Qed.

Lemma slot_bound (len hash0 : Z) :
  1 <= len < 2 ^ 32 -> (slot len hash0 < Z.to_nat len)%nat.
Proof.
  intros Hlen. unfold slot, u32. rewrite Z.mod_small by lia.
  pose proof (land_mask_range hash0 (len - 1) ltac:(lia)). lia.
Qed.

(** *** FindPointer *)

(** The walk along a chain of allocated entries stops at the first entry
    with the key and hash looked for, or at the end of the chain. *)
Lemma FindPointer_loop_spec heap chain (key0 : list byte) (hash0 : Z) :
  Forall (fun q => is_Some (heap !! q)) chain ->
  exists j : nat,
    FindPointer_loop heap chain key0 hash0 = Some j /\
    Forall (fun q => key_hash heap q <> Some (key0, hash0)) (take j chain) /\
    match chain !! j with
    | Some p => key_hash heap p = Some (key0, hash0)
    | None => j = length chain
    end.
Proof.
  induction chain as [|p chain IH]; intros Hall.
  - exists O. by repeat split.
  - apply Forall_cons in Hall as ((h & Hp) & Hall).
    destruct (IH Hall) as (j & Hj & Hpre & Hat).
    cbn [FindPointer_loop]. rewrite Hp. cbn [mbind option_bind].
    destruct (decide (hash h = hash0 /\ key0 = key h)) as [(Hh & Hk)|Hno].
    + exists O. rewrite !bool_decide_eq_true_2 by done. cbn [negb orb].
      split; [done|]. split; [constructor|].
      cbn. unfold key_hash. rewrite Hp. cbn. by rewrite Hh, Hk.
    + exists (S j).
      assert (Hor : negb (bool_decide (hash h = hash0))
                    || negb (bool_decide (key0 = key h)) = true).
      { destruct (decide (hash h = hash0)) as [E1|E1].
        - rewrite (bool_decide_eq_true_2 _ E1).
          rewrite bool_decide_eq_false_2 by tauto. reflexivity.
        - by rewrite (bool_decide_eq_false_2 _ E1). }
      rewrite Hor, Hj. split; [done|]. split.
      * cbn [take]. constructor; [|exact Hpre].
        unfold key_hash. rewrite Hp. cbn. intros [= <- <-]. tauto.
      * change ((p :: chain) !! S j) with (chain !! j).
        destruct (chain !! j); [exact Hat|]. cbn [length]. congruence.
Qed.

(** *** The invariant of the hash table *)

Lemma elem_of_concat (ls : list (list ptr)) p :
  p ∈ concat ls <-> exists chain, chain ∈ ls /\ p ∈ chain.
Proof.
  induction ls as [|c0 ls IH]; cbn [concat].
  - split; [intros H; by apply elem_of_nil in H|].
    intros (chain & H & _). by apply elem_of_nil in H.
  - rewrite elem_of_app, IH. split.
    + intros [H|(chain & H1 & H2)].
      * exists c0. split; [apply list_elem_of_here|done].
      * exists chain. split; [by apply list_elem_of_further|done].
    + intros (chain & H1 & H2). apply elem_of_cons in H1 as [->|H1]; eauto.
Qed.

Lemma concat_insert_middle (ls : list (list ptr)) (i : nat) a b p :
  (i < length ls)%nat ->
  concat (<[i := a ++ p :: b]> ls) ≡ₚ p :: concat (<[i := a ++ b]> ls).
Proof.
  revert i. induction ls as [|c0 ls IH]; intros i Hi; cbn in Hi; [lia|].
  destruct i as [|i]; cbn.
  - rewrite <- !app_assoc. cbn [app]. by rewrite <- Permutation_middle.
  - rewrite (IH i) by lia. by rewrite <- Permutation_middle.
Qed.

Lemma concat_replicate_nil (n : nat) : concat (replicate n (@nil ptr)) = [].
Proof. induction n as [|n IH]; [done|]. exact IH. Qed.

Lemma NoDup_fmap_eq {A B : Type} (f : A -> B) (l : list A) (x y : A) :
  NoDup (f <$> l) -> x ∈ l -> y ∈ l -> f x = f y -> x = y.
Proof.
  induction l as [|a l IH]; intros Hnd Hx Hy E;
    [by apply elem_of_nil in Hx|].
  rewrite fmap_cons in Hnd. apply NoDup_cons in Hnd as (Hn & Hnd).
  apply elem_of_cons in Hx as [->|Hx]; apply elem_of_cons in Hy as [->|Hy].
  - done.
  - exfalso. apply Hn. rewrite E. by apply list_elem_of_fmap_2.
  - exfalso. apply Hn. rewrite <- E. by apply list_elem_of_fmap_2.
  - by apply IH.
Qed.

Lemma entry_in_bucket heap t l q :
  Forall (in_own_bucket heap t) l -> q ∈ l ->
  exists h chain,
    heap !! q = Some h /\
    list_ t !! slot (length_ t) (hash h) = Some chain /\ q ∈ chain.
Proof.
  intros Hall Hq. rewrite Forall_forall in Hall. specialize (Hall q Hq).
  unfold in_own_bucket in Hall.
  destruct (heap !! q) as [h|] eqn:Hh; [|done].
  destruct (list_ t !! slot (length_ t) (hash h)) as [chain|] eqn:Hc;
    [|done].
  by exists h, chain.
Qed.

Lemma chain_entries heap t l (i : nat) chain q :
  table_inv heap t l -> list_ t !! i = Some chain -> q ∈ chain -> q ∈ l.
Proof.
  intros Hinv Hi Hq. rewrite <- (inv_concat _ _ _ Hinv).
  apply elem_of_concat. exists chain. split; [|done].
  by apply list_elem_of_lookup_2 with i.
Qed.

Lemma table_inv_ext heap heap' t l :
  (forall p, p ∈ l -> heap' !! p = heap !! p) ->
  table_inv heap t l -> table_inv heap' t l.
Proof.
  intros Hagree [H1 H2 H3 H4 H5 H6 H7 H8].
  split; try done.
  - rewrite Forall_forall in *. intros q Hq. specialize (H7 q Hq).
    unfold in_own_bucket in *. by rewrite Hagree.
  - replace (key_hash heap' <$> l) with (key_hash heap <$> l); [done|].
    apply list_fmap_ext. intros i q Hq. unfold key_hash.
    rewrite Hagree; [done|]. by apply list_elem_of_lookup_2 with i.
Qed.

Lemma table_inv_perm heap t l l' :
  l ≡ₚ l' -> table_inv heap t l -> table_inv heap t l'.
Proof.
  intros Hp [H1 H2 H3 H4 H5 H6 H7 H8].
  split; try done.
  - by rewrite <- Hp.
  - by rewrite <- Hp.
  - by rewrite <- Hp.
  - by rewrite <- Hp.
  - by rewrite <- Hp.
  - by rewrite <- Hp.
Qed.

(** [FindPointer] on a table that satisfies its invariant. *)
Lemma FindPointer_spec heap t l (key0 : list byte) (hash0 : Z) :
  table_inv heap t l ->
  exists chain (j : nat),
    list_ t !! slot (length_ t) hash0 = Some chain /\
    FindPointer heap t key0 hash0 = Some (slot (length_ t) hash0, j) /\
    match chain !! j with
    | Some d => d ∈ l /\ key_hash heap d = Some (key0, hash0)
    | None =>
        j = length chain /\
        Forall (fun q => key_hash heap q <> Some (key0, hash0)) l
    end.
Proof.
  intros Hinv.
  pose proof (slot_bound _ hash0 (inv_length _ _ _ Hinv)) as Hslot.
  rewrite <- (inv_list _ _ _ Hinv) in Hslot.
  destruct (lookup_lt_is_Some_2 _ _ Hslot) as (chain & Hchain).
  assert (Halloc : Forall (fun q => is_Some (heap !! q)) chain).
  { rewrite Forall_forall. intros q Hq.
    pose proof (chain_entries _ _ _ _ _ _ Hinv Hchain Hq) as Hl.
    destruct (entry_in_bucket _ _ _ _ (inv_bucket _ _ _ Hinv) Hl)
      as (h & _ & -> & _). eauto. }
  destruct (FindPointer_loop_spec heap chain key0 hash0 Halloc)
    as (j & Hloop & Hpre & Hat).
  exists chain, j. split; [done|]. split.
  { unfold FindPointer. rewrite Hchain. cbn. rewrite Hloop. done. }
  destruct (chain !! j) as [d|] eqn:Hd.
  - split; [|done]. apply (chain_entries _ _ _ _ _ _ Hinv Hchain).
    by apply list_elem_of_lookup_2 with j.
  - split; [done|]. rewrite Forall_forall. intros q Hq Hkey.
    destruct (entry_in_bucket _ _ _ _ (inv_bucket _ _ _ Hinv) Hq)
      as (h & chain' & Hh & Hchain' & Hin).
    unfold key_hash in Hkey. rewrite Hh in Hkey. cbn in Hkey.
    injection Hkey as Hk Hhash. rewrite Hhash, Hchain in Hchain'.
    injection Hchain' as <-.
    rewrite Hat, take_ge in Hpre by lia.
    rewrite Forall_forall in Hpre. apply (Hpre q Hin).
    unfold key_hash. rewrite Hh. cbn. by rewrite Hk, Hhash.
Qed.

(** An entry of the table is found under its key and hash. *)
Lemma FindPointer_entry heap t l p h :
  table_inv heap t l -> p ∈ l -> heap !! p = Some h ->
  exists chain (j : nat),
    list_ t !! slot (length_ t) (hash h) = Some chain /\
    FindPointer heap t (key h) (hash h)
    = Some (slot (length_ t) (hash h), j) /\
    chain !! j = Some p.
Proof.
  intros Hinv Hp Hh.
  destruct (FindPointer_spec heap t l (key h) (hash h) Hinv)
    as (chain & j & Hchain & Hfind & Hat).
  exists chain, j. split; [done|]. split; [done|].
  assert (Hkey : key_hash heap p = Some (key h, hash h))
    by (unfold key_hash; by rewrite Hh).
  destruct (chain !! j) as [d|].
  - destruct Hat as (Hd & Hkd). f_equal.
    apply (NoDup_fmap_eq (key_hash heap) l); [apply Hinv|done..|congruence].
  - destruct Hat as (_ & Hall). rewrite Forall_forall in Hall.
    by destruct (Hall p Hp).
Qed.

Lemma HandleTable_Lookup_entry heap t l p h :
  table_inv heap t l -> p ∈ l -> heap !! p = Some h ->
  HandleTable_Lookup heap t (key h) (hash h) = Some (Some p).
Proof.
  intros Hinv Hp Hh.
  destruct (FindPointer_entry heap t l p h Hinv Hp Hh)
    as (chain & j & Hchain & Hfind & Hat).
  unfold HandleTable_Lookup. rewrite Hfind. cbn. rewrite Hchain. cbn.
  by rewrite Hat.
Qed.

(** *** Remove *)

Lemma chain_split chain (j : nat) p :
  chain !! j = Some p -> chain = take j chain ++ p :: drop (S j) chain.
Proof. intros H. symmetry. by apply take_drop_middle. Qed.

Lemma unlink_length p l :
  NoDup l -> p ∈ l -> length l = S (length (unlink p l)).
Proof.
  intros Hnd Hp. by rewrite (Permutation_length (unlink_perm p l Hnd Hp)).
Qed.

Lemma unlink_keys heap p l :
  NoDup l -> p ∈ l -> NoDup (key_hash heap <$> l) ->
  NoDup (key_hash heap <$> unlink p l) /\
  key_hash heap p ∉ key_hash heap <$> unlink p l.
Proof.
  intros Hnd Hp Hkeys. rewrite (unlink_perm p l Hnd Hp), fmap_cons in Hkeys.
  apply NoDup_cons in Hkeys. tauto.
Qed.

(** Taking an entry out of its chain leaves a table of the entries but
    it. *)
Lemma table_inv_delete heap t l p (j : nat) chain :
  table_inv heap t l -> p ∈ l ->
  list_ t !! slot (length_ t) (hash_of heap p) = Some chain ->
  chain !! j = Some p ->
  table_inv heap
    {| length_ := length_ t; elems_ := u32 (elems_ t - 1);
       list_ := <[slot (length_ t) (hash_of heap p) := delete j chain]>
                  (list_ t) |}
    (unlink p l).
Proof.
  intros Hinv Hp Hchain Hat.
  set (i := slot (length_ t) (hash_of heap p)) in *.
  pose proof (chain_split _ _ _ Hat) as Hsplit.
  pose proof (lookup_lt_Some _ _ _ Hchain) as Hi.
  pose proof (inv_nodup _ _ _ Hinv) as Hnd.
  pose proof (unlink_length p l Hnd Hp) as Hlen.
  pose proof (inv_count _ _ _ Hinv) as Hcount.
  split; cbn [length_ elems_ list_].
  - by apply unlink_NoDup.
  - apply (Permutation_cons_inv (a := p)).
    rewrite <- (unlink_perm p l) by done.
    rewrite <- (inv_concat _ _ _ Hinv).
    rewrite delete_take_drop, <- concat_insert_middle by done.
    by rewrite <- Hsplit, list_insert_id.
  - apply Hinv.
  - rewrite length_insert. apply Hinv.
  - rewrite (inv_elems _ _ _ Hinv). unfold u32. rewrite Z.mod_small; lia.
  - lia.
  - rewrite Forall_forall. intros q Hq.
    apply elem_of_unlink in Hq as (Hq & Hne).
    destruct (entry_in_bucket _ _ _ _ (inv_bucket _ _ _ Hinv) Hq)
      as (hq & cq & Hhq & Hcq & Hin).
    unfold in_own_bucket. rewrite Hhq. cbn [length_ list_].
    destruct (decide (i = slot (length_ t) (hash hq))) as [E|E].
    + rewrite <- E, list_lookup_insert_eq by done.
      rewrite <- E, Hchain in Hcq. injection Hcq as <-.
      rewrite delete_take_drop. rewrite Hsplit in Hin.
      rewrite elem_of_app in *. rewrite elem_of_cons in Hin. tauto.
    + rewrite list_lookup_insert_ne by done. by rewrite Hcq.
  - exact (proj1 (unlink_keys heap p l Hnd Hp (inv_keys _ _ _ Hinv))).
Qed.

Lemma HandleTable_Remove_spec heap t l p h :
  table_inv heap t l -> p ∈ l -> heap !! p = Some h ->
  exists t',
    HandleTable_Remove heap t (key h) (hash h) = Some (Some p, t') /\
    table_inv heap t' (unlink p l).
Proof.
  intros Hinv Hp Hh.
  destruct (FindPointer_entry heap t l p h Hinv Hp Hh)
    as (chain & j & Hchain & Hfind & Hat).
  eexists. split.
  { unfold HandleTable_Remove. rewrite Hfind. cbn. rewrite Hchain. cbn.
    rewrite Hat. reflexivity. }
  assert (Hhash : hash_of heap p = hash h)
    by (unfold hash_of; by rewrite Hh).
  rewrite <- Hhash in Hchain |- *.
  by apply table_inv_delete.
Qed.

(** *** Resize *)

Lemma Resize_length_spec (rounds : nat) (elems : Z) :
  elems <= 2 ^ 31 ->
  forall k : Z, 2 <= k <= 31 -> 31 - k < Z.of_nat rounds ->
  exists new_length,
    Resize_length rounds (2 ^ k) elems = Some new_length /\
    1 <= new_length < 2 ^ 32.
Proof.
  intros He. induction rounds as [|rounds IH]; intros k Hk Hr; [lia|].
  cbn [Resize_length].
  assert (Hpow : 2 ^ 2 <= 2 ^ k <= 2 ^ 31)
    by (split; apply Z.pow_le_mono_r; lia).
  destruct (Z.ltb_spec (2 ^ k) elems) as [Hlt|Hge].
  - assert (Hk' : k < 31) by (destruct (Z.eq_dec k 31) as [->|]; lia).
    assert (Hnext : 2 ^ (k + 1) <= 2 ^ 31) by (apply Z.pow_le_mono_r; lia).
    replace (u32 (2 ^ k * 2)) with (2 ^ (k + 1)).
    + apply IH; lia.
    + rewrite Z.pow_add_r in * by lia. unfold u32.
      rewrite Z.mod_small; lia.
  - exists (2 ^ k). split; [done|lia].
Qed.

Lemma Resize_move_spec heap (new_length : Z) (hs : list ptr) :
  1 <= new_length < 2 ^ 32 ->
  Forall (fun q => is_Some (heap !! q)) hs ->
  forall acc : list (list ptr),
  length acc = Z.to_nat new_length ->
  exists res,
    Resize_move heap new_length hs acc = Some res /\
    length res = length acc /\
    concat res ≡ₚ hs ++ concat acc /\
    forall q h, heap !! q = Some h ->
      q ∈ hs \/
      (exists chain, acc !! slot new_length (hash h) = Some chain /\
                     q ∈ chain) ->
      exists chain, res !! slot new_length (hash h) = Some chain /\ q ∈ chain.
Proof.
  intros Hlen Hall.
  induction Hall as [|h0 hs (e0 & He0) Hall IH]; intros acc Hacc.
  - exists acc. repeat split; try done.
    intros q h Hq [Hin|Hex]; [by apply elem_of_nil in Hin|done].
  - cbn [Resize_move]. rewrite He0. cbn.
    set (i := slot new_length (hash e0)).
    assert (Hi : (i < length acc)%nat)
      by (rewrite Hacc; by apply slot_bound).
    destruct (lookup_lt_is_Some_2 _ _ Hi) as (chain & Hchain).
    rewrite Hchain. cbn.
    destruct (IH (<[i := h0 :: chain]> acc)) as (res & Hres & Hlenres & Hperm
                                                 & Hbucket);
      [by rewrite length_insert|].
    exists res. split; [done|]. split; [by rewrite Hlenres, length_insert|].
    split.
    + rewrite Hperm. cbn [app].
      rewrite (concat_insert_middle acc i [] chain h0 Hi). cbn [app].
      rewrite list_insert_id by done. by rewrite <- Permutation_middle.
    + intros q h Hq Hor. apply Hbucket; [done|].
      destruct Hor as [Hin|(cq & Hcq & Hin)].
      * apply elem_of_cons in Hin as [->|Hin]; [|by left]. right.
        rewrite He0 in Hq. injection Hq as <-. exists (h0 :: chain).
        split; [by apply list_lookup_insert_eq|apply list_elem_of_here].
      * right. destruct (decide (i = slot new_length (hash h))) as [E|E].
        -- rewrite <- E in *. rewrite Hchain in Hcq. injection Hcq as <-.
           exists (h0 :: chain).
           split; [by apply list_lookup_insert_eq|].
           by apply list_elem_of_further.
        -- exists cq. by rewrite list_lookup_insert_ne.
Qed.

(** [Resize] keeps the entries and puts each into the bucket of its
    hash. *)
Lemma Resize_spec heap t l :
  table_inv heap t l ->
  exists t', Resize heap t = Some t' /\ table_inv heap t' l.
Proof.
  intros Hinv. unfold Resize.
  assert (He : elems_ t <= 2 ^ 31)
    by (rewrite (inv_elems _ _ _ Hinv); apply Hinv).
  destruct (Resize_length_spec 33 (elems_ t) He 2 ltac:(lia) ltac:(lia))
    as (nl & Hnl & Hrange).
  change (2 ^ 2) with 4 in Hnl. rewrite Hnl. cbn.
  assert (Halloc : forall q, q ∈ l -> is_Some (heap !! q)).
  { intros q Hq.
    destruct (entry_in_bucket _ _ _ _ (inv_bucket _ _ _ Hinv) Hq)
      as (h & _ & -> & _). eauto. }
  assert (Hall : Forall (fun q => is_Some (heap !! q)) (concat (list_ t))).
  { rewrite Forall_forall. intros q Hq. apply Halloc.
    by rewrite <- (inv_concat _ _ _ Hinv). }
  destruct (Resize_move_spec heap nl _ Hrange Hall
              (replicate (Z.to_nat nl) []) (length_replicate _ _))
    as (res & Hres & Hlen & Hperm & Hbucket).
  rewrite Hres. cbn. eexists. split; [reflexivity|].
  split; cbn [length_ elems_ list_].
  - apply Hinv.
  - rewrite Hperm, concat_replicate_nil, app_nil_r. apply Hinv.
  - done.
  - by rewrite Hlen, length_replicate.
  - apply Hinv.
  - apply Hinv.
  - rewrite Forall_forall. intros q Hq.
    destruct (Halloc q Hq) as (h & Hh).
    destruct (Hbucket q h Hh) as (chain & Hc & Hin).
    { left. by rewrite (inv_concat _ _ _ Hinv). }
    unfold in_own_bucket. rewrite Hh. cbn [length_ list_]. by rewrite Hc.
  - apply Hinv.
Qed.

(** *** Insert *)

(** Linking a new entry into the chain of its bucket. *)
Lemma table_inv_add heap t l e he (a b : list ptr) :
  table_inv heap t l -> heap !! e = Some he -> e ∉ l ->
  list_ t !! slot (length_ t) (hash he) = Some (a ++ b) ->
  key_hash heap e ∉ key_hash heap <$> l ->
  Z.of_nat (length l) < 2 ^ 31 ->
  table_inv heap
    {| length_ := length_ t; elems_ := u32 (elems_ t + 1);
       list_ := <[slot (length_ t) (hash he) := a ++ e :: b]> (list_ t) |}
    (e :: l).
Proof.
  intros Hinv Hhe Hfresh Hchain Hkey Hcount.
  set (i := slot (length_ t) (hash he)) in *.
  pose proof (lookup_lt_Some _ _ _ Hchain) as Hi.
  split; cbn [length_ elems_ list_].
  - apply NoDup_cons. split; [done|apply Hinv].
  - rewrite concat_insert_middle by done.
    rewrite list_insert_id by done. by rewrite (inv_concat _ _ _ Hinv).
  - apply Hinv.
  - rewrite length_insert. apply Hinv.
  - rewrite (inv_elems _ _ _ Hinv). unfold u32. cbn [length].
    rewrite Z.mod_small; lia.
  - cbn [length]. lia.
  - apply Forall_cons. split.
    + unfold in_own_bucket. rewrite Hhe. cbn [length_ list_]. fold i.
      rewrite list_lookup_insert_eq by done.
      apply elem_of_app. right. apply list_elem_of_here.
    + rewrite Forall_forall. intros q Hq.
      destruct (entry_in_bucket _ _ _ _ (inv_bucket _ _ _ Hinv) Hq)
        as (hq & cq & Hhq & Hcq & Hin).
      unfold in_own_bucket. rewrite Hhq. cbn [length_ list_].
      destruct (decide (i = slot (length_ t) (hash hq))) as [E|E].
      * rewrite <- E, list_lookup_insert_eq by done.
        rewrite <- E, Hchain in Hcq. injection Hcq as <-.
        rewrite elem_of_app in *. rewrite elem_of_cons. tauto.
      * rewrite list_lookup_insert_ne by done. by rewrite Hcq.
  - rewrite fmap_cons. apply NoDup_cons. split; [done|apply Hinv].
Qed.

(** [HandleTable::Insert] returns the entry that had the key and hash of
    the new one, which takes its place, or null. *)
Lemma HandleTable_Insert_spec heap t l e he :
  table_inv heap t l -> heap !! e = Some he -> e ∉ l ->
  Z.of_nat (length l) < 2 ^ 31 ->
  exists (old : option ptr) t',
    HandleTable_Insert heap t e = Some (old, t') /\
    HandleTable_Lookup heap t (key he) (hash he) = Some old /\
    match old with
    | Some d =>
        d ∈ l /\ key_hash heap d = Some (key he, hash he) /\
        table_inv heap t' (e :: unlink d l)
    | None => table_inv heap t' (e :: l)
    end.
Proof.
  intros Hinv Hhe Hfresh Hcount.
  destruct (FindPointer_spec heap t l (key he) (hash he) Hinv)
    as (chain & j & Hchain & Hfind & Hat).
  assert (Hke : key_hash heap e = Some (key he, hash he))
    by (unfold key_hash; by rewrite Hhe).
  assert (Hlook : HandleTable_Lookup heap t (key he) (hash he)
                  = Some (chain !! j)).
  { unfold HandleTable_Lookup. rewrite Hfind. cbn. by rewrite Hchain. }
  unfold HandleTable_Insert. rewrite Hhe. cbn [mbind option_bind].
  rewrite Hfind. cbn [mbind option_bind]. rewrite Hchain.
  cbn [mbind option_bind]. rewrite Hlook.
  pose proof (inv_nodup _ _ _ Hinv) as Hnd.
  pose proof (inv_count _ _ _ Hinv) as Hle.
  destruct (chain !! j) as [d|] eqn:Hd.
  - destruct Hat as (Hdl & Hkd).
    eexists (Some d), _. split; [reflexivity|]. split; [done|].
    split; [done|]. split; [done|].
    assert (Hhd : hash_of heap d = hash he).
    { unfold key_hash in Hkd. unfold hash_of.
      destruct (heap !! d) as [hd|]; [|done]. by injection Hkd. }
    pose proof (unlink_length d l Hnd Hdl) as Hlen.
    assert (Hdel := table_inv_delete heap t l d j chain Hinv Hdl
                      ltac:(by rewrite Hhd) Hd).
    rewrite Hhd, delete_take_drop in Hdel.
    assert (Hadd := table_inv_add heap _ (unlink d l) e he
                      (take j chain) (drop (S j) chain) Hdel Hhe).
    cbn [length_ elems_ list_] in Hadd.
    rewrite list_insert_insert_eq in Hadd.
    replace (u32 (u32 (elems_ t - 1) + 1)) with (elems_ t) in Hadd.
    + apply Hadd.
      * rewrite elem_of_unlink. tauto.
      * apply list_lookup_insert_eq. by apply lookup_lt_Some in Hchain.
      * rewrite Hke, <- Hkd.
        exact (proj2 (unlink_keys heap d l Hnd Hdl (inv_keys _ _ _ Hinv))).
      * lia.
    + rewrite (inv_elems _ _ _ Hinv). unfold u32.
      rewrite (Z.mod_small (_ - 1)) by lia.
      rewrite Z.mod_small by lia. lia.
  - destruct Hat as (-> & Hno).
    rewrite take_ge, drop_ge by lia.
    assert (Hinv1 := table_inv_add heap t l e he chain [] Hinv Hhe Hfresh).
    rewrite app_nil_r in Hinv1. specialize (Hinv1 Hchain).
    assert (Hk : key_hash heap e ∉ key_hash heap <$> l).
    { intros Hin. apply list_elem_of_fmap_1 in Hin as (q & Heq & Hq).
      rewrite Forall_forall in Hno. apply (Hno q Hq). congruence. }
    specialize (Hinv1 Hk Hcount).
    cbn [length_ elems_ list_].
    destruct (length_ t <? u32 (elems_ t + 1)).
    + destruct (Resize_spec heap _ (e :: l) Hinv1) as (t' & Hres & Hinv').
      rewrite Hres. cbn [mbind option_bind]. by exists None, t'.
    + by eexists None, _.
Qed.

End CacheTableProps.
Section CacheProps.
Import Cache.
Implicit Types (c : LRUCache) (p q e d : ptr) (l : list ptr).

(** *** Erasing an entry *)

Lemma entries_unlink c c' d :
  lru_ c' = unlink d (lru_ c) -> in_use_ c' = unlink d (in_use_ c) ->
  entries c' = unlink d (entries c).
Proof. unfold entries. intros -> ->. by rewrite unlink_app. Qed.

Lemma LRU_Remove_entry c d :
  NoDup (entries c) -> d ∈ entries c ->
  LRU_Remove c d
  = Some (with_in_use (with_lru c (unlink d (lru_ c)))
            (unlink d (in_use_ c))).
Proof.
  unfold entries. intros Hnd Hd.
  apply NoDup_app in Hnd as (Hn1 & Hdisj & Hn2).
  unfold LRU_Remove. apply elem_of_app in Hd.
  destruct (decide (d ∈ lru_ c)) as [Hl|Hl].
  - rewrite bool_decide_eq_true_2 by done.
    rewrite (unlink_notin d (in_use_ c)) by (by apply Hdisj).
    reflexivity.
  - rewrite bool_decide_eq_false_2 by done.
    destruct Hd as [|Hu]; [done|]. rewrite bool_decide_eq_true_2 by done.
    rewrite (unlink_notin d (lru_ c)) by done. reflexivity.
Qed.

(** [FinishErase] of an entry that only the cache refers to frees it. *)
Lemma FinishErase_last c d hd :
  NoDup (entries c) -> d ∈ entries c -> heap_ c !! d = Some hd ->
  refs hd = 1 ->
  FinishErase c (Some d)
  = Some (true,
          {| capacity_ := capacity_ c;
             usage_ := u64 (usage_ c - charge hd);
             lru_ := unlink d (lru_ c);
             in_use_ := unlink d (in_use_ c);
             table_ := table_ c;
             heap_ := delete d (heap_ c);
             deleted_ := deleted_ c ++ [(deleter hd, key hd, value hd)] |}).
Proof.
  intros Hnd Hd Hhd Hrefs. unfold FinishErase.
  rewrite (LRU_Remove_entry c d Hnd Hd). destruct c. cbn in *.
  rewrite Hhd. cbn. unfold Unref. cbn.
  rewrite lookup_insert_eq. cbn. rewrite Hrefs. cbn.
  by rewrite !delete_insert_eq.
Qed.

(** [FinishErase] of an entry that clients refer to leaves it allocated,
    out of the cache. *)
Lemma FinishErase_held c d hd :
  NoDup (entries c) -> d ∈ entries c -> heap_ c !! d = Some hd ->
  2 <= refs hd < 2 ^ 32 ->
  FinishErase c (Some d)
  = Some (true,
          {| capacity_ := capacity_ c;
             usage_ := u64 (usage_ c - charge hd);
             lru_ := unlink d (lru_ c);
             in_use_ := unlink d (in_use_ c);
             table_ := table_ c;
             heap_ := <[d := set_refs (set_in_cache hd false) (refs hd - 1)]>
                        (heap_ c);
             deleted_ := deleted_ c |}).
Proof.
  intros Hnd Hd Hhd Hrefs. unfold FinishErase.
  rewrite (LRU_Remove_entry c d Hnd Hd). destruct c. cbn in *.
  rewrite Hhd. cbn. unfold Unref. cbn.
  rewrite lookup_insert_eq. cbn.
  assert (Hu : u32 (refs hd - 1) = refs hd - 1)
    by (unfold u32; apply Z.mod_small; lia).
  rewrite Hu. destruct (Z.eqb_spec (refs hd - 1) 0); [lia|].
  by rewrite insert_insert_eq.
Qed.

Lemma u64_sub_charge (ch T : Z) : u64 (u64 (ch + T) - ch) = u64 T.
Proof.
  unfold u64. rewrite Zminus_mod_idemp_l. f_equal. lia.
Qed.

(** The invariant after an entry has left the cache. *)
Lemma erase_cache_inv c c' d hd :
  NoDup (entries c) -> d ∈ entries c -> heap_ c !! d = Some hd ->
  table_inv (heap_ c) (table_ c) (unlink d (entries c)) ->
  Forall (lru_entry (heap_ c)) (lru_ c) ->
  Forall (in_use_entry (heap_ c)) (in_use_ c) ->
  usage_ c = u64 (total_charge (heap_ c) (entries c)) ->
  lru_ c' = unlink d (lru_ c) -> in_use_ c' = unlink d (in_use_ c) ->
  table_ c' = table_ c -> usage_ c' = u64 (usage_ c - charge hd) ->
  (forall p, p <> d -> heap_ c' !! p = heap_ c !! p) ->
  cache_inv c'.
Proof.
  intros Hnd Hd Hhd Htab Hlru Hin Hus El Ei Et Eu Hagree.
  pose proof (entries_unlink c c' d El Ei) as Ee.
  split.
  - rewrite Ee, Et. apply (table_inv_ext (heap_ c)); [|done].
    intros p Hp. apply elem_of_unlink in Hp as (_ & Hne). by apply Hagree.
  - rewrite El. rewrite Forall_forall in *. intros p Hp.
    apply elem_of_unlink in Hp as (Hp & Hne).
    unfold lru_entry. rewrite Hagree by done. by apply Hlru.
  - rewrite Ei. rewrite Forall_forall in *. intros p Hp.
    apply elem_of_unlink in Hp as (Hp & Hne).
    unfold in_use_entry. rewrite Hagree by done. by apply Hin.
  - rewrite Eu, Hus, Ee.
    rewrite (total_charge_perm _ _ _ (unlink_perm d _ Hnd Hd)).
    rewrite total_charge_cons. unfold charge_of at 1. rewrite Hhd.
    rewrite u64_sub_charge. f_equal. symmetry. apply total_charge_ext.
    intros p Hp. apply elem_of_unlink in Hp as (_ & Hne). by apply Hagree.
Qed.

Lemma erase_inv c d hd :
  NoDup (entries c) -> d ∈ entries c -> heap_ c !! d = Some hd ->
  table_inv (heap_ c) (table_ c) (unlink d (entries c)) ->
  Forall (lru_entry (heap_ c)) (lru_ c) ->
  Forall (in_use_entry (heap_ c)) (in_use_ c) ->
  usage_ c = u64 (total_charge (heap_ c) (entries c)) ->
  exists c',
    FinishErase c (Some d) = Some (true, c') /\
    cache_inv c' /\
    capacity_ c' = capacity_ c /\
    lru_ c' = unlink d (lru_ c) /\ in_use_ c' = unlink d (in_use_ c) /\
    usage_ c' = u64 (usage_ c - charge hd) /\
    (forall p, p <> d -> heap_ c' !! p = heap_ c !! p) /\
    (d ∈ lru_ c ->
     heap_ c' !! d = None /\
     deleted_ c' = deleted_ c ++ [(deleter hd, key hd, value hd)]) /\
    (d ∈ in_use_ c ->
     heap_ c' !! d = Some (set_refs (set_in_cache hd false) (refs hd - 1)) /\
     deleted_ c' = deleted_ c).
Proof.
  intros Hnd Hd Hhd Htab Hlru Hin Hus.
  pose proof Hnd as Hnd'. unfold entries in Hnd'.
  apply NoDup_app in Hnd' as (_ & Hdisj & _).
  pose proof Hd as Hd'. unfold entries in Hd'. apply elem_of_app in Hd'.
  destruct Hd' as [Hl|Hu].
  - assert (Hrefs : refs hd = 1).
    { rewrite Forall_forall in Hlru. specialize (Hlru d Hl).
      unfold lru_entry in Hlru. rewrite Hhd in Hlru. tauto. }
    eexists. split; [by apply FinishErase_last|].
    cbn [capacity_ usage_ lru_ in_use_ table_ heap_ deleted_].
    assert (Hagree : forall p, p <> d -> delete d (heap_ c) !! p = heap_ c !! p)
      by (intros p Hne; by apply lookup_delete_ne).
    split; [by apply (erase_cache_inv c _ d hd)|].
    do 5 (split; [done|]). split.
    + intros _. split; [apply lookup_delete_eq|done].
    + intros Hu. by destruct (Hdisj d Hl).
  - assert (Hrefs : 2 <= refs hd < 2 ^ 32).
    { rewrite Forall_forall in Hin. specialize (Hin d Hu).
      unfold in_use_entry in Hin. rewrite Hhd in Hin. tauto. }
    eexists. split; [by apply FinishErase_held|].
    cbn [capacity_ usage_ lru_ in_use_ table_ heap_ deleted_].
    assert (Hagree : forall p, p <> d ->
              <[d := set_refs (set_in_cache hd false) (refs hd - 1)]>
                (heap_ c) !! p = heap_ c !! p)
      by (intros p Hne; by apply lookup_insert_ne).
    split; [by apply (erase_cache_inv c _ d hd)|].
    do 5 (split; [done|]). split.
    + intros Hl. by destruct (Hdisj d Hl).
    + intros _. split; [apply lookup_insert_eq|done].
Qed.

(** *** The eviction loop *)

Lemma entry_allocated c p :
  cache_inv c -> p ∈ entries c -> is_Some (heap_ c !! p).
Proof.
  intros Hinv Hp.
  destruct (entry_in_bucket _ _ _ _ (inv_bucket _ _ _ (inv_table _ Hinv)) Hp)
    as (h & _ & -> & _). eauto.
Qed.

(** An iteration of the loop of [Insert] (and of [Prune]): the oldest entry
    of [lru_] leaves the cache and is freed. *)
Lemma evict_head c old rest :
  cache_inv c -> lru_ c = old :: rest ->
  exists h t' c',
    heap_ c !! old = Some h /\ refs h = 1 /\
    HandleTable_Remove (heap_ c) (table_ c) (key h) (hash h)
    = Some (Some old, t') /\
    FinishErase (with_table c t') (Some old) = Some (true, c') /\
    cache_inv c' /\
    capacity_ c' = capacity_ c /\ lru_ c' = rest /\
    in_use_ c' = in_use_ c /\
    usage_ c' = u64 (usage_ c - charge h) /\
    (forall p, p <> old -> heap_ c' !! p = heap_ c !! p) /\
    heap_ c' !! old = None /\
    deleted_ c' = deleted_ c ++ [(deleter h, key h, value h)].
Proof.
  intros [Htab Hlru Hin Hus] Hl.
  assert (Hold : old ∈ lru_ c) by (rewrite Hl; apply list_elem_of_here).
  assert (Holde : old ∈ entries c)
    by (unfold entries; apply elem_of_app; by left).
  pose proof (inv_nodup _ _ _ Htab) as Hnd.
  pose proof Hnd as Hnd'. unfold entries in Hnd'. rewrite Hl in Hnd'.
  apply NoDup_app in Hnd' as (Hn1 & Hdisj & _).
  apply NoDup_cons in Hn1 as (Hfresh & _).
  pose proof Hlru as Hlru'. rewrite Forall_forall in Hlru'.
  pose proof (Hlru' old Hold) as Hle. unfold lru_entry in Hle.
  destruct (heap_ c !! old) as [h|] eqn:Hh; [|done].
  destruct Hle as (Hic & Hrefs).
  destruct (HandleTable_Remove_spec _ _ _ old h Htab Holde Hh)
    as (t' & Hrem & Htab').
  destruct (erase_inv (with_table c t') old h)
    as (c' & Hfe & Hinv' & Hcap & El & Ei & Eu & Hagree & Hfreed & _);
    try done.
  cbn [with_table capacity_ usage_ lru_ in_use_ heap_ deleted_] in *.
  destruct (Hfreed Hold) as (Hnone & Hdel).
  exists h, t', c'. do 6 (split; [done|]).
  split; [by rewrite El, Hl, unlink_head|].
  split; [rewrite Ei; apply unlink_notin, Hdisj, list_elem_of_here|].
  done.
Qed.

Lemma elem_of_take_list l (n : nat) p : p ∈ take n l -> p ∈ l.
Proof.
  intros Hp. rewrite <- (take_drop n l). apply elem_of_app. by left.
Qed.

Lemma calls_ext (heap heap' : gmap ptr LRUHandle) l :
  (forall p, p ∈ l -> heap' !! p = heap !! p) ->
  calls heap' l = calls heap l.
Proof.
  induction l as [|p l IH]; intros Hagree; [done|].
  unfold calls in *. cbn [omap list_omap].
  rewrite Hagree by apply list_elem_of_here.
  rewrite IH; [done|]. intros q Hq. apply Hagree.
  by apply list_elem_of_further.
Qed.

Lemma u64_sub_sub (a b T : Z) : u64 (u64 (a - b) - T) = u64 (a - (b + T)).
Proof. unfold u64. rewrite Zminus_mod_idemp_l. f_equal. lia. Qed.

(** An eviction, followed by [n] more, makes [n + 1]. *)
Lemma evicts_step c c1 c' (n : nat) old rest h :
  old ∉ rest -> lru_ c = old :: rest -> heap_ c !! old = Some h ->
  capacity_ c < usage_ c -> u64 (usage_ c) = usage_ c ->
  capacity_ c1 = capacity_ c -> lru_ c1 = rest -> in_use_ c1 = in_use_ c ->
  usage_ c1 = u64 (usage_ c - charge h) ->
  (forall p, p <> old -> heap_ c1 !! p = heap_ c !! p) ->
  heap_ c1 !! old = None ->
  deleted_ c1 = deleted_ c ++ [(deleter h, key h, value h)] ->
  evicts c1 n c' -> evicts c (S n) c'.
Proof.
  intros Hfresh Hl Hh Hover Hu Hcap1 Hl1 Hi1 Hu1 Hagree Hnone Hdel1
    (Hn & Hcap & Hlru & Hin & Hwhile & Hus & Hend & Hfree & Hkeep & Hdel).
  assert (Hext : forall k : nat, forall p, p ∈ take k rest ->
            heap_ c1 !! p = heap_ c !! p).
  { intros k p Hp. apply Hagree. intros ->.
    by apply Hfresh, (elem_of_take_list _ k). }
  assert (Hch : charge_of (heap_ c) old = charge h)
    by (unfold charge_of; by rewrite Hh).
  unfold evicts. rewrite Hl. cbn [length take drop].
  rewrite Hl1 in *. rewrite Hcap1 in *.
  split; [lia|]. split; [done|]. split; [done|]. split; [congruence|].
  split.
  { intros [|k] Hk; cbn [take].
    - cbn. by rewrite Z.sub_0_r, Hu.
    - rewrite total_charge_cons, Hch, <- u64_sub_sub, <- Hu1.
      rewrite <- (total_charge_ext (heap_ c) (heap_ c1)) by apply Hext.
      apply Hwhile. lia. }
  split.
  { rewrite Hus, Hu1, total_charge_cons, Hch, u64_sub_sub.
    by rewrite (total_charge_ext (heap_ c) (heap_ c1)) by apply Hext. }
  split; [done|]. split.
  { intros p Hp. apply elem_of_cons in Hp as [->|Hp]; [|by apply Hfree].
    destruct (decide (old ∈ take n rest)) as [Hin'|Hout].
    - by apply Hfree.
    - by rewrite Hkeep. }
  split.
  { intros p Hp. apply not_elem_of_cons in Hp as (Hne & Hp).
    rewrite Hkeep by done. by apply Hagree. }
  rewrite Hdel, Hdel1, <- app_assoc. f_equal.
  rewrite (calls_ext (heap_ c) (heap_ c1)) by apply Hext.
  unfold calls. cbn [omap list_omap app]. by rewrite Hh.
Qed.

(** The loop of [Insert] evicts the oldest entries of [lru_], and no
    more of them than it takes to bring the usage within the capacity. *)
Lemma Insert_loop_spec (rounds : nat) :
  forall c, cache_inv c -> (length (lru_ c) < rounds)%nat ->
  exists (n : nat) c',
    Insert_loop rounds c = Some c' /\ cache_inv c' /\ evicts c n c'.
Proof.
  induction rounds as [|rounds IH]; intros c Hinv Hfuel; [lia|].
  cbn [Insert_loop].
  assert (Hu : u64 (usage_ c) = usage_ c)
    by (rewrite (inv_usage _ Hinv); unfold u64; by rewrite Z.mod_mod).
  destruct (lru_ c) as [|old rest] eqn:Hl.
  - exists 0%nat, c. split; [done|]. split; [done|].
    unfold evicts. rewrite Hl. cbn [length take drop].
    split; [lia|]. do 3 (split; [done|]). split; [lia|].
    split; [cbn; by rewrite Z.sub_0_r, Hu|]. split; [by right|].
    split; [intros p Hp; by apply elem_of_nil in Hp|].
    split; [done|]. by rewrite app_nil_r.
  - destruct (Z.ltb_spec (capacity_ c) (usage_ c)) as [Hover|Hfit].
    + destruct (evict_head c old rest Hinv Hl)
        as (h & t' & c1 & Hh & Hrefs & Hrem & Hfe & Hinv1 & Hcap1 & Hl1
            & Hi1 & Hu1 & Hagree & Hfreed & Hdel).
      rewrite Hh. cbn [mbind option_bind]. rewrite Hrem.
      cbn [mbind option_bind]. rewrite Hfe. cbn [mbind option_bind].
      destruct (IH c1 Hinv1) as (n & c' & Hloop & Hinv' & Hev);
        [rewrite Hl1; cbn [length] in Hfuel; lia|].
      exists (S n), c'. split; [done|]. split; [done|].
      assert (Hfresh : old ∉ rest).
      { pose proof (inv_nodup _ _ _ (inv_table _ Hinv)) as Hnd.
        unfold entries in Hnd. rewrite Hl in Hnd.
        apply NoDup_app in Hnd as (Hn1 & _).
        by apply NoDup_cons in Hn1 as (? & _). }
      by apply (evicts_step c c1 c' n old rest h).
    + exists 0%nat, c. split; [done|]. split; [done|].
      unfold evicts. rewrite Hl. cbn [length take drop].
      split; [lia|]. do 3 (split; [done|]). split; [lia|].
      split; [cbn; by rewrite Z.sub_0_r, Hu|]. split; [by left|].
      split; [intros p Hp; by apply elem_of_nil in Hp|].
      split; [done|]. by rewrite app_nil_r.
Qed.

(** *** Linking a new entry *)

Lemma Forall_entry_ext (P : gmap ptr LRUHandle -> ptr -> Prop)
    (heap heap' : gmap ptr LRUHandle) l :
  (forall p, heap' !! p = heap !! p -> P heap p -> P heap' p) ->
  (forall p, p ∈ l -> heap' !! p = heap !! p) ->
  Forall (P heap) l -> Forall (P heap') l.
Proof.
  intros HP Hagree Hall. rewrite Forall_forall in *. intros p Hp.
  apply HP; [by apply Hagree|by apply Hall].
Qed.

Lemma lru_entry_ext (heap heap' : gmap ptr LRUHandle) p :
  heap' !! p = heap !! p -> lru_entry heap p -> lru_entry heap' p.
Proof. unfold lru_entry. by intros ->. Qed.

Lemma in_use_entry_ext (heap heap' : gmap ptr LRUHandle) p :
  heap' !! p = heap !! p -> in_use_entry heap p -> in_use_entry heap' p.
Proof. unfold in_use_entry. by intros ->. Qed.

Lemma u64_add_charge (T ch : Z) : u64 (u64 T + ch) = u64 (T + ch).
Proof. unfold u64. by rewrite Zplus_mod_idemp_l. Qed.

(** [Insert], up to its loop, on a shard that satisfies its invariant. *)
Lemma Insert_link_spec c e (key0 : list byte) (hash0 value0 charge0
    deleter0 : Z) :
  cache_inv c -> heap_ c !! e = None ->
  Z.of_nat (length (entries c)) < 2 ^ 31 ->
  exists c0,
    Insert_link c e key0 hash0 value0 charge0 deleter0 = Some c0 /\
    cache_inv c0 /\ capacity_ c0 = capacity_ c /\
    (forall p, p ∈ lru_ c0 -> p ∈ lru_ c /\ heap_ c0 !! p = heap_ c !! p) /\
    (forall p h, p ∈ in_use_ c -> heap_ c !! p = Some h ->
       (0 < capacity_ c -> (key h, hash h) <> (key0, hash0)) ->
       p ∈ in_use_ c0 /\ heap_ c0 !! p = Some h) /\
    (0 < capacity_ c ->
     e ∈ in_use_ c0 /\
     heap_ c0 !! e
     = Some {| value := value0; deleter := deleter0; charge := charge0;
               key := key0; in_cache := true; refs := 2; hash := hash0 |}).
Proof.
  intros Hinv Hnew Hcount.
  pose proof Hinv as [Htab Hlru Hin Hus].
  pose proof (inv_nodup _ _ _ Htab) as Hnd.
  assert (Hfresh : e ∉ entries c).
  { intros He. destruct (entry_allocated c e Hinv He) as (h & Hh).
    congruence. }
  assert (Hne : forall p, p ∈ entries c -> p <> e) by (intros p Hp ->; done).
  assert (Hlru_e : forall p, p ∈ lru_ c -> p ∈ entries c)
    by (intros p Hp; unfold entries; apply elem_of_app; by left).
  assert (Hin_e : forall p, p ∈ in_use_ c -> p ∈ entries c)
    by (intros p Hp; unfold entries; apply elem_of_app; by right).
  unfold Insert_link. cbv zeta.
  unfold with_heap, with_usage, LRU_Append, with_in_use, set_in_cache,
    set_refs.
  cbn [capacity_ usage_ lru_ in_use_ table_ heap_ deleted_
       value deleter charge key in_cache refs hash].
  destruct (Z.ltb_spec 0 (capacity_ c)) as [Hon|Hoff].
  2: { (* the cache is off *)
    eexists. split; [reflexivity|].
    cbn [capacity_ usage_ lru_ in_use_ table_ heap_ deleted_].
    assert (Hagree : forall p, p ∈ entries c ->
              <[e := {| value := value0; deleter := deleter0;
                        charge := charge0; key := key0; in_cache := false;
                        refs := 1; hash := hash0 |}]> (heap_ c) !! p
              = heap_ c !! p)
      by (intros p Hp; apply lookup_insert_ne; intros ->; done).
    split.
    { split; cbn [capacity_ usage_ lru_ in_use_ table_ heap_ deleted_].
      - by apply (table_inv_ext (heap_ c)).
      - apply (Forall_entry_ext lru_entry (heap_ c)); [apply lru_entry_ext| |done].
        intros p Hp. by apply Hagree, Hlru_e.
      - apply (Forall_entry_ext in_use_entry (heap_ c));
          [apply in_use_entry_ext| |done].
        intros p Hp. by apply Hagree, Hin_e.
      - rewrite Hus. f_equal. symmetry. by apply total_charge_ext. }
    split; [done|]. split; [|split; [|lia]].
    - intros p Hp. split; [done|]. by apply Hagree, Hlru_e.
    - intros p h Hp Hh _. split; [done|].
      by rewrite Hagree by (by apply Hin_e). }
  (* the cache is on *)
  rewrite insert_insert_eq.
  change (u32 (1 + 1)) with 2.
  set (h2 := {| value := value0; deleter := deleter0; charge := charge0;
                key := key0; in_cache := true; refs := 2; hash := hash0 |}).
  set (heap2 := <[e := h2]> (heap_ c)).
  assert (Hagree : forall p, p ∈ entries c -> heap2 !! p = heap_ c !! p)
    by (intros p Hp; apply lookup_insert_ne; intros ->; done).
  assert (He2 : heap2 !! e = Some h2) by apply lookup_insert_eq.
  assert (Htab2 : table_inv heap2 (table_ c) (entries c))
    by (by apply (table_inv_ext (heap_ c))).
  assert (Hlru2 : Forall (lru_entry heap2) (lru_ c)).
  { apply (Forall_entry_ext lru_entry (heap_ c)); [apply lru_entry_ext| |done].
    intros p Hp. by apply Hagree, Hlru_e. }
  assert (Hin2 : Forall (in_use_entry heap2) (in_use_ c ++ [e])).
  { apply Forall_app. split.
    - apply (Forall_entry_ext in_use_entry (heap_ c));
        [apply in_use_entry_ext| |done].
      intros p Hp. by apply Hagree, Hin_e.
    - apply Forall_singleton. unfold in_use_entry. rewrite He2.
      cbn. lia. }
  assert (Hperm : lru_ c ++ in_use_ c ++ [e] ≡ₚ e :: entries c).
  { unfold entries. rewrite app_assoc. by rewrite <- Permutation_cons_append. }
  assert (Hus2 : u64 (usage_ c + charge0)
                 = u64 (total_charge heap2 (lru_ c ++ in_use_ c ++ [e]))).
  { rewrite (total_charge_perm _ _ _ Hperm), total_charge_cons.
    unfold charge_of at 1. rewrite He2. cbn [charge h2].
    rewrite (total_charge_ext (heap_ c) heap2) by done.
    rewrite Hus, u64_add_charge. f_equal. lia. }
  destruct (HandleTable_Insert_spec heap2 (table_ c) (entries c) e h2
              Htab2 He2 Hfresh Hcount) as (old & t' & Hins & _ & Hcase).
  rewrite Hins. cbn [mbind option_bind].
  destruct old as [d|].
  - (* an entry of the same key gives way *)
    destruct Hcase as (Hd & Hkd & Htab').
    assert (Hde : d <> e) by (by apply Hne).
    destruct (entry_allocated c d Hinv Hd) as (hd & Hhd).
    assert (Hhd2 : heap2 !! d = Some hd) by (by rewrite Hagree).
    set (c3 := with_table _ t').
    assert (Hent3 : entries c3 = lru_ c ++ in_use_ c ++ [e]) by reflexivity.
    destruct (erase_inv c3 d hd)
      as (c0 & Hfe & Hinv0 & Hcap & El & Ei & Eu & Hag0 & _).
    + rewrite Hent3, Hperm. apply NoDup_cons. by split.
    + rewrite Hent3, Hperm. by apply list_elem_of_further.
    + done.
    + assert (Hp3 : e :: unlink d (entries c) ≡ₚ unlink d (entries c3)).
      { rewrite Hent3. unfold unlink. rewrite Hperm.
        by rewrite filter_cons_True by congruence. }
      apply (table_inv_perm _ _ _ _ Hp3 Htab').
    + done.
    + done.
    + done.
    + rewrite Hfe. cbn [mbind option_bind]. exists c0.
      split; [done|]. split; [done|]. split; [done|].
      cbn [c3 with_table lru_ in_use_ heap_] in El, Ei, Hag0.
      split; [|split].
      3: { intros _. split.
           - rewrite Ei. apply elem_of_unlink. split; [|done].
             apply elem_of_app. right. apply list_elem_of_here.
           - by rewrite Hag0 by done. }
      * intros p Hp. rewrite El in Hp.
        apply elem_of_unlink in Hp as (Hp & Hpd). split; [done|].
        rewrite Hag0 by done. by apply Hagree, Hlru_e.
      * intros p h Hp Hh Hkey.
        assert (Hpd : p <> d).
        { intros ->. apply (Hkey Hon).
          unfold key_hash in Hkd. rewrite Hhd2 in Hkd.
          rewrite Hhd in Hh. injection Hh as <-. cbn in Hkd.
          by injection Hkd as -> ->. }
        split.
        -- rewrite Ei. apply elem_of_unlink. split; [|done].
           apply elem_of_app. by left.
        -- rewrite Hag0 by done. rewrite Hagree by (by apply Hin_e). done.
  - (* no entry had the key *)
    cbn [FinishErase mbind option_bind]. eexists. split; [reflexivity|].
    cbn [with_table capacity_ usage_ lru_ in_use_ table_ heap_ deleted_].
    split.
    { split; cbn [capacity_ usage_ lru_ in_use_ table_ heap_ deleted_];
        try done.
      apply (table_inv_perm _ _ (e :: entries c)); [by symmetry|done]. }
    split; [done|]. split; [|split].
    + intros p Hp. split; [done|]. by apply Hagree, Hlru_e.
    + intros p h Hp Hh _. split; [apply elem_of_app; by left|].
      by rewrite Hagree by (by apply Hin_e).
    + intros _. split; [|done].
      apply elem_of_app. right. apply list_elem_of_here.
Qed.

End CacheProps.
Section CacheInsertProps.
Import Cache.
Implicit Types (c : LRUCache) (p q e d : ptr) (l : list ptr).

(** *** A new shard, and an example of one in use *)

Lemma cache_inv_new (capacity : Z) : cache_inv (SetCapacity LRUCache_new capacity).
Proof.
  split; cbn; [|constructor|constructor|done].
  split; cbn; try done; try constructor; lia.
Qed.

Lemma example_cache_reached :
  ('(e1, c) ← Insert (SetCapacity LRUCache_new 2) 1%positive (bytes "a") 5
                10 1 7;
   c ← Release c e1;
   '(_, c) ← Insert c 2%positive (bytes "b") 9 20 1 7;
   Some c)
  = Some example_cache.
Proof. vm_compute. reflexivity. Qed.

Lemma example_cache_inv : cache_inv example_cache.
Proof.
  split.
  - split.
    + apply NoDup_cons. split; [|apply NoDup_singleton].
      intros H. apply list_elem_of_singleton in H. discriminate.
    + reflexivity.
    + cbn. lia.
    + reflexivity.
    + reflexivity.
    + cbn. lia.
    + repeat constructor; vm_compute; repeat constructor.
    + vm_compute. apply NoDup_cons. split; [|apply NoDup_singleton].
      intros H. apply list_elem_of_singleton in H. discriminate.
  - repeat constructor; vm_compute; done.
  - repeat constructor; vm_compute; repeat split; discriminate.
  - vm_compute. reflexivity.
Qed.

(** X1 (LRU eviction safety).  On a shard that satisfies its
    representation invariant, with fewer than 2^31 entries, [Insert] of an
    entry at a fresh address returns; once the new entry is linked in
    (state [c0]), it evicts the [n] oldest entries of [lru_], that is, its
    head [n] times, each while the usage exceeds the capacity, and stops
    when the usage is within the capacity or [lru_] is empty; every
    evicted entry was on [lru_] before the call, with the cache's reference
    only.  An entry on [in_use_], which has other references, stays there,
    unchanged and in the hash table, unless the cache is on and it has the
    key and hash of the new entry, which then replaces it.  The invariant
    holds again afterwards. *)
Theorem lru_eviction_safety c e (key0 : list byte)
    (hash0 value0 charge0 deleter0 : Z) :
  cache_inv c -> heap_ c !! e = None ->
  Z.of_nat (length (entries c)) < 2 ^ 31 ->
  exists c0 (n : nat) c',
    Insert_link c e key0 hash0 value0 charge0 deleter0 = Some c0 /\
    Insert c e key0 hash0 value0 charge0 deleter0 = Some (e, c') /\
    evicts c0 n c' /\
    (forall p, p ∈ take n (lru_ c0) ->
       p ∈ lru_ c /\ lru_entry (heap_ c) p) /\
    (forall p h, p ∈ in_use_ c -> heap_ c !! p = Some h ->
       (0 < capacity_ c -> (key h, hash h) <> (key0, hash0)) ->
       1 < refs h /\ p ∈ in_use_ c' /\ heap_ c' !! p = Some h /\
       HandleTable_Lookup (heap_ c') (table_ c') (key h) (hash h)
       = Some (Some p)) /\
    cache_inv c'.
Proof.
  intros Hinv Hnew Hcount.
  destruct (Insert_link_spec c e key0 hash0 value0 charge0 deleter0
              Hinv Hnew Hcount)
    as (c0 & Hlink & Hinv0 & Hcap0 & Hlru0 & Hin0 & _).
  destruct (Insert_loop_spec (S (length (lru_ c0))) c0 Hinv0 ltac:(lia))
    as (n & c' & Hloop & Hinv' & Hev).
  exists c0, n, c'. split; [done|]. split.
  { unfold Insert. rewrite Hnew, Hlink. cbn [mbind option_bind].
    by rewrite Hloop. }
  split; [done|]. split.
  { intros p Hp. apply elem_of_take_list in Hp.
    destruct (Hlru0 p Hp) as (Hpl & _). split; [done|].
    pose proof (inv_lru _ Hinv) as Hall. rewrite Forall_forall in Hall.
    by apply Hall. }
  split; [|done].
  intros p h Hp Hh Hkey. destruct (Hin0 p h Hp Hh Hkey) as (Hp0 & Hh0).
  pose proof Hev as (_ & _ & _ & Hin' & _ & _ & _ & _ & Hkeep & _).
  assert (Hrefs : 1 < refs h).
  { pose proof (inv_in_use _ Hinv) as Hall. rewrite Forall_forall in Hall.
    specialize (Hall p Hp). unfold in_use_entry in Hall.
    rewrite Hh in Hall. lia. }
  assert (Hout : p ∉ take n (lru_ c0)).
  { intros Hp'. apply elem_of_take_list in Hp'.
    pose proof (inv_nodup _ _ _ (inv_table _ Hinv0)) as Hnd.
    unfold entries in Hnd. apply NoDup_app in Hnd as (_ & Hdisj & _).
    by apply (Hdisj p). }
  assert (Hh' : heap_ c' !! p = Some h) by (by rewrite Hkeep).
  assert (Hp' : p ∈ in_use_ c') by (by rewrite Hin').
  do 3 (split; [done|]).
  apply (HandleTable_Lookup_entry _ _ (entries c')); [apply Hinv'| |done].
  unfold entries. apply elem_of_app. by right.
Qed.

Lemma lru_eviction_safety_witness :
  cache_inv example_cache /\
  heap_ example_cache !! 3%positive = None /\
  Z.of_nat (length (entries example_cache)) < 2 ^ 31 /\
  exists c0 (n : nat) c',
    Insert_link example_cache 3%positive (bytes "c") 13 30 1 7 = Some c0 /\
    Insert example_cache 3%positive (bytes "c") 13 30 1 7
    = Some (3%positive, c') /\
    evicts c0 n c' /\ cache_inv c'.
Proof.
  assert (Hnew : heap_ example_cache !! 3%positive = None)
    by (vm_compute; reflexivity).
  assert (Hcount : Z.of_nat (length (entries example_cache)) < 2 ^ 31)
    by (vm_compute; reflexivity).
  split; [exact example_cache_inv|]. split; [exact Hnew|].
  split; [exact Hcount|].
  destruct (lru_eviction_safety example_cache 3%positive (bytes "c")
              13 30 1 7 example_cache_inv Hnew Hcount)
    as (c0 & n & c' & Hlink & Hins & Hev & _ & _ & Hinv').
  exists c0, n, c'.
  split; [exact Hlink|]. split; [exact Hins|]. split; [exact Hev|exact Hinv'].
Defined.

(** *** A shard of capacity 0 *)

Lemma empty_table_slot (hash0 : Z) :
  list_ HandleTable_new !! slot (length_ HandleTable_new) hash0 = Some [].
Proof.
  apply lookup_replicate_2.
  apply (slot_bound 4 hash0). lia.
Qed.

Lemma empty_table_Lookup (heap : gmap ptr LRUHandle) (key0 : list byte)
    (hash0 : Z) :
  HandleTable_Lookup heap HandleTable_new key0 hash0 = Some None.
Proof.
  unfold HandleTable_Lookup, FindPointer.
  rewrite empty_table_slot. cbn [mbind option_bind FindPointer_loop].
  by rewrite empty_table_slot.
Qed.

Lemma empty_table_Remove (heap : gmap ptr LRUHandle) (key0 : list byte)
    (hash0 : Z) :
  HandleTable_Remove heap HandleTable_new key0 hash0
  = Some (None, HandleTable_new).
Proof.
  unfold HandleTable_Remove, FindPointer.
  rewrite empty_table_slot. cbn [mbind option_bind FindPointer_loop].
  by rewrite empty_table_slot.
Qed.

(** X2 (zero-capacity cache).  On a shard of capacity 0, [Insert]
    returns a handle to an entry with [refs = 1] that is not in the cache:
    [in_cache] is false, the hash table and both lists stay empty, the
    usage stays 0, and the shard is as before but for the entry allocated.
    A [Lookup], of the same key or any other, misses; [Erase] and [Prune]
    change nothing.  The entry stays allocated until [Release] of the
    handle, which calls its deleter with its key and value, and frees
    it. *)
Theorem zero_capacity_cache (heap : gmap ptr LRUHandle)
    (calls0 : list (Z * list byte * Z)) e (key0 : list byte)
    (hash0 value0 charge0 deleter0 : Z) (key1 : list byte) (hash1 : Z) :
  heap !! e = None ->
  let entry := {| value := value0; deleter := deleter0; charge := charge0;
                  key := key0; in_cache := false; refs := 1;
                  hash := hash0 |} in
  let c1 := zero_shard (<[e := entry]> heap) calls0 in
  Insert (zero_shard heap calls0) e key0 hash0 value0 charge0 deleter0
  = Some (e, c1) /\
  Lookup c1 key1 hash1 = Some (None, c1) /\
  Erase c1 key1 hash1 = Some c1 /\
  Prune c1 = Some c1 /\
  Release c1 e
  = Some (zero_shard heap (calls0 ++ [(deleter0, key0, value0)])).
Proof.
  intros Hnew entry c1. split; [|split; [|split; [|split]]].
  - unfold Insert, zero_shard. cbn [heap_]. rewrite Hnew. reflexivity.
  - unfold Lookup. cbn [c1 zero_shard heap_ table_].
    by rewrite empty_table_Lookup.
  - unfold Erase. cbn [c1 zero_shard heap_ table_].
    by rewrite empty_table_Remove.
  - reflexivity.
  - unfold Release, Unref. cbn [c1 zero_shard heap_].
    rewrite lookup_insert_eq. cbn [mbind option_bind].
    unfold with_heap, with_deleted, zero_shard.
    cbn [entry set_refs refs value deleter key charge in_cache hash
         capacity_ usage_ lru_ in_use_ table_ heap_ deleted_].
    change (u32 (1 - 1) =? 0) with true. cbv iota.
    by rewrite !delete_insert_eq, delete_id.
Qed.

Lemma zero_capacity_cache_witness :
  (∅ : gmap ptr LRUHandle) !! 1%positive = None /\
  let entry := {| value := 10; deleter := 7; charge := 1;
                  key := bytes "a"; in_cache := false; refs := 1;
                  hash := 5 |} in
  let c1 := zero_shard (<[1%positive := entry]> ∅) [] in
  Insert (zero_shard ∅ []) 1%positive (bytes "a") 5 10 1 7
  = Some (1%positive, c1) /\
  Lookup c1 (bytes "a") 5 = Some (None, c1) /\
  Erase c1 (bytes "a") 5 = Some c1 /\
  Prune c1 = Some c1 /\
  Release c1 1%positive = Some (zero_shard ∅ [(7, bytes "a", 10)]).
Proof.
  split; [reflexivity|].
  apply (zero_capacity_cache ∅ [] 1%positive (bytes "a") 5 10 1 7
           (bytes "a") 5).
  reflexivity.
Defined.

End CacheInsertProps.
Section CacheOpsProps.
Import Cache.
Implicit Types (c : LRUCache) (p q e d : ptr) (l : list ptr)
  (heap : gmap ptr LRUHandle).

(** *** Entries whose reference count changes *)

Lemma key_hash_Some heap p h :
  heap !! p = Some h -> key_hash heap p = Some (key h, hash h).
Proof. unfold key_hash. by intros ->. Qed.

(** The invariant of the table looks at the keys and hashes of the entries
    only. *)
Lemma table_inv_keys_ext heap heap' (t : HandleTable) l :
  (forall p, p ∈ l -> key_hash heap' p = key_hash heap p) ->
  table_inv heap t l -> table_inv heap' t l.
Proof.
  intros Hagree [H1 H2 H3 H4 H5 H6 H7 H8].
  split; try done.
  - rewrite Forall_forall in *. intros q Hq. specialize (H7 q Hq).
    specialize (Hagree q Hq). unfold in_own_bucket, key_hash in *.
    destruct (heap !! q) as [h|]; [|done].
    destruct (heap' !! q) as [h'|]; [|done].
    cbn in Hagree. injection Hagree as _ Hhash. by rewrite Hhash.
  - replace (key_hash heap' <$> l) with (key_hash heap <$> l); [done|].
    apply list_fmap_ext. intros i q Hq. symmetry. apply Hagree.
    by apply list_elem_of_lookup_2 with i.
Qed.

Lemma total_charge_charges heap heap' l :
  (forall p, p ∈ l -> charge_of heap' p = charge_of heap p) ->
  total_charge heap' l = total_charge heap l.
Proof.
  induction l as [|p l IH]; intros Hagree; [done|].
  rewrite !total_charge_cons. f_equal.
  - apply Hagree, list_elem_of_here.
  - apply IH. intros q Hq. by apply Hagree, list_elem_of_further.
Qed.

Lemma lookup_set_refs heap e h (n : Z) p :
  heap !! e = Some h ->
  key_hash (<[e := set_refs h n]> heap) p = key_hash heap p /\
  charge_of (<[e := set_refs h n]> heap) p = charge_of heap p.
Proof.
  intros Hh. unfold key_hash, charge_of.
  destruct (decide (p = e)) as [->|Hne].
  - by rewrite lookup_insert_eq, Hh.
  - by rewrite lookup_insert_ne.
Qed.

Lemma set_refs_fields (h : LRUHandle) (n : Z) :
  refs (set_refs h n) = n /\ in_cache (set_refs h n) = in_cache h /\
  deleter (set_refs h n) = deleter h /\ key (set_refs h n) = key h /\
  value (set_refs h n) = value h.
Proof. done. Qed.

Ltac set_refs_simpl :=
  repeat match goal with
  | |- context [refs (set_refs ?h ?n)] =>
      change (refs (set_refs h n)) with n
  | |- context [in_cache (set_refs ?h ?n)] =>
      change (in_cache (set_refs h n)) with (in_cache h)
  | |- context [deleter (set_refs ?h ?n)] =>
      change (deleter (set_refs h n)) with (deleter h)
  | |- context [key (set_refs ?h ?n)] =>
      change (key (set_refs h n)) with (key h)
  | |- context [value (set_refs ?h ?n)] =>
      change (value (set_refs h n)) with (value h)
  end.

Lemma in_use_not_lru c p : cache_inv c -> p ∈ in_use_ c -> p ∉ lru_ c.
Proof.
  intros Hinv Hp Hl.
  pose proof (inv_nodup _ _ _ (inv_table _ Hinv)) as Hnd.
  unfold entries in Hnd. apply NoDup_app in Hnd as (_ & Hdisj & _).
  by apply (Hdisj p).
Qed.

Lemma cached_entry c p h :
  cache_inv c -> p ∈ entries c -> heap_ c !! p = Some h ->
  in_cache h = true /\ 1 <= refs h < 2 ^ 32.
Proof.
  intros Hinv Hp Hh. unfold entries in Hp. apply elem_of_app in Hp.
  destruct Hp as [Hp|Hp].
  - pose proof (inv_lru _ Hinv) as Hall. rewrite Forall_forall in Hall.
    specialize (Hall p Hp). unfold lru_entry in Hall. rewrite Hh in Hall.
    split; [tauto|lia].
  - pose proof (inv_in_use _ Hinv) as Hall. rewrite Forall_forall in Hall.
    specialize (Hall p Hp). unfold in_use_entry in Hall. rewrite Hh in Hall.
    split; [tauto|lia].
Qed.

(** The invariant when the reference count of an entry changes and the
    entry moves between the lists accordingly. *)
Lemma refs_cache_inv c c' e h (n : Z) :
  cache_inv c -> heap_ c !! e = Some h ->
  entries c' ≡ₚ entries c ->
  table_ c' = table_ c -> usage_ c' = usage_ c ->
  heap_ c' = <[e := set_refs h n]> (heap_ c) ->
  Forall (lru_entry (heap_ c')) (lru_ c') ->
  Forall (in_use_entry (heap_ c')) (in_use_ c') ->
  cache_inv c'.
Proof.
  intros [Htab Hlru Hin Hus] Hh Hperm Et Eu Eh Hlru' Hin'.
  split; [|done|done|].
  - rewrite Et, Eh. apply (table_inv_perm _ _ (entries c)); [done|].
    apply (table_inv_keys_ext (heap_ c)); [|done].
    intros p _. by apply lookup_set_refs.
  - rewrite Eu, Hus, Eh. f_equal.
    rewrite (total_charge_perm _ _ _ Hperm). symmetry.
    apply total_charge_charges. intros p _. by apply lookup_set_refs.
Qed.

(** *** Release *)

(** [Release] of a handle to an entry in the cache: the entry keeps the
    other references; with none but the cache's left it becomes the newest
    entry of [lru_]. *)
Lemma Release_cached c e h :
  cache_inv c -> e ∈ in_use_ c -> heap_ c !! e = Some h ->
  exists c',
    Release c e = Some c' /\ cache_inv c' /\
    capacity_ c' = capacity_ c /\ usage_ c' = usage_ c /\
    table_ c' = table_ c /\ deleted_ c' = deleted_ c /\
    heap_ c' = <[e := set_refs h (refs h - 1)]> (heap_ c) /\
    lru_ c' = (if refs h =? 2 then lru_ c ++ [e] else lru_ c) /\
    in_use_ c' = (if refs h =? 2 then unlink e (in_use_ c) else in_use_ c).
Proof.
  intros Hinv He Hh.
  pose proof Hinv as [Htab Hlru Hin Hus].
  pose proof Hin as Hin'. rewrite Forall_forall in Hin'.
  pose proof (Hin' e He) as Hent. unfold in_use_entry in Hent.
  rewrite Hh in Hent. destruct Hent as (Hic & Hrefs).
  pose proof (in_use_not_lru c e Hinv He) as Hnl.
  assert (Hu : u32 (refs h - 1) = refs h - 1)
    by (unfold u32; apply Z.mod_small; lia).
  set (heap' := <[e := set_refs h (refs h - 1)]> (heap_ c)).
  assert (Hagree : forall p, p <> e -> heap' !! p = heap_ c !! p)
    by (intros p Hne; by apply lookup_insert_ne).
  assert (He' : heap' !! e = Some (set_refs h (refs h - 1)))
    by apply lookup_insert_eq.
  assert (Hlru_ext : Forall (lru_entry heap') (lru_ c)).
  { apply (Forall_entry_ext lru_entry (heap_ c)); [apply lru_entry_ext| |done].
    intros p Hp. apply Hagree. by intros ->. }
  unfold Release, Unref. rewrite Hh. cbn [mbind option_bind]. cbv zeta.
  rewrite Hu. set_refs_simpl. rewrite Hic.
  destruct (Z.eqb_spec (refs h - 1) 0) as [|_]; [lia|]. cbn [andb].
  destruct (Z.eqb_spec (refs h - 1) 1) as [H1|H1].
  - (* the last client has gone *)
    assert (H2 : (refs h =? 2) = true) by (apply Z.eqb_eq; lia).
    rewrite H2. unfold LRU_Remove, with_heap. cbn [lru_ in_use_].
    rewrite bool_decide_eq_false_2 by done.
    rewrite bool_decide_eq_true_2 by done. cbn [mbind option_bind].
    eexists. split; [reflexivity|].
    unfold LRU_Append, with_lru, with_in_use.
    cbn [capacity_ usage_ lru_ in_use_ table_ heap_ deleted_].
    split; [|done].
    eapply (refs_cache_inv c _ e h (refs h - 1) Hinv Hh);
      cbn [capacity_ usage_ lru_ in_use_ table_ heap_ deleted_];
      try reflexivity.
    + unfold entries. cbn [lru_ in_use_].
      rewrite <- app_assoc. f_equiv. cbn [app].
      symmetry. apply unlink_perm; [|done].
      pose proof (inv_nodup _ _ _ Htab) as Hnd. unfold entries in Hnd.
      by apply NoDup_app in Hnd as (_ & _ & ?).
    + apply Forall_app. split; [done|]. apply Forall_singleton.
      unfold lru_entry. fold heap'. rewrite He'. cbn. split; [done|lia].
    + rewrite Forall_forall. intros p Hp.
      apply elem_of_unlink in Hp as (Hp & Hne).
      unfold in_use_entry. fold heap'. rewrite Hagree by done.
      by apply Hin'.
  - assert (H2 : (refs h =? 2) = false) by (apply Z.eqb_neq; lia).
    rewrite H2. eexists. split; [reflexivity|].
    unfold with_heap.
    cbn [capacity_ usage_ lru_ in_use_ table_ heap_ deleted_].
    split; [|done].
    eapply (refs_cache_inv c _ e h (refs h - 1) Hinv Hh);
      cbn [capacity_ usage_ lru_ in_use_ table_ heap_ deleted_];
      try reflexivity; [done|].
    rewrite Forall_forall. intros p Hp. unfold in_use_entry. fold heap'.
    destruct (decide (p = e)) as [->|Hne].
    + rewrite He'. cbn. split; [done|lia].
    + rewrite Hagree by done. by apply Hin'.
Qed.

(** [Release] of a handle to an entry that has left the cache: the last
    one calls the deleter and frees the entry. *)
Lemma Release_erased c e h :
  cache_inv c -> heap_ c !! e = Some h -> in_cache h = false ->
  1 <= refs h < 2 ^ 32 ->
  exists c',
    Release c e = Some c' /\ cache_inv c' /\
    capacity_ c' = capacity_ c /\ usage_ c' = usage_ c /\
    table_ c' = table_ c /\ lru_ c' = lru_ c /\ in_use_ c' = in_use_ c /\
    heap_ c' = (if refs h =? 1 then delete e (heap_ c)
                else <[e := set_refs h (refs h - 1)]> (heap_ c)) /\
    deleted_ c' = (if refs h =? 1
                   then deleted_ c ++ [(deleter h, key h, value h)]
                   else deleted_ c).
Proof.
  intros Hinv Hh Hic Hrefs.
  pose proof Hinv as [Htab Hlru Hin Hus].
  assert (Hout : e ∉ entries c).
  { intros He. destruct (cached_entry c e h Hinv He Hh) as (Hc & _).
    congruence. }
  assert (Hu : u32 (refs h - 1) = refs h - 1)
    by (unfold u32; apply Z.mod_small; lia).
  assert (Hinv_ext : forall heap',
            (forall p, p <> e -> heap' !! p = heap_ c !! p) ->
            cache_inv {| capacity_ := capacity_ c; usage_ := usage_ c;
                         lru_ := lru_ c; in_use_ := in_use_ c;
                         table_ := table_ c; heap_ := heap';
                         deleted_ := deleted_ c |}).
  { intros heap' Hagree.
    assert (Hag : forall p, p ∈ entries c -> heap' !! p = heap_ c !! p)
      by (intros p Hp; apply Hagree; by intros ->).
    split; cbn [capacity_ usage_ lru_ in_use_ table_ heap_ deleted_].
    - by apply (table_inv_ext (heap_ c)).
    - apply (Forall_entry_ext lru_entry (heap_ c)); [apply lru_entry_ext| |done].
      intros p Hp. apply Hag. unfold entries. apply elem_of_app. by left.
    - apply (Forall_entry_ext in_use_entry (heap_ c));
        [apply in_use_entry_ext| |done].
      intros p Hp. apply Hag. unfold entries. apply elem_of_app. by right.
    - rewrite Hus. f_equal. symmetry. by apply total_charge_ext. }
  unfold Release, Unref. rewrite Hh. cbn [mbind option_bind]. cbv zeta.
  rewrite Hu. set_refs_simpl. rewrite Hic. cbn [andb].
  destruct (Z.eqb_spec (refs h - 1) 0) as [H0|H0].
  - assert (H1 : (refs h =? 1) = true) by (apply Z.eqb_eq; lia).
    rewrite H1. eexists. split; [reflexivity|].
    unfold with_heap, with_deleted.
    cbn [capacity_ usage_ lru_ in_use_ table_ heap_ deleted_].
    rewrite delete_insert_eq. split; [|done].
    destruct c as [cap us lru iu t hp del].
    cbn [capacity_ usage_ lru_ in_use_ table_ heap_ deleted_] in *.
    set (del' := del ++ _).
    destruct (Hinv_ext (delete e hp)) as [G1 G2 G3 G4];
      [intros p Hne; by apply lookup_delete_ne|].
    by split.
  - assert (H1 : (refs h =? 1) = false) by (apply Z.eqb_neq; lia).
    rewrite H1. eexists. split; [reflexivity|].
    unfold with_heap.
    cbn [capacity_ usage_ lru_ in_use_ table_ heap_ deleted_].
    split; [|done].
    apply Hinv_ext. intros p Hne. by apply lookup_insert_ne.
Qed.

End CacheOpsProps.
Section CacheUseProps.
Import Cache.
Implicit Types (c : LRUCache) (p q e d : ptr) (l : list ptr)
  (heap : gmap ptr LRUHandle).

(** *** Lookup *)

(** [Lookup] of the key of an entry of the cache returns the entry with
    one more reference; an entry that only the cache referred to moves
    from [lru_] to [in_use_]. *)
Lemma Lookup_hit c p h :
  cache_inv c -> p ∈ entries c -> heap_ c !! p = Some h ->
  refs h + 1 < 2 ^ 32 ->
  exists c',
    Lookup c (key h) (hash h) = Some (Some p, c') /\ cache_inv c' /\
    capacity_ c' = capacity_ c /\ usage_ c' = usage_ c /\
    table_ c' = table_ c /\ deleted_ c' = deleted_ c /\
    heap_ c' = <[p := set_refs h (refs h + 1)]> (heap_ c) /\
    lru_ c' = unlink p (lru_ c) /\
    in_use_ c' = (if refs h =? 1 then in_use_ c ++ [p] else in_use_ c).
Proof.
  intros Hinv Hp Hh Hmax.
  pose proof Hinv as [Htab Hlru Hin Hus].
  destruct (cached_entry c p h Hinv Hp Hh) as (Hic & Hrefs).
  pose proof (inv_nodup _ _ _ Htab) as Hnd.
  pose proof Hlru as Hlru'. rewrite Forall_forall in Hlru'.
  pose proof Hin as Hin'. rewrite Forall_forall in Hin'.
  assert (Hu : u32 (refs h + 1) = refs h + 1)
    by (unfold u32; apply Z.mod_small; lia).
  set (heap' := <[p := set_refs h (refs h + 1)]> (heap_ c)).
  assert (Hagree : forall q, q <> p -> heap' !! q = heap_ c !! q)
    by (intros q Hne; by apply lookup_insert_ne).
  assert (Hp' : heap' !! p = Some (set_refs h (refs h + 1)))
    by apply lookup_insert_eq.
  unfold Lookup.
  rewrite (HandleTable_Lookup_entry _ _ _ p h Htab Hp Hh).
  cbn [mbind option_bind]. unfold Ref. rewrite Hh. cbn [mbind option_bind].
  rewrite Hu, Hic, andb_true_r.
  pose proof Hp as Hp2. unfold entries in Hp2. apply elem_of_app in Hp2.
  destruct (Z.eqb_spec (refs h) 1) as [H1|H1].
  - (* only the cache referred to the entry *)
    assert (Hl : p ∈ lru_ c).
    { destruct Hp2 as [|Hi]; [done|]. specialize (Hin' p Hi).
      unfold in_use_entry in Hin'. rewrite Hh in Hin'. lia. }
    unfold LRU_Remove. rewrite bool_decide_eq_true_2 by done.
    cbn [mbind option_bind]. eexists. split; [reflexivity|].
    unfold LRU_Append, with_lru, with_in_use, with_heap.
    cbn [capacity_ usage_ lru_ in_use_ table_ heap_ deleted_].
    split; [|done].
    eapply (refs_cache_inv c _ p h (refs h + 1) Hinv Hh);
      cbn [capacity_ usage_ lru_ in_use_ table_ heap_ deleted_];
      try reflexivity.
    + unfold entries. cbn [lru_ in_use_].
      rewrite (unlink_perm p (lru_ c)) at 2;
        [|by apply NoDup_app in Hnd as (? & _)|done].
      cbn [app]. rewrite Permutation_middle.
      by rewrite <- (Permutation_cons_append (in_use_ c) p).
    + rewrite Forall_forall. intros q Hq.
      apply elem_of_unlink in Hq as (Hq & Hne).
      unfold lru_entry. fold heap'. rewrite Hagree by done.
      by apply Hlru'.
    + apply Forall_app. split.
      * rewrite Forall_forall. intros q Hq.
        unfold in_use_entry. fold heap'. rewrite Hagree.
        -- by apply Hin'.
        -- intros ->. by apply (in_use_not_lru c p).
      * apply Forall_singleton. unfold in_use_entry. fold heap'.
        rewrite Hp'. cbn. split; [done|lia].
  - assert (Hi : p ∈ in_use_ c).
    { destruct Hp2 as [Hl|]; [|done]. specialize (Hlru' p Hl).
      unfold lru_entry in Hlru'. rewrite Hh in Hlru'. tauto. }
    cbn [mbind option_bind]. eexists. split; [reflexivity|].
    unfold with_heap.
    cbn [capacity_ usage_ lru_ in_use_ table_ heap_ deleted_].
    pose proof (in_use_not_lru c p Hinv Hi) as Hnl.
    split; [|by rewrite unlink_notin].
    eapply (refs_cache_inv c _ p h (refs h + 1) Hinv Hh);
      cbn [capacity_ usage_ lru_ in_use_ table_ heap_ deleted_];
      try reflexivity.
    + rewrite Forall_forall. intros q Hq. unfold lru_entry. fold heap'.
      rewrite Hagree; [by apply Hlru'|]. by intros ->.
    + rewrite Forall_forall. intros q Hq. unfold in_use_entry. fold heap'.
      destruct (decide (q = p)) as [->|Hne].
      * rewrite Hp'. cbn. split; [done|lia].
      * rewrite Hagree by done. by apply Hin'.
Qed.

(** [Lookup] of a key that no entry of the cache has returns null and
    changes nothing. *)
Lemma Lookup_miss c (key0 : list byte) (hash0 : Z) :
  cache_inv c ->
  Forall (fun q => key_hash (heap_ c) q <> Some (key0, hash0)) (entries c) ->
  Lookup c key0 hash0 = Some (None, c).
Proof.
  intros Hinv Hno.
  destruct (FindPointer_spec (heap_ c) (table_ c) (entries c) key0 hash0
              (inv_table _ Hinv)) as (chain & j & Hchain & Hfind & Hat).
  unfold Lookup, HandleTable_Lookup. rewrite Hfind.
  cbn [mbind option_bind]. rewrite Hchain. cbn [mbind option_bind].
  destruct (chain !! j) as [d|]; [|done].
  destruct Hat as (Hd & Hkd). rewrite Forall_forall in Hno.
  by destruct (Hno d Hd).
Qed.

(** *** Erase *)

Lemma Erase_entry c p h :
  cache_inv c -> p ∈ entries c -> heap_ c !! p = Some h ->
  exists c',
    Erase c (key h) (hash h) = Some c' /\ cache_inv c' /\
    capacity_ c' = capacity_ c /\
    lru_ c' = unlink p (lru_ c) /\ in_use_ c' = unlink p (in_use_ c) /\
    usage_ c' = u64 (usage_ c - charge h) /\
    (forall q, q <> p -> heap_ c' !! q = heap_ c !! q) /\
    (p ∈ lru_ c ->
     heap_ c' !! p = None /\
     deleted_ c' = deleted_ c ++ [(deleter h, key h, value h)]) /\
    (p ∈ in_use_ c ->
     heap_ c' !! p = Some (set_refs (set_in_cache h false) (refs h - 1)) /\
     deleted_ c' = deleted_ c) /\
    Forall (fun q => key_hash (heap_ c') q <> Some (key h, hash h))
      (entries c').
Proof.
  intros Hinv Hp Hh. pose proof Hinv as [Htab Hlru Hin Hus].
  pose proof (inv_nodup _ _ _ Htab) as Hnd.
  destruct (HandleTable_Remove_spec _ _ _ p h Htab Hp Hh)
    as (t' & Hrem & Htab').
  destruct (erase_inv (with_table c t') p h)
    as (c' & Hfe & Hinv' & Hcap & El & Ei & Eu & Hagree & Hl & Hi);
    try done.
  cbn [with_table capacity_ usage_ lru_ in_use_ heap_ deleted_] in *.
  exists c'. split.
  { unfold Erase. rewrite Hrem. cbn [mbind option_bind]. by rewrite Hfe. }
  do 8 (split; [done|]).
  rewrite (entries_unlink (with_table c t') c' p El Ei).
  change (entries (with_table c t')) with (entries c).
  rewrite Forall_forall. intros q Hq Hkey.
  pose proof Hq as Hq'. apply elem_of_unlink in Hq' as (Hqe & Hne).
  assert (Hk : key_hash (heap_ c') q = key_hash (heap_ c) q)
    by (unfold key_hash; by rewrite Hagree).
  rewrite Hk in Hkey.
  apply (proj2 (unlink_keys (heap_ c) p (entries c) Hnd Hp
                  (inv_keys _ _ _ Htab))).
  rewrite (key_hash_Some _ _ _ Hh), <- Hkey.
  by apply list_elem_of_fmap_2.
Qed.

(** [Erase] of a key that no entry of the cache has changes nothing. *)
Lemma Erase_absent c (key0 : list byte) (hash0 : Z) :
  cache_inv c ->
  Forall (fun q => key_hash (heap_ c) q <> Some (key0, hash0)) (entries c) ->
  Erase c key0 hash0 = Some c.
Proof.
  intros Hinv Hno.
  destruct (FindPointer_spec (heap_ c) (table_ c) (entries c) key0 hash0
              (inv_table _ Hinv)) as (chain & j & Hchain & Hfind & Hat).
  unfold Erase, HandleTable_Remove. rewrite Hfind.
  cbn [mbind option_bind]. rewrite Hchain. cbn [mbind option_bind].
  destruct (chain !! j) as [d|].
  - destruct Hat as (Hd & Hkd). rewrite Forall_forall in Hno.
    by destruct (Hno d Hd).
  - cbn [mbind option_bind FinishErase]. by destruct c.
Qed.

(** *** Prune *)

Lemma Prune_loop_spec (rounds : nat) :
  forall c, cache_inv c -> (length (lru_ c) < rounds)%nat ->
  exists c',
    Prune_loop rounds c = Some c' /\ cache_inv c' /\
    capacity_ c' = capacity_ c /\ lru_ c' = [] /\
    in_use_ c' = in_use_ c /\
    (forall p, p ∈ lru_ c -> heap_ c' !! p = None) /\
    (forall p, p ∉ lru_ c -> heap_ c' !! p = heap_ c !! p) /\
    deleted_ c' = deleted_ c ++ calls (heap_ c) (lru_ c).
Proof.
  induction rounds as [|rounds IH]; intros c Hinv Hfuel; [lia|].
  cbn [Prune_loop].
  destruct (lru_ c) as [|old rest] eqn:Hl.
  - exists c. split; [done|]. split; [done|]. do 3 (split; [done|]).
    split; [intros p Hp; by apply elem_of_nil in Hp|].
    split; [done|]. by rewrite app_nil_r.
  - destruct (evict_head c old rest Hinv Hl)
      as (h & t' & c1 & Hh & Hrefs & Hrem & Hfe & Hinv1 & Hcap1 & Hl1
          & Hi1 & Hu1 & Hagree & Hfreed & Hdel).
    rewrite Hh. cbn [mbind option_bind]. rewrite Hrem.
    cbn [mbind option_bind]. rewrite Hfe. cbn [mbind option_bind].
    destruct (IH c1 Hinv1)
      as (c' & Hloop & Hinv' & Hcap & Hlru & Hin & Hfree & Hkeep & Hdel');
      [rewrite Hl1; cbn [length] in Hfuel; lia|].
    assert (Hfresh : old ∉ rest).
    { pose proof (inv_nodup _ _ _ (inv_table _ Hinv)) as Hnd.
      unfold entries in Hnd. rewrite Hl in Hnd.
      apply NoDup_app in Hnd as (Hn1 & _).
      by apply NoDup_cons in Hn1 as (? & _). }
    rewrite Hl1 in *.
    exists c'. split; [done|]. split; [done|].
    split; [congruence|]. split; [done|]. split; [congruence|].
    split.
    { intros p Hp. apply elem_of_cons in Hp as [->|Hp]; [|by apply Hfree].
      by rewrite Hkeep. }
    split.
    { intros p Hp. apply not_elem_of_cons in Hp as (Hne & Hp).
      rewrite Hkeep by done. by apply Hagree. }
    rewrite Hdel', Hdel, <- app_assoc. f_equal.
    rewrite (calls_ext (heap_ c) (heap_ c1)).
    + unfold calls. cbn [omap list_omap app]. by rewrite Hh.
    + intros p Hp. apply Hagree. by intros ->.
Qed.

(** *** The cache as its clients see it *)

(** X3 (insert, then lookup).  On a shard with the cache on that
    satisfies its invariant and holds fewer than 2^31 entries (the table
    doubles a 32-bit length when it grows), an entry inserted at a fresh
    address is found by a [Lookup] of its key right after, whatever
    [Insert] had to evict or replace: the lookup
    returns the handle [Insert] returned, the entry holds the value
    inserted, is in the cache, and has three references, the cache's and
    the two handles; the invariant holds after each call. *)
Theorem cache_insert_lookup c e (key0 : list byte)
    (hash0 value0 charge0 deleter0 : Z) :
  cache_inv c -> 0 < capacity_ c -> heap_ c !! e = None ->
  Z.of_nat (length (entries c)) < 2 ^ 31 ->
  exists c' c'',
    Insert c e key0 hash0 value0 charge0 deleter0 = Some (e, c') /\
    cache_inv c' /\
    Lookup c' key0 hash0 = Some (Some e, c'') /\
    cache_inv c'' /\
    e ∈ in_use_ c'' /\
    heap_ c'' !! e
    = Some {| value := value0; deleter := deleter0; charge := charge0;
              key := key0; in_cache := true; refs := 3; hash := hash0 |}.
Proof.
  intros Hinv Hon Hnew Hcount.
  destruct (Insert_link_spec c e key0 hash0 value0 charge0 deleter0
              Hinv Hnew Hcount)
    as (c0 & Hlink & Hinv0 & _ & _ & _ & Hnewe).
  destruct (Hnewe Hon) as (He0 & Hh0).
  destruct (Insert_loop_spec (S (length (lru_ c0))) c0 Hinv0 ltac:(lia))
    as (n & c' & Hloop & Hinv' & Hev).
  pose proof Hev as (_ & _ & _ & Hin' & _ & _ & _ & _ & Hkeep & _).
  assert (Hout : e ∉ take n (lru_ c0)).
  { intros Hp'. apply elem_of_take_list in Hp'.
    by apply (in_use_not_lru c0 e). }
  set (h2 := {| value := value0; deleter := deleter0; charge := charge0;
                key := key0; in_cache := true; refs := 2; hash := hash0 |})
    in *.
  assert (Hh' : heap_ c' !! e = Some h2) by (by rewrite Hkeep).
  assert (He' : e ∈ in_use_ c') by (by rewrite Hin').
  assert (Hee : e ∈ entries c')
    by (unfold entries; apply elem_of_app; by right).
  destruct (Lookup_hit c' e h2 Hinv' Hee Hh' ltac:(cbn; lia))
    as (c'' & Hlook & Hinv'' & _ & _ & _ & _ & Hheap & _ & Hin'').
  exists c', c''. split.
  { unfold Insert. rewrite Hnew, Hlink. cbn [mbind option_bind].
    by rewrite Hloop. }
  split; [done|]. split; [exact Hlook|]. split; [done|]. split.
  - rewrite Hin''. by cbn.
  - rewrite Hheap. by rewrite lookup_insert_eq.
Qed.

Lemma cache_insert_lookup_witness :
  cache_inv example_cache /\ 0 < capacity_ example_cache /\
  heap_ example_cache !! 3%positive = None /\
  Z.of_nat (length (entries example_cache)) < 2 ^ 31 /\
  exists c' c'',
    Insert example_cache 3%positive (bytes "c") 13 30 1 7
    = Some (3%positive, c') /\
    Lookup c' (bytes "c") 13 = Some (Some 3%positive, c'') /\
    heap_ c'' !! 3%positive
    = Some {| value := 30; deleter := 7; charge := 1; key := bytes "c";
              in_cache := true; refs := 3; hash := 13 |}.
Proof.
  assert (Hon : 0 < capacity_ example_cache) by (vm_compute; reflexivity).
  assert (Hnew : heap_ example_cache !! 3%positive = None)
    by (vm_compute; reflexivity).
  assert (Hcount : Z.of_nat (length (entries example_cache)) < 2 ^ 31)
    by (vm_compute; reflexivity).
  split; [exact example_cache_inv|]. split; [exact Hon|].
  split; [exact Hnew|]. split; [exact Hcount|].
  destruct (cache_insert_lookup example_cache 3%positive (bytes "c")
              13 30 1 7 example_cache_inv Hon Hnew Hcount)
    as (c' & c'' & Hins & _ & Hlook & _ & _ & Hheap).
  exists c', c''. split; [exact Hins|]. split; [exact Hlook|exact Hheap].
Defined.

(** X4 (erase).  [Erase] of the key of an entry that a client holds takes
    the entry out of the cache at once: a [Lookup] of the key misses and
    the usage drops by the charge.  The entry stays allocated, unchanged but
    for the cache's reference, and its deleter is not called, until the
    client releases it; the [Release] of the only handle calls the deleter
    with the key and value and frees the entry.  [Erase] of a key that no
    entry has changes nothing. *)
Theorem cache_erase_held c p h (key1 : list byte) (hash1 : Z) :
  cache_inv c -> p ∈ in_use_ c -> heap_ c !! p = Some h ->
  (exists c1,
     Erase c (key h) (hash h) = Some c1 /\ cache_inv c1 /\
     Lookup c1 (key h) (hash h) = Some (None, c1) /\
     usage_ c1 = u64 (usage_ c - charge h) /\
     heap_ c1 !! p = Some (set_refs (set_in_cache h false) (refs h - 1)) /\
     deleted_ c1 = deleted_ c /\
     lru_ c1 = lru_ c /\ in_use_ c1 = unlink p (in_use_ c) /\
     (refs h = 2 ->
      exists c2,
        Release c1 p = Some c2 /\ cache_inv c2 /\
        heap_ c2 !! p = None /\
        deleted_ c2 = deleted_ c ++ [(deleter h, key h, value h)])) /\
  (Forall (fun q => key_hash (heap_ c) q <> Some (key1, hash1)) (entries c) ->
   Erase c key1 hash1 = Some c).
Proof.
  intros Hinv Hp Hh. split; [|by apply Erase_absent].
  assert (Hpe : p ∈ entries c)
    by (unfold entries; apply elem_of_app; by right).
  destruct (cached_entry c p h Hinv Hpe Hh) as (Hic & Hrefs).
  pose proof (inv_in_use _ Hinv) as Hall. rewrite Forall_forall in Hall.
  pose proof (Hall p Hp) as Hent. unfold in_use_entry in Hent.
  rewrite Hh in Hent. destruct Hent as (_ & Hrefs2).
  destruct (Erase_entry c p h Hinv Hpe Hh)
    as (c1 & Her & Hinv1 & Hcap & El & Ei & Eu & Hagree & _ & Hheld & Hno).
  destruct (Hheld Hp) as (Hh1 & Hdel1).
  exists c1. split; [done|]. split; [done|].
  split; [by apply Lookup_miss|]. do 3 (split; [done|]).
  split; [rewrite El; apply unlink_notin; by apply in_use_not_lru|].
  split; [done|].
  intros H2.
  destruct (Release_erased c1 p _ Hinv1 Hh1 eq_refl)
    as (c2 & Hrel & Hinv2 & _ & _ & _ & _ & _ & Hheap & Hdel2).
  { cbn. lia. }
  cbn [refs set_refs] in Hheap, Hdel2.
  replace (refs h - 1 =? 1) with true in Hheap, Hdel2
    by (symmetry; apply Z.eqb_eq; lia).
  exists c2. split; [done|]. split; [done|]. split.
  - rewrite Hheap. apply lookup_delete_eq.
  - rewrite Hdel2, Hdel1. reflexivity.
Qed.

Lemma cache_erase_held_witness :
  cache_inv example_cache /\ 2%positive ∈ in_use_ example_cache /\
  heap_ example_cache !! 2%positive
  = Some {| value := 20; deleter := 7; charge := 1; key := bytes "b";
            in_cache := true; refs := 2; hash := 9 |} /\
  exists c1 c2,
    Erase example_cache (bytes "b") 9 = Some c1 /\
    Lookup c1 (bytes "b") 9 = Some (None, c1) /\
    deleted_ c1 = [] /\
    Release c1 2%positive = Some c2 /\
    heap_ c2 !! 2%positive = None /\
    deleted_ c2 = [(7, bytes "b", 20)].
Proof.
  assert (Hp : 2%positive ∈ in_use_ example_cache)
    by (apply list_elem_of_here).
  assert (Hh : heap_ example_cache !! 2%positive
               = Some {| value := 20; deleter := 7; charge := 1;
                         key := bytes "b"; in_cache := true; refs := 2;
                         hash := 9 |})
    by (vm_compute; reflexivity).
  split; [exact example_cache_inv|]. split; [exact Hp|]. split; [exact Hh|].
  destruct (cache_erase_held example_cache 2%positive _ [] 0
              example_cache_inv Hp Hh)
    as ((c1 & Her & _ & Hlook & _ & _ & Hdel & _ & _ & Hrel) & _).
  destruct (Hrel eq_refl) as (c2 & Hrel2 & _ & Hheap & Hdel2).
  exists c1, c2. split; [exact Her|]. split; [exact Hlook|].
  split; [exact Hdel|]. split; [exact Hrel2|]. split; [exact Hheap|].
  exact Hdel2.
Defined.

(** X5 (release and lookup move an entry between the lists).  When the
    client that holds the only handle to an entry of the cache releases it,
    the entry stays allocated and in the hash table, no deleter is called,
    and the entry becomes the newest of [lru_], the last that [Insert]
    would evict; a [Lookup] of its key then returns it and moves it back to
    [in_use_], with the reference count as before. *)
Theorem cache_release_lookup c p h :
  cache_inv c -> p ∈ in_use_ c -> heap_ c !! p = Some h -> refs h = 2 ->
  exists c1 c2,
    Release c p = Some c1 /\ cache_inv c1 /\
    lru_ c1 = lru_ c ++ [p] /\ in_use_ c1 = unlink p (in_use_ c) /\
    heap_ c1 !! p = Some (set_refs h 1) /\
    deleted_ c1 = deleted_ c /\ usage_ c1 = usage_ c /\
    Lookup c1 (key h) (hash h) = Some (Some p, c2) /\ cache_inv c2 /\
    lru_ c2 = lru_ c /\ in_use_ c2 = unlink p (in_use_ c) ++ [p] /\
    heap_ c2 !! p = Some h /\ deleted_ c2 = deleted_ c.
Proof.
  intros Hinv Hp Hh Hrefs.
  destruct (Release_cached c p h Hinv Hp Hh)
    as (c1 & Hrel & Hinv1 & _ & Hus & _ & Hdel & Hheap & Hlru & Hin).
  rewrite Hrefs in Hheap, Hlru, Hin. cbn in Hheap, Hlru, Hin.
  assert (Hh1 : heap_ c1 !! p = Some (set_refs h 1))
    by (rewrite Hheap; apply lookup_insert_eq).
  assert (Hp1 : p ∈ entries c1).
  { unfold entries. rewrite Hlru. apply elem_of_app. left.
    apply elem_of_app. right. apply list_elem_of_here. }
  destruct (Lookup_hit c1 p _ Hinv1 Hp1 Hh1 ltac:(cbn; lia))
    as (c2 & Hlook & Hinv2 & _ & _ & _ & Hdel2 & Hheap2 & Hlru2 & Hin2).
  cbn [key hash refs set_refs] in Hlook, Hheap2, Hin2.
  change (1 =? 1) with true in Hin2. cbv iota in Hin2.
  exists c1, c2. do 7 (split; [done|]). split; [exact Hlook|].
  split; [done|]. split.
  { rewrite Hlru2, Hlru, unlink_app.
    rewrite (unlink_notin p (lru_ c)) by (by apply in_use_not_lru).
    unfold unlink. rewrite filter_cons_False by tauto.
    by rewrite app_nil_r. }
  split; [by rewrite Hin2, Hin|]. split.
  - rewrite Hheap2, lookup_insert_eq. f_equal. destruct h. cbn in *.
    by rewrite Hrefs.
  - by rewrite Hdel2.
Qed.

Lemma cache_release_lookup_witness :
  cache_inv example_cache /\ 2%positive ∈ in_use_ example_cache /\
  (exists h, heap_ example_cache !! 2%positive = Some h /\ refs h = 2 /\
   exists c1 c2,
     Release example_cache 2%positive = Some c1 /\
     lru_ c1 = [1%positive; 2%positive] /\
     Lookup c1 (key h) (hash h) = Some (Some 2%positive, c2) /\
     lru_ c2 = [1%positive]).
Proof.
  assert (Hp : 2%positive ∈ in_use_ example_cache)
    by (apply list_elem_of_here).
  split; [exact example_cache_inv|]. split; [exact Hp|].
  eexists. split; [vm_compute; reflexivity|]. split; [reflexivity|].
  destruct (cache_release_lookup example_cache 2%positive _
              example_cache_inv Hp eq_refl eq_refl)
    as (c1 & c2 & Hrel & _ & Hlru & _ & _ & _ & _ & Hlook & _ & Hlru2 & _).
  exists c1, c2. split; [exact Hrel|]. split; [exact Hlru|].
  split; [exact Hlook|exact Hlru2].
Defined.

(** X6 (prune).  [Prune] on a shard that satisfies its invariant returns
    with [lru_] empty: every entry that only the cache referred to is
    freed, its deleter called, oldest first; the entries clients hold stay
    in [in_use_], allocated and unchanged, and the invariant holds
    again. *)
Theorem cache_prune c :
  cache_inv c ->
  exists c',
    Prune c = Some c' /\ cache_inv c' /\
    lru_ c' = [] /\ in_use_ c' = in_use_ c /\
    (forall p, p ∈ lru_ c -> heap_ c' !! p = None) /\
    (forall p, p ∉ lru_ c -> heap_ c' !! p = heap_ c !! p) /\
    deleted_ c' = deleted_ c ++ calls (heap_ c) (lru_ c) /\
    usage_ c' = u64 (total_charge (heap_ c) (in_use_ c)).
Proof.
  intros Hinv.
  destruct (Prune_loop_spec (S (length (lru_ c))) c Hinv ltac:(lia))
    as (c' & Hloop & Hinv' & _ & Hlru & Hin & Hfree & Hkeep & Hdel).
  exists c'. do 7 (split; [done|]).
  rewrite (inv_usage _ Hinv'). unfold entries. rewrite Hlru, Hin.
  cbn [app]. f_equal. apply total_charge_ext. intros p Hp.
  apply Hkeep. by apply in_use_not_lru.
Qed.

Lemma cache_prune_witness :
  cache_inv example_cache /\
  exists c',
    Prune example_cache = Some c' /\ lru_ c' = [] /\
    in_use_ c' = [2%positive] /\ deleted_ c' = [(7, bytes "a", 10)] /\
    usage_ c' = 1.
Proof.
  split; [exact example_cache_inv|].
  destruct (cache_prune example_cache example_cache_inv)
    as (c' & Hpr & _ & Hlru & Hin & _ & _ & Hdel & Hus).
  exists c'. split; [exact Hpr|]. split; [exact Hlru|].
  split; [exact Hin|]. split; [exact Hdel|exact Hus].
Defined.

End CacheUseProps.
(** ** util/coding.cc: varints and length-prefixed slices *)

Section CodingCodecProps.

Lemma Z_to_byte_eq (x y : Z) : x mod 256 = y mod 256 -> Z_to_byte x = Z_to_byte y.
Proof. unfold Z_to_byte. by intros ->. Qed.

Lemma Z_to_byte_group (x : Z) :
  Z_to_byte (Z.lor (Z.land x 127) 128) = Z_to_byte (Z.lor x 128).
Proof.
  apply Z_to_byte_eq. change 256 with (2 ^ 8). rewrite land_127.
  bits_solve. replace i with 7 by lia. by rewrite orb_true_r.
Qed.

Lemma group_byte (x : Z) :
  Z.land (byte_to_Z (Z_to_byte (Z.lor (Z.land x 127) 128))) 128 = 128 /\
  Z.land (byte_to_Z (Z_to_byte (Z.lor (Z.land x 127) 128))) 127
  = Z.land x 127.
Proof.
  assert (Hg : 0 <= Z.land x 127 < 128)
    by (rewrite land_127; apply Z.mod_pos_bound; lia).
  destruct (varint_group_bits _ Hg) as (_ & Hor & H128 & H127).
  rewrite Hor, Z_to_byte_small by lia. by split.
Qed.

Lemma shiftr7_range (v k : Z) :
  0 <= k -> 0 <= v < 2 ^ (k + 7) -> 0 <= Z.shiftr v 7 < 2 ^ k.
Proof.
  intros Hk Hv. rewrite Z.shiftr_div_pow2 by lia.
  split; [apply Z.div_pos; lia|].
  apply Z.div_lt_upper_bound; [lia|].
  rewrite <- Z.pow_add_r by lia. rewrite Z.add_comm. lia.
Qed.

(** The encoding loop stops by itself once the value is exhausted. *)
Lemma EncodeVarint64_loop_fuel (n : nat) :
  forall (v : Z) (m : nat),
  0 <= v < 2 ^ (7 * (Z.of_nat n + 1)) ->
  Coding.EncodeVarint64_loop (n + m) v = Coding.EncodeVarint64_loop n v.
Proof.
  induction n as [|n IH]; intros v m Hv.
  - change (2 ^ (7 * (Z.of_nat 0 + 1))) with 128 in Hv.
    destruct m as [|m]; [done|]. cbn [Nat.add Coding.EncodeVarint64_loop].
    by destruct (Z.leb_spec 128 v); [lia|].
  - cbn [Nat.add Coding.EncodeVarint64_loop].
    destruct (128 <=? v); [|done]. f_equal. apply IH.
    apply shiftr7_range; [lia|].
    by replace (7 * (Z.of_nat n + 1) + 7) with (7 * (Z.of_nat (S n) + 1))
      by lia.
Qed.

Lemma EncodeVarint32_loop (v : Z) :
  0 <= v < 2 ^ 32 ->
  Coding.EncodeVarint32 v = Coding.EncodeVarint64_loop 4 v.
Proof.
  intros Hv. unfold Coding.EncodeVarint32.
  change (Z.shiftl 1 7) with (2 ^ 7). change (Z.shiftl 1 14) with (2 ^ 14).
  change (Z.shiftl 1 21) with (2 ^ 21). change (Z.shiftl 1 28) with (2 ^ 28).
  assert (H7 : forall x k, 0 <= k -> 0 <= x ->
             (128 <=? Z.shiftr x k) = negb (x <? 2 ^ (k + 7))).
  { intros x k Hk Hx. rewrite Z.shiftr_div_pow2 by lia.
    rewrite Z.pow_add_r by lia. change (2 ^ 7) with 128.
    pose proof (Z.pow_pos_nonneg 2 k ltac:(lia) Hk) as Hp.
    destruct (Z.leb_spec 128 (x / 2 ^ k)) as [H|H];
      destruct (Z.ltb_spec x (2 ^ k * 128)) as [H'|H']; try done; exfalso.
    - apply (Z.div_lt_upper_bound _ _ _ Hp) in H'. lia.
    - apply (Z.div_le_lower_bound _ _ _ Hp) in H'. lia. }
  cbn [Coding.EncodeVarint64_loop].
  rewrite !Z.shiftr_shiftr by lia.
  change (7 + 7 + 7 + 7) with 28. change (7 + 7 + 7) with 21.
  change (7 + 7) with 14.
  rewrite !Z_to_byte_group.
  pose proof (H7 v 0 ltac:(lia) ltac:(lia)) as H0.
  rewrite Z.shiftr_0_r in H0. rewrite H0, !H7 by lia.
  change (0 + 7) with 7. change (7 + 7) with 14. change (14 + 7) with 21.
  change (21 + 7) with 28.
  destruct (Z.ltb_spec v (2 ^ 7)); [done|].
  destruct (Z.ltb_spec v (2 ^ 14)); [done|].
  destruct (Z.ltb_spec v (2 ^ 21)); [done|].
  destruct (Z.ltb_spec v (2 ^ 28)); done.
Qed.

Lemma EncodeVarint32_EncodeVarint64 (v : Z) :
  0 <= v < 2 ^ 32 -> Coding.EncodeVarint32 v = Coding.EncodeVarint64 v.
Proof.
  intros Hv. rewrite EncodeVarint32_loop by done.
  unfold Coding.EncodeVarint64. change 9%nat with (4 + 5)%nat.
  rewrite (EncodeVarint64_loop_fuel 4 v 5); [done|].
  change (2 ^ (7 * (Z.of_nat 4 + 1))) with (2 ^ 35). lia.
Qed.

Lemma VarintLength_loop_length (n : nat) :
  forall v len : Z,
  Coding.VarintLength_loop n v len
  = len - 1 + size_of (Coding.EncodeVarint64_loop n v).
Proof.
  induction n as [|n IH]; intros v len;
    cbn [Coding.VarintLength_loop Coding.EncodeVarint64_loop].
  - change (size_of [_]) with 1. lia.
  - destruct (128 <=? v).
    + rewrite IH. unfold size_of. cbn [length]. lia.
    + change (size_of [_]) with 1. lia.
Qed.

Lemma u32_range (v : Z) : 0 <= u32 v < 2 ^ 32.
Proof. apply Z.mod_pos_bound. lia. Qed.

Lemma u64_range (v : Z) : 0 <= u64 v < 2 ^ 64.
Proof. apply Z.mod_pos_bound. lia. Qed.

Lemma u64_u32 (v : Z) : u64 (u32 v) = u32 v.
Proof. pose proof (u32_range v). apply Z.mod_small. lia. Qed.

(** *** Decoding what the 32-bit encoder wrote *)

Lemma u32_shiftl_small (v shift : Z) :
  0 <= shift -> 0 <= v < 2 ^ (32 - shift) -> shift <= 32 ->
  u32 (Z.shiftl v shift) = Z.shiftl v shift.
Proof.
  intros Hs Hv Hle. unfold u32. apply Z.mod_small.
  rewrite Z.shiftl_mul_pow2 by lia. split; [apply Z.mul_nonneg_nonneg; lia|].
  replace (2 ^ 32) with (2 ^ (32 - shift) * 2 ^ shift)
    by (rewrite <- Z.pow_add_r by lia; f_equal; lia).
  apply Z.mul_lt_mono_pos_r; lia.
Qed.

Lemma GetVarint32PtrFallback_loop_cons (n : nat) (shift result : Z) (b : byte)
    (p : list byte) :
  Coding.GetVarint32PtrFallback_loop (S n) shift result (b :: p) =
  if shift <=? 28 then
    if negb (Z.land (byte_to_Z b) 128 =? 0) then
      Coding.GetVarint32PtrFallback_loop n (shift + 7)
        (Z.lor result (u32 (Z.shiftl (Z.land (byte_to_Z b) 127) shift))) p
    else Some (Z.lor result (u32 (Z.shiftl (byte_to_Z b) shift)), p)
  else None.
Proof. reflexivity. Qed.

Lemma GetVarint32PtrFallback_loop_Encode (n : nat) :
  forall v shift result rest,
  shift = 7 * (4 - Z.of_nat n) -> (n <= 4)%nat ->
  0 <= v < 2 ^ (32 - shift) ->
  Coding.GetVarint32PtrFallback_loop (S n) shift result
    (Coding.EncodeVarint64_loop n v ++ rest)
  = Some (Z.lor result (Z.shiftl v shift), rest).
Proof.
  induction n as [|n IH]; intros v shift result rest Hshift Hn Hv.
  - assert (shift = 28) by lia. subst shift.
    change (2 ^ (32 - 28)) with 16 in Hv.
    cbn [Coding.EncodeVarint64_loop app].
    rewrite GetVarint32PtrFallback_loop_cons.
    change (28 <=? 28) with true. cbv iota.
    rewrite Z_to_byte_small by lia.
    destruct (varint_group_bits v ltac:(lia)) as (-> & _).
    simpl negb. cbv iota.
    rewrite u32_shiftl_small by (change (2 ^ (32 - 28)) with 16; lia).
    reflexivity.
  - cbn [Coding.EncodeVarint64_loop].
    assert (Hs : 0 <= shift <= 21) by lia.
    destruct (Z.leb_spec 128 v) as [Hbig|Hsmall].
    + cbn [app]. rewrite GetVarint32PtrFallback_loop_cons.
      destruct (Z.leb_spec shift 28); [|lia].
      destruct (group_byte v) as (-> & ->). simpl negb. cbv iota.
      assert (Hg : 0 <= Z.land v 127 < 128)
        by (rewrite land_127; apply Z.mod_pos_bound; lia).
      rewrite u32_shiftl_small; [| lia | | lia].
      2:{ split; [lia|]. apply Z.lt_le_trans with (2 ^ 7); [lia|].
          apply Z.pow_le_mono_r; lia. }
      rewrite IH; [| lia | lia |].
      * rewrite varint_regroup by lia. reflexivity.
      * apply shiftr7_range; [lia|].
        by replace (32 - (shift + 7) + 7) with (32 - shift) by lia.
    + cbn [app]. rewrite GetVarint32PtrFallback_loop_cons.
      destruct (Z.leb_spec shift 28); [|lia].
      rewrite Z_to_byte_small by lia.
      destruct (varint_group_bits v ltac:(lia)) as (-> & _).
      simpl negb. cbv iota.
      rewrite u32_shiftl_small; [done|lia| |lia].
      split; [lia|]. apply Z.lt_le_trans with (2 ^ 7); [lia|].
      apply Z.pow_le_mono_r; lia.
Qed.

Lemma GetVarint32PtrFallback_Encode (v : Z) (rest : list byte) :
  0 <= v < 2 ^ 32 ->
  Coding.GetVarint32PtrFallback (Coding.EncodeVarint32 v ++ rest)
  = Some (v, rest).
Proof.
  intros Hv. rewrite EncodeVarint32_loop by done.
  unfold Coding.GetVarint32PtrFallback.
  rewrite (GetVarint32PtrFallback_loop_Encode 4 v 0 0 rest) by (simpl; lia).
  by rewrite Z.shiftl_0_r.
Qed.

Lemma EncodeVarint32_head (v : Z) :
  0 <= v < 2 ^ 32 ->
  exists (b : byte) (tl : list byte),
    Coding.EncodeVarint32 v = b :: tl /\
    if v <? 128 then tl = [] /\ byte_to_Z b = v
    else tl <> [] /\ Z.land (byte_to_Z b) 128 = 128.
Proof.
  intros Hv. rewrite EncodeVarint32_loop by done.
  cbn [Coding.EncodeVarint64_loop].
  destruct (Z.leb_spec 128 v) as [Hbig|Hsmall].
  - destruct (Z.ltb_spec v 128); [lia|]. eexists _, _. split; [done|].
    split; [|apply group_byte]. by destruct (128 <=? Z.shiftr v 7).
  - destruct (Z.ltb_spec v 128); [|lia]. eexists _, _. split; [done|].
    split; [done|]. apply Z_to_byte_small. lia.
Qed.

Lemma GetVarint32_Encode (v : Z) (rest : list byte) :
  0 <= v < 2 ^ 32 ->
  Coding.GetVarint32 (Coding.EncodeVarint32 v ++ rest) = Some (v, rest).
Proof.
  intros Hv. unfold Coding.GetVarint32, Coding.GetVarint32Ptr.
  pose proof (GetVarint32PtrFallback_Encode v rest Hv) as Hfb.
  destruct (EncodeVarint32_head v Hv) as (b & tl & Henc & Hhead).
  rewrite Henc in *. cbn [app].
  destruct (Z.ltb_spec v 128).
  - destruct Hhead as (-> & Hb). rewrite Hb.
    by destruct (varint_group_bits v ltac:(lia)) as (-> & _).
  - destruct Hhead as (_ & ->). exact Hfb.
Qed.

(** *** What the decoders accept *)

Lemma GetVarint32PtrFallback_loop_consumes (n : nat) :
  forall shift result p v rest,
  0 <= shift -> 0 <= result < 2 ^ 32 ->
  Coding.GetVarint32PtrFallback_loop n shift result p = Some (v, rest) ->
  exists k : nat,
    (1 <= k <= n)%nat /\ (k <= length p)%nat /\ rest = drop k p /\
    0 <= v < 2 ^ 32.
Proof.
  assert (Hor : forall a b, 0 <= a < 2 ^ 32 -> 0 <= Z.lor a (u32 b) < 2 ^ 32).
  { intros a b Ha. pose proof (u32_range b) as Hb. split.
    - apply Z.lor_nonneg. lia.
    - destruct (Z.eq_dec (Z.lor a (u32 b)) 0) as [->|Hne]; [lia|].
      apply Z.log2_lt_pow2; [pose proof (Z.lor_nonneg a (u32 b)); lia|].
      rewrite Z.log2_lor by lia.
      destruct (Z.eq_dec a 0) as [->|]; destruct (Z.eq_dec (u32 b) 0) as [->|];
        try (apply Z.max_lub_lt; first [apply Z.log2_lt_pow2; lia | done]);
        try (change (Z.log2 0) with 0; apply Z.max_lub_lt;
             first [apply Z.log2_lt_pow2; lia | lia]). }
  induction n as [|n IH]; intros shift result p v rest Hs Hres Hget;
    [discriminate|].
  cbn [Coding.GetVarint32PtrFallback_loop] in Hget.
  destruct (shift <=? 28); [|discriminate].
  destruct p as [|b p]; [discriminate|].
  destruct (negb _).
  - apply IH in Hget as (k & Hk & Hlen & -> & Hv); [|lia|by apply Hor].
    exists (S k). cbn [length drop]. repeat split; lia || done.
  - injection Hget as <- <-. exists 1%nat. cbn [length].
    repeat split; try lia; try done; by apply Hor.
Qed.

Lemma GetVarint64Ptr_loop_consumes (n : nat) :
  forall shift result p v rest,
  0 <= shift -> 0 <= result < 2 ^ 64 ->
  Coding.GetVarint64Ptr_loop n shift result p = Some (v, rest) ->
  exists k : nat,
    (1 <= k <= n)%nat /\ (k <= length p)%nat /\ rest = drop k p /\
    0 <= v < 2 ^ 64.
Proof.
  assert (Hor : forall a b, 0 <= a < 2 ^ 64 -> 0 <= Z.lor a (u64 b) < 2 ^ 64).
  { intros a b Ha. pose proof (u64_range b) as Hb. split.
    - apply Z.lor_nonneg. lia.
    - destruct (Z.eq_dec (Z.lor a (u64 b)) 0) as [->|Hne]; [lia|].
      apply Z.log2_lt_pow2; [pose proof (Z.lor_nonneg a (u64 b)); lia|].
      rewrite Z.log2_lor by lia.
      destruct (Z.eq_dec a 0) as [->|]; destruct (Z.eq_dec (u64 b) 0) as [->|];
        try (apply Z.max_lub_lt; first [apply Z.log2_lt_pow2; lia | done]);
        try (change (Z.log2 0) with 0; apply Z.max_lub_lt;
             first [apply Z.log2_lt_pow2; lia | lia]). }
  induction n as [|n IH]; intros shift result p v rest Hs Hres Hget;
    [discriminate|].
  cbn [Coding.GetVarint64Ptr_loop] in Hget.
  destruct (shift <=? 63); [|discriminate].
  destruct p as [|b p]; [discriminate|].
  destruct (negb _).
  - apply IH in Hget as (k & Hk & Hlen & -> & Hv); [|lia|by apply Hor].
    exists (S k). cbn [length drop]. repeat split; lia || done.
  - injection Hget as <- <-. exists 1%nat. cbn [length].
    repeat split; try lia; try done; by apply Hor.
Qed.

(** A varint cut short is refused: every byte but the last carries the
    continuation bit. *)
Lemma GetVarint32PtrFallback_loop_truncated (n : nat) :
  forall v shift result (k : nat),
  (k < length (Coding.EncodeVarint64_loop n v))%nat ->
  Coding.GetVarint32PtrFallback_loop (S n) shift result
    (take k (Coding.EncodeVarint64_loop n v)) = None.
Proof.
  induction n as [|n IH]; intros v shift result k Hk.
  - cbn [Coding.EncodeVarint64_loop length] in *.
    replace k with 0%nat by lia. cbn. by destruct (shift <=? 28).
  - cbn [Coding.EncodeVarint64_loop] in *.
    destruct (128 <=? v).
    + destruct k as [|k].
      * cbn. by destruct (shift <=? 28).
      * cbn [take]. rewrite GetVarint32PtrFallback_loop_cons.
        destruct (shift <=? 28); [|done].
        destruct (group_byte v) as (-> & _). simpl negb. cbv iota.
        apply IH. cbn [length] in Hk. lia.
    + cbn [length] in Hk. replace k with 0%nat by lia.
      cbn. by destruct (shift <=? 28).
Qed.

Lemma GetVarint32_truncated (v : Z) (k : nat) :
  0 <= v < 2 ^ 32 ->
  (k < length (Coding.EncodeVarint32 v))%nat ->
  Coding.GetVarint32 (take k (Coding.EncodeVarint32 v)) = None.
Proof.
  intros Hv Hk. unfold Coding.GetVarint32, Coding.GetVarint32Ptr.
  assert (Hfb : Coding.GetVarint32PtrFallback (take k (Coding.EncodeVarint32 v))
                = None).
  { rewrite EncodeVarint32_loop in * by done.
    by apply GetVarint32PtrFallback_loop_truncated. }
  destruct (EncodeVarint32_head v Hv) as (b & tl & Henc & Hhead).
  rewrite Henc in *. destruct k as [|k]; [done|]. cbn [take] in *.
  destruct (Z.ltb_spec v 128).
  - destruct Hhead as (-> & _). cbn [length] in Hk. lia.
  - destruct Hhead as (_ & ->). exact Hfb.
Qed.

(** X8 (fixed-width round trip).  [PutFixed32] and [PutFixed64] append four
    and eight bytes, and [DecodeFixed32] / [DecodeFixed64] at the place where
    they were appended give back the value as the unsigned 32-bit (64-bit)
    parameter holds it, whatever follows. *)
Theorem fixed_width_round_trip (dst rest : list byte) (v : Z) :
  size_of (Coding.PutFixed32 dst v) = size_of dst + 4 /\
  Coding.DecodeFixed32
    (advance (size_of dst) (Coding.PutFixed32 dst v ++ rest)) = u32 v /\
  size_of (Coding.PutFixed64 dst v) = size_of dst + 8 /\
  Coding.DecodeFixed64
    (advance (size_of dst) (Coding.PutFixed64 dst v ++ rest)) = u64 v.
Proof.
  unfold Coding.PutFixed32, Coding.PutFixed64.
  rewrite <- !app_assoc, !advance_app_size, !size_of_app.
  rewrite DecodeFixed32_EncodeFixed32, DecodeFixed64_EncodeFixed64.
  done.
Qed.

(** X9 (varint round trip).  What [PutVarint32] appends is read back by
    [GetVarint32] as the value (as the [uint32_t] parameter holds it), leaving
    exactly the bytes that follow; the same for [PutVarint64] and
    [GetVarint64]. *)
Theorem varint_round_trip (dst rest : list byte) (v : Z) :
  Coding.GetVarint32
    (advance (size_of dst) (Coding.PutVarint32 dst v ++ rest))
  = Some (u32 v, rest) /\
  Coding.GetVarint64
    (advance (size_of dst) (Coding.PutVarint64 dst v ++ rest))
  = Some (u64 v, rest).
Proof.
  unfold Coding.PutVarint32, Coding.PutVarint64.
  rewrite <- !app_assoc, !advance_app_size.
  rewrite GetVarint32_Encode by apply u32_range.
  by rewrite GetVarint64_EncodeVarint64 by apply u64_range.
Qed.

(** X10 (VarintLength).  [VarintLength(v)] is the number of bytes that
    [PutVarint64] appends for [v], between 1 and 10, and for a 32-bit value
    also the number of bytes that [PutVarint32] appends, at most 5. *)
Theorem VarintLength_encoded (dst : list byte) (v : Z) :
  size_of (Coding.PutVarint64 dst v) = size_of dst + Coding.VarintLength v /\
  1 <= Coding.VarintLength v <= 10 /\
  size_of (Coding.PutVarint32 dst v)
  = size_of dst + Coding.VarintLength (u32 v) /\
  Coding.VarintLength (u32 v) <= 5.
Proof.
  unfold Coding.PutVarint64, Coding.PutVarint32, Coding.VarintLength.
  rewrite !size_of_app, !VarintLength_loop_length, u64_u32.
  fold (Coding.EncodeVarint64 (u64 v)).
  fold (Coding.EncodeVarint64 (u32 v)).
  rewrite <- (EncodeVarint32_EncodeVarint64 (u32 v)) by apply u32_range.
  pose proof (EncodeVarint64_length (u64 v)) as H64.
  pose proof (EncodeVarint32_length (u32 v)) as H32.
  assert (1 <= length (Coding.EncodeVarint64 (u64 v)))%nat.
  { unfold Coding.EncodeVarint64. cbn [Coding.EncodeVarint64_loop].
    destruct (128 <=? u64 v); cbn [length]; lia. }
  unfold size_of. lia.
Qed.

(** X11 (varint decoders are bounded).  When [GetVarint32] succeeds it has
    consumed between one and five bytes of its input, the value fits 32
    bits, and the rest of the input is what follows the consumed bytes;
    [GetVarint64] consumes between one and ten bytes for a 64-bit value.
    On an empty input both fail. *)
Theorem varint_decoders_bounded (input : list byte) :
  (forall v rest, Coding.GetVarint32 input = Some (v, rest) ->
     exists k : Z,
       1 <= k <= 5 /\ k <= size_of input /\ rest = advance k input /\
       0 <= v < 2 ^ 32) /\
  (forall v rest, Coding.GetVarint64 input = Some (v, rest) ->
     exists k : Z,
       1 <= k <= 10 /\ k <= size_of input /\ rest = advance k input /\
       0 <= v < 2 ^ 64) /\
  Coding.GetVarint32 [] = None /\ Coding.GetVarint64 [] = None.
Proof.
  split; [|split; [|done]].
  - intros v rest Hget. unfold Coding.GetVarint32, Coding.GetVarint32Ptr in Hget.
    assert (Hfb : Coding.GetVarint32PtrFallback input = Some (v, rest) ->
                  exists k : Z,
                    1 <= k <= 5 /\ k <= size_of input /\
                    rest = advance k input /\ 0 <= v < 2 ^ 32).
    { intros H.
      apply GetVarint32PtrFallback_loop_consumes in H as (k & ? & ? & ? & ?);
        [|lia..].
      exists (Z.of_nat k). unfold advance, size_of. rewrite Nat2Z.id.
      repeat split; lia || done. }
    destruct input as [|b p]; [by apply Hfb|].
    destruct (Z.land (byte_to_Z b) 128 =? 0); [|by apply Hfb].
    injection Hget as <- <-. exists 1. unfold size_of. cbn [length].
    pose proof (byte_to_Z_range b). repeat split; lia || done.
  - intros v rest Hget.
    apply GetVarint64Ptr_loop_consumes in Hget as (k & ? & ? & ? & ?);
      [|lia..].
    exists (Z.of_nat k). unfold advance, size_of. rewrite Nat2Z.id.
    repeat split; lia || done.
Qed.

Lemma varint_decoders_bounded_witness :
  exists k : Z,
    1 <= k <= 5 /\ k <= size_of [xac; x02; x07] /\
    [x07] = advance k [xac; x02; x07] /\ 0 <= 300 < 2 ^ 32.
Proof.
  apply (proj1 (varint_decoders_bounded [xac; x02; x07]) 300 [x07]).
  reflexivity.
Defined.

(** X12 (length-prefixed slices).  A slice of fewer than 2^32 bytes appended
    by [PutLengthPrefixedSlice] is read back whole by
    [GetLengthPrefixedSlice], which leaves the bytes that follow; if the
    encoding is cut short anywhere, [GetLengthPrefixedSlice] fails. *)
Theorem length_prefixed_slice_round_trip (dst value rest : list byte) :
  size_of value < 2 ^ 32 ->
  Coding.GetLengthPrefixedSlice
    (advance (size_of dst) (Coding.PutLengthPrefixedSlice dst value ++ rest))
  = Some (value, rest) /\
  forall n : Z,
    0 <= n < size_of (Coding.PutLengthPrefixedSlice [] value) ->
    Coding.GetLengthPrefixedSlice
      (Slice (Coding.PutLengthPrefixedSlice [] value) n) = None.
Proof.
  intros Hsize. pose proof (size_of_nonneg value) as Hnn.
  assert (Hu : u32 (size_of value) = size_of value)
    by (apply Z.mod_small; lia).
  unfold Coding.PutLengthPrefixedSlice, Coding.PutVarint32.
  rewrite Hu. cbn [app]. split.
  - rewrite <- !app_assoc, advance_app_size.
    unfold Coding.GetLengthPrefixedSlice.
    rewrite GetVarint32_Encode by lia.
    rewrite size_of_app.
    destruct (Z.leb_spec (size_of value) (size_of value + size_of rest));
      [|pose proof (size_of_nonneg rest); lia].
    unfold Slice, advance, size_of. rewrite Nat2Z.id.
    by rewrite take_app_length, drop_app_length.
  - intros n Hn. rewrite size_of_app in Hn.
    unfold Coding.GetLengthPrefixedSlice, Slice.
    set (enc := Coding.EncodeVarint32 (size_of value)) in *.
    destruct (Z_lt_le_dec n (size_of enc)) as [Hlt|Hge].
    + rewrite take_app_le by (unfold size_of in Hlt; lia).
      unfold enc. rewrite GetVarint32_truncated; [done|lia|].
      unfold size_of in Hlt. fold enc. lia.
    + replace (Z.to_nat n) with (length enc + Z.to_nat (n - size_of enc))%nat
        by (unfold size_of in *; lia).
      rewrite take_app_add'; [|done].
      unfold enc at 1. rewrite GetVarint32_Encode by lia.
      destruct (Z.leb_spec (size_of value)
                  (size_of (take (Z.to_nat (n - size_of enc)) value)));
        [|done].
      unfold size_of in *. rewrite length_take in *. lia.
Qed.

Lemma length_prefixed_slice_round_trip_witness :
  size_of [x61; x62; x63] < 2 ^ 32 /\
  Coding.GetLengthPrefixedSlice
    (advance (size_of [x01])
       (Coding.PutLengthPrefixedSlice [x01] [x61; x62; x63] ++ [x02]))
  = Some ([x61; x62; x63], [x02]) /\
  forall n : Z,
    0 <= n < size_of (Coding.PutLengthPrefixedSlice [] [x61; x62; x63]) ->
    Coding.GetLengthPrefixedSlice
      (Slice (Coding.PutLengthPrefixedSlice [] [x61; x62; x63]) n) = None.
Proof.
  split; [reflexivity|].
  apply (length_prefixed_slice_round_trip [x01] [x61; x62; x63] [x02]).
  reflexivity.
Defined.

End CodingCodecProps.
(** ** db/memtable.cc: entries *)

Section MemTableEntryProps.
Import DBFormat.

Lemma Slice_5_varint (v : Z) (rest : list byte) :
  Slice (Coding.EncodeVarint32 v ++ rest) 5
  = Coding.EncodeVarint32 v
    ++ take (5 - length (Coding.EncodeVarint32 v)) rest.
Proof.
  unfold Slice. pose proof (EncodeVarint32_length v) as Hl.
  change (Z.to_nat 5) with 5%nat.
  rewrite take_app. rewrite take_ge by lia. done.
Qed.

(** The length-prefixed slice at the start of a buffer, as the memtable
    reads it. *)
Lemma memtable_slice_encoded (v : Z) (rest : list byte) :
  0 <= v < 2 ^ 32 ->
  Coding.GetVarint32Ptr (Slice (Coding.EncodeVarint32 v ++ rest) 5)
  = Some (v, take (5 - length (Coding.EncodeVarint32 v)) rest) /\
  advance (size_of (Slice (Coding.EncodeVarint32 v ++ rest) 5)
           - size_of (take (5 - length (Coding.EncodeVarint32 v)) rest))
    (Coding.EncodeVarint32 v ++ rest) = rest /\
  MemTable.GetLengthPrefixedSlice (Coding.EncodeVarint32 v ++ rest)
  = Slice rest v.
Proof.
  intros Hv.
  assert (Hget : Coding.GetVarint32Ptr
                   (Slice (Coding.EncodeVarint32 v ++ rest) 5)
                 = Some (v, take (5 - length (Coding.EncodeVarint32 v)) rest)).
  { rewrite Slice_5_varint. by apply GetVarint32_Encode. }
  assert (Hadv : advance
                   (size_of (Slice (Coding.EncodeVarint32 v ++ rest) 5)
                    - size_of (take (5 - length (Coding.EncodeVarint32 v))
                                 rest))
                   (Coding.EncodeVarint32 v ++ rest) = rest).
  { rewrite Slice_5_varint, size_of_app.
    replace (_ + _ - _) with (size_of (Coding.EncodeVarint32 v)) by lia.
    apply advance_app_size. }
  split; [done|]. split; [done|].
  unfold MemTable.GetLengthPrefixedSlice. by rewrite Hget, Hadv.
Qed.

Lemma u32_small (v : Z) : 0 <= v < 2 ^ 32 -> u32 v = v.
Proof. apply Z.mod_small. Qed.

(** X13 (memtable entries).  For a user key of fewer than 2^32 - 8 bytes
    and a value of fewer than 2^32 bytes, the buffer [MemTable::Add] fills
    has exactly the [encoded_len] bytes it asked the arena for; the
    iterator's [key()] on it is the internal key (the user key followed by
    the tag [(s << 8) | type] in eight bytes) and its [value()] is the
    value. *)
Theorem memtable_entry_round_trip (s : Z) (t : ValueType)
    (key value : list byte) :
  size_of key + 8 < 2 ^ 32 -> size_of value < 2 ^ 32 ->
  size_of (MemTable.Add_buf s t key value)
  = MemTableIterator.Add_encoded_len key value /\
  MemTableIterator.key (MemTable.Add_buf s t key value)
  = key ++ Coding.EncodeFixed64
             (u64 (Z.lor (Z.shiftl s 8) (ValueType_to_Z t))) /\
  MemTableIterator.value (MemTable.Add_buf s t key value) = value.
Proof.
  intros Hk Hv.
  pose proof (size_of_nonneg key) as Hk0.
  pose proof (size_of_nonneg value) as Hv0.
  set (tag := u64 (Z.lor (Z.shiftl s 8) (ValueType_to_Z t))).
  assert (Hkey : MemTableIterator.key (MemTable.Add_buf s t key value)
                 = key ++ Coding.EncodeFixed64 tag).
  { unfold MemTableIterator.key, MemTable.Add_buf. fold tag.
    rewrite (u32_small (size_of key + 8)) by lia.
    destruct (memtable_slice_encoded (size_of key + 8)
                (key ++ Coding.EncodeFixed64 tag
                 ++ Coding.EncodeVarint32 (u32 (size_of value)) ++ value)
                ltac:(lia)) as (_ & _ & ->).
    rewrite (app_assoc key), <- (size_of_EncodeFixed64 tag), <- size_of_app.
    apply Slice_app_size. }
  split; [|split; [done|]].
  - unfold MemTable.Add_buf, MemTableIterator.Add_encoded_len. fold tag.
    rewrite !size_of_app, size_of_EncodeFixed64.
    rewrite (u64_small (size_of key + 8)) by lia.
    destruct (VarintLength_encoded [] (size_of key + 8))
      as (_ & _ & Hl1 & Hb1).
    destruct (VarintLength_encoded [] (size_of value))
      as (_ & _ & Hl2 & Hb2).
    unfold Coding.PutVarint32 in Hl1, Hl2. cbn [app] in Hl1, Hl2.
    rewrite size_of_nil in Hl1, Hl2.
    rewrite Hl1, Hl2. rewrite !u32_small in * by lia.
    pose proof (VarintLength_encoded [] (size_of key + 8)) as (_ & ? & _).
    pose proof (VarintLength_encoded [] (size_of value)) as (_ & ? & _).
    rewrite u64_small by lia. lia.
  - unfold MemTableIterator.value, MemTable.Add_buf. fold tag.
    rewrite (u32_small (size_of key + 8)) by lia.
    rewrite (u32_small (size_of value)) by lia.
    destruct (memtable_slice_encoded (size_of key + 8)
                (key ++ Coding.EncodeFixed64 tag
                 ++ Coding.EncodeVarint32 (size_of value) ++ value)
                ltac:(lia)) as (-> & -> & _).
    rewrite (app_assoc key), <- (size_of_EncodeFixed64 tag) at 1.
    rewrite <- size_of_app, advance_app_size.
    destruct (memtable_slice_encoded (size_of value) value ltac:(lia))
      as (_ & _ & ->).
    rewrite <- (app_nil_r value) at 1. apply Slice_app_size.
Qed.

Lemma memtable_entry_round_trip_witness :
  size_of [x6b; x31] + 8 < 2 ^ 32 /\ size_of [x76] < 2 ^ 32 /\
  size_of (MemTable.Add_buf 7 kTypeValue [x6b; x31] [x76])
  = MemTableIterator.Add_encoded_len [x6b; x31] [x76] /\
  MemTableIterator.key (MemTable.Add_buf 7 kTypeValue [x6b; x31] [x76])
  = [x6b; x31] ++ Coding.EncodeFixed64
             (u64 (Z.lor (Z.shiftl 7 8) (ValueType_to_Z kTypeValue))) /\
  MemTableIterator.value (MemTable.Add_buf 7 kTypeValue [x6b; x31] [x76])
  = [x76].
Proof.
  split; [reflexivity|]. split; [reflexivity|].
  apply (memtable_entry_round_trip 7 kTypeValue [x6b; x31] [x76]);
    reflexivity.
Defined.

End MemTableEntryProps.
(** ** table/block_builder.cc: entries and the size estimate *)

Section BlockEntryProps.
Import BlockBuilder.

Lemma shared_prefix_spec (last_key_piece key : list byte) :
  0 <= shared_prefix last_key_piece key /\
  shared_prefix last_key_piece key <= size_of last_key_piece /\
  shared_prefix last_key_piece key <= size_of key /\
  Slice last_key_piece (shared_prefix last_key_piece key)
  = Slice key (shared_prefix last_key_piece key) /\
  (shared_prefix last_key_piece key = size_of last_key_piece \/
   shared_prefix last_key_piece key = size_of key \/
   last_key_piece !! Z.to_nat (shared_prefix last_key_piece key)
   <> key !! Z.to_nat (shared_prefix last_key_piece key)).
Proof.
  revert key. unfold Slice, size_of.
  induction last_key_piece as [|x l IH]; intros key.
  - cbn. repeat split; lia || auto.
  - destruct key as [|y key].
    + cbn. repeat split; lia || auto.
    + cbn [shared_prefix]. case_bool_decide as Hxy.
      * subst y. destruct (IH key) as (H0 & H1 & H2 & H3 & H4).
        set (n := shared_prefix l key) in *.
        replace (Z.to_nat (1 + n)) with (S (Z.to_nat n)) by lia.
        cbn [length take lookup list_lookup]. rewrite H3.
        repeat split; try lia. 
        destruct H4 as [H4|[H4|H4]]; [left|right; left|right; right]; 
          lia || done.
      * cbn. repeat split; try lia. right. right. by intros [=].
Qed.

Lemma Add_shared_range (b : BlockBuilder) (key : list byte) :
  0 <= Add_shared b key /\ Add_shared b key <= size_of (last_key_ b) /\
  Add_shared b key <= size_of key /\
  Slice (last_key_ b) (Add_shared b key) = Slice key (Add_shared b key).
Proof.
  unfold Add_shared.
  destruct (negb _).
  - pose proof (size_of_nonneg (last_key_ b)).
    pose proof (size_of_nonneg key). by repeat split; try lia.
  - pose proof (shared_prefix_spec (last_key_ b) key). tauto.
Qed.

Lemma Slice_advance_all (key : list byte) (n : Z) :
  0 <= n <= size_of key ->
  Slice key n ++ Slice (advance n key) (size_of key - n) = key.
Proof.
  intros Hn. unfold Slice, advance, size_of in *.
  rewrite (take_ge (drop _ _)) by (rewrite length_drop; lia).
  apply take_drop.
Qed.

(** X14 (prefix compression of block entries).  In [Add(key, value)] the
    number [shared] of key bytes left out is 0 at a restart point and
    otherwise the length of the longest common prefix of the previous key
    and [key]; the entry appended to the buffer is
    [varint32 shared, varint32 non_shared, varint32 value size, the key from
    byte [shared] on, the value], so the first [shared] bytes of the previous
    key followed by the stored key bytes are [key]; and [last_key_] is [key]
    after the call (the last assert of [Add]). *)
Theorem block_entry_prefix_compression (b : BlockBuilder)
    (key value : list byte) :
  let shared := Add_shared b key in
  (if counter_ b <? block_restart_interval (options_ b)
   then shared <= size_of (last_key_ b) /\ shared <= size_of key /\
        Slice (last_key_ b) shared = Slice key shared /\
        (shared = size_of (last_key_ b) \/ shared = size_of key \/
         last_key_ b !! Z.to_nat shared <> key !! Z.to_nat shared)
   else shared = 0) /\
  buffer_ (Add b key value)
  = buffer_ b
    ++ Coding.PutVarint32 [] shared
    ++ Coding.PutVarint32 [] (size_of key - shared)
    ++ Coding.PutVarint32 [] (size_of value)
    ++ Slice (advance shared key) (size_of key - shared)
    ++ value /\
  Slice (last_key_ b) shared
  ++ Slice (advance shared key) (size_of key - shared) = key /\
  last_key_ (Add b key value) = key.
Proof.
  intros shared.
  destruct (Add_shared_range b key) as (H0 & H1 & H2 & H3).
  fold shared in H0, H1, H2, H3.
  split; [|split; [|split]].
  - unfold shared, Add_shared.
    destruct (counter_ b <? _); [|done]. cbn [negb].
    pose proof (shared_prefix_spec (last_key_ b) key). tauto.
  - by rewrite Add_buffer.
  - rewrite H3. apply Slice_advance_all. lia.
  - transitivity (Format.resize (last_key_ b) shared
                  ++ Slice (advance shared key) (size_of key - shared)).
    { unfold Add, shared, Add_shared. cbn [last_key_].
      by destruct (negb _). }
    unfold Format.resize.
    replace (Z.to_nat shared - length (last_key_ b))%nat with 0%nat
      by (unfold size_of in H1; lia).
    cbn [replicate]. rewrite app_nil_r. fold (Slice (last_key_ b) shared).
    rewrite H3. apply Slice_advance_all. lia.
Qed.

(** X15 (block size estimate).  [CurrentSizeEstimate()] is exactly the size
    of the block that [Finish()] returns when called next; it is 8 for a
    builder that was just made or reset, and every [Add] raises it by at
    least 3. *)
Theorem block_size_estimate (b : BlockBuilder) (key value : list byte) :
  CurrentSizeEstimate b = size_of (Finish b).2 /\
  CurrentSizeEstimate (BlockBuilder_new (options_ b)) = 8 /\
  CurrentSizeEstimate (Reset b) = 8 /\
  CurrentSizeEstimate b + 3 <= CurrentSizeEstimate (Add b key value).
Proof.
  split; [|split; [done|split; [done|]]].
  - rewrite Finish_size. unfold CurrentSizeEstimate. lia.
  - pose proof (Add_buffer_grows b key value) as Hg.
    unfold CurrentSizeEstimate.
    assert (length (restarts_ b) <= length (restarts_ (Add b key value)))%nat.
    { unfold Add. cbn [restarts_]. destruct (negb _); [|done].
      rewrite length_app. lia. }
    lia.
Qed.

End BlockEntryProps.
(** ** util/comparator.cc, db/dbformat.cc: short keys *)

Section ComparatorProps.
Import DBFormat.

Lemma Slice_compare_cons (x y : byte) (a b : list byte) :
  Slice_compare (x :: a) (y :: b)
  = if byte_to_Z x <? byte_to_Z y then -1
    else if byte_to_Z y <? byte_to_Z x then 1
    else Slice_compare a b.
Proof.
  unfold Slice_compare, size_of. cbn [length].
  set (m := if Z.of_nat (length a) <? Z.of_nat (length b)
            then Z.of_nat (length a) else Z.of_nat (length b)).
  assert (Hm : (if Z.of_nat (S (length a)) <? Z.of_nat (S (length b))
                then Z.of_nat (S (length a)) else Z.of_nat (S (length b)))
               = 1 + m).
  { subst m. destruct (Z.ltb_spec (Z.of_nat (S (length a)))
                         (Z.of_nat (S (length b))));
      destruct (Z.ltb_spec (Z.of_nat (length a)) (Z.of_nat (length b)));
      lia. }
  rewrite Hm.
  replace (Z.to_nat (1 + m)) with (S (Z.to_nat m))
    by (subst m; destruct (_ <? _); lia).
  cbn [memcmp].
  destruct (byte_to_Z x <? byte_to_Z y); [done|].
  destruct (byte_to_Z y <? byte_to_Z x); [done|].
  destruct (memcmp a b (Z.to_nat m) =? 0); [|done].
  repeat match goal with
         | |- context [ ?u <? ?v ] => destruct (Z.ltb_spec u v)
         end; lia || done.
Qed.

Lemma Slice_compare_app (p a b : list byte) :
  Slice_compare (p ++ a) (p ++ b) = Slice_compare a b.
Proof.
  induction p as [|x p IH]; [done|]. cbn [app].
  rewrite Slice_compare_cons, Z.ltb_irrefl. exact IH.
Qed.

Lemma Slice_compare_refl (a : list byte) : Slice_compare a a = 0.
Proof.
  rewrite <- (app_nil_r a) at 1. rewrite <- (app_nil_r a) at 2.
  by rewrite Slice_compare_app.
Qed.

Lemma Slice_compare_step (p : list byte) (x y : byte) (a b : list byte) :
  byte_to_Z x < byte_to_Z y ->
  Slice_compare (p ++ x :: a) (p ++ y :: b) = -1.
Proof.
  intros Hxy. rewrite Slice_compare_app, Slice_compare_cons.
  by destruct (Z.ltb_spec (byte_to_Z x) (byte_to_Z y)); [|lia].
Qed.

Lemma byte_at_lookup (p : list byte) (i : nat) (x : byte) :
  p !! i = Some x -> byte_at p i = byte_to_Z x.
Proof. intros H. unfold byte_at. by rewrite (nth_lookup_Some _ _ _ _ H). Qed.

Lemma resize_set_byte (p s : list byte) (x v : byte) :
  Format.resize (<[Z.to_nat (size_of p) := v]> (p ++ x :: s)) (size_of p + 1)
  = p ++ [v].
Proof.
  unfold Format.resize, size_of. rewrite Nat2Z.id.
  rewrite insert_app_r_alt by lia. rewrite Nat.sub_diag.
  cbn [insert list_insert].
  replace (Z.to_nat (Z.of_nat (length p) + 1)) with (length p + 1)%nat by lia.
  rewrite take_app_add'; [|done]. cbn [take].
  rewrite length_app. cbn [length].
  replace (length p + 1 - _)%nat with 0%nat by lia.
  by rewrite app_nil_r.
Qed.

(** Where the first loop of [FindShortestSeparator] stops. *)
Lemma diff_index_loop_spec (start limit : list byte) (min_length : Z)
    (rounds : nat) :
  forall d : Z,
  0 <= d <= min_length -> min_length - d <= Z.of_nat rounds ->
  min_length <= size_of start -> min_length <= size_of limit ->
  take (Z.to_nat d) start = take (Z.to_nat d) limit ->
  let d' := diff_index_loop rounds d min_length start limit in
  d <= d' <= min_length /\
  take (Z.to_nat d') start = take (Z.to_nat d') limit /\
  (d' < min_length ->
   byte_at start (Z.to_nat d') <> byte_at limit (Z.to_nat d')).
Proof.
  induction rounds as [|rounds IH]; intros d Hd Hr Hs Hl Hpre; cbn zeta.
  - cbn [diff_index_loop]. repeat split; lia || done.
  - cbn [diff_index_loop].
    destruct (Z.ltb_spec d min_length) as [Hlt|Hge]; cbn [andb].
    + destruct (Z.eqb_spec (byte_at start (Z.to_nat d))
                  (byte_at limit (Z.to_nat d))) as [Heq|Hne].
      * destruct (lookup_lt_is_Some_2 start (Z.to_nat d)
                    ltac:(unfold size_of in Hs; lia)) as [x Hx].
        destruct (lookup_lt_is_Some_2 limit (Z.to_nat d)
                    ltac:(unfold size_of in Hl; lia)) as [y Hy].
        rewrite (byte_at_lookup _ _ _ Hx), (byte_at_lookup _ _ _ Hy) in Heq.
        apply byte_to_Z_inj in Heq. subst y.
        destruct (IH (d + 1)) as (H1 & H2 & H3); try lia.
        { replace (Z.to_nat (d + 1)) with (S (Z.to_nat d)) by lia.
          by rewrite (take_S_r _ _ _ Hx), (take_S_r _ _ _ Hy), Hpre. }
        repeat split; lia || done.
      * repeat split; lia || done.
    + repeat split; lia || done.
Qed.

(** [FindShortestSeparator] either leaves [start] alone or cuts it after
    the first byte that differs from [limit], raised by one. *)
Lemma FindShortestSeparator_cases (start limit : list byte) :
  BytewiseComparatorImpl_FindShortestSeparator start limit = start \/
  exists (p s l : list byte) (x y : byte),
    start = p ++ x :: s /\ limit = p ++ y :: l /\
    byte_to_Z x + 1 < byte_to_Z y /\
    BytewiseComparatorImpl_FindShortestSeparator start limit
    = p ++ [Z_to_byte (byte_to_Z x + 1)].
Proof.
  unfold BytewiseComparatorImpl_FindShortestSeparator.
  set (min_length := if size_of limit <? size_of start then size_of limit
                     else size_of start).
  assert (Hmin : 0 <= min_length /\ min_length <= size_of start /\
                 min_length <= size_of limit).
  { pose proof (size_of_nonneg start). pose proof (size_of_nonneg limit).
    subst min_length. destruct (Z.ltb_spec (size_of limit) (size_of start));
      lia. }
  destruct (diff_index_loop_spec start limit min_length
              (Z.to_nat min_length) 0) as (Hd & Hpre & Hdiff);
    [lia|lia|lia|lia|done|].
  set (d := diff_index_loop _ 0 min_length start limit) in *.
  destruct (Z.leb_spec min_length d) as [|Hlt]; [by left|].
  destruct (_ && _) eqn:Hcond; [|by left]. right.
  apply andb_true_iff in Hcond as [H255 Hlim].
  apply Z.ltb_lt in H255, Hlim.
  destruct (lookup_lt_is_Some_2 start (Z.to_nat d)
              ltac:(unfold size_of in Hmin; lia)) as [x Hx].
  destruct (lookup_lt_is_Some_2 limit (Z.to_nat d)
              ltac:(unfold size_of in Hmin; lia)) as [y Hy].
  rewrite (byte_at_lookup _ _ _ Hx) in *.
  rewrite (byte_at_lookup _ _ _ Hy) in *.
  pose proof (take_drop_middle _ _ _ Hx) as Hstart.
  pose proof (take_drop_middle _ _ _ Hy) as Hlimit.
  rewrite <- Hpre in Hlimit.
  set (p := take (Z.to_nat d) start) in *.
  assert (Hp : size_of p = d).
  { unfold size_of, p. rewrite length_take. unfold size_of in Hmin. lia. }
  exists p, (drop (S (Z.to_nat d)) start), (drop (S (Z.to_nat d)) limit), x, y.
  split; [done|]. split; [done|]. split; [lia|].
  rewrite <- Hstart at 1. rewrite <- Hp. apply resize_set_byte.
Qed.

Lemma FindShortSuccessor_loop_cases (key : list byte) (rounds : nat) :
  forall i : Z,
  0 <= i <= size_of key -> size_of key - i <= Z.of_nat rounds ->
  (forall b, b ∈ take (Z.to_nat i) key -> byte_to_Z b = 255) ->
  (FindShortSuccessor_loop rounds i (size_of key) key = key /\
   forall b, b ∈ key -> byte_to_Z b = 255) \/
  exists (p s : list byte) (x : byte),
    key = p ++ x :: s /\ byte_to_Z x < 255 /\
    (forall b, b ∈ p -> byte_to_Z b = 255) /\
    FindShortSuccessor_loop rounds i (size_of key) key
    = p ++ [Z_to_byte (byte_to_Z x + 1)].
Proof.
  induction rounds as [|rounds IH]; intros i Hi Hr Hff.
  - left. split; [done|]. intros b Hb. apply Hff.
    rewrite take_ge; [done|]. unfold size_of in *. lia.
  - cbn [FindShortSuccessor_loop].
    destruct (Z.ltb_spec i (size_of key)) as [Hlt|Hge].
    + destruct (lookup_lt_is_Some_2 key (Z.to_nat i)
                  ltac:(unfold size_of in Hlt; lia)) as [x Hx].
      rewrite (byte_at_lookup _ _ _ Hx).
      destruct (Z.eqb_spec (byte_to_Z x) 255) as [Heq|Hne]; cbn [negb].
      * apply IH; [lia..|].
        replace (Z.to_nat (i + 1)) with (S (Z.to_nat i)) by lia.
        rewrite (take_S_r _ _ _ Hx). intros b Hb.
        apply elem_of_app in Hb as [Hb|Hb]; [by apply Hff|].
        apply list_elem_of_singleton in Hb. by subst b.
      * right. pose proof (take_drop_middle _ _ _ Hx) as Hkey.
        set (p := take (Z.to_nat i) key) in *.
        assert (Hp : size_of p = i).
        { unfold size_of, p. rewrite length_take. unfold size_of in Hlt.
          lia. }
        exists p, (drop (S (Z.to_nat i)) key), x.
        pose proof (byte_to_Z_range x).
        split; [done|]. split; [lia|]. split; [done|].
        rewrite <- Hkey at 1. rewrite <- Hp. apply resize_set_byte.
    + left. split; [done|]. intros b Hb. apply Hff.
      rewrite take_ge; [done|]. unfold size_of in *. lia.
Qed.

Lemma raised_byte (x : byte) :
  byte_to_Z x < 255 -> byte_to_Z (Z_to_byte (byte_to_Z x + 1)) = byte_to_Z x + 1.
Proof.
  intros H. pose proof (byte_to_Z_range x). apply Z_to_byte_small. lia.
Qed.

(** What the internal-key comparator needs of the user comparator's
    separator, for the bytewise comparator. *)
Lemma Bytewise_separator_below (start limit : list byte) :
  Slice_compare start
    (BytewiseComparatorImpl_FindShortestSeparator start limit) < 0 ->
  Slice_compare
    (BytewiseComparatorImpl_FindShortestSeparator start limit) limit < 0.
Proof.
  destruct (FindShortestSeparator_cases start limit)
    as [->|(p & s & l & x & y & -> & -> & Hxy & ->)].
  - rewrite Slice_compare_refl. lia.
  - intros _. pose proof (byte_to_Z_range y).
    rewrite (Slice_compare_step p _ y [] l); [lia|].
    rewrite raised_byte; lia.
Qed.

(** X16 (bytewise separator).  [FindShortestSeparator(&start, limit)] of the
    bytewise comparator either leaves [start] as it is, or replaces it by a
    string that is not longer, compares above the old [start] and below
    [limit]: the old [start] cut after the first byte in which it differs
    from [limit], with that byte raised by one.  It leaves [start] alone
    when one of the two is a prefix of the other. *)
Theorem bytewise_shortest_separator (start limit : list byte) :
  let r := BytewiseComparatorImpl_FindShortestSeparator start limit in
  (r = start \/
   (BytewiseComparator start r < 0 /\ BytewiseComparator r limit < 0 /\
    size_of r <= size_of start)) /\
  (forall rest, BytewiseComparatorImpl_FindShortestSeparator
                  start (start ++ rest) = start) /\
  (forall rest, BytewiseComparatorImpl_FindShortestSeparator
                  (limit ++ rest) limit = limit ++ rest).
Proof.
  cbn zeta. split; [|split].
  - destruct (FindShortestSeparator_cases start limit)
      as [->|(p & s & l & x & y & -> & -> & Hxy & ->)]; [by left|].
    right. pose proof (byte_to_Z_range y). unfold BytewiseComparator.
    rewrite (Slice_compare_step p x _ s []) by (rewrite raised_byte; lia).
    rewrite (Slice_compare_step p _ y [] l) by (rewrite raised_byte; lia).
    rewrite !size_of_app. unfold size_of. cbn [length]. lia.
  - intros rest.
    destruct (FindShortestSeparator_cases start (start ++ rest))
      as [->|(p & s & l & x & y & Hs & Hl & Hxy & _)]; [done|].
    exfalso. rewrite Hs, <- app_assoc in Hl.
    apply app_inv_head in Hl. injection Hl as Hl _. subst y. lia.
  - intros rest.
    destruct (FindShortestSeparator_cases (limit ++ rest) limit)
      as [->|(p & s & l & x & y & Hs & Hl & Hxy & _)]; [done|].
    exfalso. rewrite Hl, <- app_assoc in Hs.
    apply app_inv_head in Hs. injection Hs as Hs _. subst y. lia.
Qed.

(** X17 (bytewise successor).  [FindShortSuccessor(&key)] of the bytewise
    comparator leaves a key made of 0xff bytes only (the empty key too) as it
    is; any other key is cut after its first byte that is not 0xff, that
    byte raised by one: the result is not longer and compares above the old
    key. *)
Theorem bytewise_short_successor (key : list byte) :
  let r := BytewiseComparatorImpl_FindShortSuccessor key in
  ((forall b, b ∈ key -> byte_to_Z b = 255) /\ r = key) \/
  (exists (p s : list byte) (x : byte),
     key = p ++ x :: s /\ (forall b, b ∈ p -> byte_to_Z b = 255) /\
     byte_to_Z x < 255 /\ r = p ++ [Z_to_byte (byte_to_Z x + 1)] /\
     BytewiseComparator key r < 0 /\ size_of r <= size_of key).
Proof.
  cbn zeta. unfold BytewiseComparatorImpl_FindShortSuccessor.
  destruct (FindShortSuccessor_loop_cases key (length key) 0)
    as [[Hr Hff]|(p & s & x & Hkey & Hx & Hp & Hr)].
  - pose proof (size_of_nonneg key). lia.
  - unfold size_of. lia.
  - intros b Hb. cbn in Hb. by apply elem_of_nil in Hb.
  - by left.
  - right. exists p, s, x. rewrite Hr. repeat split; try done.
    + rewrite Hkey. unfold BytewiseComparator.
      rewrite (Slice_compare_step p x _ s []) by (rewrite raised_byte; lia).
      lia.
    + rewrite Hkey, !size_of_app. unfold size_of. cbn [length]. lia.
Qed.

Lemma ExtractUserKey_PutFixed64 (tmp : list byte) (tag : Z) :
  ExtractUserKey (Coding.PutFixed64 tmp tag) = tmp.
Proof.
  unfold ExtractUserKey, Coding.PutFixed64.
  rewrite size_of_app, size_of_EncodeFixed64.
  replace (size_of tmp + 8 - 8) with (size_of tmp) by lia.
  unfold Slice, size_of. rewrite Nat2Z.id. apply take_app_length.
Qed.

(** X18 (short internal keys).  For a user comparator whose
    [FindShortestSeparator] keeps a key that it raised below the limit,
    [InternalKeyComparator::FindShortestSeparator(&start, limit)] either
    leaves [start] as it is or replaces it by a shorter user key followed by
    the tag of the largest sequence number, and then the two asserts of the
    source hold: the old [start] compares below the new one and the new one
    below [limit].  [FindShortSuccessor] likewise either leaves the key or
    replaces it by one that compares above it. *)
Theorem internal_key_short_keys (user_comparator : UserComparator)
    (start limit : list byte) :
  (forall s l,
     cmp_Compare user_comparator s
       (cmp_FindShortestSeparator user_comparator s l) < 0 ->
     cmp_Compare user_comparator
       (cmp_FindShortestSeparator user_comparator s l) l < 0) ->
  let cmp := InternalKeyComparator_Compare (cmp_Compare user_comparator) in
  let r := InternalKeyComparator.FindShortestSeparator user_comparator
             start limit in
  let k := InternalKeyComparator.FindShortSuccessor user_comparator start in
  (r = start \/
   (cmp start r < 0 /\ cmp r limit < 0 /\
    size_of (ExtractUserKey r) < size_of (ExtractUserKey start) /\
    ExtractTag r = PackSequenceAndType kMaxSequenceNumber kValueTypeForSeek))
  /\
  (k = start \/
   (cmp start k < 0 /\
    size_of (ExtractUserKey k) < size_of (ExtractUserKey start) /\
    ExtractTag k = PackSequenceAndType kMaxSequenceNumber kValueTypeForSeek)).
Proof.
  intros Hbelow. cbn zeta.
  assert (Htag : forall tmp tag, 0 <= tag < 2 ^ 64 ->
            ExtractTag (Coding.PutFixed64 tmp tag) = tag).
  { intros tmp tag Htag. unfold ExtractTag, Coding.PutFixed64.
    rewrite size_of_app, size_of_EncodeFixed64.
    replace (size_of tmp + 8 - 8) with (size_of tmp) by lia.
    rewrite advance_app_size.
    rewrite <- (app_nil_r (Coding.EncodeFixed64 tag)).
    rewrite DecodeFixed64_EncodeFixed64. by apply u64_small. }
  assert (Hpack : 0 <= PackSequenceAndType kMaxSequenceNumber kValueTypeForSeek
                  < 2 ^ 64) by apply u64_range.
  assert (Hneg : forall a b, cmp_Compare user_comparator
                   (ExtractUserKey a) (ExtractUserKey b) < 0 ->
                 InternalKeyComparator_Compare (cmp_Compare user_comparator)
                   a b < 0).
  { intros a b H. unfold InternalKeyComparator_Compare.
    destruct (Z.eqb_spec (cmp_Compare user_comparator (ExtractUserKey a)
                            (ExtractUserKey b)) 0); [lia|done]. }
  split.
  - unfold InternalKeyComparator.FindShortestSeparator.
    destruct (_ && _) eqn:Hcond; [|by left]. right.
    apply andb_true_iff in Hcond as [Hsize Hcmp].
    apply Z.ltb_lt in Hsize, Hcmp.
    split; [|split; [|split]].
    + apply Hneg. by rewrite ExtractUserKey_PutFixed64.
    + apply Hneg. rewrite ExtractUserKey_PutFixed64. by apply Hbelow.
    + by rewrite ExtractUserKey_PutFixed64.
    + by apply Htag.
  - unfold InternalKeyComparator.FindShortSuccessor.
    destruct (_ && _) eqn:Hcond; [|by left]. right.
    apply andb_true_iff in Hcond as [Hsize Hcmp].
    apply Z.ltb_lt in Hsize, Hcmp.
    split; [|split].
    + apply Hneg. by rewrite ExtractUserKey_PutFixed64.
    + by rewrite ExtractUserKey_PutFixed64.
    + by apply Htag.
Qed.

Lemma internal_key_short_keys_witness :
  let start := Coding.PutFixed64 [x61; x62; x63] 0 in
  let limit := Coding.PutFixed64 [x61; x78] 0 in
  let cmp := InternalKeyComparator_Compare
               (cmp_Compare BytewiseComparatorImpl) in
  let r := InternalKeyComparator.FindShortestSeparator
             BytewiseComparatorImpl start limit in
  let k := InternalKeyComparator.FindShortSuccessor
             BytewiseComparatorImpl start in
  (r = start \/
   (cmp start r < 0 /\ cmp r limit < 0 /\
    size_of (ExtractUserKey r) < size_of (ExtractUserKey start) /\
    ExtractTag r = PackSequenceAndType kMaxSequenceNumber kValueTypeForSeek))
  /\
  (k = start \/
   (cmp start k < 0 /\
    size_of (ExtractUserKey k) < size_of (ExtractUserKey start) /\
    ExtractTag k = PackSequenceAndType kMaxSequenceNumber kValueTypeForSeek)).
Proof.
  apply (internal_key_short_keys BytewiseComparatorImpl
           (Coding.PutFixed64 [x61; x62; x63] 0)
           (Coding.PutFixed64 [x61; x78] 0)).
  exact Bytewise_separator_below.
Defined.

End ComparatorProps.
(** ** table/filter_block.cc: no false negatives *)

Section FilterBlockProps.
Import FilterBlock.

Lemma prefix_sizes_length (l : list (list byte)) :
  length (prefix_sizes l) = length l.
Proof. unfold prefix_sizes. by rewrite length_map, length_seq. Qed.

Lemma prefix_sizes_snoc (l : list (list byte)) (x : list byte) :
  prefix_sizes (l ++ [x]) = prefix_sizes l ++ [size_of (concat l)].
Proof.
  unfold prefix_sizes. rewrite length_app. cbn [length].
  rewrite seq_app, map_app. cbn [seq map Nat.add]. f_equal.
  - apply map_ext_in. intros i Hi. apply in_seq in Hi.
    by rewrite take_app_le by lia.
  - by rewrite take_app_length.
Qed.

(** The words of the offset array: entry [j] is where filter [j] starts,
    and the entry after the last is where the filters end. *)
Lemma prefix_sizes_all (l : list (list byte)) :
  prefix_sizes l ++ [size_of (concat l)]
  = map (fun j => size_of (concat (take j l))) (seq 0 (S (length l))).
Proof.
  replace (S (length l)) with (length l + 1)%nat by lia.
  rewrite seq_app, map_app. cbn [seq map Nat.add].
  by rewrite firstn_all.
Qed.

Lemma prefix_sizes_nth (l : list (list byte)) (j : nat) :
  (j <= length l)%nat ->
  nth j (prefix_sizes l ++ [size_of (concat l)]) 0
  = size_of (concat (take j l)).
Proof.
  intros Hj. rewrite prefix_sizes_all.
  rewrite (nth_indep _ 0 (size_of (concat (take 0 l))))
    by (rewrite length_map, length_seq; lia).
  rewrite (map_nth (fun j => size_of (concat (take j l)))).
  by rewrite seq_nth by lia.
Qed.

Lemma prefix_sizes_lookup (l : list (list byte)) (j : nat) :
  (j <= length l)%nat ->
  (map u32 (prefix_sizes l) ++ [u32 (size_of (concat l))]) !! j
  = Some (u32 (size_of (concat (take j l)))).
Proof.
  intros Hj.
  change (map u32 (prefix_sizes l) ++ [u32 (size_of (concat l))])
    with (map u32 (prefix_sizes l) ++ map u32 [size_of (concat l)]).
  rewrite <- map_app.
  rewrite <- (prefix_sizes_nth l j Hj).
  change (map u32 ?x) with (u32 <$> x). rewrite list_lookup_fmap.
  rewrite (nth_lookup _ j 0).
  destruct (lookup_lt_is_Some_2 (prefix_sizes l ++ [size_of (concat l)]) j)
    as [w Hw]; [rewrite length_app, prefix_sizes_length; cbn [length]; lia|].
  by rewrite Hw.
Qed.

Lemma concat_take_S (l : list (list byte)) (j : nat) (x : list byte) :
  l !! j = Some x -> concat (take (S j) l) = concat (take j l) ++ x.
Proof.
  intros Hx. rewrite (take_S_r _ _ _ Hx), concat_app. cbn [concat].
  by rewrite app_nil_r.
Qed.

Lemma concat_middle (l : list (list byte)) (j : nat) (x : list byte) :
  l !! j = Some x ->
  concat l = concat (take j l) ++ x ++ concat (drop (S j) l).
Proof.
  intros Hx. rewrite <- (take_drop_middle _ _ _ Hx) at 1.
  by rewrite concat_app.
Qed.

Lemma size_concat_take (l : list (list byte)) (j : nat) :
  size_of (concat (take j l)) <= size_of (concat l).
Proof.
  rewrite <- (take_drop j l) at 2. rewrite concat_app, size_of_app.
  pose proof (size_of_nonneg (concat (drop j l))). lia.
Qed.

Lemma map_seq_lookup {A : Type} (l : list A) (g : nat -> A) :
  (forall i x, l !! i = Some x -> g i = x) ->
  map g (seq 0 (length l)) = l.
Proof.
  induction l as [|x l IH] using rev_ind; intros Hg; [done|].
  rewrite length_app. cbn [length]. rewrite seq_app, map_app.
  cbn [seq map Nat.add]. f_equal.
  - apply IH. intros i y Hy. apply Hg. rewrite lookup_app_l; [done|].
    by apply lookup_lt_Some in Hy.
  - f_equal. apply Hg. rewrite lookup_app_r by lia.
    by rewrite Nat.sub_diag.
Qed.

(** [GenerateFilter] takes the keys apart as they were put together. *)
Lemma tmp_keys_pending (pend : list (list byte)) :
  Forall (fun key => size_of key < 2 ^ 64) pend ->
  let start := prefix_sizes pend ++ [size_of (concat pend)] in
  map (fun i =>
         Slice (advance (nth i start 0) (concat pend))
               (u64 (nth (S i) start 0 - nth i start 0)))
      (seq 0 (length pend)) = pend.
Proof.
  intros Hsz start. apply map_seq_lookup. intros i key Hkey. subst start.
  pose proof (lookup_lt_Some _ _ _ Hkey) as Hi.
  rewrite !prefix_sizes_nth by lia.
  rewrite (concat_take_S _ _ _ Hkey), size_of_app.
  replace (_ + size_of key - _) with (size_of key) by lia.
  pose proof (Forall_lookup_1 _ _ _ _ Hsz Hkey) as Hk64. cbn beta in Hk64.
  rewrite u64_small by (pose proof (size_of_nonneg key); lia).
  rewrite (concat_middle _ _ _ Hkey), advance_app_size.
  apply Slice_app_size.
Qed.

Lemma AddKey_inv (b : FilterBlockBuilder) (fs pend : list (list byte))
    (key : list byte) :
  filter_inv b fs pend -> filter_inv (AddKey b key) fs (pend ++ [key]).
Proof.
  intros [Hr Ho Hk Hs]. split; cbn [AddKey result_ filter_offsets_ keys_
    start_]; try done.
  - rewrite Hk, concat_app. cbn [concat]. by rewrite app_nil_r.
  - by rewrite Hs, Hk, prefix_sizes_snoc.
Qed.

Lemma AddKeys_inv (keys : list (list byte)) :
  forall (b : FilterBlockBuilder) (fs pend : list (list byte)),
  filter_inv b fs pend ->
  filter_inv (foldl AddKey b keys) fs (pend ++ keys) /\
  policy_ (foldl AddKey b keys) = policy_ b.
Proof.
  induction keys as [|key keys IH]; intros b fs pend Hinv.
  - by rewrite app_nil_r.
  - cbn [foldl].
    destruct (IH _ _ _ (AddKey_inv b fs pend key Hinv)) as (Hinv' & Hp).
    rewrite <- app_assoc in Hinv'. by split.
Qed.

Lemma static_cast_int_small (n : Z) :
  0 <= n < 2 ^ 31 -> static_cast_int n = n.
Proof.
  intros Hn. unfold static_cast_int. rewrite Z.mod_small; lia.
Qed.

Lemma GenerateFilter_spec (b : FilterBlockBuilder)
    (fs pend : list (list byte)) :
  filter_inv b fs pend -> policy_ok (policy_ b) ->
  Forall (fun key => size_of key < 2 ^ 64) pend ->
  Z.of_nat (length pend) < 2 ^ 31 ->
  exists f,
    filter_inv (GenerateFilter b) (fs ++ [f]) [] /\
    policy_ (GenerateFilter b) = policy_ b /\
    forall key, key ∈ pend -> KeyMayMatch (policy_ b) key f = true.
Proof.
  intros [Hr Ho Hk Hs] Hpol Hsz Hnum. unfold GenerateFilter.
  rewrite Hs, prefix_sizes_length.
  destruct pend as [|key0 pend0].
  - exists []. cbn [length Nat.eqb]. split; [|split; [done|]].
    + split; cbn [result_ filter_offsets_ keys_ start_]; try done.
      * rewrite Hr, concat_app. cbn [concat]. by rewrite !app_nil_r.
      * by rewrite Ho, Hr, prefix_sizes_snoc, map_app.
    + intros key Hkey. by apply elem_of_nil in Hkey.
  - set (pend := key0 :: pend0) in *.
    replace (length pend =? 0)%nat with false by done.
    rewrite Hk. rewrite (tmp_keys_pending pend Hsz).
    rewrite static_cast_int_small by lia.
    destruct (Hpol pend (result_ b) Hnum) as (f & Hf & Hmatch).
    exists f. split; [|split; [done|exact Hmatch]].
    split; cbn [result_ filter_offsets_ keys_ start_]; try done.
    + by rewrite Hf, Hr, concat_app, (app_nil_r f : concat [f] = f).
    + by rewrite Ho, Hr, prefix_sizes_snoc, map_app.
Qed.

Lemma StartBlock_loop_spec (rounds : nat) :
  forall (b : FilterBlockBuilder) (fs pend : list (list byte))
         (filter_index : Z),
  filter_inv b fs pend -> policy_ok (policy_ b) ->
  Forall (fun key => size_of key < 2 ^ 64) pend ->
  Z.of_nat (length pend) < 2 ^ 31 ->
  filter_index - Z.of_nat (length fs) <= Z.of_nat rounds ->
  exists fs' pend',
    filter_inv (StartBlock_loop rounds filter_index b) fs' pend' /\
    policy_ (StartBlock_loop rounds filter_index b) = policy_ b /\
    (filter_index <= Z.of_nat (length fs) -> fs' = fs /\ pend' = pend) /\
    (Z.of_nat (length fs) < filter_index ->
     pend' = [] /\ Z.of_nat (length fs') = filter_index /\
     exists f rest,
       fs' = fs ++ f :: rest /\
       forall key, key ∈ pend -> KeyMayMatch (policy_ b) key f = true).
Proof.
  induction rounds as [|rounds IH];
    intros b fs pend filter_index Hinv Hpol Hsz Hnum Hr.
  - exists fs, pend. cbn [StartBlock_loop].
    split; [done|]. split; [done|]. split; [done|]. intros Hlt.
    cbn in Hr. lia.
  - cbn [StartBlock_loop].
    pose proof (inv_offsets _ _ _ Hinv) as Ho.
    rewrite Ho, length_map, prefix_sizes_length.
    destruct (Z.ltb_spec (Z.of_nat (length fs)) filter_index) as [Hlt|Hge].
    + destruct (GenerateFilter_spec b fs pend Hinv Hpol Hsz Hnum)
        as (f & Hinv1 & Hp1 & Hmatch).
      destruct (IH (GenerateFilter b) (fs ++ [f]) [] filter_index Hinv1
                  ltac:(by rewrite Hp1) ltac:(constructor)
                  ltac:(cbn [length]; lia)
                  ltac:(rewrite length_app; cbn [length]; lia))
        as (fs' & pend' & Hinv' & Hp' & Hsame & Hmore).
      exists fs', pend'. split; [done|]. split; [congruence|].
      split; [lia|]. intros _.
      rewrite length_app in Hsame, Hmore. cbn [length] in Hsame, Hmore.
      destruct (Z_le_gt_dec filter_index (Z.of_nat (length fs + 1)))
        as [Hle|Hgt].
      * destruct (Hsame Hle) as (-> & ->).
        rewrite length_app. cbn [length].
        split; [done|]. split; [lia|]. by exists f, [].
      * destruct (Hmore ltac:(lia)) as (-> & Hlen & f2 & rest & -> & _).
        split; [done|]. split; [done|].
        exists f, (f2 :: rest). by rewrite <- app_assoc.
    + exists fs, pend.
      split; [done|]. split; [done|]. split; [done|]. intros Hlt. lia.
Qed.

Lemma kFilterBase_pos : 0 < kFilterBase.
Proof. reflexivity. Qed.

(** The calls for one data block keep what was taken care of and take care
    of the block's keys. *)
Lemma add_block_spec (b : FilterBlockBuilder) (fs pend : list (list byte))
    (o : Z) (keys : list (list byte)) :
  filter_inv b fs pend -> policy_ok (policy_ b) ->
  Forall (fun key => size_of key < 2 ^ 64) pend ->
  Z.of_nat (length pend) < 2 ^ 31 ->
  Forall (fun key => size_of key < 2 ^ 64) keys ->
  0 <= o -> Z.of_nat (length fs) <= o / kFilterBase ->
  exists fs' pend',
    filter_inv (add_block b (o, keys)) fs' pend' /\
    policy_ (add_block b (o, keys)) = policy_ b /\
    Forall (fun key => size_of key < 2 ^ 64) pend' /\
    Z.of_nat (length fs') = o / kFilterBase /\
    Z.of_nat (length pend')
    = keys_pending fs pend (o / kFilterBase) + Z.of_nat (length keys) /\
    (forall o0 key0, 0 <= o0 ->
       covered (policy_ b) fs pend o0 key0 ->
       covered (policy_ b) fs' pend' o0 key0) /\
    (forall key, key ∈ keys -> covered (policy_ b) fs' pend' o key).
Proof.
  intros Hinv Hpol Hsz Hnum Hkeys Ho Hidx. unfold add_block, StartBlock.
  cbn [fst snd].
  pose proof (Z.div_pos o kFilterBase Ho kFilterBase_pos) as Hq.
  destruct (StartBlock_loop_spec (Z.to_nat (o / kFilterBase)) b fs pend
              (o / kFilterBase) Hinv Hpol Hsz Hnum ltac:(lia))
    as (fs1 & pend1 & Hinv1 & Hp1 & Hsame & Hmore).
  destruct (AddKeys_inv keys _ _ _ Hinv1) as (Hinv2 & Hp2).
  exists fs1, (pend1 ++ keys). split; [done|]. split; [congruence|].
  destruct (Z_le_gt_dec (o / kFilterBase) (Z.of_nat (length fs)))
    as [Hle|Hgt].
  - destruct (Hsame Hle) as (-> & ->).
    split; [by apply Forall_app|]. split; [lia|]. split.
    { unfold keys_pending. rewrite decide_True by lia.
      rewrite length_app. lia. }
    split.
    + intros o0 key0 _ [Hc|(Hi & Hin)]; [by left|right].
      split; [done|]. apply elem_of_app. by left.
    + intros key Hkey. right. split; [lia|]. apply elem_of_app. by right.
  - destruct (Hmore ltac:(lia)) as (-> & Hlen & f & rest & -> & Hmatch).
    split; [done|]. split; [done|]. split.
    { unfold keys_pending. rewrite decide_False by lia. cbn [app]. lia. }
    split.
    + intros o0 key0 Ho0 [(f0 & Hf0 & Hm0)|(Hi & Hin)]; left.
      * exists f0. split; [|done]. rewrite lookup_app_l; [done|].
        by apply lookup_lt_Some in Hf0.
      * exists f. split; [|by apply Hmatch].
        rewrite Hi, Nat2Z.id, lookup_app_r by lia.
        by rewrite Nat.sub_diag.
    + intros key Hkey. right. by split.
Qed.

Lemma keys_of_filter_cons (o : Z) (keys : list (list byte))
    (blocks : list (Z * list (list byte))) (index : Z) :
  keys_of_filter ((o, keys) :: blocks) index
  = (if decide (o / kFilterBase = index) then Z.of_nat (length keys) else 0)
    + keys_of_filter blocks index.
Proof.
  unfold keys_of_filter. rewrite filter_cons. cbn [fst].
  destruct (decide (o / kFilterBase = index)); [|lia].
  cbn [map snd concat]. rewrite length_app. lia.
Qed.

Lemma keys_of_filter_nonneg (blocks : list (Z * list (list byte)))
    (index : Z) : 0 <= keys_of_filter blocks index.
Proof. unfold keys_of_filter. lia. Qed.

(** No filter is made for more keys than there are. *)
Lemma keys_of_filter_le (blocks : list (Z * list (list byte))) (index : Z) :
  keys_of_filter blocks index
  <= Z.of_nat (length (concat (map snd blocks))).
Proof.
  induction blocks as [|[o keys] blocks IH]; [done|].
  rewrite keys_of_filter_cons. cbn [map snd concat]. rewrite length_app.
  destruct (decide (o / kFilterBase = index)); lia.
Qed.

Lemma run_blocks_spec (blocks : list (Z * list (list byte))) :
  forall (b : FilterBlockBuilder) (fs pend : list (list byte)),
  filter_inv b fs pend -> policy_ok (policy_ b) ->
  Forall (fun key => size_of key < 2 ^ 64) pend ->
  (forall index,
     keys_of_filter blocks index + keys_pending fs pend index < 2 ^ 31) ->
  (forall i j bi bj, (i <= j)%nat ->
     blocks !! i = Some bi -> blocks !! j = Some bj -> bi.1 <= bj.1) ->
  Forall (fun block => 0 <= block.1 /\
                       Z.of_nat (length fs) <= block.1 / kFilterBase /\
                       Forall (fun key => size_of key < 2 ^ 64) block.2)
         blocks ->
  exists fs' pend',
    filter_inv (foldl add_block b blocks) fs' pend' /\
    policy_ (foldl add_block b blocks) = policy_ b /\
    Forall (fun key => size_of key < 2 ^ 64) pend' /\
    Z.of_nat (length pend') < 2 ^ 31 /\
    (forall o0 key0, 0 <= o0 ->
       covered (policy_ b) fs pend o0 key0 ->
       covered (policy_ b) fs' pend' o0 key0) /\
    (forall o keys key, (o, keys) ∈ blocks -> key ∈ keys ->
       covered (policy_ b) fs' pend' o key).
Proof.
  induction blocks as [|[o keys] blocks IH];
    intros b fs pend Hinv Hpol Hsz Hnum Hsorted Hall.
  - exists fs, pend. cbn [foldl].
    split; [done|]. split; [done|]. split; [done|]. split.
    { specialize (Hnum (Z.of_nat (length fs))). unfold keys_pending in Hnum.
      rewrite decide_True in Hnum by done.
      pose proof (keys_of_filter_nonneg [] (Z.of_nat (length fs))). lia. }
    split; [done|].
    intros o keys key Hin. by apply elem_of_nil in Hin.
  - cbn [foldl].
    assert (Hhead : forall block, block ∈ blocks -> o <= block.1).
    { intros block Hin. apply list_elem_of_lookup_1 in Hin as [j Hj].
      apply (Hsorted 0%nat (S j) (o, keys) block); [lia|done|done]. }
    assert (Htail : forall i j bi bj, (i <= j)%nat ->
              blocks !! i = Some bi -> blocks !! j = Some bj -> bi.1 <= bj.1).
    { intros i j bi bj Hij Hi Hj.
      apply (Hsorted (S i) (S j) bi bj); [lia|done|done]. }
    apply Forall_cons in Hall as ((Ho & Hidx & Hkeys) & Hall).
    cbn [fst snd] in Ho, Hidx, Hkeys.
    assert (Hpend : Z.of_nat (length pend) < 2 ^ 31).
    { specialize (Hnum (Z.of_nat (length fs))). unfold keys_pending in Hnum.
      rewrite decide_True in Hnum by done.
      pose proof (keys_of_filter_nonneg ((o, keys) :: blocks)
                    (Z.of_nat (length fs))). lia. }
    destruct (add_block_spec b fs pend o keys Hinv Hpol Hsz Hpend Hkeys Ho
                Hidx)
      as (fs1 & pend1 & Hinv1 & Hp1 & Hsz1 & Hlen1 & Hpend1 & Hold1 & Hnew1).
    destruct (IH (add_block b (o, keys)) fs1 pend1 Hinv1
                ltac:(by rewrite Hp1) Hsz1)
      as (fs' & pend' & Hinv' & Hp' & Hsz' & Hnum' & Hold' & Hnew').
    { intros index. specialize (Hnum index).
      rewrite keys_of_filter_cons in Hnum.
      pose proof (keys_of_filter_nonneg blocks index).
      unfold keys_pending at 1. rewrite Hlen1.
      destruct (decide (index = o / kFilterBase)) as [->|Hne].
      - rewrite Hpend1. rewrite decide_True in Hnum by done. lia.
      - rewrite decide_False in Hnum by done.
        unfold keys_pending in Hnum.
        destruct (decide (index = Z.of_nat (length fs))); lia. }
    { exact Htail. }
    { rewrite Forall_forall in Hall. apply Forall_forall.
      intros [o' keys'] Hin. destruct (Hall _ Hin) as (Ho' & _ & Hkeys').
      cbn [fst snd] in *. split; [done|]. split; [|done].
      rewrite Hlen1. apply Z.div_le_mono; [apply kFilterBase_pos|].
      apply (Hhead _ Hin). }
    rewrite Hp1 in Hold', Hnew'.
    exists fs', pend'. split; [done|]. split; [congruence|].
    split; [done|]. split; [done|]. split.
    + intros o0 key0 Ho0 Hc. by apply Hold', Hold1.
    + intros o' keys' key Hin Hkey.
      apply elem_of_cons in Hin as [[= -> ->]|Hin].
      * apply Hold'; [done|]. by apply Hnew1.
      * by apply (Hnew' o' keys').
Qed.

(** The block [Finish] returns: the filters, the offset array with the
    offset of the array after it, and the encoding parameter. *)
Lemma Finish_spec (b : FilterBlockBuilder) (fs pend : list (list byte)) :
  filter_inv b fs pend -> policy_ok (policy_ b) ->
  Forall (fun key => size_of key < 2 ^ 64) pend ->
  Z.of_nat (length pend) < 2 ^ 31 ->
  exists fs',
    (Finish b).2
    = concat fs'
      ++ concat (map Coding.EncodeFixed32
                   (map u32 (prefix_sizes fs')
                    ++ [u32 (size_of (concat fs'))]))
      ++ [Z_to_byte kFilterBaseLg] /\
    forall o key, 0 <= o ->
      covered (policy_ b) fs pend o key ->
      exists f, fs' !! Z.to_nat (o / kFilterBase) = Some f /\
                KeyMayMatch (policy_ b) key f = true.
Proof.
  intros Hinv Hpol Hsz Hnum.
  assert (Hshape : forall b' fs', filter_inv b' fs' [] ->
            (let result :=
               foldl (fun result o => Coding.PutFixed32 result o) (result_ b')
                 (filter_offsets_ b') in
             Coding.PutFixed32 result (u32 (size_of (result_ b')))
             ++ [Z_to_byte kFilterBaseLg])
            = concat fs'
              ++ concat (map Coding.EncodeFixed32
                           (map u32 (prefix_sizes fs')
                            ++ [u32 (size_of (concat fs'))]))
              ++ [Z_to_byte kFilterBaseLg]).
  { intros b' fs' [Hr Ho _ _]. cbn zeta.
    rewrite foldl_PutFixed32, Hr, Ho. unfold Coding.PutFixed32.
    rewrite map_app, concat_app. cbn [map concat].
    by rewrite app_nil_r, <- !app_assoc. }
  unfold Finish. pose proof (inv_start _ _ _ Hinv) as Hs.
  destruct pend as [|key0 pend0].
  - rewrite Hs. cbn [prefix_sizes length seq map].
    rewrite bool_decide_eq_true_2 by done. cbn [negb snd].
    exists fs. split; [by apply Hshape|].
    intros o key Ho [Hc|(_ & Hin)]; [done|]. by apply elem_of_nil in Hin.
  - rewrite bool_decide_eq_false_2.
    2:{ rewrite Hs. intros Hnil. apply (f_equal length) in Hnil.
        rewrite prefix_sizes_length in Hnil. done. }
    cbn [negb snd].
    destruct (GenerateFilter_spec b fs _ Hinv Hpol Hsz Hnum)
      as (f & Hinv1 & Hp1 & Hmatch).
    exists (fs ++ [f]). split; [by apply Hshape|].
    intros o key Ho [(f0 & Hf0 & Hm0)|(Hi & Hin)].
    + exists f0. split; [|done]. rewrite lookup_app_l; [done|].
      by apply lookup_lt_Some in Hf0.
    + exists f. split; [|by apply Hmatch].
      rewrite Hi, Nat2Z.id, lookup_app_r by lia. by rewrite Nat.sub_diag.
Qed.

(** A word of an array of fixed32 values, read where it lies. *)
Lemma DecodeFixed32_word (W : list Z) (pre post : list byte) (j : nat)
    (w : Z) :
  W !! j = Some w ->
  Coding.DecodeFixed32
    (advance (size_of pre + Z.of_nat j * 4)
       (pre ++ concat (map Coding.EncodeFixed32 W) ++ post)) = u32 w.
Proof.
  intros Hw. pose proof (size_of_nonneg pre) as Hpre.
  rewrite advance_app_ge by lia.
  replace (size_of pre + Z.of_nat j * 4 - size_of pre)
    with (Z.of_nat (4 * j)) by lia.
  unfold advance. rewrite Nat2Z.id.
  rewrite drop_app_le
    by (rewrite concat_EncodeFixed32_length;
        apply lookup_lt_Some in Hw; lia).
  rewrite drop_concat_EncodeFixed32, (drop_S _ _ _ Hw).
  cbn [map concat]. rewrite <- !app_assoc.
  apply DecodeFixed32_EncodeFixed32.
Qed.

(** The reader finds the filter of an index in a well-formed block. *)
Lemma reader_filter (policy : FilterPolicy) (fs : list (list byte))
    (o : Z) (key f : list byte) :
  let contents :=
    concat fs
    ++ concat (map Coding.EncodeFixed32
                 (map u32 (prefix_sizes fs) ++ [u32 (size_of (concat fs))]))
    ++ [Z_to_byte kFilterBaseLg] in
  size_of contents < 2 ^ 32 -> 0 <= o ->
  fs !! Z.to_nat (o / kFilterBase) = Some f ->
  FilterBlockReader_KeyMayMatch (FilterBlockReader_new policy contents) o key
  = KeyMayMatch policy key f.
Proof.
  intros contents Hsize Ho Hf.
  set (W := map u32 (prefix_sizes fs) ++ [u32 (size_of (concat fs))])
    in *.
  set (S0 := size_of (concat fs)).
  pose proof (size_of_nonneg (concat fs)) as HS0. fold S0 in HS0.
  pose proof (Z.div_pos o kFilterBase Ho kFilterBase_pos) as Hq.
  set (i := Z.to_nat (o / kFilterBase)) in *.
  pose proof (lookup_lt_Some _ _ _ Hf) as Hi.
  assert (HW : length W = S (length fs)).
  { subst W. rewrite length_app, length_map, prefix_sizes_length.
    cbn [length]. lia. }
  assert (Hn : size_of contents = S0 + 4 * Z.of_nat (length fs) + 5).
  { subst contents. rewrite !size_of_app. unfold size_of at 2 3.
    rewrite concat_EncodeFixed32_length, HW. cbn [length]. fold S0. lia. }
  assert (Hsmall : forall j, 0 <= size_of (concat (take j fs)) < 2 ^ 32).
  { intros j. pose proof (size_of_nonneg (concat (take j fs))).
    pose proof (size_concat_take fs j). fold S0 in H0. lia. }
  assert (Hword : forall j, (j <= length fs)%nat ->
            Coding.DecodeFixed32
              (advance (S0 + Z.of_nat j * 4) contents)
            = size_of (concat (take j fs))).
  { intros j Hj. subst contents S0.
    rewrite (DecodeFixed32_word W (concat fs) _ j
               (u32 (size_of (concat (take j fs))))).
    - rewrite !u32_small; [done|apply Hsmall|].
      rewrite u32_small by apply Hsmall. apply Hsmall.
    - subst W. by apply prefix_sizes_lookup. }
  unfold FilterBlockReader_new.
  destruct (Z.ltb_spec (size_of contents) 5); [lia|].
  assert (Hlast : Coding.DecodeFixed32 (advance (size_of contents - 5) contents)
                  = S0).
  { replace (size_of contents - 5) with (S0 + Z.of_nat (length fs) * 4)
      by lia.
    rewrite Hword by lia. by rewrite firstn_all. }
  rewrite Hlast.
  destruct (Z.ltb_spec (size_of contents - 5) S0); [lia|].
  assert (Hbase : nth (Z.to_nat (size_of contents - 1)) contents x00
                  = Z_to_byte kFilterBaseLg).
  { subst contents. rewrite !app_assoc.
    rewrite app_nth2; rewrite <- !app_assoc.
    - replace (_ - _)%nat with 0%nat; [done|].
      unfold size_of. rewrite !length_app. cbn [length]. lia.
    - unfold size_of. rewrite !length_app. cbn [length]. lia. }
  rewrite Hbase.
  change (char_to_size_t (Z_to_byte kFilterBaseLg)) with 11.
  unfold FilterBlockReader_KeyMayMatch.
  cbn [base_lg_ num_ offset_ data_ reader_policy_].
  rewrite Z.shiftr_div_pow2 by lia.
  change (2 ^ 11) with kFilterBase.
  replace ((size_of contents - 5 - S0) / 4) with (Z.of_nat (length fs))
    by (rewrite Hn;
        replace (S0 + 4 * Z.of_nat (length fs) + 5 - 5 - S0)
          with (Z.of_nat (length fs) * 4) by lia;
        by rewrite Z.div_mul).
  destruct (Z.ltb_spec (o / kFilterBase) (Z.of_nat (length fs))); [|lia].
  replace (o / kFilterBase) with (Z.of_nat i) by lia.
  replace (S0 + Z.of_nat i * 4 + 4) with (S0 + Z.of_nat (S i) * 4) by lia.
  rewrite !Hword by lia.
  rewrite (concat_take_S _ _ _ Hf), size_of_app.
  pose proof (size_of_nonneg f) as Hf0.
  pose proof (size_concat_take fs (S i)) as Hle.
  rewrite (concat_take_S _ _ _ Hf), size_of_app in Hle. fold S0 in Hle.
  destruct (Z.leb_spec (size_of (concat (take i fs)))
              (size_of (concat (take i fs)) + size_of f)); [|lia].
  destruct (Z.leb_spec (size_of (concat (take i fs)) + size_of f) S0);
    [|lia].
  cbn [andb]. f_equal.
  replace (_ + size_of f - _) with (size_of f) by lia.
  subst contents. rewrite (concat_middle _ _ _ Hf), <- !app_assoc.
  rewrite advance_app_size. apply Slice_app_size.
Qed.

Lemma filter_inv_new (policy : FilterPolicy) :
  filter_inv (FilterBlockBuilder_new policy) [] [].
Proof. by split. Qed.

(** X20 (the filter block has no false negatives).  Let a filter block be
    built as a table builder does it, with [StartBlock(offset)] at the
    beginning of every data block, offsets not decreasing, [AddKey] for
    each key of the block and [Finish] at the end, for a policy whose
    [CreateFilter] appends a filter that matches the keys it was made for.
    Let fewer than 2^31 keys fall to each filter, that is, to the data
    blocks of one filter index: [GenerateFilter] passes their number as an
    [int].  If the block has fewer than 2^32 bytes, then the reader made
    from it answers [KeyMayMatch(offset, key)] with true for every key of
    every data block at the block's offset. *)
Theorem filter_block_no_false_negatives (policy : FilterPolicy)
    (blocks : list (Z * list (list byte))) :
  policy_ok policy ->
  (forall i j bi bj, (i <= j)%nat ->
     blocks !! i = Some bi -> blocks !! j = Some bj -> bi.1 <= bj.1) ->
  Forall (fun block => 0 <= block.1 < 2 ^ 64 /\
                       Forall (fun key => size_of key < 2 ^ 64) block.2)
         blocks ->
  (forall index, keys_of_filter blocks index < 2 ^ 31) ->
  size_of (build policy blocks) < 2 ^ 32 ->
  forall (block_offset : Z) (keys : list (list byte)) (key : list byte),
  (block_offset, keys) ∈ blocks -> key ∈ keys ->
  FilterBlockReader_KeyMayMatch
    (FilterBlockReader_new policy (build policy blocks)) block_offset key
  = true.
Proof.
  intros Hpol Hsorted Hall Hnum Hsize o keys key Hin Hkey.
  assert (Ho : 0 <= o).
  { rewrite Forall_forall in Hall. by destruct (Hall _ Hin) as ((? & _) & _). }
  destruct (run_blocks_spec blocks (FilterBlockBuilder_new policy) [] []
              (filter_inv_new policy) Hpol ltac:(constructor))
    as (fs1 & pend1 & Hinv1 & Hp1 & Hsz1 & Hnum1 & _ & Hcov).
  { intros index. specialize (Hnum index). unfold keys_pending.
    cbn [length]. destruct (decide (index = Z.of_nat 0)); lia. }
  { exact Hsorted. }
  { eapply Forall_impl; [exact Hall|].
    intros [o' keys'] ((Ho' & _) & Hk'). cbn [fst snd length] in *.
    split; [done|]. split; [|done].
    apply (Z.div_pos o' kFilterBase Ho' kFilterBase_pos). }
  cbn [FilterBlockBuilder_new policy_] in Hp1, Hcov.
  destruct (Finish_spec _ fs1 pend1 Hinv1 ltac:(by rewrite Hp1) Hsz1 Hnum1)
    as (fs & Hblock & Hfound).
  rewrite Hp1 in Hfound.
  destruct (Hfound o key Ho (Hcov o keys key Hin Hkey)) as (f & Hf & Hmatch).
  unfold build in *. rewrite Hblock in *.
  by rewrite (reader_filter policy fs o key f Hsize Ho Hf).
Qed.

Lemma FirstBytePolicy_ok : policy_ok FirstBytePolicy.
Proof.
  intros keys dst _. exists (map first_byte keys). split.
  { cbn [FirstBytePolicy CreateFilter]. by rewrite Nat2Z.id, firstn_all. }
  intros key Hkey. cbn [FirstBytePolicy KeyMayMatch].
  apply bool_decide_eq_true_2.
  change (map first_byte keys) with (first_byte <$> keys).
  by apply list_elem_of_fmap_2.
Qed.

Lemma filter_block_no_false_negatives_witness :
  policy_ok FirstBytePolicy /\
  FilterBlockReader_KeyMayMatch
    (FilterBlockReader_new FirstBytePolicy
       (build FirstBytePolicy
          [(0, [[x61]; [x62; x63]]); (5000, [[x64]])]))
    5000 [x64]
  = true.
Proof.
  split; [exact FirstBytePolicy_ok|].
  apply (filter_block_no_false_negatives FirstBytePolicy
           [(0, [[x61]; [x62; x63]]); (5000, [[x64]])]
           FirstBytePolicy_ok)
    with (keys := [[x64]]).
  - intros i j bi bj Hij Hi Hj.
    destruct i as [|[|i]], j as [|[|j]]; cbn in Hi, Hj; try lia;
      try discriminate; injection Hi as <-; injection Hj as <-; cbn; lia.
  - repeat constructor; cbn; lia.
  - intros index. eapply Z.le_lt_trans; [apply keys_of_filter_le|].
    by vm_compute.
  - vm_compute. reflexivity.
  - apply list_elem_of_further, list_elem_of_here.
  - apply list_elem_of_here.
Defined.

End FilterBlockProps.
(** ** db/skiplist.h: the representation invariant *)

Section SkipListProps.
Import SkipList SkipListState.
Context {Key : Type}.
Implicit Types (l : SkipList Key) (k : Key) (order c : list nat).

(** *** Links *)

Lemma Node_SetNext_spec l (n lev : nat) (v : option nat) l' :
  Node_SetNext l n lev v = Some l' ->
  compare_ l' = compare_ l /\ max_height_ l' = max_height_ l /\
  rnd_ l' = rnd_ l /\ length (nodes l') = length (nodes l) /\
  (forall a, key <$> nodes l' !! a = key <$> nodes l !! a) /\
  (forall a, height l' a = height l a) /\
  (forall a j, Node_Next l' a j
               = if decide (a = n /\ j = lev) then Some v
                 else Node_Next l a j).
Proof.
  unfold Node_SetNext. destruct (nodes l !! n) as [nd|] eqn:Hn; [|done].
  cbn [mbind option_bind]. case_decide as Hlev; [|done].
  intros [= <-]. cbn [compare_ max_height_ rnd_ nodes].
  pose proof (lookup_lt_Some _ _ _ Hn) as Hlt.
  split; [done|]. split; [done|]. split; [done|].
  split; [by rewrite length_insert|].
  assert (Hlook : forall a,
            <[n := {| key := key nd; next_ := <[lev := v]> (next_ nd) |}]>
              (nodes l) !! a
            = if decide (a = n)
              then Some {| key := key nd; next_ := <[lev := v]> (next_ nd) |}
              else nodes l !! a).
  { intros a. case_decide as Ha.
    - subst a. by apply list_lookup_insert_eq.
    - by apply list_lookup_insert_ne. }
  split; [|split].
  - intros a. rewrite Hlook. case_decide; [subst a; by rewrite Hn|done].
  - intros a. unfold height. cbn [nodes]. rewrite Hlook.
    case_decide; [subst a; rewrite Hn; cbn; by rewrite length_insert|done].
  - intros a j. unfold Node_Next. cbn [nodes]. rewrite Hlook.
    destruct (decide (a = n)) as [->|Ha].
    + rewrite Hn. cbn [mbind option_bind next_].
      destruct (decide (j = lev)) as [->|Hj].
      * rewrite decide_True by done. by apply list_lookup_insert_eq.
      * rewrite decide_False by tauto. by apply list_lookup_insert_ne.
    + by rewrite decide_False by tauto.
Qed.

Lemma Node_SetNext_Some l (n lev : nat) (v : option nat) :
  (lev < height l n)%nat -> exists l', Node_SetNext l n lev v = Some l'.
Proof.
  unfold height, Node_SetNext. destruct (nodes l !! n) as [nd|]; [|lia].
  intros Hlev. cbn [mbind option_bind]. rewrite decide_True by done. eauto.
Qed.

Lemma linked_head l (i x : nat) c :
  linked l i x c -> Node_Next l x i = Some (head c).
Proof. destruct c; cbn; tauto. Qed.

Lemma linked_mid l (i x y : nat) (A B : list nat) :
  linked l i x (A ++ y :: B) -> linked l i y B.
Proof.
  revert x. induction A as [|a A IH]; intros x; cbn [app linked].
  - tauto.
  - intros (_ & H). by apply (IH a).
Qed.

(** The links that leave the last of the nodes [A], or [x] if there are
    none. *)
Lemma linked_split l (i x : nat) (A B : list nat) :
  linked l i x (A ++ B) -> linked l i (default x (last A)) B.
Proof.
  destruct (last A) as [y|] eqn:Hlast.
  - apply last_Some in Hlast as [A' ->]. rewrite <- app_assoc. cbn [app].
    apply linked_mid.
  - apply last_None in Hlast as ->. done.
Qed.

Lemma linked_ext l l' (i x : nat) c :
  (forall a, a ∈ x :: c -> Node_Next l' a i = Node_Next l a i) ->
  linked l i x c -> linked l' i x c.
Proof.
  revert x. induction c as [|y c IH]; intros x Hsame; cbn [linked].
  - intros H. rewrite Hsame; [done|]. apply list_elem_of_here.
  - intros (H & Hrest). split.
    + rewrite Hsame; [done|]. apply list_elem_of_here.
    + apply IH; [|done]. intros a Ha. apply Hsame.
      by apply list_elem_of_further.
Qed.

(** Linking a new node [y] in after the last of the nodes [A]. *)
Lemma linked_insert l l' (i x y : nat) (A B : list nat) :
  linked l i x (A ++ B) ->
  NoDup (x :: A ++ B) -> y ∉ x :: A ++ B ->
  Node_Next l' (default x (last A)) i = Some (Some y) ->
  Node_Next l' y i = Node_Next l (default x (last A)) i ->
  (forall a, a <> default x (last A) -> a <> y ->
             Node_Next l' a i = Node_Next l a i) ->
  linked l' i x (A ++ y :: B).
Proof.
  revert x. induction A as [|a A IH]; intros x Hl Hnd Hy Hp Hynext Hsame.
  - cbn [app last default] in *. cbn [linked]. split; [done|].
    apply NoDup_cons in Hnd as (HxB & HndB).
    destruct B as [|b B]; cbn [linked] in *.
    + by rewrite Hynext.
    + destruct Hl as (Hxb & Hrest). split; [by rewrite Hynext|].
      apply (linked_ext l); [|done]. intros a' Ha'. apply Hsame.
      * intros ->. done.
      * intros ->. apply Hy. by apply list_elem_of_further.
  - cbn [app linked] in Hl. destruct Hl as (Hxa & Hrest).
    apply NoDup_cons in Hnd as (Hx & Hnd).
    assert (Hlast : default x (last (a :: A)) = default a (last A)).
    { rewrite last_cons. by destruct (last A). }
    rewrite Hlast in *.
    assert (Hin : default a (last A) ∈ a :: A ++ B).
    { destruct (last A) as [z|] eqn:Hz; cbn [default].
      - apply last_Some_elem_of in Hz. apply list_elem_of_further.
        apply elem_of_app. by left.
      - apply list_elem_of_here. }
    cbn [app linked]. split.
    + rewrite Hsame; [done| |].
      * intros ->. done.
      * intros ->. apply Hy. apply list_elem_of_here.
    + apply IH; try done.
      intros Hy'. apply Hy. by apply list_elem_of_further.
Qed.


(** *** The nodes in order *)

Lemma order_valid l order (a : nat) :
  skiplist_inv l order -> a ∈ order ->
  (1 <= a < length (nodes l))%nat /\ is_Some (nodes l !! a).
Proof.
  intros Hinv Ha. rewrite (inv_order _ _ Hinv) in Ha.
  apply elem_of_seq in Ha.
  split; [lia|]. apply lookup_lt_is_Some_2. lia.
Qed.

Lemma order_NoDup l order :
  skiplist_inv l order -> NoDup (head_ :: order).
Proof.
  intros Hinv. apply NoDup_cons. split.
  - intros H0. apply (order_valid _ _ _ Hinv) in H0. unfold head_ in H0. lia.
  - rewrite (inv_order _ _ Hinv). apply NoDup_seq.
Qed.

Lemma filter_none {A : Type} (P : A -> Prop) `{!forall x, Decision (P x)}
    (xs : list A) :
  (forall x, x ∈ xs -> ~ P x) ->
  filter P xs = [] /\ filter (fun x => ~ P x) xs = xs.
Proof.
  induction xs as [|x xs IH]; intros Hno; [done|].
  destruct IH as (IH1 & IH2).
  { intros y Hy. apply Hno. by apply list_elem_of_further. }
  pose proof (Hno x (list_elem_of_here _ _)) as Hx.
  rewrite !filter_cons, IH1, IH2.
  rewrite decide_False by done. by rewrite decide_True by done.
Qed.

Lemma filter_all {A : Type} (P : A -> Prop) `{!forall x, Decision (P x)}
    (xs : list A) :
  (forall x, x ∈ xs -> P x) -> filter P xs = xs.
Proof.
  induction xs as [|x xs IH]; intros Hall; [done|].
  rewrite filter_cons, decide_True by (apply Hall, list_elem_of_here).
  f_equal. apply IH. intros y Hy. apply Hall. by apply list_elem_of_further.
Qed.

(** Where a filtered list begins. *)
Lemma filter_head_split {A : Type} (P : A -> Prop)
    `{!forall x, Decision (P x)} (xs : list A) (y : A) (rest : list A) :
  filter P xs = y :: rest ->
  exists C D, xs = C ++ y :: D /\ filter P C = [] /\ P y /\
              filter P D = rest.
Proof.
  induction xs as [|x xs IH]; [done|].
  rewrite filter_cons. case_decide as Hx.
  - intros [= -> <-]. by exists [], xs.
  - intros Hf. destruct (IH Hf) as (C & D & -> & HC & Hy & HD).
    exists (x :: C), D. rewrite filter_cons, decide_False by done. done.
Qed.

Lemma is_before_spec l k (a : nat) :
  is_before l k a <->
  exists nd, nodes l !! a = Some nd /\ compare_ l (key nd) k < 0.
Proof.
  unfold is_before. destruct (nodes l !! a) as [nd|].
  - rewrite Is_true_true, Z.ltb_lt. split; [eauto|].
    by intros (nd' & [= <-] & H).
  - split; [done|]. by intros (? & ? & ?).
Qed.

(** By the order of the keys, the nodes before [k] come first. *)
Lemma sorted_split l k order :
  comparator_ok (compare_ l) ->
  StronglySorted (node_lt l) order ->
  order = before l k order ++ after l k order.
Proof.
  intros Hcmp. unfold before, after.
  induction order as [|a rest IH]; intros Hs; [done|].
  apply StronglySorted_cons in Hs as (Hall & Hs).
  rewrite !filter_cons.
  destruct (decide (is_before l k a)) as [Ha|Ha].
  - rewrite decide_False by tauto. cbn [app]. f_equal. by apply IH.
  - rewrite decide_True by done.
    destruct (filter_none (fun b => is_before l k b) rest) as (-> & ->);
      [|done].
    intros b Hb Hbk. apply Ha. rewrite Forall_forall in Hall.
    destruct (Hall b Hb) as (na & nb & Hna & Hnb & Hlt).
    apply is_before_spec in Hbk as (nb' & Hnb' & Hbk).
    rewrite Hnb in Hnb'. injection Hnb' as <-.
    apply is_before_spec. exists na. split; [done|].
    apply (cmp_trans _ Hcmp _ (key nb)); [done|lia].
Qed.

Lemma level_app l (A B : list nat) (i : nat) :
  level l (A ++ B) i = level l A i ++ level l B i.
Proof. apply filter_app. Qed.

Lemma level_snoc l (A : list nat) (x i : nat) :
  (i < height l x)%nat -> level l (A ++ [x]) i = level l A i ++ [x].
Proof.
  intros Hx. rewrite level_app. f_equal. unfold level.
  by rewrite filter_cons, decide_True.
Qed.

(** The last node of a level among nodes that end with one of the
    level. *)
Lemma level_last l (B1 : list nat) (lev : nat) :
  B1 = [] \/ (lev < height l (default head_ (last B1)))%nat ->
  default head_ (last (level l B1 lev)) = default head_ (last B1).
Proof.
  destruct (last B1) as [x|] eqn:Hlast; cbn [default].
  - apply last_Some in Hlast as [B1' ->].
    intros [Hnil|Hx]; [by destruct B1'|].
    by rewrite level_snoc, last_snoc.
  - apply last_None in Hlast as ->. done.
Qed.

(** The link that leaves a node of a level leads to the next node of the
    level. *)
Lemma next_in_chain l order (B1 R : list nat) (lev : nat) :
  skiplist_inv l order -> order = B1 ++ R ->
  B1 = [] \/ (lev < height l (default head_ (last B1)))%nat ->
  (lev < kMaxHeight)%nat ->
  Node_Next l (default head_ (last B1)) lev = Some (head (level l R lev)).
Proof.
  intros Hinv -> Hx Hlev.
  pose proof (inv_linked _ _ Hinv lev Hlev) as Hl.
  rewrite level_app in Hl. apply linked_split in Hl.
  rewrite (level_last _ _ _ Hx) in Hl. by apply linked_head.
Qed.

Lemma KeyIsAfterNode_node l k (a : nat) :
  is_Some (nodes l !! a) ->
  KeyIsAfterNode l k (Some a) = Some (is_before l k a).
Proof.
  intros [nd Hnd]. unfold KeyIsAfterNode, is_before. by rewrite Hnd.
Qed.

Lemma fill_prev_S l k order (lev : nat) (prev : option (list (option nat))) :
  fill_prev l k order lev
    <$> ((fun p => <[S lev := Some (prev_at l k order (S lev))]> p) <$> prev)
  = fill_prev l k order (S lev) <$> prev.
Proof. by destruct prev. Qed.

(** *** FindGreaterOrEqual *)

Lemma FindGreaterOrEqual_loop_spec l k order (steps : nat) :
  skiplist_inv l order -> comparator_ok (compare_ l) ->
  forall (B1 B2 : list nat) (lev : nat) (prev : option (list (option nat))),
  before l k order = B1 ++ B2 ->
  B1 = [] \/ (lev < height l (default head_ (last B1)))%nat ->
  (lev < kMaxHeight)%nat ->
  (length B2 + lev < steps)%nat ->
  FindGreaterOrEqual_loop steps l k (default head_ (last B1)) lev prev
  = Some (head (after l k order), fill_prev l k order lev <$> prev).
Proof.
  intros Hinv Hcmp.
  pose proof (sorted_split l k order Hcmp (inv_sorted _ _ Hinv)) as Hsplit.
  induction steps as [|steps IH]; intros B1 B2 lev prev HB Hx Hlev Hsteps;
    [lia|].
  cbn [FindGreaterOrEqual_loop].
  assert (Horder : order = B1 ++ (B2 ++ after l k order))
    by (rewrite app_assoc, <- HB; exact Hsplit).
  rewrite (next_in_chain l order B1 _ lev Hinv Horder Hx Hlev).
  cbn [mbind option_bind]. rewrite level_app.
  destruct (level l B2 lev) as [|y rest] eqn:HB2.
  - (* no node of this level before [k] is left: go down *)
    cbn [app].
    assert (Hafter : KeyIsAfterNode l k (head (level l (after l k order) lev))
                     = Some false).
    { destruct (head (level l (after l k order) lev)) as [z|] eqn:Hz;
        [|done].
      apply head_Some_elem_of in Hz. apply list_elem_of_filter in Hz as (_ & Hz).
      pose proof Hz as Hz'. apply list_elem_of_filter in Hz' as (Hnb & Hzo).
      rewrite KeyIsAfterNode_node by (by apply (order_valid l order)).
      f_equal. by apply Is_true_false. }
    rewrite Hafter. cbn [mbind option_bind].
    assert (Hprev : default head_ (last B1) = prev_at l k order lev).
    { unfold prev_at. rewrite HB, level_app, HB2, app_nil_r.
      symmetry. by apply level_last. }
    destruct lev as [|lev].
    + cbn [fill_prev]. rewrite Hprev. do 2 f_equal.
      unfold level. rewrite filter_all; [done|].
      intros a Ha. apply list_elem_of_filter in Ha as (_ & Ha).
      pose proof (inv_height _ _ Hinv a Ha). lia.
    + rewrite IH with (B2 := B2); try done; try lia.
      * by rewrite Hprev, fill_prev_S.
      * destruct Hx as [Hx|Hx]; [by left|right; lia].
  - (* the next node of this level is before [k]: go right *)
    cbn [app head].
    apply filter_head_split in HB2 as (C & D & -> & HC & Hy & HD).
    assert (Hyb : y ∈ before l k order).
    { rewrite HB. apply elem_of_app. right. apply elem_of_app. right.
      apply list_elem_of_here. }
    apply list_elem_of_filter in Hyb as (Hyk & Hyo).
    rewrite KeyIsAfterNode_node by (by apply (order_valid l order)).
    apply Is_true_true in Hyk. rewrite Hyk. cbn [mbind option_bind].
    replace y with (default head_ (last (B1 ++ C ++ [y]))) at 1
      by (by rewrite !app_assoc, last_snoc).
    apply (IH (B1 ++ C ++ [y]) D).
    + by rewrite HB, <- !app_assoc.
    + right. by rewrite !app_assoc, last_snoc.
    + done.
    + rewrite length_app in Hsteps. cbn [length] in Hsteps. lia.
Qed.

Lemma FindGreaterOrEqual_spec l k order
    (prev : option (list (option nat))) :
  skiplist_inv l order -> comparator_ok (compare_ l) ->
  FindGreaterOrEqual l k prev
  = Some (head (after l k order),
          fill_prev l k order (max_height_ l - 1) <$> prev).
Proof.
  intros Hinv Hcmp. unfold FindGreaterOrEqual, GetMaxHeight.
  pose proof (inv_max_height _ _ Hinv) as Hmax.
  change head_ with (default head_ (last ([] : list nat))) at 1.
  apply (FindGreaterOrEqual_loop_spec l k order _ Hinv Hcmp []
           (before l k order)); [done|by left|lia|].
  assert (length (before l k order) <= length order)%nat
    by apply length_filter.
  pose proof (Permutation_length (inv_order _ _ Hinv)) as Hlen.
  rewrite length_seq in Hlen. lia.
Qed.


(** *** Insert *)

Lemma fill_prev_length l k order (lev : nat) :
  forall prev, length (fill_prev l k order lev prev) = length prev.
Proof.
  induction lev as [|lev IH]; intros prev; cbn [fill_prev].
  - by rewrite length_insert.
  - by rewrite IH, length_insert.
Qed.

Lemma fill_prev_lookup l k order (lev : nat) :
  forall (prev : list (option nat)) (j : nat),
  (j < length prev)%nat ->
  fill_prev l k order lev prev !! j
  = if decide (j <= lev)%nat then Some (Some (prev_at l k order j))
    else prev !! j.
Proof.
  induction lev as [|lev IH]; intros prev j Hj; cbn [fill_prev].
  - destruct (decide (j <= 0)%nat) as [Hj0|Hj0].
    + assert (j = 0%nat) as -> by lia. by apply list_lookup_insert_eq.
    + apply list_lookup_insert_ne. lia.
  - rewrite IH by (by rewrite length_insert).
    destruct (decide (j <= lev)%nat) as [Hle|Hgt].
    + by rewrite decide_True by lia.
    + destruct (decide (j = S lev)) as [->|Hne].
      * rewrite decide_True by lia. by apply list_lookup_insert_eq.
      * rewrite decide_False by lia. apply list_lookup_insert_ne. lia.
Qed.

(** The levels above the old height get [head_] as predecessor. *)
Lemma raise_prev_lookup (n : nat) :
  forall (mh : nat) (prev : list (option nat)) (j : nat),
  (j < length prev)%nat ->
  foldl (fun p i => <[i := Some head_]> p) prev (seq mh n) !! j
  = if decide (mh <= j < mh + n)%nat then Some (Some head_) else prev !! j.
Proof.
  induction n as [|n IH]; intros mh prev j Hj; cbn [seq foldl].
  - by rewrite decide_False by lia.
  - rewrite IH by (by rewrite length_insert).
    destruct (decide (S mh <= j < S mh + n)%nat) as [Hin|Hout].
    + by rewrite decide_True by lia.
    + destruct (decide (j = mh)) as [->|Hne].
      * rewrite decide_True by lia. by apply list_lookup_insert_eq.
      * rewrite decide_False by lia. apply list_lookup_insert_ne. lia.
Qed.

Lemma level_ext l l' c (i : nat) :
  (forall a, a ∈ c -> height l' a = height l a) ->
  level l' c i = level l c i.
Proof.
  induction c as [|a c IH]; intros Hsame; [done|].
  unfold level in *. rewrite !filter_cons.
  rewrite (Hsame a) by apply list_elem_of_here.
  rewrite IH; [done|]. intros b Hb. apply Hsame.
  by apply list_elem_of_further.
Qed.

Lemma StronglySorted_impl {A : Type} (R R' : A -> A -> Prop) (xs : list A) :
  (forall a b, R a b -> R' a b) ->
  StronglySorted R xs -> StronglySorted R' xs.
Proof.
  intros Himpl. induction xs as [|x xs IH]; intros Hs; [constructor|].
  apply StronglySorted_cons in Hs as (Hall & Hs).
  apply StronglySorted_cons. split; [|by apply IH].
  eapply Forall_impl; [exact Hall|]. intros b. apply Himpl.
Qed.

(** The predecessor of a level above all nodes is [head_]. *)
Lemma prev_at_high l k order (j : nat) :
  skiplist_inv l order -> (max_height_ l <= j)%nat ->
  prev_at l k order j = head_.
Proof.
  intros Hinv Hj. unfold prev_at, level.
  destruct (filter_none (fun a => (j < height l a)%nat) (before l k order))
    as (-> & _); [|done].
  intros a Ha. apply list_elem_of_filter in Ha as (_ & Ha).
  pose proof (inv_height _ _ Hinv a Ha). lia.
Qed.

Lemma prev_at_node l k order (j : nat) :
  skiplist_inv l order -> (j < kMaxHeight)%nat ->
  (j < height l (prev_at l k order j))%nat /\
  (prev_at l k order j < length (nodes l))%nat.
Proof.
  intros Hinv Hj. unfold prev_at.
  destruct (last _) as [p|] eqn:Hlast; cbn [default].
  - apply last_Some_elem_of in Hlast.
    apply list_elem_of_filter in Hlast as (Hp & Hpb).
    apply list_elem_of_filter in Hpb as (_ & Hpo).
    split; [done|]. apply (order_valid l order p Hinv Hpo).
  - rewrite (inv_head _ _ Hinv). split; [done|].
    pose proof (inv_head _ _ Hinv) as Hh. unfold height in Hh.
    destruct (nodes l !! head_) eqn:Hn; [|done].
    by apply lookup_lt_Some in Hn.
Qed.

Section Linking.

Variables (l : SkipList Key) (k : Key) (order : list nat).
Variables (l3 : SkipList Key) (h : nat) (prevF : list (option nat)).
Hypothesis Hinv : skiplist_inv l order.
Hypothesis Hcmp : comparator_ok (compare_ l).
Hypothesis Hh : (1 <= h <= kMaxHeight)%nat.
Hypothesis Hnodes :
  nodes l3 = nodes l ++ [ {| key := k; next_ := replicate h None |} ].
Hypothesis HprevF :
  forall j, (j < h)%nat -> prevF !! j = Some (Some (prev_at l k order j)).

Local Notation x := (length (nodes l)).

Lemma new_node_old (a : nat) :
  (a < length (nodes l))%nat ->
  nodes l3 !! a = nodes l !! a /\ height l3 a = height l a /\
  forall j, Node_Next l3 a j = Node_Next l a j.
Proof.
  intros Ha.
  assert (Hl : nodes l3 !! a = nodes l !! a)
    by (rewrite Hnodes; by apply lookup_app_l).
  split; [done|]. unfold height, Node_Next. rewrite Hl. done.
Qed.

Lemma new_node_height : height l3 x = h.
Proof.
  unfold height. rewrite Hnodes, list_lookup_middle by done.
  cbn [next_]. apply length_replicate.
Qed.

Lemma x_fresh : x ∉ head_ :: order.
Proof.
  intros Hx. apply elem_of_cons in Hx as [Hx|Hx].
  - pose proof (order_valid l order) as Hv.
    pose proof (inv_head _ _ Hinv) as Hhd. unfold height in Hhd.
    destruct (nodes l !! head_) eqn:Hn; [|done].
    apply lookup_lt_Some in Hn. unfold head_ in *. lia.
  - apply (order_valid l order x Hinv) in Hx. lia.
Qed.

(** The chain of level [j] once the new node is linked in. *)
Local Notation new_chain_of j :=
  (level l (before l k order) j ++ x :: level l (after l k order) j).

(** The loop of [Insert] that links the new node in, level by level. *)
Lemma Insert_links_loop (n : nat) :
  (n <= h)%nat ->
  exists l',
    foldl (fun (acc : option (SkipList Key)) (i : nat) =>
             l ← acc;
             p ← prevF !! i;
             p ← p;
             nx ← Node_Next l p i;
             l ← Node_SetNext l x i nx;
             Node_SetNext l p i (Some x))
          (Some l3) (seq 0 n) = Some l' /\
    compare_ l' = compare_ l3 /\ max_height_ l' = max_height_ l3 /\
    rnd_ l' = rnd_ l3 /\ length (nodes l') = length (nodes l3) /\
    (forall a, key <$> nodes l' !! a = key <$> nodes l3 !! a) /\
    (forall a, height l' a = height l3 a) /\
    forall j, (j < kMaxHeight)%nat ->
      linked l' j head_
        (if decide (j < n)%nat then new_chain_of j else level l order j).
Proof.
  pose proof (sorted_split l k order Hcmp (inv_sorted _ _ Hinv)) as Hsplit.
  pose proof (order_NoDup _ _ Hinv) as Hnd.
  induction n as [|n IH]; intros Hn.
  - exists l3. cbn [seq foldl]. repeat split; try done.
    intros j Hj. rewrite decide_False by lia.
    apply (linked_ext l); [|by apply (inv_linked _ _ Hinv)].
    intros a Ha. apply new_node_old.
    apply elem_of_cons in Ha as [->|Ha].
    + pose proof (inv_head _ _ Hinv) as Hhd. unfold height in Hhd.
      destruct (nodes l !! head_) eqn:Hn0; [|done].
      by apply lookup_lt_Some in Hn0.
    + apply list_elem_of_filter in Ha as (_ & Ha).
      by apply (order_valid l order a Hinv).
  - destruct (IH ltac:(lia))
      as (ln & Hfold & Hc & Hm & Hr & Hlen & Hkeys & Hheights & Hlinks).
    rewrite seq_S, foldl_app. cbn [foldl Nat.add]. rewrite Hfold.
    cbn [mbind option_bind].
    rewrite (HprevF n) by lia. cbn [mbind option_bind].
    set (p := prev_at l k order n).
    assert (Hn12 : (n < kMaxHeight)%nat) by lia.
    destruct (prev_at_node l k order n Hinv Hn12) as (Hph & Hplt).
    fold p in Hph, Hplt.
    (* the link that leaves the predecessor *)
    pose proof (Hlinks n Hn12) as Hold. rewrite decide_False in Hold by lia.
    assert (Hlevel : level l order n
                     = level l (before l k order) n
                       ++ level l (after l k order) n)
      by (by rewrite <- level_app, <- Hsplit).
    rewrite Hlevel in Hold.
    pose proof (linked_split _ _ _ _ _ Hold) as Hp.
    fold (prev_at l k order n) in Hp. fold p in Hp.
    rewrite (linked_head _ _ _ _ Hp). cbn [mbind option_bind].
    set (nx := head (level l (after l k order) n)).
    destruct (Node_SetNext_Some ln x n nx) as (l' & Hset1).
    { rewrite Hheights, new_node_height. lia. }
    rewrite Hset1. cbn [mbind option_bind].
    destruct (Node_SetNext_spec _ _ _ _ _ Hset1)
      as (Hc1 & Hm1 & Hr1 & Hlen1 & Hkeys1 & Hheights1 & Hnext1).
    destruct (Node_SetNext_Some l' p n (Some x)) as (l'' & Hset2).
    { rewrite Hheights1, Hheights.
      by rewrite (proj1 (proj2 (new_node_old p Hplt))). }
    rewrite Hset2.
    destruct (Node_SetNext_spec _ _ _ _ _ Hset2)
      as (Hc2 & Hm2 & Hr2 & Hlen2 & Hkeys2 & Hheights2 & Hnext2).
    exists l''. split; [done|].
    split; [congruence|]. split; [congruence|]. split; [congruence|].
    split; [congruence|].
    split; [intros a; by rewrite Hkeys2, Hkeys1|].
    split; [intros a; by rewrite Hheights2, Hheights1|].
    assert (Hxp : x <> p) by lia.
    intros j Hj. destruct (decide (j = n)) as [->|Hjn].
    + rewrite decide_True by lia.
      apply (linked_insert ln); try done.
      * rewrite <- Hlevel. apply NoDup_cons.
        apply NoDup_cons in Hnd as (Hhead & Hnd). split.
        -- intros Hin. apply Hhead.
           by apply list_elem_of_filter in Hin as (_ & Hin).
        -- by apply NoDup_filter.
      * rewrite <- Hlevel. intros Hin. apply x_fresh.
        apply elem_of_cons in Hin as [Hin|Hin];
          [rewrite Hin; apply list_elem_of_here|].
        apply list_elem_of_further.
        by apply list_elem_of_filter in Hin as (_ & Hin).
      * fold (prev_at l k order n). fold p.
        rewrite Hnext2. by rewrite decide_True.
      * fold (prev_at l k order n). fold p.
        rewrite Hnext2, decide_False by tauto.
        rewrite Hnext1, decide_True by done.
        by rewrite (linked_head _ _ _ _ Hp).
      * fold (prev_at l k order n). fold p. intros a Hap Hax.
        rewrite Hnext2, decide_False by tauto.
        by rewrite Hnext1, decide_False by tauto.
    + specialize (Hlinks j Hj).
      assert (Hsame : forall a, Node_Next l'' a j = Node_Next ln a j).
      { intros a. rewrite Hnext2, decide_False by tauto.
        by rewrite Hnext1, decide_False by tauto. }
      destruct (decide (j < n)%nat) as [Hlt|Hge].
      * rewrite decide_True by lia. by apply (linked_ext ln).
      * rewrite decide_False by lia. by apply (linked_ext ln).
Qed.

End Linking.

Lemma node_lt_ext l l' (a b : nat) :
  compare_ l' = compare_ l ->
  (forall n : nat, (n < length (nodes l))%nat ->
             key <$> nodes l' !! n = key <$> nodes l !! n) ->
  node_lt l a b -> node_lt l' a b.
Proof.
  intros Hc Hkeys (na & nb & Hna & Hnb & Hlt).
  pose proof (Hkeys a (lookup_lt_Some _ _ _ Hna)) as Ha.
  pose proof (Hkeys b (lookup_lt_Some _ _ _ Hnb)) as Hb.
  rewrite Hna in Ha. rewrite Hnb in Hb.
  destruct (nodes l' !! a) as [na'|] eqn:Hna'; [|done].
  destruct (nodes l' !! b) as [nb'|] eqn:Hnb'; [|done].
  injection Ha as Ha. injection Hb as Hb.
  exists na', nb'. by rewrite Hc, Ha, Hb.
Qed.

Lemma cmp_not_before (cmp : Key -> Key -> Z) (a b : Key) :
  comparator_ok cmp -> ~ cmp a b < 0 -> cmp b a <> 0 -> cmp b a < 0.
Proof.
  intros Hcmp Hab Hba.
  pose proof (cmp_antisym _ Hcmp a b). pose proof (cmp_antisym _ Hcmp b a).
  lia.
Qed.

(** [Insert] of a key that is not in the list returns, and puts the new
    node at its place in the order. *)
Lemma Insert_spec l k order :
  skiplist_inv l order -> comparator_ok (compare_ l) ->
  (forall a nd, a ∈ order -> nodes l !! a = Some nd ->
                compare_ l k (key nd) <> 0) ->
  exists l',
    Insert l k = Some l' /\
    skiplist_inv l' (before l k order ++ length (nodes l) :: after l k order)
    /\ compare_ l' = compare_ l /\
    map key (nodes l') = map key (nodes l) ++ [k].
Proof.
  intros Hinv Hcmp Hnew. unfold Insert.
  rewrite (FindGreaterOrEqual_spec l k order _ Hinv Hcmp).
  cbn [mbind option_bind fmap option_fmap option_map].
  destruct (RandomHeight (rnd_ l)) as [h rnd'] eqn:Hrh.
  pose proof (RandomHeight_range (rnd_ l)) as Hh. rewrite Hrh in Hh.
  cbn [fst] in Hh.
  pose proof (inv_max_height _ _ Hinv) as Hmax.
  unfold kMaxHeight in Hmax.
  set (prev0 := fill_prev l k order (max_height_ l - 1)
                  (replicate kMaxHeight None)).
  assert (Hprev0 : forall j, (j < max_height_ l)%nat ->
            prev0 !! j = Some (Some (prev_at l k order j))).
  { intros j Hj. unfold prev0. rewrite fill_prev_lookup.
    - by rewrite decide_True by lia.
    - rewrite length_replicate. unfold kMaxHeight. lia. }
  assert (Hlen0 : length prev0 = kMaxHeight)
    by (unfold prev0; by rewrite fill_prev_length, length_replicate).
  unfold Insert_at_height. cbn [GetMaxHeight max_height_].
  set (mh' := if (max_height_ l <? h)%nat then h else max_height_ l).
  set (prevF := if (max_height_ l <? h)%nat
                then foldl (fun p i => <[i := Some head_]> p) prev0
                       (seq (max_height_ l) (h - max_height_ l))
                else prev0).
  set (l3 := {| compare_ := compare_ l;
                nodes := nodes l
                         ++ [ {| key := k; next_ := replicate h None |} ];
                max_height_ := mh'; rnd_ := rnd' |}).
  match goal with
  | |- exists l', ?X = Some l' /\ _ =>
      assert (Hshape : X = Insert_links l3 (length (nodes l)) h prevF)
  end.
  { unfold l3, prevF, mh'. by destruct (max_height_ l <? h)%nat. }
  rewrite Hshape. clear Hshape.
  assert (HprevF : forall j, (j < h)%nat ->
            prevF !! j = Some (Some (prev_at l k order j))).
  { intros j Hj. unfold prevF.
    destruct (Nat.ltb_spec (max_height_ l) h) as [Hlt|Hge].
    - rewrite raise_prev_lookup by (rewrite Hlen0; unfold kMaxHeight; lia).
      destruct (decide (max_height_ l <= j
                        < max_height_ l + (h - max_height_ l))%nat).
      + by rewrite (prev_at_high l k order j Hinv) by lia.
      + apply Hprev0. lia.
    - apply Hprev0. lia. }
  destruct (Insert_links_loop l k order l3 h prevF Hinv Hcmp
              ltac:(unfold kMaxHeight; lia) eq_refl HprevF h ltac:(lia))
    as (l' & Hfold & Hc & Hm & Hr & Hlen & Hkeys & Hheights & Hlinks).
  exists l'. split; [exact Hfold|].
  pose proof (sorted_split l k order Hcmp (inv_sorted _ _ Hinv)) as Hsplit.
  assert (Hold : forall a, (a < length (nodes l))%nat ->
            nodes l3 !! a = nodes l !! a /\ height l3 a = height l a)
    by (intros a Ha; by destruct (new_node_old l k l3 h eq_refl a Ha)
          as (? & ? & _)).
  assert (Hkeys_old : forall n : nat, (n < length (nodes l))%nat ->
            key <$> nodes l' !! n = key <$> nodes l !! n).
  { intros n Hlt. rewrite Hkeys. by rewrite (proj1 (Hold n Hlt)). }
  assert (Hvalid : forall a, a ∈ order -> (a < length (nodes l))%nat)
    by (intros a Ha; by apply (order_valid l order a Hinv)).
  assert (Hin_order : forall a,
            a ∈ before l k order \/ a ∈ after l k order -> a ∈ order).
  { intros a [Ha|Ha]; by apply list_elem_of_filter in Ha as (_ & Ha). }
  assert (Hx : nodes l' !! length (nodes l)
               = Some {| key := k; next_ := [] |} \/
               exists nd, nodes l' !! length (nodes l) = Some nd /\
                          key nd = k).
  { right. pose proof (Hkeys (length (nodes l))) as Hk.
    cbn [l3 nodes] in Hk. rewrite list_lookup_middle in Hk by done.
    destruct (nodes l' !! length (nodes l)) as [nd|]; [|done].
    injection Hk as Hk. eauto. }
  destruct Hx as [Hx|(ndx & Hx & Hkx)].
  { exfalso. pose proof (Hheights (length (nodes l))) as Hhx.
    rewrite (new_node_height l k l3 h eq_refl) in Hhx.
    unfold height in Hhx. rewrite Hx in Hhx. cbn in Hhx. lia. }
  assert (Hhead : (head_ < length (nodes l))%nat).
  { pose proof (inv_head _ _ Hinv) as Hh0. unfold height in Hh0.
    destruct (nodes l !! head_) eqn:E; [|done].
    by apply lookup_lt_Some in E. }
  unfold head_ in Hhead.
  split; [|split; [by rewrite Hc|]].
  - split.
    + rewrite Hheights.
      rewrite (proj2 (Hold head_ Hhead)).
      apply (inv_head _ _ Hinv).
    + rewrite Hlen. cbn [l3 nodes]. rewrite length_app. cbn [length].
      replace (length (nodes l) + 1 - 1)%nat
        with (S (length (nodes l) - 1)) by lia.
      rewrite seq_S.
      replace (1 + (length (nodes l) - 1))%nat with (length (nodes l))
        by lia.
      rewrite <- (inv_order _ _ Hinv).
      rewrite <- Permutation_middle, <- Hsplit.
      apply Permutation_cons_append.
    + intros a Ha. rewrite Hheights, Hm. cbn [l3 max_height_].
      apply elem_of_app in Ha as [Ha|Ha];
        [|apply elem_of_cons in Ha as [->|Ha]].
      * pose proof (Hin_order a (or_introl Ha)) as Ho.
        rewrite (proj2 (Hold a (Hvalid a Ho))).
        pose proof (inv_height _ _ Hinv a Ho). unfold mh'.
        destruct (Nat.ltb_spec (max_height_ l) h); lia.
      * rewrite (new_node_height l k l3 h eq_refl). unfold mh'.
        destruct (Nat.ltb_spec (max_height_ l) h); lia.
      * pose proof (Hin_order a (or_intror Ha)) as Ho.
        rewrite (proj2 (Hold a (Hvalid a Ho))).
        pose proof (inv_height _ _ Hinv a Ho). unfold mh'.
        destruct (Nat.ltb_spec (max_height_ l) h); lia.
    + rewrite Hm. cbn [l3 max_height_]. unfold mh', kMaxHeight.
      destruct (Nat.ltb_spec (max_height_ l) h); lia.
    + pose proof (inv_sorted _ _ Hinv) as Hs. rewrite Hsplit in Hs.
      apply StronglySorted_app in Hs as (Hcross & HsB & HsA).
      assert (Himpl : forall a b, node_lt l a b -> node_lt l' a b).
      { intros a b. apply node_lt_ext; [by rewrite Hc|exact Hkeys_old]. }
      assert (Hnode : forall a, a ∈ order ->
                exists nd nd', nodes l !! a = Some nd /\
                               nodes l' !! a = Some nd' /\
                               key nd' = key nd).
      { intros a Ha. destruct (order_valid l order a Hinv Ha) as (Hlt & nd & Hnd).
        pose proof (Hkeys_old a ltac:(lia)) as Hk. rewrite Hnd in Hk.
        destruct (nodes l' !! a) as [nd'|]; [|done].
        injection Hk as Hk. eauto. }
      assert (HBx : forall a, a ∈ before l k order ->
                node_lt l' a (length (nodes l))).
      { intros a Ha. pose proof (Hin_order a (or_introl Ha)) as Ho.
        apply list_elem_of_filter in Ha as (Hb & _).
        apply is_before_spec in Hb as (nd & Hnd & Hlt).
        destruct (Hnode a Ho) as (nd0 & nd' & Hnd0 & Hnd' & Hk).
        rewrite Hnd in Hnd0. injection Hnd0 as <-.
        exists nd', ndx. by rewrite Hc, Hk, Hkx. }
      assert (HxA : forall a, a ∈ after l k order ->
                node_lt l' (length (nodes l)) a).
      { intros a Ha. pose proof (Hin_order a (or_intror Ha)) as Ho.
        apply list_elem_of_filter in Ha as (Hb & _).
        destruct (Hnode a Ho) as (nd & nd' & Hnd & Hnd' & Hk).
        exists ndx, nd'. rewrite Hc, Hk, Hkx.
        split; [done|]. split; [done|].
        apply (cmp_not_before _ _ _ Hcmp); [|by apply (Hnew a)].
        intros Hlt. apply Hb. apply is_before_spec. eauto. }
      apply StronglySorted_app. split; [|split].
      * intros a b Ha Hb. apply elem_of_cons in Hb as [->|Hb].
        -- by apply HBx.
        -- apply Himpl. by apply Hcross.
      * by apply (StronglySorted_impl (node_lt l)).
      * apply StronglySorted_cons. split.
        -- apply Forall_forall. exact HxA.
        -- by apply (StronglySorted_impl (node_lt l)).
    + intros j Hj. specialize (Hlinks j Hj).
      assert (Hlev : forall c : list nat, (forall a, a ∈ c -> a ∈ order) ->
                level l' c j = level l c j).
      { intros c Hc'. apply level_ext. intros a Ha.
        rewrite Hheights. apply (Hold a). by apply Hvalid, Hc'. }
      rewrite level_app.
      replace (length (nodes l) :: after l k order)
        with ([length (nodes l)] ++ after l k order) by done.
      rewrite level_app.
      rewrite (Hlev (before l k order))
        by (intros a Ha; apply Hin_order; by left).
      rewrite (Hlev (after l k order))
        by (intros a Ha; apply Hin_order; by right).
      unfold level at 2. rewrite filter_cons, filter_nil.
      rewrite Hheights, (new_node_height l k l3 h eq_refl).
      destruct (decide (j < h)%nat) as [Hlt|Hge].
      * exact Hlinks.
      * cbn [app]. by rewrite <- level_app, <- Hsplit.
  - apply (list_eq_same_length _ _ (length (nodes l'))).
    + rewrite length_app, length_map. cbn [length].
      rewrite Hlen. cbn [l3 nodes]. rewrite length_app. cbn [length]. lia.
    + by rewrite length_map.
    + intros i a b Hi Ha Hb.
      change (map key ?z) with (key <$> z) in Ha.
      rewrite list_lookup_fmap, Hkeys in Ha. cbn [l3 nodes] in Ha.
      rewrite <- list_lookup_fmap, fmap_app in Ha. cbn [fmap list_fmap] in Ha.
      change (map key ?z) with (key <$> z) in Hb.
      cbn [key] in Ha. congruence.
Qed.

End SkipListProps.

(** ** db/skiplist.h: what a client of the list sees *)

Section SkipListUse.
Import SkipList SkipListState SkipListBack.
Context {Key : Type}.
Implicit Types (l : SkipList Key) (k : Key) (order c : list nat).

Lemma skiplist_inv_new (cmp : Key -> Key -> Z) (any : Key) (rnd : Random) :
  skiplist_inv (SkipList_new cmp any rnd) [].
Proof.
  split.
  - done.
  - done.
  - intros a Ha. by apply elem_of_nil in Ha.
  - cbn. unfold kMaxHeight. lia.
  - constructor.
  - intros i Hi. unfold level, linked, Node_Next, SkipList_new, head_.
    cbn [filter list_filter nodes lookup list_lookup mbind option_bind next_].
    by apply lookup_replicate_2.
Qed.

Lemma InsertAll_snoc l (keys : list Key) k :
  InsertAll l (keys ++ [k]) = l' ← InsertAll l keys; Insert l' k.
Proof. unfold InsertAll. by rewrite foldl_app. Qed.

Lemma distinct_prefix (cmp : Key -> Key -> Z) (keys : list Key) k :
  distinct cmp (keys ++ [k]) -> distinct cmp keys.
Proof.
  intros Hd i j ki kj Hij Hi Hj.
  apply (Hd i j); [done| |]; by apply lookup_app_l_Some.
Qed.

(** Every key list without equal keys can be inserted, and the list keeps
    its invariant. *)
Lemma InsertAll_spec (cmp : Key -> Key -> Z) (any : Key) (rnd : Random)
    (keys : list Key) :
  comparator_ok cmp -> distinct cmp keys ->
  exists l order,
    InsertAll (SkipList_new cmp any rnd) keys = Some l /\
    skiplist_inv l order /\ compare_ l = cmp /\
    map key (nodes l) = any :: keys.
Proof.
  intros Hcmp. induction keys as [|k keys IH] using rev_ind; intros Hd.
  - exists (SkipList_new cmp any rnd), [].
    split; [done|]. split; [apply skiplist_inv_new|done].
  - destruct (IH (distinct_prefix _ _ _ Hd))
      as (l & order & Hl & Hinv & Hc & Hk).
    assert (Hcmp' : comparator_ok (compare_ l)) by (by rewrite Hc).
    destruct (Insert_spec l k order Hinv Hcmp') as (l' & Hl' & Hinv' & Hc' & Hk').
    { intros a nd Ha Hnd. rewrite Hc.
      destruct (order_valid l order a Hinv Ha) as (Hrange & _).
      assert (Hka : map key (nodes l) !! a = Some (key nd)).
      { change (map key ?z) with (key <$> z).
        by rewrite list_lookup_fmap, Hnd. }
      rewrite Hk in Hka. destruct a as [|a]; [lia|]. cbn in Hka.
      apply (Hd (length keys) a).
      - apply lookup_lt_Some in Hka. lia.
      - by rewrite list_lookup_middle.
      - by apply lookup_app_l_Some. }
    exists l', (before l k order ++ length (nodes l) :: after l k order).
    rewrite InsertAll_snoc, Hl. cbn [mbind option_bind].
    split; [done|]. split; [done|]. split; [congruence|].
    by rewrite Hk', Hk.
Qed.

(** *** The keys of the list *)

Lemma keys_of_cons l (a : nat) c nd :
  nodes l !! a = Some nd -> keys_of l (a :: c) = key nd :: keys_of l c.
Proof. intros Hnd. unfold keys_of. cbn. by rewrite Hnd. Qed.

Lemma keys_of_app l c c' :
  keys_of l (c ++ c') = keys_of l c ++ keys_of l c'.
Proof. apply omap_app. Qed.

Lemma keys_of_seq l (i n : nat) :
  (i + n <= length (nodes l))%nat ->
  keys_of l (seq i n) = take n (drop i (map key (nodes l))).
Proof.
  induction n as [|n IH]; intros Hn; [done|].
  rewrite seq_S, keys_of_app, IH by lia.
  destruct (lookup_lt_is_Some_2 (nodes l) (i + n) ltac:(lia)) as [nd Hnd].
  rewrite (keys_of_cons _ _ _ _ Hnd).
  rewrite (take_S_r _ _ (key nd)); [done|].
  rewrite lookup_drop. change (map key ?z) with (key <$> z).
  by rewrite list_lookup_fmap, Hnd.
Qed.

Lemma inv_keys l order (any : Key) (keys : list Key) :
  skiplist_inv l order -> map key (nodes l) = any :: keys ->
  keys_of l order ≡ₚ keys.
Proof.
  intros Hinv Hk. unfold keys_of. rewrite (inv_order _ _ Hinv).
  fold (keys_of l (seq 1 (length (nodes l) - 1))).
  assert (Hlen : length (nodes l) = S (length keys)).
  { rewrite <- (length_map key), Hk. done. }
  rewrite keys_of_seq by lia. rewrite Hk. cbn [drop].
  rewrite drop_0, take_ge; [done|]. rewrite Hlen. lia.
Qed.

Lemma keys_of_sorted l order :
  skiplist_inv l order ->
  StronglySorted (fun a b => compare_ l a b < 0) (keys_of l order).
Proof.
  intros Hinv. pose proof (inv_sorted _ _ Hinv) as Hs.
  assert (Hv : forall a, a ∈ order -> is_Some (nodes l !! a))
    by (intros a Ha; by apply (order_valid l order)).
  clear Hinv. induction Hs as [|a c Hs IH Hall]; [constructor|].
  destruct (Hv a ltac:(left)) as [nd Hnd].
  rewrite (keys_of_cons _ _ _ _ Hnd). constructor.
  - apply IH. intros b Hb. apply Hv. by right.
  - apply Forall_forall. intros kb Hkb.
    apply list_elem_of_omap in Hkb as (b & Hb & Hkb).
    rewrite Forall_forall in Hall.
    destruct (Hall b Hb) as (na & nb & Hna & Hnb & Hlt).
    rewrite Hnb in Hkb. cbn in Hkb. injection Hkb as <-.
    rewrite Hnd in Hna. by injection Hna as <-.
Qed.

Lemma keys_of_after l k c :
  (forall a, a ∈ c -> is_Some (nodes l !! a)) ->
  keys_of l (after l k c)
  = filter (fun k' => ~ compare_ l k' k < 0) (keys_of l c).
Proof.
  induction c as [|a c IH]; intros Hv; [done|].
  destruct (Hv a ltac:(left)) as [nd Hnd].
  rewrite (keys_of_cons _ _ _ _ Hnd). unfold after.
  rewrite !filter_cons. fold (after l k c).
  assert (Hiff : is_before l k a <-> compare_ l (key nd) k < 0).
  { rewrite is_before_spec. split.
    - intros (nd' & Hnd' & Hlt). rewrite Hnd in Hnd'. by injection Hnd' as <-.
    - eauto. }
  assert (IH' := IH ltac:(intros b Hb; apply Hv; by right)).
  destruct (decide (~ is_before l k a)) as [Hb|Hb];
    destruct (decide (~ compare_ l (key nd) k < 0)) as [Hc|Hc];
    [|tauto|tauto|exact IH'].
  by rewrite (keys_of_cons _ _ _ _ Hnd), IH'.
Qed.

(** *** Forward iteration *)

Lemma collect_linked l c :
  forall (x steps : nat),
  linked l 0 x c ->
  (forall a, a ∈ c -> is_Some (nodes l !! a)) ->
  (length c <= steps)%nat ->
  Iterator_collect steps l {| node_ := head c |} = Some (keys_of l c).
Proof.
  induction c as [|y c IH]; intros x steps Hl Hv Hsteps.
  - by destruct steps.
  - destruct Hl as (Hxy & Hl). cbn [length] in Hsteps.
    destruct steps as [|steps]; [lia|].
    destruct (Hv y ltac:(left)) as [nd Hnd].
    cbn [Iterator_collect head Iterator_Valid node_].
    unfold Iterator_key, Iterator_Next. cbn [node_ mbind option_bind].
    rewrite Hnd. cbn [mbind option_bind].
    rewrite (linked_head _ _ _ _ Hl). cbn [mbind option_bind].
    rewrite (IH y steps Hl) by (try lia; intros b Hb; apply Hv; by right).
    cbn [mbind option_bind]. by rewrite (keys_of_cons _ _ _ _ Hnd).
Qed.

Lemma level_0 l order c :
  skiplist_inv l order -> (forall a, a ∈ c -> a ∈ order) ->
  level l c 0 = c.
Proof.
  intros Hinv Hc. unfold level. apply filter_all.
  intros a Ha. pose proof (inv_height _ _ Hinv a (Hc a Ha)). lia.
Qed.

Lemma inv_valid l order :
  skiplist_inv l order -> forall a : nat, a ∈ order -> is_Some (nodes l !! a).
Proof. intros Hinv a Ha. by apply (order_valid l order). Qed.

Lemma inv_length l order :
  skiplist_inv l order -> length (nodes l) = S (length order).
Proof.
  intros Hinv. pose proof (Permutation_length (inv_order _ _ Hinv)) as Hlen.
  rewrite length_seq in Hlen.
  pose proof (inv_head _ _ Hinv) as Hh0. unfold height in Hh0.
  destruct (nodes l !! head_) eqn:E; [|done].
  apply lookup_lt_Some in E. unfold head_ in E. lia.
Qed.

Lemma Iterator_all_spec l order :
  skiplist_inv l order -> Iterator_all l = Some (keys_of l order).
Proof.
  intros Hinv. unfold Iterator_all, Iterator_SeekToFirst.
  pose proof (inv_linked _ _ Hinv 0 ltac:(unfold kMaxHeight; lia)) as Hl.
  rewrite (level_0 l order order Hinv) in Hl by done.
  rewrite (linked_head _ _ _ _ Hl). cbn [mbind option_bind].
  apply (collect_linked l order head_); [done|by apply inv_valid|].
  rewrite (inv_length _ _ Hinv). lia.
Qed.

Lemma Iterator_Seek_spec l order k :
  skiplist_inv l order -> comparator_ok (compare_ l) ->
  (it ← Iterator_Seek l k; Iterator_collect (length (nodes l)) l it)
  = Some (filter (fun k' => ~ compare_ l k' k < 0) (keys_of l order)).
Proof.
  intros Hinv Hcmp. unfold Iterator_Seek.
  rewrite (FindGreaterOrEqual_spec l k order None Hinv Hcmp).
  cbn [mbind option_bind fmap option_fmap option_map].
  pose proof (inv_linked _ _ Hinv 0 ltac:(unfold kMaxHeight; lia)) as Hl.
  rewrite (level_0 l order order Hinv) in Hl by done.
  pose proof (sorted_split l k order Hcmp (inv_sorted _ _ Hinv)) as Hsplit.
  rewrite Hsplit in Hl. apply linked_split in Hl.
  rewrite <- keys_of_after by (by apply inv_valid).
  apply (collect_linked l _ _ _ Hl).
  - intros a Ha. apply list_elem_of_filter in Ha as (_ & Ha).
    by apply (inv_valid l order).
  - pose proof (length_filter (fun a => ~ is_before l k a) order).
    fold (after l k order) in H. rewrite (inv_length _ _ Hinv). lia.
Qed.

(** *** Contains *)

Lemma cmp_zero_sym (cmp : Key -> Key -> Z) (a b : Key) :
  comparator_ok cmp -> cmp a b = 0 -> cmp b a = 0.
Proof.
  intros Hcmp Hab.
  pose proof (cmp_antisym _ Hcmp a b). pose proof (cmp_antisym _ Hcmp b a).
  lia.
Qed.

Lemma Contains_spec l order k :
  skiplist_inv l order -> comparator_ok (compare_ l) ->
  Contains l k
  = Some (existsb (fun k' => compare_ l k k' =? 0) (keys_of l order)).
Proof.
  intros Hinv Hcmp. unfold Contains.
  rewrite (FindGreaterOrEqual_spec l k order None Hinv Hcmp).
  cbn [mbind option_bind fmap option_fmap option_map].
  pose proof (sorted_split l k order Hcmp (inv_sorted _ _ Hinv)) as Hsplit.
  pose proof (inv_sorted _ _ Hinv) as Hs. rewrite Hsplit in Hs.
  apply StronglySorted_app in Hs as (_ & _ & HsA).
  assert (Hin : forall b nb, b ∈ order -> nodes l !! b = Some nb ->
            compare_ l k (key nb) = 0 -> b ∈ after l k order).
  { intros b nb Hb Hnb Hz. apply list_elem_of_filter. split; [|done].
    intros Hbef. apply is_before_spec in Hbef as (nb' & Hnb' & Hlt).
    rewrite Hnb in Hnb'. injection Hnb' as <-.
    apply (cmp_zero_sym _ _ _ Hcmp) in Hz. lia. }
  destruct (after l k order) as [|a rest] eqn:Hafter.
  - cbn [head]. f_equal. symmetry. apply not_true_is_false.
    intros Hex. apply existsb_exists in Hex as (k' & Hk' & Hz).
    apply list_elem_of_In, list_elem_of_omap in Hk' as (b & Hb & Hkb).
    destruct (nodes l !! b) as [nb|] eqn:Hnb; [|done].
    injection Hkb as <-. apply Z.eqb_eq in Hz.
    pose proof (Hin b nb Hb Hnb Hz) as Hba. by apply elem_of_nil in Hba.
  - cbn [head].
    assert (Hao : a ∈ order).
    { assert (Ha : a ∈ after l k order) by (rewrite Hafter; left).
      by apply list_elem_of_filter in Ha as (_ & Ha). }
    assert (Hanb : ~ is_before l k a).
    { assert (Ha : a ∈ after l k order) by (rewrite Hafter; left).
      by apply list_elem_of_filter in Ha as (Ha & _). }
    destruct (inv_valid l order Hinv a Hao) as [nd Hnd].
    rewrite Hnd. cbn [mbind option_bind]. f_equal. unfold Equal.
    destruct (compare_ l k (key nd) =? 0) eqn:Heq; symmetry.
    + apply existsb_exists. exists (key nd). split; [|done].
      apply list_elem_of_In, list_elem_of_omap. exists a.
      split; [done|]. by rewrite Hnd.
    + apply not_true_is_false.
      intros Hex. apply existsb_exists in Hex as (k' & Hk' & Hz).
      apply list_elem_of_In, list_elem_of_omap in Hk' as (b & Hb & Hkb).
      destruct (nodes l !! b) as [nb|] eqn:Hnb; [|done].
      injection Hkb as <-. apply Z.eqb_eq in Hz.
      pose proof (Hin b nb Hb Hnb Hz) as Hba.
      apply elem_of_cons in Hba as [->|Hba].
      * rewrite Hnd in Hnb. injection Hnb as <-.
        apply Z.eqb_neq in Heq. lia.
      * apply StronglySorted_cons in HsA as (Hall & _).
        rewrite Forall_forall in Hall.
        destruct (Hall b Hba) as (na & nb' & Hna & Hnb' & Hlt).
        rewrite Hnd in Hna. injection Hna as <-.
        rewrite Hnb in Hnb'. injection Hnb' as <-.
        apply Hanb. apply is_before_spec. exists nd. split; [done|].
        apply (cmp_trans _ Hcmp _ (key nb)); [done|].
        apply (cmp_zero_sym _ _ _ Hcmp) in Hz. lia.
Qed.

End SkipListUse.

(** ** db/skiplist.h: searching backwards *)

Section SkipListBackProps.
Import SkipList SkipListState SkipListBack.
Context {Key : Type}.
Implicit Types (l : SkipList Key) (k : Key) (order c : list nat).

Lemma FindLessThan_loop_spec l k order (steps : nat) :
  skiplist_inv l order -> comparator_ok (compare_ l) ->
  forall (B1 B2 : list nat) (lev : nat),
  before l k order = B1 ++ B2 ->
  B1 = [] \/ (lev < height l (default head_ (last B1)))%nat ->
  (lev < kMaxHeight)%nat ->
  (length B2 + lev < steps)%nat ->
  FindLessThan_loop steps l k (default head_ (last B1)) lev
  = Some (default head_ (last (before l k order))).
Proof.
  intros Hinv Hcmp.
  pose proof (sorted_split l k order Hcmp (inv_sorted _ _ Hinv)) as Hsplit.
  induction steps as [|steps IH]; intros B1 B2 lev HB Hx Hlev Hsteps;
    [lia|].
  cbn [FindLessThan_loop].
  assert (Hxnode : exists nd,
            nodes l !! default head_ (last B1) = Some nd /\
            ((default head_ (last B1) =? head_)%nat
             || (compare_ l (key nd) k <? 0)) = true).
  { destruct (last B1) as [b|] eqn:Hlast; cbn [default].
    - apply last_Some_elem_of in Hlast.
      assert (Hb : b ∈ before l k order)
        by (rewrite HB; apply elem_of_app; by left).
      apply list_elem_of_filter in Hb as (Hb & Ho).
      apply is_before_spec in Hb as (nd & Hnd & Hlt).
      exists nd. split; [done|]. apply orb_true_iff. right.
      by apply Z.ltb_lt.
    - pose proof (inv_head _ _ Hinv) as Hh0. unfold height in Hh0.
      destruct (nodes l !! head_) as [nd|] eqn:E; [|done].
      by exists nd. }
  destruct Hxnode as (ndx & Hndx & Hassert).
  rewrite Hndx. cbn [mbind option_bind]. rewrite Hassert. cbn [negb].
  assert (Horder : order = B1 ++ (B2 ++ after l k order))
    by (rewrite app_assoc, <- HB; exact Hsplit).
  rewrite (next_in_chain l order B1 _ lev Hinv Horder Hx Hlev).
  cbn [mbind option_bind]. rewrite level_app.
  destruct (level l B2 lev) as [|y rest] eqn:HB2.
  - (* no node of this level before [k] is left: go down *)
    cbn [app].
    assert (Hstop :
      match head (level l (after l k order) lev) with
      | Some nx => nn ← nodes l !! nx; Some (0 <=? compare_ l (key nn) k)
      | None => Some true
      end = Some true).
    { destruct (head (level l (after l k order) lev)) as [z|] eqn:Hz;
        [|done].
      apply head_Some_elem_of in Hz.
      apply list_elem_of_filter in Hz as (_ & Hz).
      apply list_elem_of_filter in Hz as (Hnb & Hzo).
      destruct (order_valid l order z Hinv Hzo) as (_ & nd & Hnd).
      rewrite Hnd. cbn [mbind option_bind]. f_equal. apply Z.leb_le.
      destruct (Z.lt_ge_cases (compare_ l (key nd) k) 0) as [Hlt|Hge];
        [|lia].
      exfalso. apply Hnb. apply is_before_spec. eauto. }
    rewrite Hstop. cbn [mbind option_bind].
    destruct lev as [|lev].
    + f_equal. rewrite HB.
      assert (HB2' : B2 = []).
      { rewrite <- HB2. symmetry. apply (level_0 l order B2 Hinv).
        intros a Ha.
        assert (Hab : a ∈ before l k order)
          by (rewrite HB; apply elem_of_app; by right).
        by apply list_elem_of_filter in Hab as (_ & Hab). }
      by rewrite HB2', app_nil_r.
    + apply (IH B1 B2); try done; try lia.
      destruct Hx as [Hx|Hx]; [by left|right; lia].
  - (* the next node of this level is before [k]: go right *)
    cbn [app head].
    apply filter_head_split in HB2 as (C & D & -> & HC & Hy & HD).
    assert (Hyb : y ∈ before l k order).
    { rewrite HB. apply elem_of_app. right. apply elem_of_app. right.
      apply list_elem_of_here. }
    apply list_elem_of_filter in Hyb as (Hyk & Hyo).
    apply is_before_spec in Hyk as (ny & Hny & Hlt).
    rewrite Hny. cbn [mbind option_bind].
    replace (0 <=? compare_ l (key ny) k) with false
      by (symmetry; apply Z.leb_gt; lia).
    replace y with (default head_ (last (B1 ++ C ++ [y]))) at 1
      by (by rewrite !app_assoc, last_snoc).
    apply (IH (B1 ++ C ++ [y]) D).
    + by rewrite HB, <- !app_assoc.
    + right. by rewrite !app_assoc, last_snoc.
    + done.
    + rewrite length_app in Hsteps. cbn [length] in Hsteps. lia.
Qed.

Lemma FindLessThan_spec l k order :
  skiplist_inv l order -> comparator_ok (compare_ l) ->
  FindLessThan l k = Some (default head_ (last (before l k order))).
Proof.
  intros Hinv Hcmp. unfold FindLessThan, GetMaxHeight.
  pose proof (inv_max_height _ _ Hinv) as Hmax.
  change head_ with (default head_ (last ([] : list nat))) at 1.
  apply (FindLessThan_loop_spec l k order _ Hinv Hcmp []
           (before l k order)); [done|by left|lia|].
  assert (length (before l k order) <= length order)%nat
    by apply length_filter.
  rewrite (inv_length _ _ Hinv). lia.
Qed.

Lemma FindLast_loop_spec l order (steps : nat) :
  skiplist_inv l order ->
  forall (B1 B2 : list nat) (lev : nat),
  order = B1 ++ B2 ->
  B1 = [] \/ (lev < height l (default head_ (last B1)))%nat ->
  (lev < kMaxHeight)%nat ->
  (length B2 + lev < steps)%nat ->
  FindLast_loop steps l (default head_ (last B1)) lev
  = Some (default head_ (last order)).
Proof.
  intros Hinv.
  induction steps as [|steps IH]; intros B1 B2 lev HB Hx Hlev Hsteps;
    [lia|].
  cbn [FindLast_loop].
  rewrite (next_in_chain l order B1 _ lev Hinv HB Hx Hlev).
  cbn [mbind option_bind].
  destruct (level l B2 lev) as [|y rest] eqn:HB2.
  - cbn [head]. destruct lev as [|lev].
    + f_equal. rewrite HB.
      assert (HB2' : B2 = []).
      { rewrite <- HB2. symmetry. apply (level_0 l order B2 Hinv).
        intros a Ha. rewrite HB. apply elem_of_app. by right. }
      by rewrite HB2', app_nil_r.
    + apply (IH B1 B2); try done; try lia.
      destruct Hx as [Hx|Hx]; [by left|right; lia].
  - cbn [head].
    apply filter_head_split in HB2 as (C & D & -> & HC & Hy & HD).
    replace y with (default head_ (last (B1 ++ C ++ [y]))) at 1
      by (by rewrite !app_assoc, last_snoc).
    apply (IH (B1 ++ C ++ [y]) D).
    + by rewrite HB, <- !app_assoc.
    + right. by rewrite !app_assoc, last_snoc.
    + done.
    + rewrite length_app in Hsteps. cbn [length] in Hsteps. lia.
Qed.

Lemma FindLast_spec l order :
  skiplist_inv l order -> FindLast l = Some (default head_ (last order)).
Proof.
  intros Hinv. unfold FindLast, GetMaxHeight.
  pose proof (inv_max_height _ _ Hinv) as Hmax.
  change head_ with (default head_ (last ([] : list nat))) at 1.
  apply (FindLast_loop_spec l order _ Hinv [] order); [done|by left|lia|].
  rewrite (inv_length _ _ Hinv). lia.
Qed.

(** The node a search has stopped at, as an iterator position. *)
Lemma position_of_last l order c rest :
  skiplist_inv l order -> order = c ++ rest ->
  (if (default head_ (last c) =? head_)%nat then None
   else Some (default head_ (last c))) = last c.
Proof.
  intros Hinv Ho. destruct (last c) as [b|] eqn:Hlast; cbn [default from_option id].
  - apply last_Some_elem_of in Hlast.
    assert (Hb : b ∈ order) by (rewrite Ho; apply elem_of_app; by left).
    destruct (order_valid l order b Hinv Hb) as (Hrange & _).
    destruct (b =? head_)%nat eqn:E; [|done].
    apply Nat.eqb_eq in E. unfold head_ in E. lia.
  - done.
Qed.

Lemma before_at_node l order c (a : nat) rest nd :
  skiplist_inv l order -> comparator_ok (compare_ l) ->
  order = c ++ a :: rest -> nodes l !! a = Some nd ->
  before l (key nd) order = c.
Proof.
  intros Hinv Hcmp Ho Hnd.
  pose proof (inv_sorted _ _ Hinv) as Hs. rewrite Ho in Hs.
  apply StronglySorted_app in Hs as (Hcross & _ & Hs).
  apply StronglySorted_cons in Hs as (Hall & _).
  rewrite Forall_forall in Hall.
  unfold before. rewrite Ho, filter_app, filter_cons.
  rewrite filter_all.
  2:{ intros b Hb. destruct (Hcross b a Hb ltac:(left))
        as (nb & na & Hnb & Hna & Hlt).
      rewrite Hnd in Hna. injection Hna as <-.
      apply is_before_spec. eauto. }
  assert (Hirr : forall x : Key, ~ compare_ l x x < 0).
  { intros x Hlt. pose proof (cmp_antisym _ Hcmp x x). lia. }
  rewrite decide_False.
  2:{ intros Hb. apply is_before_spec in Hb as (nd' & Hnd' & Hlt).
      rewrite Hnd in Hnd'. injection Hnd' as <-. by apply Hirr in Hlt. }
  assert (Hrest : forall b, b ∈ rest -> ~ is_before l (key nd) b).
  2:{ destruct (filter_none (fun b => is_before l (key nd) b) rest Hrest)
        as (-> & _). by rewrite app_nil_r. }
  intros b Hb Hbef. apply is_before_spec in Hbef as (nb & Hnb & Hlt).
  destruct (Hall b Hb) as (na & nb' & Hna & Hnb' & Hlt').
  rewrite Hnd in Hna. injection Hna as <-.
  rewrite Hnb in Hnb'. injection Hnb' as <-.
  pose proof (cmp_antisym _ Hcmp (key nd) (key nb)). lia.
Qed.

Lemma collect_back_spec l order :
  skiplist_inv l order -> comparator_ok (compare_ l) ->
  forall c rest (steps : nat),
  order = c ++ rest -> (length c <= steps)%nat ->
  Iterator_collect_back steps l {| node_ := last c |}
  = Some (rev (keys_of l c)).
Proof.
  intros Hinv Hcmp c. induction c as [|a c IH] using rev_ind;
    intros rest steps Ho Hsteps.
  - by destruct steps.
  - rewrite length_app in Hsteps. cbn [length] in Hsteps.
    destruct steps as [|steps]; [lia|].
    rewrite <- app_assoc in Ho. cbn [app] in Ho.
    assert (Hao : a ∈ order)
      by (rewrite Ho; apply elem_of_app; right; left).
    destruct (inv_valid l order Hinv a Hao) as [nd Hnd].
    rewrite last_snoc.
    cbn [Iterator_collect_back Iterator_Valid node_].
    unfold Iterator_key, Iterator_Prev. cbn [node_ mbind option_bind].
    rewrite Hnd. cbn [mbind option_bind].
    rewrite (FindLessThan_spec l (key nd) order Hinv Hcmp).
    cbn [mbind option_bind].
    rewrite (before_at_node l order c a rest nd Hinv Hcmp Ho Hnd).
    rewrite (position_of_last l order c (a :: rest) Hinv Ho).
    rewrite (IH (a :: rest) steps Ho) by lia.
    cbn [mbind option_bind].
    rewrite keys_of_app, (keys_of_cons _ _ _ _ Hnd), rev_app_distr. done.
Qed.

Lemma Iterator_back_spec l order :
  skiplist_inv l order -> comparator_ok (compare_ l) ->
  (it ← Iterator_SeekToLast l; Iterator_collect_back (length (nodes l)) l it)
  = Some (rev (keys_of l order)).
Proof.
  intros Hinv Hcmp. unfold Iterator_SeekToLast.
  rewrite (FindLast_spec l order Hinv). cbn [mbind option_bind].
  rewrite (position_of_last l order order [] Hinv)
    by (by rewrite app_nil_r).
  apply (collect_back_spec l order Hinv Hcmp order []).
  - by rewrite app_nil_r.
  - rewrite (inv_length _ _ Hinv). lia.
Qed.

End SkipListBackProps.

(** ** db/skiplist.h: a list filled by [Insert] *)

Section SkipListClient.
Import SkipList SkipListState SkipListBack.
Context {Key : Type}.

Lemma existsb_Permutation (f : Key -> bool) (xs ys : list Key) :
  xs ≡ₚ ys -> existsb f xs = existsb f ys.
Proof.
  induction 1 as [|x xs ys _ IH|x y xs|xs ys zs _ IH1 _ IH2]; cbn.
  - done.
  - by rewrite IH.
  - by destruct (f x), (f y).
  - by rewrite IH1.
Qed.

(** X21 (membership).  Let any keys, no two of which compare equal (the
    requirement of [Insert]), be inserted into a new skip list in any
    order, under a comparator that is a three-way comparison of a total
    order and with any random generator.  Every [Insert] returns, and then
    [Contains(k)] is true exactly when one of the inserted keys compares
    equal to [k]. *)
Theorem skiplist_contains (cmp : Key -> Key -> Z) (any : Key) (rnd : Random)
    (keys : list Key) :
  comparator_ok cmp -> distinct cmp keys ->
  exists l,
    InsertAll (SkipList_new cmp any rnd) keys = Some l /\
    forall k,
      Contains l k = Some (existsb (fun k' => cmp k k' =? 0) keys).
Proof.
  intros Hcmp Hd.
  destruct (InsertAll_spec cmp any rnd keys Hcmp Hd)
    as (l & order & Hl & Hinv & Hc & Hk).
  exists l. split; [done|]. intros k.
  assert (Hcmp' : comparator_ok (compare_ l)) by (by rewrite Hc).
  rewrite (Contains_spec l order k Hinv Hcmp'), Hc. f_equal.
  apply existsb_Permutation. by apply (inv_keys l order any).
Qed.

(** X22 (iteration in key order).  For a list filled as in X21, the loop
    [SeekToFirst(); while (Valid()) { key(); Next(); }] visits every
    inserted key exactly once, in strictly increasing order of the
    comparator, and the same loop started by [Seek(target)] visits exactly
    the keys of that sequence that are not before [target]. *)
Theorem skiplist_iteration (cmp : Key -> Key -> Z) (any : Key) (rnd : Random)
    (keys : list Key) :
  comparator_ok cmp -> distinct cmp keys ->
  exists l sorted,
    InsertAll (SkipList_new cmp any rnd) keys = Some l /\
    sorted ≡ₚ keys /\
    StronglySorted (fun a b => cmp a b < 0) sorted /\
    Iterator_all l = Some sorted /\
    forall target,
      (it ← Iterator_Seek l target;
       Iterator_collect (length (nodes l)) l it)
      = Some (filter (fun k => ~ cmp k target < 0) sorted).
Proof.
  intros Hcmp Hd.
  destruct (InsertAll_spec cmp any rnd keys Hcmp Hd)
    as (l & order & Hl & Hinv & Hc & Hk).
  assert (Hcmp' : comparator_ok (compare_ l)) by (by rewrite Hc).
  exists l, (keys_of l order). split; [done|].
  split; [by apply (inv_keys l order any)|].
  split; [rewrite <- Hc; by apply keys_of_sorted|].
  split; [by apply Iterator_all_spec|].
  intros target. rewrite <- Hc. by apply Iterator_Seek_spec.
Qed.

(** X23 (iteration backwards).  For a list filled as in X21, the loop
    [SeekToLast(); while (Valid()) { key(); Prev(); }] visits the keys in
    the reverse of the order in which the forward loop visits them: [Prev]
    undoes [Next], and [Prev] at the first key leaves the iterator
    invalid. *)
Theorem skiplist_backward_iteration (cmp : Key -> Key -> Z) (any : Key)
    (rnd : Random) (keys : list Key) :
  comparator_ok cmp -> distinct cmp keys ->
  exists l sorted,
    InsertAll (SkipList_new cmp any rnd) keys = Some l /\
    Iterator_all l = Some sorted /\
    (it ← Iterator_SeekToLast l;
     Iterator_collect_back (length (nodes l)) l it) = Some (rev sorted).
Proof.
  intros Hcmp Hd.
  destruct (InsertAll_spec cmp any rnd keys Hcmp Hd)
    as (l & order & Hl & Hinv & Hc & Hk).
  assert (Hcmp' : comparator_ok (compare_ l)) by (by rewrite Hc).
  exists l, (keys_of l order). split; [done|].
  split; [by apply Iterator_all_spec|].
  by apply Iterator_back_spec.
Qed.

End SkipListClient.

Lemma Z_compare_ok : SkipListState.comparator_ok Z_compare.
Proof. split; unfold Z_compare; intros; lia. Qed.

Lemma distinct_3_1_2 : SkipListBack.distinct Z_compare [3; 1; 2].
Proof.
  intros i j ki kj Hij Hi Hj. unfold Z_compare.
  destruct i as [|[|[|i]]]; destruct j as [|[|[|j]]];
    cbn in Hi, Hj; try done; simplify_eq; lia.
Qed.

Lemma skiplist_contains_witness :
  SkipListState.comparator_ok Z_compare /\
  SkipListBack.distinct Z_compare [3; 1; 2] /\
  exists l,
    SkipListState.InsertAll
      (SkipList.SkipList_new Z_compare 0 counting_random) [3; 1; 2]
    = Some l /\
    forall k,
      SkipList.Contains l k
      = Some (existsb (fun k' => Z_compare k k' =? 0) [3; 1; 2]).
Proof.
  split; [exact Z_compare_ok|]. split; [exact distinct_3_1_2|].
  apply (skiplist_contains Z_compare 0 counting_random [3; 1; 2]
           Z_compare_ok distinct_3_1_2).
Defined.

Lemma skiplist_iteration_witness :
  SkipListState.comparator_ok Z_compare /\
  SkipListBack.distinct Z_compare [3; 1; 2] /\
  exists l sorted,
    SkipListState.InsertAll
      (SkipList.SkipList_new Z_compare 0 counting_random) [3; 1; 2]
    = Some l /\
    sorted ≡ₚ [3; 1; 2] /\
    StronglySorted (fun a b => Z_compare a b < 0) sorted /\
    SkipListState.Iterator_all l = Some sorted /\
    forall target,
      (it ← SkipList.Iterator_Seek l target;
       SkipListState.Iterator_collect (length (SkipList.nodes l)) l it)
      = Some (filter (fun k => ~ Z_compare k target < 0) sorted).
Proof.
  split; [exact Z_compare_ok|]. split; [exact distinct_3_1_2|].
  apply (skiplist_iteration Z_compare 0 counting_random [3; 1; 2]
           Z_compare_ok distinct_3_1_2).
Defined.

Lemma skiplist_backward_iteration_witness :
  SkipListState.comparator_ok Z_compare /\
  SkipListBack.distinct Z_compare [3; 1; 2] /\
  exists l sorted,
    SkipListState.InsertAll
      (SkipList.SkipList_new Z_compare 0 counting_random) [3; 1; 2]
    = Some l /\
    SkipListState.Iterator_all l = Some sorted /\
    (it ← SkipListBack.Iterator_SeekToLast l;
     SkipListBack.Iterator_collect_back (length (SkipList.nodes l)) l it)
    = Some (rev sorted).
Proof.
  split; [exact Z_compare_ok|]. split; [exact distinct_3_1_2|].
  apply (skiplist_backward_iteration Z_compare 0 counting_random [3; 1; 2]
           Z_compare_ok distinct_3_1_2).
Defined.

(** ** Comparators as total orders *)

Section ComparatorOrder.
Import SkipListState DBFormat.

Lemma Slice_compare_nil_cons (y : byte) (b : list byte) :
  Slice_compare [] (y :: b) = -1.
Proof.
  unfold Slice_compare, size_of. cbn [length].
  destruct (Z.ltb_spec (Z.of_nat 0) (Z.of_nat (S (length b)))); [|lia].
  done.
Qed.

Lemma Slice_compare_cons_nil (x : byte) (a : list byte) :
  Slice_compare (x :: a) [] = 1.
Proof.
  unfold Slice_compare, size_of. cbn [length].
  destruct (Z.ltb_spec (Z.of_nat (S (length a))) (Z.of_nat 0)); [lia|].
  cbn [Z.of_nat Z.to_nat memcmp Z.eqb].
  destruct (Z.ltb_spec 0 (Z.of_nat (S (length a)))); [done|lia].
Qed.

Lemma Slice_compare_antisym (a b : list byte) :
  Slice_compare a b < 0 <-> 0 < Slice_compare b a.
Proof.
  revert b. induction a as [|x a IH]; intros [|y b].
  - by rewrite Slice_compare_refl.
  - rewrite Slice_compare_nil_cons, Slice_compare_cons_nil. lia.
  - rewrite Slice_compare_nil_cons, Slice_compare_cons_nil. lia.
  - rewrite !Slice_compare_cons. specialize (IH b).
    destruct (Z.ltb_spec (byte_to_Z x) (byte_to_Z y));
      destruct (Z.ltb_spec (byte_to_Z y) (byte_to_Z x)); lia.
Qed.

Lemma Slice_compare_trans (a b c : list byte) :
  Slice_compare a b < 0 -> Slice_compare b c <= 0 -> Slice_compare a c < 0.
Proof.
  revert b c. induction a as [|x a IH]; intros [|y b] [|z c];
    rewrite ?Slice_compare_refl, ?Slice_compare_nil_cons,
      ?Slice_compare_cons_nil, ?Slice_compare_cons; try lia.
  specialize (IH b c).
  destruct (Z.ltb_spec (byte_to_Z x) (byte_to_Z y));
    destruct (Z.ltb_spec (byte_to_Z y) (byte_to_Z x));
    destruct (Z.ltb_spec (byte_to_Z y) (byte_to_Z z));
    destruct (Z.ltb_spec (byte_to_Z z) (byte_to_Z y));
    destruct (Z.ltb_spec (byte_to_Z x) (byte_to_Z z));
    destruct (Z.ltb_spec (byte_to_Z z) (byte_to_Z x)); lia.
Qed.

Lemma BytewiseComparator_ok : comparator_ok BytewiseComparator.
Proof.
  split.
  - apply Slice_compare_antisym.
  - apply Slice_compare_trans.
Qed.

(** Consequences of the two laws. *)
Lemma cmp_sym0 {Key : Type} (cmp : Key -> Key -> Z) (a b : Key) :
  comparator_ok cmp -> (cmp a b = 0 <-> cmp b a = 0).
Proof.
  intros Hcmp.
  pose proof (cmp_antisym _ Hcmp a b). pose proof (cmp_antisym _ Hcmp b a).
  lia.
Qed.

Lemma cmp_trans' {Key : Type} (cmp : Key -> Key -> Z) (a b c : Key) :
  comparator_ok cmp -> cmp a b <= 0 -> cmp b c < 0 -> cmp a c < 0.
Proof.
  intros Hcmp Hab Hbc.
  destruct (Z.lt_ge_cases (cmp a c) 0) as [|Hge]; [done|exfalso].
  assert (Hca : cmp c a <= 0).
  { pose proof (cmp_antisym _ Hcmp a c). lia. }
  pose proof (cmp_trans _ Hcmp b c a Hbc Hca) as Hba.
  pose proof (cmp_antisym _ Hcmp b a). lia.
Qed.

Lemma cmp_trans0 {Key : Type} (cmp : Key -> Key -> Z) (a b c : Key) :
  comparator_ok cmp -> cmp a b = 0 -> cmp b c = 0 -> cmp a c = 0.
Proof.
  intros Hcmp Hab Hbc.
  destruct (Z.lt_trichotomy (cmp a c) 0) as [Hlt|[|Hgt]]; [exfalso|done|exfalso].
  - assert (Hcb : cmp c b <= 0) by (apply (cmp_sym0 _ _ _ Hcmp) in Hbc; lia).
    pose proof (cmp_trans _ Hcmp a c b Hlt Hcb). lia.
  - assert (Hca : cmp c a < 0)
      by (pose proof (cmp_antisym _ Hcmp c a); lia).
    pose proof (cmp_trans _ Hcmp c a b Hca ltac:(lia)) as Hcb.
    pose proof (cmp_antisym _ Hcmp c b). lia.
Qed.

Lemma InternalKeyComparator_ok (ucmp : Comparator) :
  comparator_ok ucmp -> comparator_ok (InternalKeyComparator_Compare ucmp).
Proof.
  intros Hu. split.
  - intros a b. unfold InternalKeyComparator_Compare.
    pose proof (cmp_antisym _ Hu (ExtractUserKey a) (ExtractUserKey b)).
    pose proof (cmp_antisym _ Hu (ExtractUserKey b) (ExtractUserKey a)).
    repeat match goal with
           | |- context [?u =? ?v] => destruct (Z.eqb_spec u v)
           | |- context [?u <? ?v] => destruct (Z.ltb_spec u v)
           end; lia.
  - intros a b c. unfold InternalKeyComparator_Compare.
    pose proof (cmp_trans _ Hu (ExtractUserKey a) (ExtractUserKey b)
                  (ExtractUserKey c)).
    pose proof (cmp_trans' _ (ExtractUserKey a) (ExtractUserKey b)
                  (ExtractUserKey c) Hu).
    pose proof (cmp_trans0 _ (ExtractUserKey a) (ExtractUserKey b)
                  (ExtractUserKey c) Hu).
    repeat match goal with
           | |- context [?u =? ?v] => destruct (Z.eqb_spec u v)
           | |- context [?u <? ?v] => destruct (Z.ltb_spec u v)
           end; lia.
Qed.

Lemma KeyComparator_ok (ucmp : Comparator) :
  comparator_ok ucmp -> comparator_ok (MemTable.KeyComparator ucmp).
Proof.
  intros Hu. pose proof (InternalKeyComparator_ok ucmp Hu) as [Ha Ht].
  split; unfold MemTable.KeyComparator; intros.
  - apply Ha.
  - by eapply Ht.
Qed.

End ComparatorOrder.

(** ** db/memtable.cc: entries under the table's comparator *)

Section MemTableOrder.
Import SkipListState SkipListBack DBFormat MemTable MemTableUse.

(** The tag of an entry as a number. *)
Lemma encoded_slice (k : list byte) (tag : Z) (rest : list byte) :
  size_of k + 8 < 2 ^ 32 ->
  GetLengthPrefixedSlice (encoded k tag rest) = k ++ Coding.EncodeFixed64 tag.
Proof.
  intros Hk. pose proof (size_of_nonneg k) as Hk0. unfold encoded.
  rewrite (u32_small (size_of k + 8)) by lia.
  destruct (memtable_slice_encoded (size_of k + 8)
              (k ++ Coding.EncodeFixed64 tag ++ rest) ltac:(lia))
    as (_ & _ & ->).
  rewrite (app_assoc k), <- (size_of_EncodeFixed64 tag), <- size_of_app.
  apply Slice_app_size.
Qed.

Lemma internal_key_parts (k : list byte) (tag : Z) :
  0 <= tag < 2 ^ 64 ->
  ExtractUserKey (k ++ Coding.EncodeFixed64 tag) = k /\
  ExtractTag (k ++ Coding.EncodeFixed64 tag) = tag.
Proof.
  intros Ht. split.
  - apply (ExtractUserKey_PutFixed64 k tag).
  - unfold ExtractTag. rewrite size_of_app, size_of_EncodeFixed64.
    replace (size_of k + 8 - 8) with (size_of k) by lia.
    rewrite advance_app_size.
    rewrite <- (app_nil_r (Coding.EncodeFixed64 tag)).
    rewrite DecodeFixed64_EncodeFixed64. by apply u64_small.
Qed.

Lemma KeyComparator_encoded (ucmp : Comparator)
    (k1 : list byte) (t1 : Z) (rest1 : list byte)
    (k2 : list byte) (t2 : Z) (rest2 : list byte) :
  size_of k1 + 8 < 2 ^ 32 -> size_of k2 + 8 < 2 ^ 32 ->
  0 <= t1 < 2 ^ 64 -> 0 <= t2 < 2 ^ 64 ->
  KeyComparator ucmp (encoded k1 t1 rest1) (encoded k2 t2 rest2)
  = if ucmp k1 k2 =? 0 then
      if t2 <? t1 then -1 else if t1 <? t2 then 1 else ucmp k1 k2
    else ucmp k1 k2.
Proof.
  intros H1 H2 Ht1 Ht2. unfold KeyComparator.
  rewrite !encoded_slice by done. unfold InternalKeyComparator_Compare.
  destruct (internal_key_parts k1 t1 Ht1) as (-> & ->).
  destruct (internal_key_parts k2 t2 Ht2) as (-> & ->). done.
Qed.

Lemma tag_of_range (w : Write) : fits w -> 0 <= tag_of w < 2 ^ 64.
Proof.
  intros (Hs & _). unfold tag_of. destruct (w_type w); cbn [ValueType_to_Z]; lia.
Qed.

Lemma entry_encoded (w : Write) :
  fits w ->
  entry w
  = encoded (w_key w) (tag_of w)
      (Coding.EncodeVarint32 (u32 (size_of (w_value w))) ++ w_value w).
Proof.
  intros Hf. pose proof (tag_of_range w Hf) as Ht.
  destruct Hf as (Hs & _). unfold entry, Add_buf, encoded.
  rewrite tag_value by lia. fold (tag_of w). by rewrite u64_small.
Qed.

Lemma memtable_key_encoded (user_key : list byte) (snapshot : Z) :
  0 <= snapshot < 2 ^ 56 ->
  memtable_key (LookupKey_new user_key snapshot)
  = encoded user_key (snapshot * 256 + 1) [].
Proof.
  intros Hs. unfold memtable_key, LookupKey_new, encoded. cbn [start_].
  unfold PackSequenceAndType, kValueTypeForSeek.
  rewrite tag_value by lia. cbn [ValueType_to_Z].
  rewrite u64_small by lia. by rewrite app_nil_r.
Qed.

Lemma LookupKey_user_key_new (user_key : list byte) (snapshot : Z) :
  LookupKey_user_key (LookupKey_new user_key snapshot) = user_key.
Proof.
  unfold LookupKey_user_key, LookupKey_new. cbn [start_ kstart_].
  rewrite advance_app_size, !size_of_app, size_of_EncodeFixed64.
  replace (_ - _ - 8) with (size_of user_key) by lia.
  apply Slice_app_size.
Qed.

(** [AddAll] is [InsertAll] of the entries. *)
Lemma AddAll_InsertAll (ucmp : Comparator) (rnd : Random) (ws : list Write) :
  AddAll (MemTable_new ucmp rnd) ws
  = (fun t => {| comparator_ := ucmp; refs_ := 0; table_ := t |})
    <$> InsertAll (SkipList.SkipList_new (KeyComparator ucmp) [] rnd)
          (map entry ws).
Proof.
  induction ws as [|w ws IH] using rev_ind; [done|].
  unfold AddAll. rewrite foldl_app. fold (AddAll (MemTable_new ucmp rnd) ws).
  rewrite map_app. cbn [map]. rewrite InsertAll_snoc, IH.
  cbn [foldl]. destruct (InsertAll _ _) as [l|]; [|done].
  cbn [fmap option_fmap option_map mbind option_bind].
  unfold Add. cbn [table_ comparator_ refs_]. fold (entry w).
  by destruct (SkipList.Insert l (entry w)).
Qed.

End MemTableOrder.

(** ** db/skiplist.h: where [Seek] stops *)

Section SkipListSeek.
Import SkipList SkipListState SkipListBack.
Context {Key : Type}.
Implicit Types (l : SkipList Key) (k : Key) (order c : list nat).

Lemma Iterator_Seek_least l order k :
  skiplist_inv l order -> comparator_ok (compare_ l) ->
  exists it,
    Iterator_Seek l k = Some it /\
    match node_ it with
    | None =>
        Iterator_Valid it = false /\
        forall k', k' ∈ keys_of l order -> compare_ l k' k < 0
    | Some a =>
        Iterator_Valid it = true /\
        exists e,
          Iterator_key l it = Some e /\ e ∈ keys_of l order /\
          ~ compare_ l e k < 0 /\
          forall k', k' ∈ keys_of l order -> ~ compare_ l k' k < 0 ->
                     compare_ l e k' <= 0
    end.
Proof.
  intros Hinv Hcmp. unfold Iterator_Seek.
  rewrite (FindGreaterOrEqual_spec l k order None Hinv Hcmp).
  cbn [mbind option_bind fmap option_fmap option_map].
  eexists. split; [done|]. cbn [node_].
  pose proof (sorted_split l k order Hcmp (inv_sorted _ _ Hinv)) as Hsplit.
  pose proof (inv_sorted _ _ Hinv) as Hs. rewrite Hsplit in Hs.
  apply StronglySorted_app in Hs as (_ & _ & HsA).
  assert (Hin : forall b nb, b ∈ order -> nodes l !! b = Some nb ->
            ~ compare_ l (key nb) k < 0 -> b ∈ after l k order).
  { intros b nb Hb Hnb Hz. apply list_elem_of_filter. split; [|done].
    intros Hbef. apply is_before_spec in Hbef as (nb' & Hnb' & Hlt).
    rewrite Hnb in Hnb'. by injection Hnb' as <-. }
  destruct (after l k order) as [|a rest] eqn:Hafter; cbn [head].
  - split; [done|]. intros k' Hk'.
    apply list_elem_of_omap in Hk' as (b & Hb & Hkb).
    destruct (nodes l !! b) as [nb|] eqn:Hnb; [|done].
    injection Hkb as <-.
    destruct (Z.lt_ge_cases (compare_ l (key nb) k) 0) as [|Hge]; [done|].
    pose proof (Hin b nb Hb Hnb ltac:(lia)) as Hba.
    by apply elem_of_nil in Hba.
  - split; [done|].
    assert (Ha : a ∈ after l k order) by (rewrite Hafter; left).
    apply list_elem_of_filter in Ha as (Hanb & Hao).
    destruct (inv_valid l order Hinv a Hao) as [nd Hnd].
    exists (key nd). unfold Iterator_key. cbn [node_ mbind option_bind].
    rewrite Hnd. split; [done|]. split; [|split].
    + apply list_elem_of_omap. exists a. split; [done|]. by rewrite Hnd.
    + intros Hlt. apply Hanb. apply is_before_spec. eauto.
    + intros k' Hk' Hnb'.
      apply list_elem_of_omap in Hk' as (b & Hb & Hkb).
      destruct (nodes l !! b) as [nb|] eqn:Hnb; [|done].
      injection Hkb as <-.
      pose proof (Hin b nb Hb Hnb Hnb') as Hba.
      apply elem_of_cons in Hba as [->|Hba].
      * rewrite Hnd in Hnb. injection Hnb as <-.
        pose proof (cmp_antisym _ Hcmp (key nd) (key nd)). lia.
      * apply StronglySorted_cons in HsA as (Hall & _).
        rewrite Forall_forall in Hall.
        destruct (Hall b Hba) as (na & nb' & Hna & Hnb'' & Hlt).
        rewrite Hnd in Hna. injection Hna as <-.
        rewrite Hnb in Hnb''. injection Hnb'' as <-. lia.
Qed.

End SkipListSeek.

(** ** db/memtable.cc: Get *)

Section MemTableGet.
Import SkipListState SkipListBack DBFormat MemTable MemTableUse.

Lemma land_tag_type (w : Write) :
  fits w -> Z.land (tag_of w) 255 = ValueType_to_Z (w_type w).
Proof.
  intros (Hs & _). unfold tag_of. change 255 with (Z.ones 8).
  rewrite Z.land_ones by lia. change (2 ^ 8) with 256.
  rewrite Z.add_comm, Z.mod_add by lia.
  destruct (w_type w); done.
Qed.

Lemma Get_at_entry (m : MemTable) (lk : LookupKey) (value : list byte)
    (s : Status) (it : SkipList.Iterator) (w : Write) :
  SkipList.Iterator_Seek (table_ m) (memtable_key lk) = Some it ->
  SkipList.Iterator_Valid it = true ->
  SkipList.Iterator_key (table_ m) it = Some (entry w) ->
  fits w ->
  Get m lk value s
  = Some (if comparator_ m (w_key w) (LookupKey_user_key lk) =? 0
          then outcome w value s
          else {| found := false; value_out := value; status_out := s |}).
Proof.
  intros Hseek Hvalid Hkey Hf.
  pose proof (tag_of_range w Hf) as Ht.
  pose proof (land_tag_type w Hf) as Hty.
  pose proof (size_of_nonneg (w_key w)) as Hk0.
  pose proof (size_of_nonneg (w_value w)) as Hv0.
  unfold Get. rewrite Hseek. cbn [mbind option_bind].
  rewrite Hvalid, Hkey. cbn [mbind option_bind].
  rewrite (entry_encoded w Hf). destruct Hf as (Hs & Hk & Hv).
  unfold encoded. rewrite (u32_small (size_of (w_key w) + 8)) by lia.
  rewrite (u32_small (size_of (w_value w))) by lia.
  set (tail := Coding.EncodeVarint32 (size_of (w_value w)) ++ w_value w).
  destruct (memtable_slice_encoded (size_of (w_key w) + 8)
              (w_key w ++ Coding.EncodeFixed64 (tag_of w) ++ tail)
              ltac:(lia)) as (-> & -> & _).
  replace (size_of (w_key w) + 8 - 8) with (size_of (w_key w)) by lia.
  rewrite Slice_app_size, advance_app_size.
  destruct (comparator_ m (w_key w) (LookupKey_user_key lk) =? 0); [|done].
  rewrite DecodeFixed64_EncodeFixed64, (u64_small _ Ht), Hty.
  assert (Hval : GetLengthPrefixedSlice
                   (advance (size_of (w_key w) + 8)
                      (w_key w ++ Coding.EncodeFixed64 (tag_of w) ++ tail))
                 = w_value w).
  { rewrite (app_assoc (w_key w)).
    rewrite <- (size_of_EncodeFixed64 (tag_of w)) at 1.
    rewrite <- size_of_app, advance_app_size. unfold tail.
    destruct (memtable_slice_encoded (size_of (w_value w)) (w_value w)
                ltac:(lia)) as (_ & _ & ->).
    by apply Slice_all. }
  rewrite Hval. unfold outcome. by destruct (w_type w).
Qed.

Lemma Get_at_end (m : MemTable) (lk : LookupKey) (value : list byte)
    (s : Status) (it : SkipList.Iterator) :
  SkipList.Iterator_Seek (table_ m) (memtable_key lk) = Some it ->
  SkipList.Iterator_Valid it = false ->
  Get m lk value s
  = Some {| found := false; value_out := value; status_out := s |}.
Proof.
  intros Hseek Hvalid. unfold Get. rewrite Hseek. cbn [mbind option_bind].
  by rewrite Hvalid.
Qed.

Lemma tag_of_le (w w' : Write) :
  fits w -> fits w' -> (tag_of w <= tag_of w' -> w_seq w <= w_seq w') /\
                       (w_seq w < w_seq w' -> tag_of w < tag_of w').
Proof.
  intros _ _. unfold tag_of.
  destruct (w_type w), (w_type w'); cbn [ValueType_to_Z]; lia.
Qed.

Lemma entries_distinct (ucmp : Comparator) (ws : list Write) :
  (forall i j wi wj, i <> j -> ws !! i = Some wi -> ws !! j = Some wj ->
                     w_seq wi <> w_seq wj) ->
  Forall fits ws ->
  distinct (KeyComparator ucmp) (map entry ws).
Proof.
  intros Hseq Hfits i j ei ej Hij Hi Hj.
  change (map entry ws) with (entry <$> ws) in Hi, Hj.
  rewrite list_lookup_fmap in Hi, Hj.
  destruct (ws !! i) as [wi|] eqn:Hwi; [|done].
  destruct (ws !! j) as [wj|] eqn:Hwj; [|done].
  injection Hi as <-. injection Hj as <-.
  pose proof (Forall_lookup_1 _ _ _ _ Hfits Hwi) as Hfi.
  pose proof (Forall_lookup_1 _ _ _ _ Hfits Hwj) as Hfj.
  rewrite (entry_encoded wi Hfi), (entry_encoded wj Hfj).
  rewrite KeyComparator_encoded;
    try apply tag_of_range; try done; try apply Hfi; try apply Hfj.
  pose proof (Hseq i j wi wj Hij Hwi Hwj) as Hne.
  pose proof (tag_of_le wi wj Hfi Hfj) as (H1 & H2).
  pose proof (tag_of_le wj wi Hfj Hfi) as (H3 & H4).
  repeat match goal with
         | |- context [?u =? ?v] => destruct (Z.eqb_spec u v)
         | |- context [?u <? ?v] => destruct (Z.ltb_spec u v)
         end; lia.
Qed.

(** The entry of a write against the key [Get] seeks. *)
Lemma entry_vs_memtable_key (ucmp : Comparator) (w : Write)
    (user_key : list byte) (snapshot : Z) :
  fits w -> 0 <= snapshot < 2 ^ 56 -> size_of user_key + 8 < 2 ^ 32 ->
  KeyComparator ucmp (entry w)
    (memtable_key (LookupKey_new user_key snapshot))
  = if ucmp (w_key w) user_key =? 0 then
      if snapshot <? w_seq w then -1
      else if w_seq w <? snapshot then 1
      else if ValueType_to_Z (w_type w) <? 1 then 1
      else 0
    else ucmp (w_key w) user_key.
Proof.
  intros Hf Hs Hu. pose proof (tag_of_range w Hf) as Ht.
  rewrite (entry_encoded w Hf), (memtable_key_encoded _ _ Hs).
  rewrite KeyComparator_encoded; try done; try lia; try apply Hf.
  unfold tag_of.
  destruct (w_type w); cbn [ValueType_to_Z];
  repeat match goal with
         | |- context [?u =? ?v] => destruct (Z.eqb_spec u v)
         | |- context [?u <? ?v] => destruct (Z.ltb_spec u v)
         end; lia.
Qed.

End MemTableGet.

(** ** db/memtable.cc: what a reader sees *)

Section MemTableReads.
Import SkipListState SkipListBack DBFormat MemTable MemTableUse.

(** X24 (a reader sees the newest write of its snapshot).  Let writes with
    pairwise different sequence numbers be added to a new memtable in any
    order, under a user comparator that is a three-way comparison of a
    total order.  Every [Add] returns.  [Get] with a lookup key for
    [user_key] at [snapshot] then answers from the write with the largest
    sequence number among those whose key compares equal to [user_key] and
    whose sequence number is at most [snapshot]: it returns true with that
    write's value if it is a value, and true with status NotFound, leaving
    [*value] alone, if it is a deletion.  If there is no such write, [Get]
    returns false and leaves [*value] and the status alone. *)
Theorem memtable_get_newest (ucmp : Comparator) (rnd : Random)
    (ws : list Write) (user_key : list byte) (snapshot : Z)
    (value : list byte) (s : Status) :
  comparator_ok ucmp ->
  (forall i j wi wj, i <> j -> ws !! i = Some wi -> ws !! j = Some wj ->
                     w_seq wi <> w_seq wj) ->
  Forall fits ws ->
  0 <= snapshot < 2 ^ 56 -> size_of user_key + 8 < 2 ^ 32 ->
  exists m,
    AddAll (MemTable_new ucmp rnd) ws = Some m /\
    (forall w,
       w ∈ ws -> visible ucmp user_key snapshot w ->
       (forall w', w' ∈ ws -> visible ucmp user_key snapshot w' ->
                   w_seq w' <= w_seq w) ->
       Get m (LookupKey_new user_key snapshot) value s
       = Some (outcome w value s)) /\
    ((forall w, w ∈ ws -> ~ visible ucmp user_key snapshot w) ->
     Get m (LookupKey_new user_key snapshot) value s
     = Some {| found := false; value_out := value; status_out := s |}).
Proof.
  intros Hu Hseq Hfits Hsnap Hsize.
  pose proof (KeyComparator_ok ucmp Hu) as Hcmp.
  destruct (InsertAll_spec (KeyComparator ucmp) [] rnd (map entry ws) Hcmp
              (entries_distinct ucmp ws Hseq Hfits))
    as (l & order & Hl & Hinv & Hc & Hk).
  exists {| comparator_ := ucmp; refs_ := 0; table_ := l |}.
  split; [by rewrite AddAll_InsertAll, Hl|].
  assert (Hcmp' : comparator_ok (SkipList.compare_ l)) by (by rewrite Hc).
  set (lk := LookupKey_new user_key snapshot).
  set (m := {| comparator_ := ucmp; refs_ := 0; table_ := l |}).
  destruct (Iterator_Seek_least l order (memtable_key lk) Hinv Hcmp')
    as (it & Hseek & Hit).
  rewrite Hc in Hit.
  assert (Hkeys : forall e, e ∈ keys_of l order <->
                            exists w, w ∈ ws /\ e = entry w).
  { intros e. rewrite (inv_keys l order [] (map entry ws) Hinv Hk).
    change (map entry ws) with (entry <$> ws). rewrite list_elem_of_fmap.
    split; intros (w & H1 & H2); eauto. }
  assert (Hfit : forall w, w ∈ ws -> fits w)
    by (by apply Forall_forall).
  assert (Huk : LookupKey_user_key lk = user_key)
    by apply LookupKey_user_key_new.
  split.
  - intros w Hw (Hwk & Hws) Hmax.
    pose proof (entry_vs_memtable_key ucmp w user_key snapshot (Hfit w Hw)
                  Hsnap Hsize) as Hwmk. fold lk in Hwmk.
    rewrite Hwk in Hwmk. cbn [Z.eqb] in Hwmk.
    assert (Hwnb : ~ KeyComparator ucmp (entry w) (memtable_key lk) < 0).
    { rewrite Hwmk.
      repeat match goal with
             | |- context [?u <? ?v] => destruct (Z.ltb_spec u v)
             end; lia. }
    assert (Hwin : entry w ∈ keys_of l order) by (apply Hkeys; eauto).
    destruct (SkipList.node_ it) as [a|].
    2:{ destruct Hit as (_ & Hall). by specialize (Hall _ Hwin). }
    destruct Hit as (Hvalid & e & Hkey & He & Henb & Hleast).
    apply Hkeys in He as (w' & Hw' & ->).
    specialize (Hleast _ Hwin Hwnb).
    pose proof (entry_vs_memtable_key ucmp w' user_key snapshot
                  (Hfit w' Hw') Hsnap Hsize) as Hw'mk. fold lk in Hw'mk.
    rewrite Hw'mk in Henb.
    rewrite (entry_encoded w' (Hfit w' Hw')),
      (entry_encoded w (Hfit w Hw)) in Hleast.
    rewrite KeyComparator_encoded in Hleast;
      try apply tag_of_range; try apply Hfit; try done.
    (* the key of [w'] equals [user_key] *)
    assert (Hw'k : ucmp (w_key w') user_key = 0).
    { destruct (Z.lt_trichotomy (ucmp (w_key w') user_key) 0)
        as [Hlt|[|Hgt]]; [exfalso|done|exfalso].
      - destruct (Z.eqb_spec (ucmp (w_key w') user_key) 0); lia.
      - assert (Hukw' : ucmp user_key (w_key w') < 0)
          by (pose proof (cmp_antisym _ Hu user_key (w_key w')); lia).
        assert (Hle : ucmp (w_key w') (w_key w) <= 0).
        { revert Hleast.
          repeat match goal with
                 | |- context [?u =? ?v] => destruct (Z.eqb_spec u v)
                 | |- context [?u <? ?v] => destruct (Z.ltb_spec u v)
                 end; lia. }
        pose proof (cmp_trans _ Hu _ _ _ Hukw' Hle) as Hlt.
        pose proof (cmp_antisym _ Hu user_key (w_key w)). lia. }
    assert (Hvis' : visible ucmp user_key snapshot w').
    { split; [done|]. rewrite Hw'k in Henb. cbn [Z.eqb] in Henb.
      destruct (Z.ltb_spec snapshot (w_seq w')); lia. }
    pose proof (Hmax w' Hw' Hvis') as Hle1.
    assert (Hkk : ucmp (w_key w') (w_key w) = 0).
    { apply (cmp_trans0 _ _ user_key _ Hu Hw'k).
      by apply (cmp_sym0 _ _ _ Hu). }
    rewrite Hkk in Hleast. cbn [Z.eqb] in Hleast.
    assert (Hle2 : w_seq w <= w_seq w').
    { apply (tag_of_le w w' (Hfit w Hw) (Hfit w' Hw')).
      revert Hleast.
      repeat match goal with
             | |- context [?u <? ?v] => destruct (Z.ltb_spec u v)
             end; lia. }
    assert (Hww : w' = w).
    { apply list_elem_of_lookup_1 in Hw as (i & Hi).
      apply list_elem_of_lookup_1 in Hw' as (j & Hj).
      destruct (decide (j = i)) as [->|Hne]; [congruence|].
      pose proof (Hseq j i w' w Hne Hj Hi). lia. }
    subst w'.
    rewrite (Get_at_entry m lk value s it w Hseek Hvalid Hkey (Hfit w Hw)).
    cbn [comparator_ m]. by rewrite Huk, Hwk.
  - intros Hnone.
    destruct (SkipList.node_ it) as [a|].
    2:{ destruct Hit as (Hvalid & _).
        apply (Get_at_end m lk value s it Hseek Hvalid). }
    destruct Hit as (Hvalid & e & Hkey & He & Henb & _).
    apply Hkeys in He as (w' & Hw' & ->).
    pose proof (entry_vs_memtable_key ucmp w' user_key snapshot
                  (Hfit w' Hw') Hsnap Hsize) as Hw'mk. fold lk in Hw'mk.
    rewrite Hw'mk in Henb.
    rewrite (Get_at_entry m lk value s it w' Hseek Hvalid Hkey (Hfit w' Hw')).
    cbn [comparator_ m]. rewrite Huk.
    destruct (Z.eqb_spec (ucmp (w_key w') user_key) 0) as [Heq|]; [|done].
    exfalso. apply (Hnone w' Hw'). split; [done|].
    destruct (Z.ltb_spec snapshot (w_seq w')); lia.
Qed.

End MemTableReads.

Lemma example_writes_seqs :
  forall i j wi wj,
    i <> j -> MemTableUse.example_writes !! i = Some wi ->
    MemTableUse.example_writes !! j = Some wj ->
    MemTableUse.w_seq wi <> MemTableUse.w_seq wj.
Proof.
  intros i j wi wj Hij Hi Hj.
  destruct i as [|[|[|i]]]; destruct j as [|[|[|j]]];
    cbn in Hi, Hj; try done; simplify_eq; cbn; lia.
Qed.

Lemma example_writes_fit : Forall MemTableUse.fits MemTableUse.example_writes.
Proof. repeat constructor; cbn; lia. Qed.

Lemma memtable_get_newest_witness :
  SkipListState.comparator_ok BytewiseComparator /\
  (forall i j wi wj,
     i <> j -> MemTableUse.example_writes !! i = Some wi ->
     MemTableUse.example_writes !! j = Some wj ->
     MemTableUse.w_seq wi <> MemTableUse.w_seq wj) /\
  Forall MemTableUse.fits MemTableUse.example_writes /\
  0 <= 2 < 2 ^ 56 /\ size_of [x6b] + 8 < 2 ^ 32 /\
  exists m,
    MemTableUse.AddAll (MemTable.MemTable_new BytewiseComparator
                          counting_random) MemTableUse.example_writes
    = Some m /\
    (forall w,
       w ∈ MemTableUse.example_writes ->
       MemTableUse.visible BytewiseComparator [x6b] 2 w ->
       (forall w', w' ∈ MemTableUse.example_writes ->
                   MemTableUse.visible BytewiseComparator [x6b] 2 w' ->
                   MemTableUse.w_seq w' <= MemTableUse.w_seq w) ->
       MemTable.Get m (DBFormat.LookupKey_new [x6b] 2) [] OK
       = Some (MemTableUse.outcome w [] OK)) /\
    ((forall w, w ∈ MemTableUse.example_writes ->
                ~ MemTableUse.visible BytewiseComparator [x6b] 2 w) ->
     MemTable.Get m (DBFormat.LookupKey_new [x6b] 2) [] OK
     = Some {| MemTable.found := false; MemTable.value_out := [];
               MemTable.status_out := OK |}).
Proof.
  split; [exact BytewiseComparator_ok|].
  split; [exact example_writes_seqs|].
  split; [exact example_writes_fit|].
  split; [lia|]. split; [reflexivity|].
  apply (memtable_get_newest BytewiseComparator counting_random
           MemTableUse.example_writes [x6b] 2 [] OK
           BytewiseComparator_ok example_writes_seqs example_writes_fit);
    [lia|reflexivity].
Defined.

(** ** table/table_builder.cc, table/format.cc: writing and reading a block *)

Section TableBlocks.
Import Coding Format Log TableBuilder.

Lemma size_of_EncodeFixed32 (v : Z) : size_of (EncodeFixed32 v) = 4.
Proof. done. Qed.

Lemma Mask_range (x : Z) : 0 <= Mask x < 2 ^ 32.
Proof. unfold Mask. apply u32_range. Qed.

Lemma WriteRawBlock_spec (crc : Crc32c) (r : Rep) (block_contents : list byte)
    (type : CompressionType) :
  WriteRawBlock crc r block_contents type
  = (set_offset
       (Append (Append r block_contents)
          (trailer crc block_contents type))
       (u64 (offset r + (size_of block_contents + kBlockTrailerSize))),
     {| offset_ := offset r; size_ := size_of block_contents |}).
Proof. done. Qed.

Lemma type_byte (type : CompressionType) :
  byte_to_Z (Z_to_byte (CompressionType_to_Z type))
  = CompressionType_to_Z type.
Proof. by destruct type. Qed.

(** Reading back a block and its trailer, wherever they lie in a file. *)
Lemma ReadBlock_written (port : Port) (crc : Crc32c)
    (pre block_contents ext : list byte) (type : CompressionType)
    (scratch verify : bool) :
  Crc32c_ok crc ->
  size_of block_contents + 5 < 2 ^ 64 ->
  ReadBlock port crc
    {| contents := pre ++ (block_contents
                           ++ trailer crc block_contents type) ++ ext;
       uses_scratch := scratch |}
    verify {| offset_ := size_of pre; size_ := size_of block_contents |}
  = match type with
    | kNoCompression =>
        (OK, {| data := block_contents; cachable := scratch;
                heap_allocated := scratch |})
    | kSnappyCompression =>
        match Snappy_GetUncompressedLength port block_contents,
              Snappy_Uncompress port block_contents with
        | Some ulength, Some ubuf =>
            (OK, {| data := Slice ubuf ulength; cachable := true;
                    heap_allocated := true |})
        | _, _ =>
            (Error kCorruption "corrupted compressed block contents",
             no_block)
        end
    end.
Proof.
  intros [Hrange Hext] Hsize.
  pose proof (size_of_nonneg block_contents) as Hn0.
  unfold trailer.
  set (tb := Z_to_byte (CompressionType_to_Z type)).
  set (c := u32 (crc_Extend crc (u32 (crc_Value crc block_contents)) [tb])).
  set (n := size_of block_contents).
  unfold ReadBlock, Read. cbn [contents uses_scratch offset_ size_].
  fold n. unfold kBlockTrailerSize. rewrite (u64_small (n + 5)) by lia.
  rewrite advance_app_size.
  assert (Hlen : size_of (block_contents ++ tb :: EncodeFixed32 (Mask c))
                 = n + 5).
  { unfold n, size_of. rewrite length_app. cbn [length].
    change (length (EncodeFixed32 (Mask c))) with 4%nat. lia. }
  assert (Hslice : Slice ((block_contents ++ tb :: EncodeFixed32 (Mask c))
                          ++ ext) (n + 5)
                   = block_contents ++ tb :: EncodeFixed32 (Mask c))
    by (rewrite <- Hlen; apply Slice_app_size).
  rewrite !Hslice, Hlen.
  cbn [Status_ok negb]. rewrite Z.eqb_refl. cbn [negb].
  assert (Hcrc : u32 (crc_Value crc
                        (Slice (block_contents ++ tb :: EncodeFixed32 (Mask c))
                           (n + 1)))
                 = Unmask (DecodeFixed32
                             (advance (n + 1)
                                (block_contents
                                 ++ tb :: EncodeFixed32 (Mask c))))).
  { replace (block_contents ++ tb :: EncodeFixed32 (Mask c))
      with ((block_contents ++ [tb]) ++ EncodeFixed32 (Mask c))
      by (by rewrite <- app_assoc).
    replace (n + 1) with (size_of (block_contents ++ [tb]))
      by (rewrite size_of_app; done).
    rewrite Slice_app_size, advance_app_size.
    rewrite <- (app_nil_r (EncodeFixed32 (Mask c))).
    rewrite DecodeFixed32_EncodeFixed32.
    rewrite (u32_small (Mask c)) by apply Mask_range.
    rewrite Unmask_Mask by apply u32_range.
    unfold c. rewrite (u32_small (crc_Value crc block_contents))
      by apply Hrange.
    by rewrite Hext. }
  assert (Hbad : (if verify
                  then negb (u32 (crc_Value crc
                               (Slice (block_contents
                                       ++ tb :: EncodeFixed32 (Mask c))
                                  (n + 1)))
                             =? Unmask (DecodeFixed32
                                  (advance (n + 1)
                                     (block_contents
                                      ++ tb :: EncodeFixed32 (Mask c)))))
                  else false) = false).
  { destruct verify; [|done]. by rewrite Hcrc, Z.eqb_refl. }
  rewrite Hbad.
  assert (Htype : nth (Z.to_nat n)
                    (block_contents ++ tb :: EncodeFixed32 (Mask c)) x00
                  = tb).
  { unfold n, size_of. rewrite Nat2Z.id.
    rewrite app_nth2 by lia. by rewrite Nat.sub_diag. }
  assert (Htb : byte_to_Z tb = CompressionType_to_Z type) by apply type_byte.
  rewrite Htype, !Htb.
  assert (Hdata : Slice (block_contents ++ tb :: EncodeFixed32 (Mask c)) n
                  = block_contents) by apply Slice_app_size.
  rewrite Hdata.
  destruct type; cbn [CompressionType_to_Z Z.eqb].
  - by destruct scratch.
  - destruct (Snappy_GetUncompressedLength port block_contents); [|done].
    by destruct (Snappy_Uncompress port block_contents).
Qed.

(** A file that ends before the end of the trailer. *)
Lemma ReadBlock_truncated (port : Port) (crc : Crc32c) (f : list byte)
    (scratch verify : bool) (handle : BlockHandle) :
  0 <= offset_ handle -> 0 <= size_ handle ->
  size_ handle + 5 < 2 ^ 64 ->
  size_of f < offset_ handle + size_ handle + 5 ->
  ReadBlock port crc {| contents := f; uses_scratch := scratch |} verify
    handle
  = (Error kCorruption "truncated block read", no_block).
Proof.
  intros Ho Hn Hn5 Hshort.
  unfold ReadBlock, Read. cbn [contents uses_scratch].
  unfold kBlockTrailerSize. rewrite (u64_small (size_ handle + 5)) by lia.
  cbn [Status_ok negb].
  assert (Hlt : size_of (Slice (advance (offset_ handle) f)
                           (size_ handle + 5)) < size_ handle + 5).
  { unfold size_of, Slice, advance in *.
    rewrite length_take, length_drop. lia. }
  destruct (Z.eqb_spec
              (size_of (Slice (advance (offset_ handle) f)
                          (size_ handle + 5)))
              (size_ handle + 5)); [lia|done].
Qed.

(** X25 (a block written is the block read).  Let the builder's [offset]
    be the size of its file, as it is between calls, with room for the
    block below 2^64.  [WriteRawBlock] appends the contents and five bytes
    of trailer, and sets the handle to the place and size of the
    contents.  From then on, whatever is appended to the file later,
    [ReadBlock] with that handle (with or without checksum verification)
    returns OK and the contents for an uncompressed block, marked cachable
    and heap-allocated exactly when the file copied them to the caller's
    buffer; for a Snappy block it returns what the port uncompresses them
    to, or a Corruption status if the port rejects them.  Reading from a
    file that was cut anywhere before the end of the trailer gives the
    Corruption status "truncated block read". *)
Theorem table_block_round_trip (port : Port) (crc : Crc32c) (r : Rep)
    (block_contents : list byte) (type : CompressionType) :
  Crc32c_ok crc ->
  offset r = size_of (file r) ->
  size_of (file r) + size_of block_contents + 5 < 2 ^ 64 ->
  exists r' handle,
    WriteRawBlock crc r block_contents type = (r', handle) /\
    handle = {| offset_ := size_of (file r);
                size_ := size_of block_contents |} /\
    status r' = OK /\
    offset r' = size_of (file r') /\
    (exists tail,
       file r' = file r ++ block_contents ++ tail /\ size_of tail = 5) /\
    (forall ext scratch verify,
       ReadBlock port crc
         {| contents := file r' ++ ext; uses_scratch := scratch |}
         verify handle
       = match type with
         | kNoCompression =>
             (OK, {| data := block_contents; cachable := scratch;
                     heap_allocated := scratch |})
         | kSnappyCompression =>
             match Snappy_GetUncompressedLength port block_contents,
                   Snappy_Uncompress port block_contents with
             | Some ulength, Some ubuf =>
                 (OK, {| data := Slice ubuf ulength; cachable := true;
                         heap_allocated := true |})
             | _, _ =>
                 (Error kCorruption "corrupted compressed block contents",
                  {| data := []; cachable := false;
                     heap_allocated := false |})
             end
         end) /\
    (forall k scratch verify,
       0 <= k < size_of (file r') ->
       ReadBlock port crc
         {| contents := Slice (file r') k; uses_scratch := scratch |}
         verify handle
       = (Error kCorruption "truncated block read",
          {| data := []; cachable := false; heap_allocated := false |})).
Proof.
  intros Hcrc Hoff Hsize.
  pose proof (size_of_nonneg (file r)) as Hf0.
  pose proof (size_of_nonneg block_contents) as Hn0.
  rewrite WriteRawBlock_spec. eexists _, _. split; [done|].
  cbn [set_offset Append set_status set_file file status offset].
  assert (Hlen : size_of ((file r ++ block_contents)
                          ++ trailer crc block_contents type)
                 = size_of (file r) + size_of block_contents + 5).
  { unfold size_of, trailer. rewrite !length_app. cbn [length].
    change (length (EncodeFixed32 ?v)) with 4%nat. lia. }
  split; [by rewrite Hoff|]. split; [done|].
  split.
  { rewrite Hlen, Hoff. unfold kBlockTrailerSize. rewrite u64_small; lia. }
  split.
  { eexists. rewrite <- app_assoc. split; [done|]. done. }
  split.
  - intros ext scratch verify. rewrite Hoff.
    replace (((file r ++ block_contents)
              ++ trailer crc block_contents type) ++ ext)
      with (file r ++ (block_contents
                       ++ trailer crc block_contents type) ++ ext)
      by (by rewrite <- !app_assoc).
    by apply ReadBlock_written; [|lia].
  - intros k scratch verify Hk. rewrite Hoff.
    apply ReadBlock_truncated; cbn [offset_ size_]; try lia.
    rewrite Hlen in Hk.
    assert (size_of (Slice ((file r ++ block_contents)
                            ++ trailer crc block_contents type) k) = k)
      by (apply size_of_Slice; lia).
    lia.
Qed.

End TableBlocks.

(** ** table/table_builder.cc: the builder between calls *)

(** Reading a field of a builder after assignments to fields. *)
Ltac rep_simpl :=
  cbn [TableBuilder.options TableBuilder.index_block_options
       TableBuilder.file TableBuilder.offset TableBuilder.status
       TableBuilder.data_block TableBuilder.index_block
       TableBuilder.last_key TableBuilder.num_entries TableBuilder.closed
       TableBuilder.filter_block TableBuilder.pending_index_entry
       TableBuilder.pending_handle TableBuilder.compressed_output
       TableBuilder.set_file TableBuilder.set_offset TableBuilder.set_status
       TableBuilder.set_data_block TableBuilder.set_index_block
       TableBuilder.set_last_key TableBuilder.set_num_entries
       TableBuilder.set_closed TableBuilder.set_filter_block
       TableBuilder.set_pending_index_entry TableBuilder.set_pending_handle
       TableBuilder.set_compressed_output TableBuilder.Append] in *.

Section TableInvariant.
Import Coding Format Log TableBuilder.

Variables (port : Port) (crc : Crc32c).
Hypothesis Hcrc : Crc32c_ok crc.
Hypothesis Hport : port_ok port.

Lemma stored_readable (comp : CompressionType) (raw c : list byte)
    (t : CompressionType) (pre ext : list byte) :
  stored port comp raw = (c, t) ->
  size_of c + 5 < 2 ^ 64 ->
  readable port crc (pre ++ (c ++ trailer crc c t) ++ ext)
    {| offset_ := size_of pre; size_ := size_of c |} raw.
Proof.
  intros Hst Hsize scratch.
  rewrite (ReadBlock_written port crc pre c ext t scratch true Hcrc Hsize).
  unfold stored in Hst.
  destruct comp.
  - injection Hst as <- <-. by eexists.
  - destruct (Snappy_Compress port raw) as [compressed|] eqn:Hc.
    + destruct (size_of compressed <? size_of raw - size_of raw / 8).
      * injection Hst as <- <-.
        destruct (Hport raw compressed Hc) as (-> & ->).
        eexists. split; [done|]. cbn [data]. by apply Slice_all.
      * injection Hst as <- <-. by eexists.
    + injection Hst as <- <-. by eexists.
Qed.

Lemma WriteBlock_fields (r : Rep) (block : BlockBuilder.BlockBuilder) :
  exists r' c t,
    WriteBlock port crc r block
    = (r', BlockBuilder.Reset (BlockBuilder.Finish block).1,
       {| offset_ := offset r; size_ := size_of c |}) /\
    stored port (compression (options r)) (BlockBuilder.Finish block).2
    = (c, t) /\
    file r' = file r ++ c ++ trailer crc c t /\
    offset r' = u64 (offset r + (size_of c + 5)) /\
    status r' = OK /\ options r' = options r /\
    data_block r' = data_block r /\ index_block r' = index_block r /\
    last_key r' = last_key r /\ num_entries r' = num_entries r /\
    closed r' = closed r /\ filter_block r' = filter_block r /\
    pending_index_entry r' = pending_index_entry r /\
    pending_handle r' = pending_handle r.
Proof.
  unfold WriteBlock, stored.
  destruct (BlockBuilder.Finish block) as [block' raw]. cbn [fst snd].
  destruct (compression (options r)).
  - eexists _, _, _. split; [done|]. split; [done|].
    cbn. rewrite <- app_assoc. done.
  - destruct (Snappy_Compress port raw) as [compressed|].
    + destruct (size_of compressed <? size_of raw - size_of raw / 8);
        (eexists _, _, _; split; [done|]; split; [done|];
         cbn; rewrite <- app_assoc; done).
    + eexists _, _, _. split; [done|]. split; [done|].
      cbn. rewrite <- app_assoc. done.
Qed.

Lemma size_of_trailer (c : list byte) (t : CompressionType) :
  size_of (trailer crc c t) = 5.
Proof. done. Qed.

Lemma BlockBuilder_empty_AddAll (o : BlockBuilder.Options)
    (kvs : list (list byte * list byte)) :
  BlockBuilder_empty
    (BlockBuilder.AddAll (BlockBuilder.BlockBuilder_new o) kvs)
  = bool_decide (kvs = []).
Proof.
  destruct kvs as [|kv kvs] using rev_ind; [done|].
  rewrite AddAll_snoc. unfold BlockBuilder_empty.
  pose proof (Add_buffer_grows
                (BlockBuilder.AddAll (BlockBuilder.BlockBuilder_new o) kvs)
                kv.1 kv.2) as Hg.
  pose proof (size_of_nonneg
                (BlockBuilder.buffer_
                   (BlockBuilder.AddAll (BlockBuilder.BlockBuilder_new o)
                      kvs))) as H0.
  destruct (BlockBuilder.buffer_ (BlockBuilder.Add _ _ _)) eqn:E.
  - rewrite size_of_nil in Hg. lia.
  - symmetry. apply bool_decide_eq_false_2. by destruct kvs.
Qed.

Lemma Reset_Finish_AddAll (o : BlockBuilder.Options)
    (kvs : list (list byte * list byte)) :
  BlockBuilder.Reset
    (BlockBuilder.Finish
       (BlockBuilder.AddAll (BlockBuilder.BlockBuilder_new o) kvs)).1
  = BlockBuilder.BlockBuilder_new o.
Proof.
  unfold BlockBuilder.Reset, BlockBuilder.Finish,
    BlockBuilder.BlockBuilder_new.
  cbn [fst BlockBuilder.options_]. by rewrite AddAll_options.
Qed.

Lemma table_builder_inv_new (opt : Options) :
  table_builder_inv port crc opt (TableBuilder_new opt) [] [] [] [].
Proof.
  unfold TableBuilder_new, Rep_new. cbn [filter_block].
  destruct (filter_policy opt) as [[name policy]|] eqn:Hfp.
  - split; cbn; try done. by rewrite Hfp.
  - split; cbn; try done. by rewrite Hfp.
Qed.

Lemma index_entries_snoc (seps : list (list byte)) (hs : list BlockHandle)
    (sep : list byte) (h : BlockHandle) :
  length seps = length hs ->
  index_entries (seps ++ [sep]) (hs ++ [h])
  = index_entries seps hs ++ [(sep, BlockHandle_EncodeTo h [])].
Proof.
  intros Hlen. unfold index_entries. by rewrite zip_with_app.
Qed.

Lemma index_entries_short (seps : list (list byte)) (hs : list BlockHandle)
    (h : BlockHandle) :
  length seps = length hs ->
  index_entries seps (hs ++ [h]) = index_entries seps hs.
Proof.
  intros Hlen. unfold index_entries.
  revert hs Hlen. induction seps as [|s seps IH]; intros [|h' hs] Hlen;
    try done.
  cbn. f_equal. apply IH. by injection Hlen.
Qed.

Lemma filter_blocks_snoc (hs : list BlockHandle)
    (segs : list (list (list byte * list byte))) (h : BlockHandle)
    (seg : list (list byte * list byte)) :
  length hs = length segs ->
  filter_blocks (hs ++ [h]) (segs ++ [seg])
  = filter_blocks hs segs ++ [(offset_ h, map fst seg)].
Proof. intros Hlen. unfold filter_blocks. by rewrite zip_with_app. Qed.

Lemma add_block_AddKey (b : FilterBlock.FilterBlockBuilder)
    (blocks : list (Z * list (list byte))) (o : Z) (keys : list (list byte))
    (key : list byte) :
  foldl FilterBlock.add_block b (blocks ++ [(o, keys ++ [key])])
  = FilterBlock.AddKey
      (foldl FilterBlock.add_block b (blocks ++ [(o, keys)])) key.
Proof.
  rewrite !foldl_app. cbn [foldl]. unfold FilterBlock.add_block.
  cbn [fst snd]. by rewrite foldl_app.
Qed.

Lemma add_block_StartBlock (b : FilterBlock.FilterBlockBuilder)
    (blocks : list (Z * list (list byte))) (o : Z) :
  foldl FilterBlock.add_block b (blocks ++ [(o, [])])
  = FilterBlock.StartBlock (foldl FilterBlock.add_block b blocks) o.
Proof. by rewrite foldl_app. Qed.

(** [Flush] writes the data block under construction, if it has entries. *)
Lemma Flush_inv (opt : Options) (r : Rep)
    (segs : list (list (list byte * list byte))) (hs : list BlockHandle)
    (seps : list (list byte)) (cur : list (list byte * list byte)) :
  table_builder_inv port crc opt r segs hs seps cur ->
  size_of (file (Flush port crc r)) < 2 ^ 64 ->
  exists segs' hs',
    table_builder_inv port crc opt (Flush port crc r) segs' hs' seps [] /\
    concat segs' = concat segs ++ cur /\
    last_key (Flush port crc r) = last_key r /\
    closed (Flush port crc r) = closed r.
Proof.
  intros Hinv Hbound. pose proof Hinv as [Hs Ho Hoff Hn Hd Hi Hp Hb Hf].
  unfold Flush in *. unfold ok in *. rewrite Hs in *.
  cbn [Status_ok negb] in *.
  rewrite Hd, BlockBuilder_empty_AddAll in *.
  destruct (decide (cur = [])) as [->|Hcur].
  { rewrite bool_decide_eq_true_2 in * by done.
    exists segs, hs. by rewrite app_nil_r. }
  rewrite bool_decide_eq_false_2 in * by done.
  destruct (WriteBlock_fields r
              (BlockBuilder.AddAll
                 (BlockBuilder.BlockBuilder_new (block_options opt)) cur))
    as (r' & c & t & HW & Hst & Hfile & Hoff' & Hs' & Ho' & Hd' & Hi' & Hlk
        & Hn' & Hcl & Hf' & Hp' & Hph).
  rewrite HW in *. clear HW.
  assert (Hfinal :
    forall r2 : Rep,
      file r2 = file r' -> offset r2 = offset r' -> status r2 = OK ->
      options r2 = options r' -> num_entries r2 = num_entries r' ->
      data_block r2 = BlockBuilder.BlockBuilder_new (block_options opt) ->
      index_block r2 = index_block r' ->
      pending_index_entry r2 = true ->
      pending_handle r2 = {| offset_ := offset r; size_ := size_of c |} ->
      filter_block r2
      = match filter_block r' with
        | Some fb => Some (FilterBlock.StartBlock fb (offset r'))
        | None => None
        end ->
      size_of (file r2) < 2 ^ 64 ->
      table_builder_inv port crc opt r2 (segs ++ [cur])
        (hs ++ [{| offset_ := offset r; size_ := size_of c |}]) seps []).
  { intros r2 H2f H2o H2s H2opt H2n H2d H2i H2p H2h H2fb H2bound.
    pose proof (size_of_nonneg (file r)) as Hf0.
    pose proof (size_of_nonneg c) as Hc0.
    assert (Hsz : size_of (file r') = size_of (file r) + size_of c + 5).
    { rewrite Hfile, !size_of_app, size_of_trailer. lia. }
    rewrite H2f in H2bound.
    assert (Hplen : length seps = length hs).
    { destruct (pending_index_entry r); [|done].
      by destruct Hp as (-> & _). }
    assert (Hlen : length segs = length hs) by (by eapply Forall2_length).
    split.
    - done.
    - by rewrite H2opt, Ho'.
    - rewrite H2o, H2f, Hoff', Hoff, Hsz. rewrite u64_small; lia.
    - rewrite H2n, Hn', Hn. by rewrite concat_app, app_nil_r; cbn;
        rewrite app_nil_r.
    - done.
    - rewrite H2i, Hi', Hi. f_equal. symmetry.
      by apply index_entries_short.
    - rewrite H2p. split; [done|]. split.
      + rewrite length_app. cbn. lia.
      + by rewrite last_snoc, H2h.
    - apply Forall2_app.
      + eapply Forall2_impl; [exact Hb|].
        intros seg h (Hne & Hwf & Hr). split; [done|]. split; [done|].
        intros ext. rewrite H2f, Hfile, <- app_assoc. apply Hr.
      + constructor; [|constructor]. split; [done|]. split.
        * unfold well_formed_handle. cbn [offset_ size_]. lia.
        * intros ext. rewrite H2f, Hfile, Hoff.
          replace ((file r ++ c ++ trailer crc c t) ++ ext)
            with (file r ++ (c ++ trailer crc c t) ++ ext)
            by (by rewrite <- !app_assoc).
          apply (stored_readable (compression (options r))); [|lia].
          exact Hst.
    - rewrite H2fb, Hf', Hf. destruct (filter_policy opt) as [[name policy]|];
        [|done].
      f_equal. rewrite filter_blocks_snoc by done.
      cbn [offset_ map]. rewrite H2o.
      by rewrite add_block_StartBlock. }
  rewrite Reset_Finish_AddAll in *.
  cbn [set_pending_handle set_data_block set_status set_pending_index_entry
       status Status_ok] in *.
  rewrite Hs' in *. cbn [Status_ok] in *.
  cbn [filter_block set_status set_pending_index_entry set_pending_handle
       set_data_block] in *.
  exists (segs ++ [cur]),
    (hs ++ [{| offset_ := offset r; size_ := size_of c |}]).
  split.
  - destruct (filter_block r') as [fb|] eqn:Hfb.
    + cbn in Hbound |- *. apply Hfinal; cbn; by rewrite ?Hfb.
    + cbn in Hbound |- *. apply Hfinal; cbn; by rewrite ?Hfb.
  - rewrite concat_app. cbn [concat]. rewrite app_nil_r.
    split; [done|].
    destruct (filter_block r') as [fb|] eqn:Hfb; cbn; by rewrite ?Hfb.
Qed.

Lemma table_builder_inv_cur_snoc (opt : Options) (r r3 : Rep)
    (segs : list (list (list byte * list byte))) (hs : list BlockHandle)
    (seps seps3 : list (list byte)) (cur : list (list byte * list byte))
    (key value : list byte) :
  table_builder_inv port crc opt r segs hs seps cur ->
  status r3 = OK -> options r3 = options r -> file r3 = file r ->
  offset r3 = offset r -> num_entries r3 = num_entries r + 1 ->
  data_block r3 = BlockBuilder.Add (data_block r) key value ->
  index_block r3
  = BlockBuilder.AddAll (BlockBuilder.BlockBuilder_new (index_options opt))
      (index_entries seps3 hs) ->
  pending_index_entry r3 = false -> length seps3 = length hs ->
  filter_block r3
  = match filter_block r with
    | Some fb => Some (FilterBlock.AddKey fb key)
    | None => None
    end ->
  table_builder_inv port crc opt r3 segs hs seps3 (cur ++ [(key, value)]).
Proof.
  intros [Hs Ho Hoff Hn Hd Hi Hp Hb Hf] H3s H3o H3f H3off H3n H3d H3i H3p
    H3len H3fb.
  split.
  - done.
  - by rewrite H3o.
  - by rewrite H3off, H3f.
  - rewrite H3n, Hn, !length_app. cbn [length]. lia.
  - by rewrite H3d, Hd, AddAll_snoc.
  - done.
  - by rewrite H3p.
  - eapply Forall2_impl; [exact Hb|].
    intros seg h (Hne & Hwf & Hr). split; [done|]. split; [done|].
    intros ext. rewrite H3f. apply Hr.
  - rewrite H3fb, Hf. destruct (filter_policy opt) as [[name policy]|];
      [|done].
    f_equal. rewrite H3off, map_app. cbn [map fst].
    by rewrite add_block_AddKey.
Qed.

(** [Add] appends an entry, and flushes the data block when it is full. *)
Lemma Add_inv (opt : Options) (r : Rep)
    (segs : list (list (list byte * list byte))) (hs : list BlockHandle)
    (seps : list (list byte)) (cur : list (list byte * list byte))
    (key value : list byte) :
  table_builder_inv port crc opt r segs hs seps cur ->
  size_of (file (Add port crc r key value)) < 2 ^ 64 ->
  exists segs' hs' seps' cur',
    table_builder_inv port crc opt (Add port crc r key value) segs' hs' seps' cur' /\
    concat segs' ++ cur' = (concat segs ++ cur) ++ [(key, value)] /\
    closed (Add port crc r key value) = closed r.
Proof.
  intros Hinv Hbound. pose proof Hinv as [Hs Ho Hoff Hn Hd Hi Hp Hb Hf].
  assert (Hlen : length segs = length hs) by (by eapply Forall2_length).
  unfold Add in *. unfold ok in *. rewrite Hs in *.
  cbn [Status_ok negb] in *.
  match type of Hbound with
  | context [Flush port crc ?x] => set (r3 := x) in *
  end.
  assert (Hinv3 : exists seps3,
            table_builder_inv port crc opt r3 segs hs seps3 (cur ++ [(key, value)])
            /\ closed r3 = closed r).
  { destruct (pending_index_entry r) eqn:Hpe.
    - destruct Hp as (-> & Hslen & Hlast).
      apply last_Some in Hlast as (hs0 & ->).
      rewrite length_app in Hslen. cbn [length] in Hslen.
      exists (seps ++ [cmp_FindShortestSeparator (comparator (options r))
                         (last_key r) key]).
      split.
      + eapply (table_builder_inv_cur_snoc opt r); [exact Hinv|..];
          try (subst r3; rep_simpl; destruct (filter_block r) eqn:Hfb;
               rep_simpl; rewrite ?Hfb; done).
        * subst r3. rep_simpl. destruct (filter_block r) eqn:Hfb; rep_simpl.
          all: rewrite index_entries_snoc by lia.
          all: rewrite AddAll_snoc; cbn [fst snd].
          all: rewrite <- (index_entries_short seps hs0 (pending_handle r))
                 by lia.
          all: by rewrite <- Hi.
        * rewrite !length_app. cbn [length]. lia.
      + subst r3; rep_simpl; destruct (filter_block r) eqn:Hfb;
               rep_simpl; rewrite ?Hfb; done.
    - exists seps. split.
      + eapply (table_builder_inv_cur_snoc opt r); [exact Hinv|..];
          try (subst r3; rep_simpl; destruct (filter_block r) eqn:Hfb;
               rep_simpl; rewrite ?Hfb; done).
      + subst r3; rep_simpl; destruct (filter_block r) eqn:Hfb;
               rep_simpl; rewrite ?Hfb; done. }
  destruct Hinv3 as (seps3 & Hinv3 & Hcl3).
  clearbody r3.
  destruct (block_size (options r3)
            <=? BlockBuilder.CurrentSizeEstimate (data_block r3)).
  - destruct (Flush_inv opt r3 segs hs seps3 _ Hinv3 Hbound)
      as (segs' & hs' & Hinv' & Hconcat & _ & Hcl').
    exists segs', hs', seps3, []. split; [done|].
    rewrite app_nil_r, Hconcat, app_assoc. split; [done|congruence].
  - exists segs, hs, seps3, (cur ++ [(key, value)]).
    split; [done|]. by rewrite app_assoc.
Qed.

Lemma Flush_file (r : Rep) :
  exists ext, file (Flush port crc r) = file r ++ ext.
Proof.
  unfold Flush. destruct (negb (ok r)); [exists []; by rewrite app_nil_r|].
  destruct (BlockBuilder_empty (data_block r));
    [exists []; by rewrite app_nil_r|].
  destruct (WriteBlock_fields r (data_block r))
    as (r' & c & t & -> & _ & Hfile & _ & _ & _ & _ & _ & _ & _ & _ & Hfb & _).
  exists (c ++ trailer crc c t). rewrite <- Hfile. unfold ok. rep_simpl.
  destruct (Status_ok (status r')); rep_simpl;
    destruct (filter_block r'); rep_simpl; done.
Qed.

Lemma Add_file (r : Rep) (key value : list byte) :
  exists ext, file (Add port crc r key value) = file r ++ ext.
Proof.
  unfold Add. destruct (negb (ok r)); [exists []; by rewrite app_nil_r|].
  match goal with
  | |- context [Flush port crc ?x] => set (r3 := x)
  end.
  assert (H3 : file r3 = file r).
  { subst r3. rep_simpl.
    destruct (pending_index_entry r); rep_simpl;
      destruct (filter_block r) eqn:Hfb; rep_simpl; rewrite ?Hfb; done. }
  clearbody r3. destruct (_ <=? _).
  - destruct (Flush_file r3) as (ext & ->). exists ext. by rewrite H3.
  - exists []. by rewrite app_nil_r.
Qed.

Lemma TableBuilder_AddAll_inv (opt : Options) (kvs : list (list byte * list byte)) :
  size_of (file (TableBuilder.AddAll port crc (TableBuilder_new opt) kvs))
    < 2 ^ 64 ->
  exists segs hs seps cur,
    table_builder_inv port crc opt
      (TableBuilder.AddAll port crc (TableBuilder_new opt) kvs)
      segs hs seps cur /\
    concat segs ++ cur = kvs /\
    closed (TableBuilder.AddAll port crc (TableBuilder_new opt) kvs) = false.
Proof.
  induction kvs as [|kv kvs IH] using rev_ind; intros Hbound.
  - exists [], [], [], []. split; [apply table_builder_inv_new|]. split; [done|].
    unfold TableBuilder_new. cbn.
    by destruct (filter_policy opt) as [[? ?]|].
  - unfold TableBuilder.AddAll in *. rewrite foldl_snoc in *.
    fold (TableBuilder.AddAll port crc (TableBuilder_new opt) kvs) in *.
    set (r := TableBuilder.AddAll port crc (TableBuilder_new opt) kvs) in *.
    destruct (Add_file r kv.1 kv.2) as (ext & Hext).
    destruct IH as (segs & hs & seps & cur & Hinv & Hconcat & Hcl).
    { rewrite Hext, size_of_app in Hbound.
      pose proof (size_of_nonneg ext). lia. }
    destruct (Add_inv opt r segs hs seps cur kv.1 kv.2 Hinv Hbound)
      as (segs' & hs' & seps' & cur' & Hinv' & Hconcat' & Hcl').
    exists segs', hs', seps', cur'. split; [done|].
    split; [|congruence].
    rewrite Hconcat', Hconcat. by destruct kv.
Qed.

End TableInvariant.

(** ** table/table_builder.cc: Finish *)

Section TableFinish.
Import Coding Format Log TableBuilder.

Variables (port : Port) (crc : Crc32c).
Hypothesis Hcrc : Crc32c_ok crc.
Hypothesis Hport : port_ok port.

Lemma Finish_filter_block_file (r : Rep) :
  exists ext, file (Finish_filter_block crc r).1 = file r ++ ext.
Proof.
  unfold Finish_filter_block.
  destruct (filter_block r) as [fb|]; [|exists []; by rewrite app_nil_r].
  destruct (ok r); [|exists []; by rewrite app_nil_r].
  destruct (FilterBlock.Finish fb) as [fb' contents].
  rewrite WriteRawBlock_spec. cbn [fst]. rep_simpl.
  eexists. by rewrite <- app_assoc.
Qed.

Lemma Finish_metaindex_block_file (r : Rep) (fh : BlockHandle) :
  exists ext, file (Finish_metaindex_block port crc r fh).1 = file r ++ ext.
Proof.
  unfold Finish_metaindex_block.
  destruct (ok r); [|exists []; by rewrite app_nil_r].
  match goal with
  | |- context [WriteBlock port crc r ?b] =>
      destruct (WriteBlock_fields port crc r b)
        as (r' & c & t & -> & _ & Hfile & _)
  end.
  cbn [fst]. eauto.
Qed.

Lemma Finish_index_block_file (r : Rep) :
  exists ext, file (Finish_index_block port crc r).1 = file r ++ ext.
Proof.
  unfold Finish_index_block.
  destruct (ok r); [|exists []; by rewrite app_nil_r].
  match goal with
  | |- context [WriteBlock port crc ?x (index_block ?x)] =>
      destruct (WriteBlock_fields port crc x (index_block x))
        as (r' & c & t & -> & _ & Hfile & _);
      assert (Hx : file x = file r)
        by (destruct (pending_index_entry r); rep_simpl; done)
  end.
  cbn [fst]. rep_simpl. rewrite Hfile, Hx. eauto.
Qed.

Lemma Finish_footer_file (r : Rep) (mh ih : BlockHandle) :
  exists ext, file (Finish_footer r mh ih) = file r ++ ext.
Proof.
  unfold Finish_footer.
  destruct (ok r); [|exists []; by rewrite app_nil_r].
  unfold ok. rep_simpl. cbn [Status_ok]. rep_simpl. eauto.
Qed.

Lemma Finish_file (r : Rep) :
  exists ext,
    file (Finish port crc r).2 = file (Flush port crc r) ++ ext.
Proof.
  unfold Finish.
  set (r2 := set_closed (Flush port crc r) true).
  assert (H2 : file r2 = file (Flush port crc r)) by done.
  destruct (Finish_filter_block_file r2) as (e3 & H3).
  destruct (Finish_filter_block crc r2) as [r3 fh]. cbn [fst] in H3.
  destruct (Finish_metaindex_block_file r3 fh) as (e4 & H4).
  destruct (Finish_metaindex_block port crc r3 fh) as [r4 mh].
  cbn [fst] in H4.
  destruct (Finish_index_block_file r4) as (e5 & H5).
  destruct (Finish_index_block port crc r4) as [r5 ih]. cbn [fst] in H5.
  destruct (Finish_footer_file r5 mh ih) as (e6 & H6).
  cbn [snd]. rewrite H6, H5, H4, H3, H2, <- !app_assoc. eauto.
Qed.

(** The metaindex block, the index block and the footer. *)
Lemma Finish_tail (opt : Options) (r3 : Rep) (fh : BlockHandle)
    (hs : list BlockHandle) (seps : list (list byte)) (s : Status)
    (r : Rep) :
  status r3 = OK -> options r3 = opt -> offset r3 = size_of (file r3) ->
  index_block r3
  = BlockBuilder.AddAll (BlockBuilder.BlockBuilder_new (index_options opt))
      (index_entries seps hs) ->
  (if pending_index_entry r3 then
     S (length seps) = length hs /\ last hs = Some (pending_handle r3)
   else length seps = length hs) ->
  (filter_block r3 = None <-> filter_policy opt = None) ->
  (let '(r, metaindex_block_handle) :=
     Finish_metaindex_block port crc r3 fh in
   let '(r, index_block_handle) := Finish_index_block port crc r in
   let r := Finish_footer r metaindex_block_handle index_block_handle in
   (status r, r)) = (s, r) ->
  size_of (file r) < 2 ^ 64 ->
  s = OK /\ offset r = size_of (file r) /\ closed r = closed r3 /\
  num_entries r = num_entries r3 /\
  exists seps' mh ih ext,
    file r = file r3 ++ ext /\
    length seps' = length hs /\
    readable port crc (file r) ih
      (block_of (index_options opt) (index_entries seps' hs)) /\
    readable port crc (file r) mh
      (block_of (block_options opt) (metaindex_entries opt fh)) /\
    Footer_DecodeFrom Footer_new
      (advance (size_of (file r) - kEncodedLength) (file r))
    = (OK, {| metaindex_handle_ := mh; index_handle_ := ih |}, []).
Proof.
  intros Hs3 Ho3 Hoff3 Hi3 Hp3 Hfb3 HF Hbound.
  (* metaindex block *)
  unfold Finish_metaindex_block in HF. unfold ok in HF.
  rewrite Hs3 in HF. cbn [Status_ok] in HF.
  assert (Hmeta :
    match filter_block r3, filter_policy (options r3) with
    | Some _, Some (name, _) =>
        BlockBuilder.Add
          (BlockBuilder.BlockBuilder_new (block_options (options r3)))
          (filter_prefix ++ name) (BlockHandle_EncodeTo fh [])
    | _, _ => BlockBuilder.BlockBuilder_new (block_options (options r3))
    end
    = BlockBuilder.AddAll
        (BlockBuilder.BlockBuilder_new (block_options opt))
        (metaindex_entries opt fh)).
  { rewrite Ho3. unfold metaindex_entries.
    destruct (filter_policy opt) as [[name policy]|] eqn:Hfp;
      destruct (filter_block r3) as [fb|] eqn:Hfb; try done.
    by pose proof (proj1 Hfb3 eq_refl). }
  rewrite Hmeta in HF. clear Hmeta.
  destruct (WriteBlock_fields port crc r3
              (BlockBuilder.AddAll
                 (BlockBuilder.BlockBuilder_new (block_options opt))
                 (metaindex_entries opt fh)))
    as (r4 & cm & tm & HW4 & Hst4 & Hfile4 & Hoff4 & Hs4 & Ho4 & _ & Hi4
        & Hlk4 & Hn4 & Hcl4 & _ & Hp4 & Hph4).
  rewrite HW4 in HF. clear HW4.
  (* index block *)
  unfold Finish_index_block in HF. unfold ok in HF.
  rewrite Hs4 in HF. cbn [Status_ok] in HF.
  match type of HF with
  | context [WriteBlock port crc ?x (index_block ?x)] => set (r4' := x) in *
  end.
  assert (H4' : exists seps',
            length seps' = length hs /\
            index_block r4'
            = BlockBuilder.AddAll
                (BlockBuilder.BlockBuilder_new (index_options opt))
                (index_entries seps' hs) /\
            file r4' = file r4 /\ offset r4' = offset r4 /\
            status r4' = OK /\ options r4' = opt /\
            closed r4' = closed r4 /\ num_entries r4' = num_entries r4).
  { subst r4'. rewrite Hp4. destruct (pending_index_entry r3).
    - destruct Hp3 as (Hslen & Hlast).
      apply last_Some in Hlast as (hs0 & ->).
      rewrite length_app in Hslen. cbn [length] in Hslen.
      exists (seps ++ [cmp_FindShortSuccessor (comparator (options r4))
                         (last_key r4)]).
      rep_simpl. split; [rewrite !length_app; cbn [length]; lia|].
      split; [|by rewrite Ho4, Ho3].
      rewrite index_entries_snoc by lia. rewrite AddAll_snoc. cbn [fst snd].
      rewrite Hi4, Hi3, Hph4.
      by rewrite (index_entries_short seps hs0 (pending_handle r3)) by lia.
    - exists seps. rep_simpl. split; [done|].
      split; [by rewrite Hi4, Hi3|]. by rewrite Ho4, Ho3. }
  destruct H4' as (seps' & Hslen & Hi4' & Hfile4' & Hoff4' & Hs4' & Ho4'
                   & Hcl4' & Hn4').
  clearbody r4'.
  destruct (WriteBlock_fields port crc r4' (index_block r4'))
    as (r5 & ci & ti & HW5 & Hst5 & Hfile5 & Hoff5 & Hs5 & Ho5 & _ & _
        & _ & Hn5 & Hcl5 & _).
  rewrite HW5 in HF. clear HW5.
  (* footer *)
  unfold Finish_footer in HF. unfold ok in HF. rep_simpl.
  rewrite Hs5 in HF. cbn [Status_ok] in HF. rep_simpl.
  injection HF as <- <-. rep_simpl.
  set (mh := {| offset_ := offset r3; size_ := size_of cm |}) in *.
  set (ih := {| offset_ := offset r4'; size_ := size_of ci |}) in *.
  set (footer := {| metaindex_handle_ := mh; index_handle_ := ih |}) in *.
  (* sizes *)
  pose proof (size_of_nonneg (file r3)) as H0.
  pose proof (size_of_nonneg cm) as Hcm0.
  pose proof (size_of_nonneg ci) as Hci0.
  pose proof (size_of_nonneg (Footer_EncodeTo footer [])) as Hfo0.
  assert (Hsz4 : size_of (file r4) = size_of (file r3) + size_of cm + 5).
  { rewrite Hfile4, !size_of_app, size_of_trailer. lia. }
  assert (Hsz5 : size_of (file r5) = size_of (file r4) + size_of ci + 5).
  { rewrite Hfile5, Hfile4', !size_of_app, size_of_trailer. lia. }
  rewrite size_of_app in Hbound.
  assert (Hoff4v : offset r4 = size_of (file r4)).
  { rewrite Hoff4, Hoff3, Hsz4. rewrite u64_small; lia. }
  assert (Hoff5v : offset r5 = size_of (file r5)).
  { rewrite Hoff5, Hoff4', Hoff4v, Hsz5. rewrite u64_small; lia. }
  assert (Hwf : well_formed_footer footer).
  { unfold well_formed_footer, well_formed_handle, footer, mh, ih.
    cbn [metaindex_handle_ index_handle_ offset_ size_].
    rewrite Hoff4', Hoff4v, Hoff3. lia. }
  destruct (Footer_roundtrip footer Footer_new Hwf) as (Hflen & Hfdec).
  assert (Hfsz : size_of (Footer_EncodeTo footer []) = 48)
    by (unfold size_of; rewrite Hflen; done).
  split; [done|]. split.
  { rewrite Hoff5v, size_of_app, Hfsz. rewrite u64_small; lia. }
  split; [by rewrite Hcl5, Hcl4'|]. split; [by rewrite Hn5, Hn4', Hn4|].
  exists seps', mh, ih.
  exists ((cm ++ trailer crc cm tm) ++ (ci ++ trailer crc ci ti)
          ++ Footer_EncodeTo footer []).
  split.
  { rewrite Hfile5, Hfile4', Hfile4. by rewrite <- !app_assoc. }
  split; [done|]. split; [|split].
  - unfold ih. rewrite Hoff4', Hoff4v, Hfile5, Hfile4'.
    replace ((file r4 ++ ci ++ trailer crc ci ti) ++ Footer_EncodeTo footer [])
      with (file r4 ++ (ci ++ trailer crc ci ti) ++ Footer_EncodeTo footer [])
      by (by rewrite <- !app_assoc).
    apply (stored_readable port crc Hcrc Hport (compression (options r4')));
      [|lia].
    rewrite <- Hst5, Hi4'. done.
  - unfold mh. rewrite Hoff3, Hfile5, Hfile4', Hfile4.
    replace (((file r3 ++ cm ++ trailer crc cm tm) ++ ci ++ trailer crc ci ti)
             ++ Footer_EncodeTo footer [])
      with (file r3 ++ (cm ++ trailer crc cm tm)
            ++ ((ci ++ trailer crc ci ti) ++ Footer_EncodeTo footer []))
      by (by rewrite <- !app_assoc).
    apply (stored_readable port crc Hcrc Hport (compression (options r3)));
      [|lia].
    rewrite <- Hst4. done.
  - rewrite size_of_app, Hfsz. unfold kEncodedLength, kMaxEncodedLength.
    replace (size_of (file r5) + 48 - (2 * (10 + 10) + 8))
      with (size_of (file r5)) by lia.
    by rewrite advance_app_size.
Qed.

(** X26 (a table file can be read back).  Let a table be built by [Add]
    for each entry of [kvs] and then [Finish], with any options, any
    checksum that extends as crc32c does and any port whose Snappy
    uncompresses what it compressed, and let the file stay below 2^64
    bytes.  Then [Finish] returns OK, the builder is closed, [FileSize()]
    is the size of the file and all entries are counted.  The entries lie
    in data blocks, in the order in which they were added and none of them
    empty, and [ReadBlock] with checksum verification returns for each
    block's handle the block a [BlockBuilder] makes of the block's
    entries.  The last 48 bytes of the file decode as a footer; its index
    handle reads back as the index block, which has one entry per data
    block holding the encoding of that block's handle, and its metaindex
    handle as the metaindex block, which, if there is a filter policy,
    maps "filter." followed by the policy's name to the handle of the
    filter block; that handle reads back as the filter block built for the
    data blocks at their offsets. *)
Theorem table_file_layout (opt : Options)
    (kvs : list (list byte * list byte)) (s : Status) (r : Rep) :
  Finish port crc (TableBuilder.AddAll port crc (TableBuilder_new opt) kvs)
  = (s, r) ->
  size_of (file r) < 2 ^ 64 ->
  s = OK /\ closed r = true /\ FileSize r = size_of (file r) /\
  num_entries r = Z.of_nat (length kvs) /\
  exists segs hs seps fh mh ih,
    concat segs = kvs /\
    length seps = length hs /\
    Forall2 (fun seg h =>
               seg <> [] /\ well_formed_handle h /\
               readable port crc (file r) h
                 (block_of (block_options opt) seg))
            segs hs /\
    readable port crc (file r) ih
      (block_of (index_options opt) (index_entries seps hs)) /\
    readable port crc (file r) mh
      (block_of (block_options opt) (metaindex_entries opt fh)) /\
    (forall name policy,
       filter_policy opt = Some (name, policy) ->
       readable port crc (file r) fh
         (FilterBlock.build policy
            (filter_blocks hs segs ++ [(offset_ fh, [])]))) /\
    Footer_DecodeFrom Footer_new
      (advance (size_of (file r) - kEncodedLength) (file r))
    = (OK, {| metaindex_handle_ := mh; index_handle_ := ih |}, []).
Proof.
  intros HF Hbound.
  set (r0 := TableBuilder.AddAll port crc (TableBuilder_new opt) kvs) in *.
  destruct (Finish_file r0) as (ext1 & Hext1). rewrite HF in Hext1.
  cbn [snd] in Hext1.
  destruct (Flush_file port crc r0) as (ext0 & Hext0).
  assert (Hb1 : size_of (file (Flush port crc r0)) < 2 ^ 64).
  { rewrite Hext1, size_of_app in Hbound.
    pose proof (size_of_nonneg ext1). lia. }
  assert (Hb0 : size_of (file r0) < 2 ^ 64).
  { rewrite Hext0, size_of_app in Hb1.
    pose proof (size_of_nonneg ext0). lia. }
  destruct (TableBuilder_AddAll_inv port crc Hcrc Hport opt kvs Hb0)
    as (segs0 & hs0 & seps0 & cur & Hinv0 & Hconcat0 & Hcl0).
  fold r0 in Hinv0, Hcl0.
  destruct (Flush_inv port crc Hcrc Hport opt r0 segs0 hs0 seps0 cur Hinv0 Hb1)
    as (segs & hs & Hinv1 & Hconcat & _ & _).
  unfold Finish in HF.
  set (r1 := Flush port crc r0) in *. clearbody r1. clear Hinv0 Hext0 Hb0.
  destruct Hinv1 as [Hs Ho Hoff Hn Hd Hi Hp Hb Hf].
  rewrite app_nil_r in Hn.
  assert (Hkvs : concat segs = kvs) by congruence.
  assert (Hlen : length segs = length hs) by (by eapply Forall2_length).
  assert (Hp' : if pending_index_entry r1
                then S (length seps0) = length hs /\
                     last hs = Some (pending_handle r1)
                else length seps0 = length hs).
  { destruct (pending_index_entry r1); [|done]. by destruct Hp as (_ & ?). }
  (* filter block *)
  unfold Finish_filter_block in HF. unfold ok in HF. rep_simpl.
  rewrite Hf, Hs in HF. cbn [Status_ok] in HF. cbn [map] in HF.
  destruct (filter_policy opt) as [[name policy]|] eqn:Hfp.
  - set (contents :=
           FilterBlock.build policy (filter_blocks hs segs ++ [(offset r1, [])])).
    unfold FilterBlock.build in contents.
    destruct (FilterBlock.Finish _) as [fb' contents'] eqn:HFin in HF.
    assert (Hc : contents' = contents) by (unfold contents; by rewrite HFin).
    subst contents'. rewrite WriteRawBlock_spec in HF. rep_simpl.
    set (fh := {| offset_ := offset r1; size_ := size_of contents |}) in *.
    match type of HF with
    | context [Finish_metaindex_block port crc ?x fh] => set (r3 := x) in *
    end.
    assert (Hfile3 : file r3
                     = file r1 ++ contents ++ trailer crc contents kNoCompression)
      by (subst r3; rep_simpl; by rewrite <- app_assoc).
    pose proof (size_of_nonneg (file r1)) as H0.
    pose proof (size_of_nonneg contents) as Hc0.
    assert (Hsz3 : size_of (file r3)
                   = size_of (file r1) + size_of contents + 5).
    { rewrite Hfile3, !size_of_app, size_of_trailer. lia. }
    assert (Hbound3 : size_of (file r3) <= size_of (file r)).
    { destruct (Finish_metaindex_block_file r3 fh) as (e4 & H4).
      destruct (Finish_metaindex_block port crc r3 fh) as [r4 mh'].
      destruct (Finish_index_block_file r4) as (e5 & H5).
      destruct (Finish_index_block port crc r4) as [r5 ih'].
      destruct (Finish_footer_file r5 mh' ih') as (e6 & H6).
      injection HF as _ <-. cbn [fst] in *.
      rewrite H6, H5, H4, !size_of_app.
      pose proof (size_of_nonneg e4). pose proof (size_of_nonneg e5).
      pose proof (size_of_nonneg e6). lia. }
    destruct (Finish_tail opt r3 fh hs seps0 s r) as
      (-> & Hoffr & Hclr & Hnr & seps & mh & ih & ext & Hfile & Hslen
       & Hih & Hmh & Hfoot); try done.
    { rewrite Hsz3. subst r3. rep_simpl. rewrite Hoff.
      unfold kBlockTrailerSize. rewrite u64_small; lia. }
    { subst r3. rep_simpl. rewrite Hfp. by split. }
    split; [done|]. split; [by rewrite Hclr|].
    split; [done|]. split; [by rewrite Hnr; subst r3; rep_simpl; congruence|].
    exists segs, hs, seps, fh, mh, ih.
    split; [done|]. split; [done|]. split; [|split; [done|split; [done|]]].
    + eapply Forall2_impl; [exact Hb|].
      intros seg h (Hne & Hwf & Hr). split; [done|]. split; [done|].
      rewrite Hfile, Hfile3, <- app_assoc. apply Hr.
    + split; [|done]. intros name' policy' [= <- <-].
      change (FilterBlock.build policy
                (filter_blocks hs segs ++ [(offset_ fh, [])]))
        with contents.
      rewrite Hfile, Hfile3. unfold fh. rewrite Hoff.
      replace ((file r1 ++ contents ++ trailer crc contents kNoCompression)
               ++ ext)
        with (file r1 ++ (contents ++ trailer crc contents kNoCompression)
              ++ ext) by (by rewrite <- !app_assoc).
      apply (stored_readable port crc Hcrc Hport kNoCompression); [done|lia].
  - match type of HF with
    | context [Finish_metaindex_block port crc ?x ?h] =>
        set (r3 := x) in *; set (fh := h) in *
    end.
    destruct (Finish_tail opt r3 fh hs seps0 s r) as
      (-> & Hoffr & Hclr & Hnr & seps & mh & ih & ext & Hfile & Hslen
       & Hih & Hmh & Hfoot); try done.
    split; [done|]. split; [by rewrite Hclr|].
    split; [done|]. split; [by rewrite Hnr; subst r3; rep_simpl; congruence|].
    exists segs, hs, seps, fh, mh, ih.
    split; [done|]. split; [done|]. split; [|split; [done|split; [done|]]].
    + eapply Forall2_impl; [exact Hb|].
      intros seg h (Hne & Hwf & Hr). split; [done|]. split; [done|].
      rewrite Hfile. subst r3. rep_simpl. apply Hr.
    + split; [|done]. intros name' policy' [=].
Qed.

End TableFinish.

Lemma no_snappy_ok : TableBuilder.port_ok TableBuilder.no_snappy.
Proof. intros raw compressed [=]. Qed.

Lemma table_block_round_trip_witness :
  Log.Crc32c_ok Log.crc32c /\
  TableBuilder.offset (TableBuilder.TableBuilder_new
                         TableBuilder.example_options)
  = size_of (TableBuilder.file (TableBuilder.TableBuilder_new
                                  TableBuilder.example_options)) /\
  size_of (TableBuilder.file (TableBuilder.TableBuilder_new
                                TableBuilder.example_options))
  + size_of (bytes "block") + 5 < 2 ^ 64 /\
  exists r' handle,
    TableBuilder.WriteRawBlock Log.crc32c
      (TableBuilder.TableBuilder_new TableBuilder.example_options)
      (bytes "block") TableBuilder.kNoCompression = (r', handle) /\
    forall ext scratch verify,
      TableBuilder.ReadBlock TableBuilder.no_snappy Log.crc32c
        {| TableBuilder.contents := TableBuilder.file r' ++ ext;
           TableBuilder.uses_scratch := scratch |} verify handle
      = (OK, {| TableBuilder.data := bytes "block";
                TableBuilder.cachable := scratch;
                TableBuilder.heap_allocated := scratch |}).
Proof.
  split; [exact crc32c_ok|]. split; [reflexivity|]. split; [reflexivity|].
  destruct (table_block_round_trip TableBuilder.no_snappy Log.crc32c
              (TableBuilder.TableBuilder_new TableBuilder.example_options)
              (bytes "block") TableBuilder.kNoCompression crc32c_ok
              eq_refl eq_refl)
    as (r' & handle & HW & _ & _ & _ & _ & Hread & _).
  exists r', handle. split; [exact HW|exact Hread].
Defined.

Lemma example_table_size :
  size_of
    (TableBuilder.file
       (TableBuilder.Finish TableBuilder.no_snappy Log.crc32c
          (TableBuilder.AddAll TableBuilder.no_snappy Log.crc32c
             (TableBuilder.TableBuilder_new TableBuilder.example_options)
             TableBuilder.example_entries)).2)
  < 2 ^ 64.
Proof. vm_compute. reflexivity. Qed.

Lemma table_file_layout_witness :
  Log.Crc32c_ok Log.crc32c /\ TableBuilder.port_ok TableBuilder.no_snappy /\
  (let result :=
     TableBuilder.Finish TableBuilder.no_snappy Log.crc32c
       (TableBuilder.AddAll TableBuilder.no_snappy Log.crc32c
          (TableBuilder.TableBuilder_new TableBuilder.example_options)
          TableBuilder.example_entries) in
   size_of (TableBuilder.file result.2) < 2 ^ 64 /\
   result.1 = OK /\ TableBuilder.closed result.2 = true /\
   TableBuilder.FileSize result.2 = size_of (TableBuilder.file result.2) /\
   TableBuilder.num_entries result.2 = 4).
Proof.
  split; [exact crc32c_ok|]. split; [exact no_snappy_ok|].
  split; [exact example_table_size|].
  destruct (table_file_layout TableBuilder.no_snappy Log.crc32c crc32c_ok
              no_snappy_ok TableBuilder.example_options
              TableBuilder.example_entries _ _
              (surjective_pairing _) example_table_size)
    as (H1 & H2 & H3 & H4 & _).
  split; [exact H1|]. split; [exact H2|]. split; [exact H3|exact H4].
Defined.

(** ** db/memtable.cc: iterating over a memtable *)

Section MemTableIterating.
Import SkipListState SkipListBack DBFormat MemTable MemTableUse
  MemTableIteration.

Lemma collect_entries (m : MemTable) (steps : nat) :
  forall it,
  collect steps m it
  = map (fun e => (MemTableIterator.key e, MemTableIterator.value e))
    <$> Iterator_collect steps (table_ m) it.
Proof.
  induction steps as [|steps IH]; intros it.
  - cbn. unfold Valid. by destruct (SkipList.Iterator_Valid it).
  - cbn [collect Iterator_collect]. unfold Valid, key, value, Next.
    destruct (SkipList.Iterator_Valid it); [|done].
    destruct (SkipList.Iterator_key (table_ m) it) as [e|]; [|done].
    cbn [fmap option_fmap option_map mbind option_bind].
    destruct (SkipList.Iterator_Next (table_ m) it) as [it'|]; [|done].
    cbn [mbind option_bind]. rewrite IH.
    by destruct (Iterator_collect steps (table_ m) it').
Qed.

Lemma collect_back_entries (m : MemTable) (steps : nat) :
  forall it,
  collect_back steps m it
  = map (fun e => (MemTableIterator.key e, MemTableIterator.value e))
    <$> Iterator_collect_back steps (table_ m) it.
Proof.
  induction steps as [|steps IH]; intros it.
  - cbn. unfold Valid. by destruct (SkipList.Iterator_Valid it).
  - cbn [collect_back Iterator_collect_back]. unfold Valid, key, value, Prev.
    destruct (SkipList.Iterator_Valid it); [|done].
    destruct (SkipList.Iterator_key (table_ m) it) as [e|]; [|done].
    cbn [fmap option_fmap option_map mbind option_bind].
    destruct (Iterator_Prev (table_ m) it) as [it'|]; [|done].
    cbn [mbind option_bind]. rewrite IH.
    by destruct (Iterator_collect_back steps (table_ m) it').
Qed.

Lemma entry_shown (w : Write) :
  fits w ->
  (MemTableIterator.key (entry w), MemTableIterator.value (entry w))
  = shown w.
Proof.
  intros Hf. pose proof (tag_of_range w Hf) as Ht.
  pose proof (size_of_nonneg (w_key w)) as Hk0.
  pose proof (size_of_nonneg (w_value w)) as Hv0.
  unfold shown, PackSequenceAndType.
  rewrite (entry_encoded w Hf). destruct Hf as (Hs & Hk & Hv).
  rewrite tag_value by lia. fold (tag_of w). rewrite (u64_small _ Ht).
  f_equal.
  - unfold MemTableIterator.key. by apply encoded_slice.
  - unfold MemTableIterator.value, encoded.
    rewrite (u32_small (size_of (w_key w) + 8)) by lia.
    rewrite (u32_small (size_of (w_value w))) by lia.
    destruct (memtable_slice_encoded (size_of (w_key w) + 8)
                (w_key w ++ Coding.EncodeFixed64 (tag_of w)
                 ++ Coding.EncodeVarint32 (size_of (w_value w)) ++ w_value w)
                ltac:(lia)) as (-> & -> & _).
    rewrite (app_assoc (w_key w)).
    rewrite <- (size_of_EncodeFixed64 (tag_of w)) at 1.
    rewrite <- size_of_app, advance_app_size.
    destruct (memtable_slice_encoded (size_of (w_value w)) (w_value w)
                ltac:(lia)) as (_ & _ & ->).
    by apply Slice_all.
Qed.

Lemma entry_before (ucmp : Comparator) (w w' : Write) :
  fits w -> fits w' -> w_seq w <> w_seq w' ->
  KeyComparator ucmp (entry w) (entry w') < 0 <-> write_before ucmp w w'.
Proof.
  intros Hf Hf' Hne. unfold write_before.
  rewrite (entry_encoded w Hf), (entry_encoded w' Hf').
  rewrite KeyComparator_encoded;
    try apply tag_of_range; try done; try apply Hf; try apply Hf'.
  pose proof (tag_of_le w w' Hf Hf') as (H1 & H2).
  pose proof (tag_of_le w' w Hf' Hf) as (H3 & H4).
  repeat match goal with
         | |- context [?u =? ?v] => destruct (Z.eqb_spec u v)
         | |- context [?u <? ?v] => destruct (Z.ltb_spec u v)
         end; lia.
Qed.

Lemma sorted_writes (ucmp : Comparator) (sorted : list Write) :
  Forall fits sorted -> NoDup (map w_seq sorted) ->
  StronglySorted (fun a b => KeyComparator ucmp a b < 0) (map entry sorted) ->
  StronglySorted (write_before ucmp) sorted.
Proof.
  induction sorted as [|w sorted IH]; intros Hf Hnd Hs; [constructor|].
  cbn [map] in Hs, Hnd.
  apply StronglySorted_cons in Hs as (Hall & Hs).
  apply NoDup_cons in Hnd as (Hnin & Hnd).
  apply Forall_cons in Hf as (Hfw & Hf).
  constructor; [by apply IH|].
  apply Forall_forall. intros w' Hw'.
  rewrite Forall_forall in Hall. rewrite Forall_forall in Hf.
  apply entry_before; [done|by apply Hf| |].
  - intros Heq. apply Hnin. rewrite Heq.
    change (map w_seq sorted) with (w_seq <$> sorted).
    by apply list_elem_of_fmap_2.
  - apply Hall. change (map entry sorted) with (entry <$> sorted).
    by apply list_elem_of_fmap_2.
Qed.

Lemma filter_map_entries {A B : Type} (f : A -> B) (P : B -> Prop)
    (Q : A -> Prop) `{!forall b, Decision (P b)} `{!forall a, Decision (Q a)}
    (xs : list A) :
  (forall a, a ∈ xs -> P (f a) <-> Q a) ->
  filter P (map f xs) = map f (filter Q xs).
Proof.
  induction xs as [|a xs IH]; intros Hiff; [done|].
  cbn [map]. rewrite !filter_cons.
  pose proof (Hiff a ltac:(left)) as Ha.
  rewrite IH by (intros b Hb; apply Hiff; by right).
  destruct (decide (P (f a))), (decide (Q a)); try tauto; done.
Qed.

Lemma EncodeKey_internal_key (user_key : list byte) (snapshot : Z) :
  MemTableIterator.EncodeKey (internal_key (LookupKey_new user_key snapshot))
  = memtable_key (LookupKey_new user_key snapshot).
Proof.
  unfold MemTableIterator.EncodeKey, internal_key, memtable_key,
    LookupKey_new, Coding.PutVarint32.
  cbn [start_ kstart_ app]. rewrite advance_app_size.
  by rewrite size_of_app, size_of_EncodeFixed64.
Qed.

(** X27 (the order of a memtable).  Let writes with pairwise different
    sequence numbers, which fit the encoding (sequence numbers below 2^56,
    user keys of fewer than 2^32 - 8 bytes, values of fewer than 2^32
    bytes), be added to a new memtable in any order, under a user
    comparator that is a three-way comparison of a total order.  A [MemTableIterator] run from [SeekToFirst] with
    [Next] shows every write exactly once, as its internal key (the user
    key followed by the eight bytes of [(seq << 8) | type]) and its
    value, ordered by user key and, for one user key, from the newest to
    the oldest sequence number.  Run from [SeekToLast] with [Prev] it
    shows them in the reverse order, and run from [Seek] with the
    internal key of a lookup for [user_key] at [snapshot] (a key and a
    sequence number that fit the encoding as well) it shows the
    writes of that order from the first one on that has a greater user
    key, or the same user key and a sequence number of at most
    [snapshot]. *)
Theorem memtable_iteration (ucmp : Comparator) (rnd : Random)
    (ws : list Write) :
  comparator_ok ucmp ->
  (forall i j wi wj, i <> j -> ws !! i = Some wi -> ws !! j = Some wj ->
                     w_seq wi <> w_seq wj) ->
  Forall fits ws ->
  exists m sorted,
    AddAll (MemTable_new ucmp rnd) ws = Some m /\
    sorted ≡ₚ ws /\
    StronglySorted (write_before ucmp) sorted /\
    (it ← SeekToFirst m;
     collect (length (SkipList.nodes (table_ m))) m it)
    = Some (map shown sorted) /\
    (it ← SeekToLast m;
     collect_back (length (SkipList.nodes (table_ m))) m it)
    = Some (rev (map shown sorted)) /\
    forall user_key snapshot,
      0 <= snapshot < 2 ^ 56 -> size_of user_key + 8 < 2 ^ 32 ->
      (it ← Seek m (internal_key (LookupKey_new user_key snapshot));
       collect (length (SkipList.nodes (table_ m))) m it)
      = Some (map shown
                (filter (fun w =>
                           ~ (ucmp (w_key w) user_key < 0 \/
                              (ucmp (w_key w) user_key = 0 /\
                               snapshot < w_seq w)))
                        sorted)).
Proof.
  intros Hu Hseq Hfits.
  pose proof (KeyComparator_ok ucmp Hu) as Hcmp.
  destruct (InsertAll_spec (KeyComparator ucmp) [] rnd (map entry ws) Hcmp
              (entries_distinct ucmp ws Hseq Hfits))
    as (l & order & Hl & Hinv & Hc & Hk).
  assert (Hcmp' : comparator_ok (SkipList.compare_ l)) by (by rewrite Hc).
  pose proof (inv_keys l order [] (map entry ws) Hinv Hk) as Hperm.
  destruct (Permutation.Permutation_map_inv entry _ Hperm)
    as (sorted & Hsorted & Hperm').
  assert (Hfs : Forall fits sorted) by (by rewrite <- Hperm').
  assert (Hshown : map (fun e => (MemTableIterator.key e,
                                   MemTableIterator.value e))
                     (map entry sorted) = map shown sorted).
  { rewrite map_map. apply map_ext_Forall.
    eapply Forall_impl; [exact Hfs|]. intros w Hw. by apply entry_shown. }
  exists {| comparator_ := ucmp; refs_ := 0; table_ := l |}, sorted.
  split; [by rewrite AddAll_InsertAll, Hl|].
  split; [done|]. split; [|split; [|split]].
  - apply sorted_writes; [done| |].
    + rewrite <- Hperm'. change (map w_seq ws) with (w_seq <$> ws).
      apply NoDup_alt. intros i j x Hi Hj.
      rewrite list_lookup_fmap in Hi, Hj.
      destruct (ws !! i) as [wi|] eqn:Hwi; [|done].
      destruct (ws !! j) as [wj|] eqn:Hwj; [|done].
      injection Hi as Hi. injection Hj as Hj.
      destruct (decide (i = j)) as [|Hne]; [done|].
      pose proof (Hseq i j wi wj Hne Hwi Hwj). congruence.
    + rewrite <- Hsorted, <- Hc. by apply keys_of_sorted.
  - unfold SeekToFirst. cbn [table_].
    pose proof (Iterator_all_spec l order Hinv) as Hall.
    unfold Iterator_all in Hall.
    destruct (SkipList.Iterator_SeekToFirst l) as [it|]; [|done].
    cbn [mbind option_bind] in Hall |- *.
    rewrite collect_entries. cbn [table_]. rewrite Hall.
    cbn [fmap option_fmap option_map]. by rewrite Hsorted, Hshown.
  - unfold SeekToLast. cbn [table_].
    pose proof (Iterator_back_spec l order Hinv Hcmp') as Hall.
    destruct (Iterator_SeekToLast l) as [it|]; [|done].
    cbn [mbind option_bind] in Hall |- *.
    rewrite collect_back_entries. cbn [table_]. rewrite Hall.
    cbn [fmap option_fmap option_map].
    by rewrite Hsorted, map_rev, Hshown.
  - intros user_key snapshot Hsnap Hsize.
    unfold Seek. cbn [table_]. rewrite EncodeKey_internal_key.
    pose proof (Iterator_Seek_spec l order
                  (memtable_key (LookupKey_new user_key snapshot))
                  Hinv Hcmp') as Hall.
    destruct (SkipList.Iterator_Seek l _) as [it|]; [|done].
    cbn [mbind option_bind] in Hall |- *.
    rewrite collect_entries. cbn [table_]. rewrite Hall.
    cbn [fmap option_fmap option_map]. f_equal.
    rewrite Hsorted, Hc.
    rewrite (filter_map_entries entry _
               (fun w => ~ (ucmp (w_key w) user_key < 0 \/
                            (ucmp (w_key w) user_key = 0 /\
                             snapshot < w_seq w)))).
    + rewrite map_map. apply map_ext_Forall.
      rewrite Forall_forall. intros w Hw. apply entry_shown.
      rewrite Forall_forall in Hfs. apply Hfs.
      by apply list_elem_of_filter in Hw as (_ & Hw).
    + intros w Hw. rewrite Forall_forall in Hfs.
      rewrite (entry_vs_memtable_key ucmp w user_key snapshot (Hfs w Hw)
                 Hsnap Hsize).
      destruct (w_type w); cbn [ValueType_to_Z];
      repeat match goal with
             | |- context [?u =? ?v] => destruct (Z.eqb_spec u v)
             | |- context [?u <? ?v] => destruct (Z.ltb_spec u v)
             end; lia.
Qed.

End MemTableIterating.

Lemma memtable_iteration_witness :
  SkipListState.comparator_ok BytewiseComparator /\
  (forall i j wi wj,
     i <> j -> MemTableUse.example_writes !! i = Some wi ->
     MemTableUse.example_writes !! j = Some wj ->
     MemTableUse.w_seq wi <> MemTableUse.w_seq wj) /\
  Forall MemTableUse.fits MemTableUse.example_writes /\
  exists m sorted,
    MemTableUse.AddAll (MemTable.MemTable_new BytewiseComparator
                          counting_random) MemTableUse.example_writes
    = Some m /\
    sorted ≡ₚ MemTableUse.example_writes /\
    StronglySorted (MemTableIteration.write_before BytewiseComparator)
      sorted /\
    (it ← MemTableIteration.SeekToFirst m;
     MemTableIteration.collect
       (length (SkipList.nodes (MemTable.table_ m))) m it)
    = Some (map MemTableIteration.shown sorted).
Proof.
  split; [exact BytewiseComparator_ok|].
  split; [exact example_writes_seqs|].
  split; [exact example_writes_fit|].
  destruct (memtable_iteration BytewiseComparator counting_random
              MemTableUse.example_writes BytewiseComparator_ok
              example_writes_seqs example_writes_fit)
    as (m & sorted & H1 & H2 & H3 & H4 & _).
  exists m, sorted. split; [exact H1|]. split; [exact H2|].
  split; [exact H3|exact H4].
Defined.

(** ** util/arena.cc: the memory an arena hands out *)

Section ArenaProps.
Import Arena.

Variable operator_new : Heap -> Z -> option Z.
Hypothesis Hrt : runtime_ok operator_new.

Lemma heap_usage_snoc (h : Heap) (b : Z * Z) :
  heap_usage (h ++ [b]) = heap_usage h + b.2 + sizeof_pointer.
Proof.
  unfold heap_usage. induction h as [|b' h IH]; cbn [app foldr]; lia.
Qed.

Lemma u64_add_l (x y : Z) : u64 (u64 x + y) = u64 (x + y).
Proof. unfold u64. by rewrite Zplus_mod_idemp_l. Qed.

Lemma disjoint_within (r r' b : Z * Z) :
  disjoint r b -> within r' b -> 0 <= r'.2 -> disjoint r r'.
Proof. unfold disjoint, within. lia. Qed.

Lemma disjoint_snoc (outs : list (Request * Z)) (x : Request * Z) :
  (forall i j oi oj, (i < j)%nat -> outs !! i = Some oi ->
     outs !! j = Some oj -> disjoint (range oi) (range oj)) ->
  (forall o, o ∈ outs -> disjoint (range o) (range x)) ->
  forall i j oi oj, (i < j)%nat -> (outs ++ [x]) !! i = Some oi ->
    (outs ++ [x]) !! j = Some oj -> disjoint (range oi) (range oj).
Proof.
  intros Hold Hnew i j oi oj Hij Hi Hj.
  pose proof (lookup_lt_Some _ _ _ Hj) as Hjl.
  rewrite length_app in Hjl. cbn [length] in Hjl.
  rewrite lookup_app_l in Hi by lia.
  destruct (decide (j < length outs)%nat) as [Hlt|Hge].
  - rewrite lookup_app_l in Hj by lia. by apply (Hold i j).
  - rewrite lookup_app_r in Hj by lia.
    replace (j - length outs)%nat with 0%nat in Hj by lia.
    injection Hj as <-. apply Hnew. by eapply list_elem_of_lookup_2.
Qed.

(** The arena before the first call. *)
Lemma arena_inv_new : arena_inv [] Arena_new [].
Proof.
  split.
  - done.
  - cbn. lia.
  - by left.
  - intros out Hout. by apply elem_of_nil in Hout.
  - intros out Hout. by apply elem_of_nil in Hout.
  - by intros i j oi oj _ Hi.
  - intros out Hout. by apply elem_of_nil in Hout.
  - done.
  - done.
Qed.

(** Memory taken from the current block. *)
Lemma arena_inv_bump (h : Heap) (a : Arena) (outs : list (Request * Z))
    (q : Request) (slop : Z) :
  arena_inv h a outs ->
  0 <= slop -> 0 < bytes q -> bytes q + slop <= alloc_bytes_remaining_ a ->
  (aligned q = true -> (alloc_ptr_ a + slop) mod 8 = 0) ->
  arena_inv h
    {| alloc_ptr_ := alloc_ptr_ a + (bytes q + slop);
       alloc_bytes_remaining_ :=
         u64 (alloc_bytes_remaining_ a - (bytes q + slop));
       blocks_ := blocks_ a;
       memory_usage_ := memory_usage_ a |}
    (outs ++ [(q, alloc_ptr_ a + slop)]).
Proof.
  intros [Hp Hr Hw Hin Hout Hdis Hal Hb Hu] Hslop Hbytes Hfit Halign.
  assert (Hrem : u64 (alloc_bytes_remaining_ a - (bytes q + slop))
                 = alloc_bytes_remaining_ a - (bytes q + slop))
    by (apply u64_small; lia).
  destruct Hw as [Hw|(b & Hbh & Hbw)]; [lia|].
  unfold within in Hbw. cbn [fst snd] in Hbw.
  split; cbn [alloc_ptr_ alloc_bytes_remaining_ blocks_ memory_usage_];
    rewrite ?Hrem; try done; try lia.
  - right. exists b. split; [done|]. unfold within. cbn [fst snd]. lia.
  - intros out Ho. apply elem_of_app in Ho as [Ho|Ho]; [by apply Hin|].
    apply list_elem_of_singleton in Ho as ->.
    exists b. split; [done|]. unfold within, range. cbn [fst snd]. lia.
  - intros out Ho. right. apply elem_of_app in Ho as [Ho|Ho].
    + destruct (Hout out Ho) as [|Hd]; [lia|].
      unfold disjoint in *. cbn [fst snd] in *. lia.
    + apply list_elem_of_singleton in Ho as ->.
      unfold disjoint, range. cbn [fst snd]. lia.
  - apply disjoint_snoc; [done|]. intros o Ho.
    destruct (Hout o Ho) as [|Hd]; [lia|].
    unfold disjoint, range in *. cbn [fst snd] in *. lia.
  - intros out Ho Ha. apply elem_of_app in Ho as [Ho|Ho]; [by apply Hal|].
    apply list_elem_of_singleton in Ho as ->. by apply Halign.
Qed.

(** A new block of the runtime, apart from everything handed out. *)
Lemma new_block_apart (h : Heap) (a : Arena) (outs : list (Request * Z))
    (n p : Z) :
  arena_inv h a outs -> operator_new h n = Some p ->
  (forall out, out ∈ outs -> 0 < bytes out.1) ->
  forall out, out ∈ outs -> disjoint (range out) (p, n).
Proof.
  intros Hinv Hnew Hpos out Ho.
  destruct (Hrt h n p Hnew) as (_ & _ & _ & Hd).
  destruct (inv_outs_within _ _ _ Hinv out Ho) as (b & Hb & Hw).
  specialize (Hd b Hb). specialize (Hpos out Ho).
  unfold disjoint, within, range in *. cbn [fst snd] in *. lia.
Qed.

(** Memory in a block of its own. *)
Lemma arena_inv_own_block (h : Heap) (a : Arena)
    (outs : list (Request * Z)) (q : Request) (p : Z) :
  arena_inv h a outs -> 0 < bytes q ->
  (forall out, out ∈ outs -> 0 < bytes out.1) ->
  operator_new h (bytes q) = Some p ->
  arena_inv (h ++ [(p, bytes q)])
    {| alloc_ptr_ := alloc_ptr_ a;
       alloc_bytes_remaining_ := alloc_bytes_remaining_ a;
       blocks_ := blocks_ a ++ [p];
       memory_usage_ := u64 (MemoryUsage a + bytes q + sizeof_pointer) |}
    (outs ++ [(q, p)]).
Proof.
  intros Hinv Hbytes Hpos Hnew.
  pose proof (new_block_apart h a outs (bytes q) p Hinv Hnew Hpos) as Happ.
  destruct (Hrt h (bytes q) p Hnew) as (Hp0 & Hp64 & Hp8 & Hd).
  destruct Hinv as [Hp Hr Hw Hin Hout Hdis Hal Hb Hu].
  split; cbn [alloc_ptr_ alloc_bytes_remaining_ blocks_ memory_usage_];
    try done.
  - destruct Hw as [Hw|(b & Hbh & Hbw)]; [by left|right].
    exists b. split; [|done]. apply elem_of_app. by left.
  - intros out Ho. apply elem_of_app in Ho as [Ho|Ho].
    + destruct (Hin out Ho) as (b & Hbh & Hbw). exists b.
      split; [|done]. apply elem_of_app. by left.
    + apply list_elem_of_singleton in Ho as ->.
      exists (p, bytes q). split.
      * apply elem_of_app. right. by apply list_elem_of_singleton.
      * unfold within, range. cbn [fst snd]. lia.
  - intros out Ho. apply elem_of_app in Ho as [Ho|Ho]; [by apply Hout|].
    apply list_elem_of_singleton in Ho as ->.
    destruct Hw as [Hw|(b & Hbh & Hbw)]; [by left|right].
    specialize (Hd b Hbh).
    unfold disjoint, within, range in *. cbn [fst snd] in *. lia.
  - apply disjoint_snoc; [done|]. intros o Ho. by apply Happ.
  - intros out Ho Ha. apply elem_of_app in Ho as [Ho|Ho]; [by apply Hal|].
    by apply list_elem_of_singleton in Ho as ->.
  - rewrite map_app, Hb. done.
  - unfold MemoryUsage. rewrite Hu, heap_usage_snoc. cbn [snd].
    rewrite <- Z.add_assoc, u64_add_l. f_equal. lia.
Qed.

(** Memory at the start of a new block of [kBlockSize] bytes. *)
Lemma arena_inv_new_block (h : Heap) (a : Arena)
    (outs : list (Request * Z)) (q : Request) (p : Z) :
  arena_inv h a outs -> 0 < bytes q <= kBlockSize / 4 ->
  (forall out, out ∈ outs -> 0 < bytes out.1) ->
  operator_new h kBlockSize = Some p ->
  arena_inv (h ++ [(p, kBlockSize)])
    {| alloc_ptr_ := p + bytes q;
       alloc_bytes_remaining_ := u64 (kBlockSize - bytes q);
       blocks_ := blocks_ a ++ [p];
       memory_usage_ := u64 (MemoryUsage a + kBlockSize + sizeof_pointer) |}
    (outs ++ [(q, p)]).
Proof.
  intros Hinv Hbytes Hpos Hnew.
  pose proof (new_block_apart h a outs kBlockSize p Hinv Hnew Hpos) as Happ.
  destruct (Hrt h kBlockSize p Hnew) as (Hp0 & Hp64 & Hp8 & Hd).
  destruct Hinv as [Hp Hr Hw Hin Hout Hdis Hal Hb Hu].
  change (kBlockSize / 4) with 1024 in Hbytes.
  unfold kBlockSize in *.
  assert (Hrem : u64 (4096 - bytes q) = 4096 - bytes q)
    by (apply u64_small; lia).
  split; cbn [alloc_ptr_ alloc_bytes_remaining_ blocks_ memory_usage_];
    rewrite ?Hrem; try lia.
  - right. exists (p, 4096). split.
    + apply elem_of_app. right. by apply list_elem_of_singleton.
    + unfold within. cbn [fst snd]. lia.
  - intros out Ho. apply elem_of_app in Ho as [Ho|Ho].
    + destruct (Hin out Ho) as (b & Hbh & Hbw). exists b.
      split; [|done]. apply elem_of_app. by left.
    + apply list_elem_of_singleton in Ho as ->.
      exists (p, 4096). split.
      * apply elem_of_app. right. by apply list_elem_of_singleton.
      * unfold within, range. cbn [fst snd]. lia.
  - intros out Ho. right. apply elem_of_app in Ho as [Ho|Ho].
    + specialize (Happ out Ho). specialize (Hpos out Ho).
      unfold disjoint, range in *. cbn [fst snd] in *. lia.
    + apply list_elem_of_singleton in Ho as ->.
      unfold disjoint, range. cbn [fst snd]. lia.
  - apply disjoint_snoc; [done|]. intros o Ho.
    specialize (Happ o Ho). specialize (Hpos o Ho).
    unfold disjoint, range in *. cbn [fst snd] in *. lia.
  - intros out Ho Ha. apply elem_of_app in Ho as [Ho|Ho]; [by apply Hal|].
    by apply list_elem_of_singleton in Ho as ->.
  - rewrite map_app, Hb. done.
  - unfold MemoryUsage. rewrite Hu, heap_usage_snoc. cbn [snd].
    rewrite <- Z.add_assoc, u64_add_l. f_equal. lia.
Qed.

Lemma AllocateFallback_inv (h : Heap) (a : Arena)
    (outs : list (Request * Z)) (q : Request) (p : Z) (h' : Heap)
    (a' : Arena) :
  arena_inv h a outs -> 0 < bytes q ->
  (forall out, out ∈ outs -> 0 < bytes out.1) ->
  AllocateFallback operator_new h a (bytes q) = Some (p, h', a') ->
  arena_inv h' a' (outs ++ [(q, p)]).
Proof.
  intros Hinv Hbytes Hpos HF. unfold AllocateFallback, AllocateNewBlock in HF.
  destruct (Z.ltb_spec (kBlockSize / 4) (bytes q)).
  - destruct (operator_new h (bytes q)) as [p0|] eqn:Hnew; [|done].
    cbn [mbind option_bind] in HF. injection HF as <- <- <-.
    by apply arena_inv_own_block.
  - destruct (operator_new h kBlockSize) as [p0|] eqn:Hnew; [|done].
    cbn [mbind option_bind] in HF. injection HF as <- <- <-.
    cbn [blocks_ memory_usage_].
    apply arena_inv_new_block; [done|lia|done|done].
Qed.

Lemma serve_inv (h : Heap) (a : Arena) (outs : list (Request * Z))
    (q : Request) (p : Z) (h' : Heap) (a' : Arena) :
  arena_inv h a outs -> 0 < bytes q < 2 ^ 63 ->
  (forall out, out ∈ outs -> 0 < bytes out.1) ->
  serve operator_new h a q = Some (p, h', a') ->
  arena_inv h' a' (outs ++ [(q, p)]).
Proof.
  intros Hinv Hbytes Hpos HS. unfold serve in HS.
  destruct (aligned q) eqn:Hal.
  - unfold AllocateAligned in HS.
    change (if 8 <? sizeof_pointer then sizeof_pointer else 8) with 8 in HS.
    change (8 - 1) with (Z.ones 3) in HS.
    pose proof (inv_ptr _ _ _ Hinv) as Hp.
    rewrite Z.land_ones in HS by lia. change (2 ^ 3) with 8 in HS.
    pose proof (Z.mod_pos_bound (alloc_ptr_ a) 8 ltac:(lia)) as Hmod.
    set (slop := if alloc_ptr_ a mod 8 =? 0 then 0
                 else 8 - alloc_ptr_ a mod 8) in *.
    assert (Hslop : 0 <= slop < 8)
      by (unfold slop; destruct (Z.eqb_spec (alloc_ptr_ a mod 8) 0); lia).
    assert (Haligned : (alloc_ptr_ a + slop) mod 8 = 0).
    { unfold slop. destruct (Z.eqb_spec (alloc_ptr_ a mod 8) 0) as [E|E].
      - by rewrite Z.add_0_r.
      - rewrite (Z.div_mod (alloc_ptr_ a) 8) at 1 by lia.
        replace (8 * (alloc_ptr_ a / 8) + alloc_ptr_ a mod 8
                 + (8 - alloc_ptr_ a mod 8))
          with ((alloc_ptr_ a / 8 + 1) * 8) by lia.
        apply Z.mod_mul. lia. }
    rewrite (u64_small (bytes q + slop)) in HS by lia.
    destruct (Z.leb_spec (bytes q + slop) (alloc_bytes_remaining_ a)).
    + injection HS as <- <- <-. apply arena_inv_bump; try done; lia.
    + apply (AllocateFallback_inv h a); [done|lia|done|done].
  - unfold Allocate in HS.
    destruct (Z.leb_spec (bytes q) (alloc_bytes_remaining_ a)).
    + injection HS as <- <- <-.
      pose proof (arena_inv_bump h a outs q 0 Hinv ltac:(lia) ltac:(lia)
                    ltac:(lia)) as Hb.
      rewrite !Z.add_0_r in Hb. apply Hb. by rewrite Hal.
    + apply (AllocateFallback_inv h a); [done|lia|done|done].
Qed.

Lemma run_inv (qs : list Request) :
  forall (h : Heap) (a : Arena) (outs : list (Request * Z)) (ps : list Z)
         (h' : Heap) (a' : Arena),
  arena_inv h a outs ->
  Forall (fun q => 0 < bytes q < 2 ^ 63) qs ->
  (forall out, out ∈ outs -> 0 < bytes out.1) ->
  run operator_new h a qs = Some (ps, h', a') ->
  length ps = length qs /\ arena_inv h' a' (outs ++ zip qs ps).
Proof.
  induction qs as [|q qs IH]; intros h a outs ps h' a' Hinv Hqs Hpos HR.
  - injection HR as <- <- <-. by rewrite app_nil_r.
  - cbn [run] in HR. apply Forall_cons in Hqs as (Hq & Hqs).
    destruct (serve operator_new h a q) as [[[p h1] a1]|] eqn:HS; [|done].
    cbn [mbind option_bind] in HR.
    destruct (run operator_new h1 a1 qs) as [[[ps1 h2] a2]|] eqn:HR1;
      [|done].
    cbn [mbind option_bind] in HR. injection HR as <- <- <-.
    pose proof (serve_inv h a outs q p h1 a1 Hinv Hq Hpos HS) as Hinv1.
    destruct (IH h1 a1 (outs ++ [(q, p)]) ps1 h2 a2 Hinv1 Hqs) as (Hl & Hi);
      [|done|].
    + intros out Ho. apply elem_of_app in Ho as [Ho|Ho]; [by apply Hpos|].
      apply list_elem_of_singleton in Ho as ->. cbn [fst]. lia.
    + split; [cbn [length]; lia|].
      cbn [zip zip_with]. by rewrite <- app_assoc in Hi.
Qed.

(** X28 (an arena never hands out the same byte twice).  Let requests for
    more than 0 and fewer than 2^63 bytes be served by an arena that
    starts empty, [Allocate] or [AllocateAligned] in any mix, on a
    runtime whose [new] returns arrays apart from each other at multiples
    of eight, and let no [new] fail.  Then every request gets a range of
    its size that lies within one of the arena's blocks, no two ranges
    have a byte in common, and every pointer [AllocateAligned] returned
    is a multiple of eight.  [blocks_] lists the blocks of the heap, and
    [MemoryUsage()] is the sum of their sizes plus a pointer for each. *)
Theorem arena_no_overlap (qs : list Request) (ps : list Z) (h : Heap)
    (a : Arena) :
  Forall (fun q => 0 < bytes q < 2 ^ 63) qs ->
  run operator_new [] Arena_new qs = Some (ps, h, a) ->
  length ps = length qs /\
  (forall i q p, qs !! i = Some q -> ps !! i = Some p ->
     (exists b, b ∈ h /\ within (p, bytes q) b) /\
     (aligned q = true -> p mod 8 = 0)) /\
  (forall i j qi qj pi pj,
     i <> j -> qs !! i = Some qi -> ps !! i = Some pi ->
     qs !! j = Some qj -> ps !! j = Some pj ->
     disjoint (pi, bytes qi) (pj, bytes qj)) /\
  blocks_ a = map fst h /\
  MemoryUsage a = u64 (heap_usage h).
Proof.
  intros Hqs HR.
  destruct (run_inv qs [] Arena_new [] ps h a arena_inv_new Hqs) as (Hl & Hinv);
    [by intros out Ho; apply elem_of_nil in Ho|done|].
  cbn [app] in Hinv.
  assert (Hzip : forall i q p, qs !! i = Some q -> ps !! i = Some p ->
            zip qs ps !! i = Some (q, p)).
  { intros i q p Hq Hp. rewrite lookup_zip_with, Hq. cbn. by rewrite Hp. }
  split; [done|]. split; [|split; [|split]].
  - intros i q p Hq Hp.
    pose proof (list_elem_of_lookup_2 _ _ _ (Hzip i q p Hq Hp)) as Hin.
    split.
    + apply (inv_outs_within _ _ _ Hinv (q, p) Hin).
    + apply (inv_outs_aligned _ _ _ Hinv (q, p) Hin).
  - intros i j qi qj pi pj Hij Hqi Hpi Hqj Hpj.
    pose proof (Hzip i qi pi Hqi Hpi) as Hi.
    pose proof (Hzip j qj pj Hqj Hpj) as Hj.
    destruct (decide (i < j)%nat) as [Hlt|Hge].
    + apply (inv_outs_disjoint _ _ _ Hinv i j (qi, pi) (qj, pj) Hlt Hi Hj).
    + pose proof (inv_outs_disjoint _ _ _ Hinv j i (qj, pj) (qi, pi)
                    ltac:(lia) Hj Hi) as Hd.
      unfold disjoint, range in *. cbn [fst snd] in *. lia.
  - apply (inv_blocks _ _ _ Hinv).
  - apply (inv_usage _ _ _ Hinv).
Qed.

End ArenaProps.

Lemma bump_new_top (h : Arena.Heap) (b : Z * Z) :
  b ∈ h ->
  8 <= foldr (fun b t => Z.max t (b.1 + b.2)) 8 h /\
  b.1 + b.2 <= foldr (fun b t => Z.max t (b.1 + b.2)) 8 h.
Proof.
  induction h as [|b' h IH]; intros Hb; [by apply elem_of_nil in Hb|].
  cbn [foldr]. apply elem_of_cons in Hb as [->|Hb].
  - assert (8 <= foldr (fun b t => Z.max t (b.1 + b.2)) 8 h).
    { clear. induction h as [|b h IH]; cbn [foldr]; lia. }
    lia.
  - destruct (IH Hb). lia.
Qed.

Lemma bump_new_ok : Arena.runtime_ok Arena.bump_new.
Proof.
  intros h n p Hp. unfold Arena.bump_new in Hp.
  set (top := foldr (fun b t => Z.max t (b.1 + b.2)) 8 h) in *.
  assert (Htop : 8 <= top).
  { subst top. clear. induction h as [|b h IH]; cbn [foldr]; lia. }
  destruct (Z.leb_spec 0 n); [|done].
  destruct (Z.ltb_spec ((top + 7) / 8 * 8 + n) (2 ^ 20)); [|done].
  injection Hp as <-.
  assert (Hge : top <= (top + 7) / 8 * 8).
  { pose proof (Z.div_mod (top + 7) 8 ltac:(lia)).
    pose proof (Z.mod_pos_bound (top + 7) 8 ltac:(lia)). lia. }
  split; [lia|]. split; [lia|]. split; [apply Z.mod_mul; lia|].
  intros b Hb. destruct (bump_new_top h b Hb) as (_ & Hle).
  fold top in Hle. unfold Arena.disjoint. cbn [fst snd]. lia.
Qed.

Lemma arena_no_overlap_witness :
  Arena.runtime_ok Arena.bump_new /\
  Forall (fun q => 0 < Arena.bytes q < 2 ^ 63) Arena.example_requests /\
  exists ps h a,
    Arena.run Arena.bump_new [] Arena.Arena_new Arena.example_requests
    = Some (ps, h, a) /\
    length ps = length Arena.example_requests /\
    Arena.MemoryUsage a = u64 (Arena.heap_usage h).
Proof.
  split; [exact bump_new_ok|].
  assert (Hq : Forall (fun q => 0 < Arena.bytes q < 2 ^ 63)
                 Arena.example_requests)
    by (repeat constructor; cbn; lia).
  split; [exact Hq|].
  destruct (Arena.run Arena.bump_new [] Arena.Arena_new
              Arena.example_requests) as [[[ps h] a]|] eqn:HR;
    [|vm_compute in HR; discriminate HR].
  exists ps, h, a. split; [reflexivity|].
  destruct (arena_no_overlap Arena.bump_new bump_new_ok
              Arena.example_requests ps h a Hq HR)
    as (H1 & _ & _ & _ & H5).
  split; [exact H1|exact H5].
Defined.

(** ** db/dbformat.cc: filters of internal keys *)

Section InternalFilterProps.
Import FilterBlock DBFormat InternalFilter.

Lemma InternalFilterPolicy_ok (user : FilterPolicy) :
  policy_ok user -> policy_ok (InternalFilterPolicy user).
Proof.
  intros Hu keys dst Hnum.
  destruct (Hu (map ExtractUserKey keys) dst) as (f & Hf & Hm);
    [by rewrite length_map|].
  rewrite length_map in Hf.
  exists f. split.
  { cbn [CreateFilter InternalFilterPolicy].
    by rewrite Nat2Z.id, firstn_all, drop_all, app_nil_r. }
  intros key Hkey. cbn [KeyMayMatch InternalFilterPolicy].
  apply Hm. change (map ExtractUserKey keys) with (ExtractUserKey <$> keys).
  by apply list_elem_of_fmap_2.
Qed.

(** X29 (filters do not depend on sequence numbers).  Let the filter
    block of a table be built, as in X20, from internal keys with an
    [InternalFilterPolicy] over a user policy whose filters match the keys
    they were created from: block offsets not decreasing, fewer than 2^31
    keys for each filter, a filter block of fewer than 2^32 bytes.  Every
    key has the eight bytes of a tag, which [ExtractUserKey] asserts.
    Then the reader answers [KeyMayMatch] with
    true for every internal key that has the user key of a key added for
    the block at the given offset, whatever its sequence number and type:
    a lookup key, which carries the reader's snapshot and not the
    sequence number of the write, is never filtered out. *)
Theorem internal_filter_any_sequence (user : FilterPolicy)
    (blocks : list (Z * list (list byte))) :
  policy_ok user ->
  (forall i j bi bj, (i <= j)%nat ->
     blocks !! i = Some bi -> blocks !! j = Some bj -> bi.1 <= bj.1) ->
  Forall (fun block => 0 <= block.1 < 2 ^ 64 /\
                       Forall (fun key => 8 <= size_of key < 2 ^ 64) block.2)
         blocks ->
  (forall index, keys_of_filter blocks index < 2 ^ 31) ->
  size_of (build (InternalFilterPolicy user) blocks) < 2 ^ 32 ->
  forall (block_offset : Z) (keys : list (list byte))
         (key lookup : list byte),
  (block_offset, keys) ∈ blocks -> key ∈ keys ->
  8 <= size_of lookup ->
  ExtractUserKey lookup = ExtractUserKey key ->
  FilterBlockReader_KeyMayMatch
    (FilterBlockReader_new (InternalFilterPolicy user)
       (build (InternalFilterPolicy user) blocks))
    block_offset lookup
  = true.
Proof.
  intros Hu Hsorted Hall Hnum Hsize o keys key lookup Hin Hkey _ Hsame.
  pose proof (InternalFilterPolicy_ok user Hu) as Hpol.
  set (policy := InternalFilterPolicy user) in *.
  assert (Ho : 0 <= o).
  { rewrite Forall_forall in Hall. by destruct (Hall _ Hin) as ((? & _) & _). }
  destruct (run_blocks_spec blocks (FilterBlockBuilder_new policy) [] []
              (filter_inv_new policy) Hpol ltac:(constructor))
    as (fs1 & pend1 & Hinv1 & Hp1 & Hsz1 & Hnum1 & _ & Hcov).
  { intros index. specialize (Hnum index). unfold keys_pending.
    cbn [length]. destruct (decide (index = Z.of_nat 0)); lia. }
  { exact Hsorted. }
  { eapply Forall_impl; [exact Hall|].
    intros [o' keys'] ((Ho' & _) & Hk'). cbn [fst snd length] in *.
    split; [done|]. split.
    - apply (Z.div_pos o' kFilterBase Ho' kFilterBase_pos).
    - eapply Forall_impl; [exact Hk'|]. cbn beta. lia. }
  cbn [FilterBlockBuilder_new policy_] in Hp1, Hcov.
  destruct (Finish_spec _ fs1 pend1 Hinv1 ltac:(by rewrite Hp1) Hsz1 Hnum1)
    as (fs & Hblock & Hfound).
  rewrite Hp1 in Hfound.
  destruct (Hfound o key Ho (Hcov o keys key Hin Hkey)) as (f & Hf & Hmatch).
  unfold build in *. rewrite Hblock in *.
  rewrite (reader_filter policy fs o lookup f Hsize Ho Hf).
  unfold policy in *. cbn [KeyMayMatch InternalFilterPolicy] in *.
  by rewrite Hsame.
Qed.

Lemma internal_filter_any_sequence_witness :
  policy_ok FirstBytePolicy /\
  8 <= size_of (Coding.PutFixed64 [x64]
                  (PackSequenceAndType 100 kValueTypeForSeek)) /\
  ExtractUserKey (Coding.PutFixed64 [x64]
                    (PackSequenceAndType 100 kValueTypeForSeek))
  = ExtractUserKey (Coding.PutFixed64 [x64]
                      (PackSequenceAndType 9 kTypeValue)) /\
  FilterBlockReader_KeyMayMatch
    (FilterBlockReader_new (InternalFilterPolicy FirstBytePolicy)
       (build (InternalFilterPolicy FirstBytePolicy) example_blocks))
    5000
    (Coding.PutFixed64 [x64] (PackSequenceAndType 100 kValueTypeForSeek))
  = true.
Proof.
  split; [exact FirstBytePolicy_ok|]. split; [by vm_compute|].
  split; [reflexivity|].
  apply (internal_filter_any_sequence FirstBytePolicy example_blocks
           FirstBytePolicy_ok)
    with (keys := [Coding.PutFixed64 [x64]
                     (PackSequenceAndType 9 kTypeValue)])
         (key := Coding.PutFixed64 [x64] (PackSequenceAndType 9 kTypeValue)).
  - intros i j bi bj Hij Hi Hj.
    destruct i as [|[|i]], j as [|[|j]]; cbn in Hi, Hj; try lia;
      try discriminate; injection Hi as <-; injection Hj as <-; cbn; lia.
  - repeat first [apply Forall_nil | apply Forall_cons | split];
      by vm_compute.
  - intros index. eapply Z.le_lt_trans; [apply keys_of_filter_le|].
    by vm_compute.
  - vm_compute. reflexivity.
  - apply list_elem_of_further, list_elem_of_here.
  - apply list_elem_of_here.
  - by vm_compute.
  - reflexivity.
Defined.

End InternalFilterProps.

(** ** util/logging.cc: ConsumeDecimalNumber *)

Section LoggingProps.
Import Logging.

Lemma is_digit_range (c : byte) :
  is_digit c = true -> 0 <= byte_to_Z c - byte_to_Z "0" <= 9.
Proof.
  unfold is_digit. rewrite andb_true_iff, !Z.leb_le.
  change (byte_to_Z "0") with 48. change (byte_to_Z "9") with 57. lia.
Qed.

Lemma value_from_le (ds : list byte) (v : Z) :
  0 <= v -> Forall (fun c => is_digit c = true) ds -> v <= value_from v ds.
Proof.
  revert v. induction ds as [|c ds IH]; intros v Hv Hds; [cbn; lia|].
  inversion Hds as [|? ? Hc Hds']; subst.
  pose proof (is_digit_range c Hc).
  cbn [value_from foldl]. fold (value_from (10 * v + (byte_to_Z c - byte_to_Z "0")) ds).
  specialize (IH (10 * v + (byte_to_Z c - byte_to_Z "0")) ltac:(lia) Hds'). lia.
Qed.

Lemma ConsumeDecimalNumber_loop_spec (ds rest : list byte) (v digits : Z) :
  0 <= v < 2 ^ 64 ->
  Forall (fun c => is_digit c = true) ds -> no_digit_first rest ->
  (value_from v ds < 2 ^ 64 /\
   ConsumeDecimalNumber_loop (ds ++ rest) v digits
   = (rest, Some (value_from v ds, digits + size_of ds))) \/
  (exists consumed left,
     ds = consumed ++ left /\
     value_from v consumed < 2 ^ 64 <= value_from v (consumed ++ take 1 left) /\
     ConsumeDecimalNumber_loop (ds ++ rest) v digits = (left ++ rest, None)).
Proof.
  revert v digits. induction ds as [|c ds IH]; intros v digits Hv Hds Hrest.
  - left. split; [cbn; lia|]. unfold size_of. cbn [length app value_from foldl].
    rewrite Z.add_0_r. destruct rest as [|c rest]; [done|].
    cbn [no_digit_first] in Hrest. cbn [ConsumeDecimalNumber_loop].
    by rewrite Hrest.
  - inversion Hds as [|? ? Hc Hds']; subst.
    pose proof (is_digit_range c Hc) as Hd.
    cbn [app ConsumeDecimalNumber_loop]. rewrite Hc.
    change (kMaxUint64 / 10) with 1844674407370955161.
    change (kMaxUint64 mod 10) with 5.
    set (delta := byte_to_Z c - byte_to_Z "0") in *.
    destruct ((1844674407370955161 <? v)
              || ((v =? 1844674407370955161) && (5 <? delta))) eqn:Hover.
    + right. exists [], (c :: ds). split; [done|]. split; [|done].
      cbn [app take value_from foldl]. fold delta.
      rewrite orb_true_iff, andb_true_iff, !Z.ltb_lt, Z.eqb_eq in Hover.
      rewrite take_0. cbn [foldl]. lia.
    + rewrite orb_false_iff, andb_false_iff, !Z.ltb_ge, Z.eqb_neq in Hover.
      assert (Hnext : 0 <= v * 10 + delta < 2 ^ 64) by lia.
      unfold u64. rewrite (Z.mod_small _ _ Hnext).
      destruct (IH (v * 10 + delta) (digits + 1) Hnext Hds' Hrest)
        as [(Hlt & ->)|(consumed & left & -> & Hval & ->)].
      * left. cbn [value_from foldl]. fold delta.
        replace (10 * v + delta) with (v * 10 + delta) by lia.
        fold (value_from (v * 10 + delta) ds). split; [done|].
        unfold size_of. cbn [length]. do 3 f_equal. lia.
      * right. exists (c :: consumed), left. split; [done|]. split; [|done].
        cbn [app value_from foldl]. fold delta.
        replace (10 * v + delta) with (v * 10 + delta) by lia.
        exact Hval.
Qed.

(** X30 (parsing a decimal number).  Let [in] consist of the decimal
    digits [ds] followed by [rest], which does not start with a digit, and
    be shorter than 2^31 bytes (the digits are counted in an [int]).  If
    [ds] is empty, [ConsumeDecimalNumber] returns false, sets [*val] to 0
    and leaves [in] as it is.  If the number that [ds] denotes is below
    2^64, it returns true, sets [*val] to this number and leaves [rest] in
    [in]; leading zeros do not matter.  Otherwise it returns false and
    leaves [*val] untouched, and [in] starts at the first digit with which
    the number read so far would reach 2^64: the digits before it are
    consumed. *)
Theorem ConsumeDecimalNumber_spec (ds rest : list byte) (val : Z) :
  Forall (fun c => is_digit c = true) ds -> no_digit_first rest ->
  size_of (ds ++ rest) < 2 ^ 31 ->
  (ds = [] ->
   ConsumeDecimalNumber (ds ++ rest) val = (rest, 0, false)) /\
  (ds <> [] -> decimal_value ds < 2 ^ 64 ->
   ConsumeDecimalNumber (ds ++ rest) val = (rest, decimal_value ds, true)) /\
  (2 ^ 64 <= decimal_value ds ->
   exists consumed left,
     ds = consumed ++ left /\
     decimal_value consumed < 2 ^ 64
       <= decimal_value (consumed ++ take 1 left) /\
     ConsumeDecimalNumber (ds ++ rest) val = (left ++ rest, val, false)).
Proof.
  intros Hds Hrest _.
  change decimal_value with (value_from 0).
  unfold ConsumeDecimalNumber.
  destruct (ConsumeDecimalNumber_loop_spec ds rest 0 0 ltac:(lia) Hds Hrest)
    as [(Hlt & ->)|(consumed & left & Heq & Hval & ->)].
  - split; [by intros ->|]. split; [|lia].
    intros Hne _. do 2 f_equal. apply Z.ltb_lt.
    destruct ds; [done|]. unfold size_of. cbn [length]. lia.
  - assert (Hover : 2 ^ 64 <= value_from 0 ds).
    { subst ds. destruct left as [|c left].
      - cbn [take] in Hval. rewrite app_nil_r in Hval. lia.
      - cbn [take] in Hval. rewrite take_0 in Hval.
        apply Forall_app in Hds as (Hc & Hl).
        inversion Hl as [|? ? Hc' Hl']; subst.
        replace (consumed ++ c :: left) with ((consumed ++ [c]) ++ left)
          by (by rewrite <- app_assoc).
        assert (E : value_from 0 ((consumed ++ [c]) ++ left)
                    = value_from (value_from 0 (consumed ++ [c])) left)
          by (unfold value_from; by rewrite foldl_app).
        rewrite E.
        pose proof (value_from_le left (value_from 0 (consumed ++ [c]))
                      ltac:(lia) Hl'). lia. }
    split; [intros ->; cbn in Hover; lia|]. split; [lia|].
    intros _. by exists consumed, left.
Qed.

Lemma ConsumeDecimalNumber_spec_witness :
  ConsumeDecimalNumber
    (["0"; "4"; "2"] ++ ["-"; "7"])%byte 5 = (["-"; "7"]%byte, 42, true) /\
  exists consumed left,
    ["1"; "8"; "4"; "4"; "6"; "7"; "4"; "4"; "0"; "7"; "3"; "7"; "0"; "9";
     "5"; "5"; "1"; "6"; "1"; "6"; "0"]%byte = consumed ++ left /\
    ConsumeDecimalNumber
      (["1"; "8"; "4"; "4"; "6"; "7"; "4"; "4"; "0"; "7"; "3"; "7"; "0"; "9";
        "5"; "5"; "1"; "6"; "1"; "6"; "0"] ++ [])%byte 5
    = (left ++ [], 5, false).
Proof.
  split.
  - apply (ConsumeDecimalNumber_spec ["0"; "4"; "2"]%byte ["-"; "7"]%byte 5);
      [by repeat constructor|done|by vm_compute|done|by vm_compute].
  - destruct (ConsumeDecimalNumber_spec
                ["1"; "8"; "4"; "4"; "6"; "7"; "4"; "4"; "0"; "7"; "3"; "7";
                 "0"; "9"; "5"; "5"; "1"; "6"; "1"; "6"; "0"]%byte [] 5)
      as (_ & _ & H); [by repeat constructor|done|by vm_compute|].
    destruct (H ltac:(by vm_compute)) as (consumed & left & Heq & _ & Hres).
    by exists consumed, left.
Defined.

End LoggingProps.
